(** * FJSP batched scheduling environment (env/fjsp_env.py)

    A shallow embedding of [FJSPEnv]: the constructor, [step],
    [if_no_eligible], [next_time], [reset] and [validate_gantt].

    Modelling conventions.
    - Every tensor of the source has a leading batch dimension.  One slot of
      all tensors together is the record [Inst]; the batch is [list Inst].
      The only statement of the source that reads across slots is the global
      [torch.max(self.feat_opes_batch[:, 4, :])] of [next_time]; it is passed
      to the per-slot function as an argument.
    - Float tensors hold rationals ([Q]); arithmetic is exact, comparisons are
      [Qeq_bool] / [Qle_bool].  Index and count tensors hold [nat].  The
      source computes in float32: module [F32] reads the same statements
      with IEEE binary32 operations, and [exact_times] names the inputs on
      which the times of a run are whole numbers below 2^24, where float32
      rounds nothing.
    - The rows of [feat_opes_batch] and [feat_mas_batch] and the columns of
      [schedules_batch] and [machines_batch] are separate record fields.
    - An index outside a tensor raises in torch; [step] checks the indices of
      the decisions first and returns [IndexError]. *)

From Stdlib Require Import List Arith Bool ZArith QArith Lia Lqa Permutation Sorted.
From Stdlib Require Import SpecFloat.
Import ListNotations.

Set Implicit Arguments.

Close Scope Q_scope.
Close Scope Z_scope.
Open Scope nat_scope.

(* ------------------------------------------------------------------ *)
(** ** Lists as tensors *)

Fixpoint upd {A : Type} (l : list A) (i : nat) (x : A) : list A :=
  match l with
  | [] => []
  | h :: t => match i with
              | O => x :: t
              | S k => h :: upd t k x
              end
  end.

Definition tab {A : Type} (n : nat) (f : nat -> A) : list A := map f (seq 0 n).

Fixpoint zipw {A B C : Type} (f : A -> B -> C) (l1 : list A) (l2 : list B) : list C :=
  match l1, l2 with
  | a :: t1, b :: t2 => f a b :: zipw f t1 t2
  | _, _ => []
  end.

Definition qsum (l : list Q) : Q := fold_right Qplus 0%Q l.

Definition qmaxb (x y : Q) : Q := if Qle_bool x y then y else x.
Definition qminb (x y : Q) : Q := if Qle_bool x y then x else y.

(** [torch.max] / [torch.min] of a vector (torch raises on an empty one). *)
Fixpoint list_max (l : list Q) : Q :=
  match l with
  | [] => 0%Q
  | h :: t => match t with [] => h | _ => qmaxb h (list_max t) end
  end.

Fixpoint list_min (l : list Q) : Q :=
  match l with
  | [] => 0%Q
  | h :: t => match t with [] => h | _ => qminb h (list_min t) end
  end.

Definition Qgt_bool (x y : Q) : bool := negb (Qle_bool x y).

Definition qnth (i : nat) (l : list Q) : Q := nth i l 0%Q.
Definition qnth2 (i j : nat) (m : list (list Q)) : Q := nth j (nth i m []) 0%Q.
Definition znth2 (i j : nat) (m : list (list Z)) : Z := nth j (nth i m []) 0%Z.

(** [torch.count_nonzero] of an integer vector. *)
Definition count_nz (l : list Z) : nat :=
  length (filter (fun z => negb (z =? 0)%Z) l).

Definition qnat (n : nat) : Q := inject_Z (Z.of_nat n).

(** [v.unsqueeze(1) @ M] for a vector [v] and a matrix with [n] columns. *)
Definition vec_mat (v : list Q) (M : list (list Q)) (n : nat) : list Q :=
  tab n (fun j => qsum (tab (length v) (fun i => (qnth i v * qnth2 i j M)%Q))).

(** [v.gather(1, idx)] on one batch slot. *)
Definition gatherq (v : list Q) (idx : list nat) : list Q :=
  map (fun i => qnth i v) idx.

Definition onehot (n k : nat) : list Z := tab n (fun m => if (m =? k)%nat then 1%Z else 0%Z).

Definition eps9 : Q := 1 # 1000000000.
Definition eps5 : Q := 1 # 100000.

(* ------------------------------------------------------------------ *)
(** ** Data model *)

(** What [load_fjs] returns for one instance (the loader is not part of
    the environment file; its eight tensors are the input). *)
Record Loaded : Type := mkLoaded {
  ld_proc_time : list (list Q);        (* tensors[0]  ope x ma *)
  ld_ope_ma_adj : list (list Z);       (* tensors[1]  ope x ma *)
  ld_ope_pre_adj : list (list bool);   (* tensors[2] *)
  ld_ope_sub_adj : list (list bool);   (* tensors[3] *)
  ld_opes_appertain : list nat;        (* tensors[4] *)
  ld_num_ope_biases : list nat;        (* tensors[5] *)
  ld_nums_ope : list nat;              (* tensors[6] *)
  ld_cal_cumul_adj : list (list Q)     (* tensors[7]  ope x ope *)
}.

(** Constructor input: [env_paras], what [nums_detec] reports, and the
    loaded instances. *)
Record CaseInput : Type := mkCaseInput {
  para_batch_size : nat;
  para_num_jobs : nat;
  para_num_mas : nat;
  det_num_jobs : nat;
  det_num_mas : nat;
  det_num_opes : nat;
  loads : list Loaded
}.

(** One batch slot of every tensor of [FJSPEnv]. *)
Record Inst : Type := mkInst {
  (* static *)
  ope_pre_adj_batch : list (list bool);
  ope_sub_adj_batch : list (list bool);
  opes_appertain_batch : list nat;
  num_ope_biases_batch : list nat;
  nums_ope_batch : list nat;
  end_ope_biases_batch : list nat;
  nums_opes : nat;
  (* dynamic *)
  proc_times_batch : list (list Q);
  ope_ma_adj_batch : list (list Z);
  cal_cumul_adj_batch : list (list Q);
  feat_ope_status : list Q;       (* feat_opes_batch[:, 0, :] *)
  feat_ope_nmas : list Q;         (* feat_opes_batch[:, 1, :] *)
  feat_ope_proc : list Q;         (* feat_opes_batch[:, 2, :] *)
  feat_ope_unsched : list Q;      (* feat_opes_batch[:, 3, :] *)
  feat_ope_end : list Q;          (* feat_opes_batch[:, 4, :] *)
  feat_ope_start : list Q;        (* feat_opes_batch[:, 5, :] *)
  feat_ma_nopes : list Q;         (* feat_mas_batch[:, 0, :] *)
  feat_ma_avail : list Q;         (* feat_mas_batch[:, 1, :] *)
  feat_ma_util : list Q;          (* feat_mas_batch[:, 2, :] *)
  mask_job_procing_batch : list bool;
  mask_job_finish_batch : list bool;
  mask_ma_procing_batch : list bool;
  sched_status : list Q;          (* schedules_batch[:, :, 0] *)
  sched_ma : list nat;            (* schedules_batch[:, :, 1] *)
  sched_start : list Q;           (* schedules_batch[:, :, 2] *)
  sched_end : list Q;             (* schedules_batch[:, :, 3] *)
  mach_idle : list Q;             (* machines_batch[:, :, 0] *)
  mach_avail : list Q;            (* machines_batch[:, :, 1] *)
  mach_util : list Q;             (* machines_batch[:, :, 2] *)
  mach_job : list nat;            (* machines_batch[:, :, 3] *)
  time : Q;
  N : nat;
  ope_step_batch : list nat;
  makespan_batch : Q;
  done_batch : bool
}.

(** One batch slot of [EnvState]. *)
Record Snap : Type := mkSnap {
  st_opes_appertain : list nat;
  st_ope_pre_adj : list (list bool);
  st_ope_sub_adj : list (list bool);
  st_end_ope_biases : list nat;
  st_nums_opes : nat;
  st_feat_opes : list (list Q);
  st_feat_mas : list (list Q);
  st_proc_times : list (list Q);
  st_ope_ma_adj : list (list Z);
  st_mask_job_procing : list bool;
  st_mask_job_finish : list bool;
  st_mask_ma_procing : list bool;
  st_ope_step : list nat;
  st_time : Q
}.

Record EnvState : Type := mkEnvState {
  st_batch_idxes : list nat;
  st_slots : list Snap
}.

(** The five tensors saved for [reset] (one batch slot). *)
Record Saved : Type := mkSaved {
  old_proc_times : list (list Q);
  old_ope_ma_adj : list (list Z);
  old_cal_cumul_adj : list (list Q);
  old_feat_opes : list (list Q);
  old_feat_mas : list (list Q)
}.

Record Env : Type := mkEnv {
  batch_size : nat;
  num_jobs : nat;
  num_mas : nat;
  num_opes : nat;
  insts : list Inst;
  batch_idxes : list nat;
  state : EnvState;
  olds : list Saved;
  old_state : EnvState
}.

Definition feat_opes_of (I : Inst) : list (list Q) :=
  [feat_ope_status I; feat_ope_nmas I; feat_ope_proc I;
   feat_ope_unsched I; feat_ope_end I; feat_ope_start I].

Definition feat_mas_of (I : Inst) : list (list Q) :=
  [feat_ma_nopes I; feat_ma_avail I; feat_ma_util I].

Definition snap_of (I : Inst) : Snap :=
  mkSnap (opes_appertain_batch I) (ope_pre_adj_batch I) (ope_sub_adj_batch I)
         (end_ope_biases_batch I) (nums_opes I)
         (feat_opes_of I) (feat_mas_of I) (proc_times_batch I) (ope_ma_adj_batch I)
         (mask_job_procing_batch I) (mask_job_finish_batch I) (mask_ma_procing_batch I)
         (ope_step_batch I) (time I).

(** [EnvState.update]: only the dynamic fields are replaced. *)
Definition snap_update (s : Snap) (I : Inst) : Snap :=
  mkSnap (st_opes_appertain s) (st_ope_pre_adj s) (st_ope_sub_adj s)
         (st_end_ope_biases s) (st_nums_opes s)
         (feat_opes_of I) (feat_mas_of I) (proc_times_batch I) (ope_ma_adj_batch I)
         (mask_job_procing_batch I) (mask_job_finish_batch I) (mask_ma_procing_batch I)
         (ope_step_batch I) (time I).

Definition update (s : EnvState) (idxes : list nat) (l : list Inst) : EnvState :=
  mkEnvState idxes (zipw snap_update (st_slots s) l).

Definition saved_of (I : Inst) : Saved :=
  mkSaved (proc_times_batch I) (ope_ma_adj_batch I) (cal_cumul_adj_batch I)
          (feat_opes_of I) (feat_mas_of I).

(* ------------------------------------------------------------------ *)
(** ** [FJSPEnv.__init__] *)

(** The features, masks, partial schedules and makespan of one slot.
    [dj], [dm] are the job and machine counts reported by [nums_detec]
    (the local [num_jobs], [num_mas] of the constructor), [pm] is
    [env_paras["num_mas"]] and [n] is [self.num_opes]. *)
Definition init_inst (dj dm pm n : nat) (ld : Loaded) : Inst :=
  let proc := ld_proc_time ld in
  let adj := ld_ope_ma_adj ld in
  let cal := ld_cal_cumul_adj ld in
  let appertain := ld_opes_appertain ld in
  let biases := ld_num_ope_biases ld in
  let nums := ld_nums_ope ld in
  let ends := zipw (fun b k => b + k - 1) biases nums in
  let f0 := tab n (fun _ => 0%Q) in
  let f1 := map (fun row => qnat (count_nz row)) adj in
  let f2 := zipw (fun row c => (qsum row / (c + eps9))%Q) proc f1 in
  let f3 := map (fun j => qnat (nth j nums 0)) appertain in
  let f5 := vec_mat f2 cal n in
  let end_time := gatherq (zipw Qplus f5 f2) ends in
  let f4 := gatherq end_time appertain in
  let m0 := tab dm (fun m => qnat (count_nz (map (fun row => nth m row 0%Z) adj))) in
  let finish := tab dj (fun _ => false) in
  mkInst (ld_ope_pre_adj ld) (ld_ope_sub_adj ld) appertain biases nums ends (list_sum nums)
         proc adj cal
         f0 f1 f2 f3 f4 f5
         m0 (tab dm (fun _ => 0%Q)) (tab dm (fun _ => 0%Q))
         (tab dj (fun _ => false)) finish (tab dm (fun _ => false))
         (tab n (fun _ => 0%Q)) (tab n (fun _ => 0)) f5 (zipw Qplus f5 f2)
         (tab pm (fun _ => 1%Q)) (tab pm (fun _ => 0%Q)) (tab pm (fun _ => 0%Q)) (tab pm (fun _ => 0))
         0%Q 0 biases
         (list_max f4) (forallb (fun b => b) finish).

Definition init (inp : CaseInput) : Env :=
  let l := map (init_inst (det_num_jobs inp) (det_num_mas inp) (para_num_mas inp) (det_num_opes inp))
               (loads inp) in
  let idx := seq 0 (para_batch_size inp) in
  let st := mkEnvState idx (map snap_of l) in
  mkEnv (para_batch_size inp) (para_num_jobs inp) (para_num_mas inp) (det_num_opes inp)
        l idx st (map saved_of l) st.

(* ------------------------------------------------------------------ *)
(** ** [FJSPEnv.step], the part before the time-advance loop *)

(** A decision for one active slot: [(opes, mas, jobs)] of [actions]. *)
Definition Action : Type := (nat * nat * nat)%type.

(** The new value of every tensor of one slot is a function of the slot
    before the call; the functions follow the statements of the source. *)

(** Lines 278-285: the row of the chosen operation becomes the one-hot row
    of the chosen machine. *)
Definition prune_adj (nm ope ma : nat) (J : Inst) : list (list Z) :=
  upd (ope_ma_adj_batch J) ope (onehot nm ma).

(** Line 287, [self.proc_times_batch *= self.ope_ma_adj_batch]. *)
Definition mask_proc (P : list (list Q)) (A : list (list Z)) : list (list Q) :=
  zipw (zipw (fun p z => (p * inject_Z z)%Q)) P A.

(** Line 291, [proc_times]. *)
Definition sel_proc_time (nm ope ma : nat) (J : Inst) : Q :=
  qnth2 ope ma (mask_proc (proc_times_batch J) (prune_adj nm ope ma J)).

(** Lines 292-294. *)
Definition new_status (ope : nat) (J : Inst) : list Q := upd (feat_ope_status J) ope 1%Q.
Definition new_nmas (ope : nat) (J : Inst) : list Q := upd (feat_ope_nmas J) ope 1%Q.
Definition new_mean (nm ope ma : nat) (J : Inst) : list Q :=
  upd (feat_ope_proc J) ope (sel_proc_time nm ope ma J).

(** Line 295: the row of the cumulative adjacency that is cleared. *)
Definition last_ope (n ope bias : nat) : nat :=
  if (Z.of_nat ope - 1 <? Z.of_nat bias)%Z then n - 1 else ope - 1.

(** Lines 297-300. *)
Definition new_cal (n ope job : nat) (J : Inst) : list (list Q) :=
  let r := last_ope n ope (nth job (num_ope_biases_batch J) 0) in
  upd (cal_cumul_adj_batch J) r (map (fun _ => 0%Q) (nth r (cal_cumul_adj_batch J) [])).

(** Line 307: [feat[3, start:end+1] -= 1]. *)
Definition dec_range (l : list Q) (s e : nat) : list Q :=
  zipw (fun x i => if (s <=? i) && (i <=? e) then (x - 1)%Q else x) l (seq 0 (length l)).

Definition new_unsched (job : nat) (J : Inst) : list Q :=
  dec_range (feat_ope_unsched J)
            (nth job (num_ope_biases_batch J) 0) (nth job (end_ope_biases_batch J) 0).

(** Lines 310-313, [start_times]. *)
Definition start_times (ope : nat) (J : Inst) : list Q :=
  zipw Qmult (upd (feat_ope_start J) ope (time J)) (new_status ope J).

(** Lines 314-317, [estimate_times]. *)
Definition estimate_times (n nm : nat) (a : Action) (J : Inst) : list Q :=
  let '(ope, ma, job) := a in
  zipw Qmult
       (vec_mat (zipw Qplus (start_times ope J) (new_mean nm ope ma J)) (new_cal n ope job J) n)
       (map (fun s => (1 - s)%Q) (new_status ope J)).

(** Line 319. *)
Definition new_start (n nm : nat) (a : Action) (J : Inst) : list Q :=
  zipw Qplus (start_times (fst (fst a)) J) (estimate_times n nm a J).

(** Lines 320-321, [end_time_batch]. *)
Definition job_end_times (n nm : nat) (a : Action) (J : Inst) : list Q :=
  gatherq (zipw Qplus (new_start n nm a J) (new_mean nm (fst (fst a)) (snd (fst a)) J))
          (end_ope_biases_batch J).

(** Line 322. *)
Definition new_end (n nm : nat) (a : Action) (J : Inst) : list Q :=
  gatherq (job_end_times n nm a J) (opes_appertain_batch J).

(** Line 331, the busy time of the machines. *)
Definition new_busy (nm ope ma : nat) (J : Inst) : list Q :=
  upd (mach_util J) ma (qnth ma (mach_util J) + sel_proc_time nm ope ma J)%Q.

(** Lines 337-341 (with [eps9]) and 414-418 (with [eps5]). *)
Definition utilization (eps : Q) (busy : list Q) (t : Q) : list Q :=
  map (fun u => (qminb u t / (t + eps))%Q) busy.

(** Line 335. *)
Definition count_opes (A : list (list Z)) (width : nat) : list Q :=
  tab width (fun m => qnat (count_nz (map (fun row => nth m row 0%Z) A))).

(** Lines 347-348 and 430-431. *)
Definition finish_of (steps ends : list nat) (finish : list bool) : list bool :=
  zipw (fun se f => if (fst se =? snd se + 1) then true else f) (combine steps ends) finish.

Definition finish_mask (J : Inst) : list bool :=
  finish_of (ope_step_batch J) (end_ope_biases_batch J) (mask_job_finish_batch J).

(** Line 344. *)
Definition new_ope_step (job : nat) (J : Inst) : list nat :=
  upd (ope_step_batch J) job (S (nth job (ope_step_batch J) 0)).

(** Lines 272-354 on a slot of [self.batch_idxes] with decision
    [(ope, ma, job)]: the new slot and its reward. *)
Definition step_active (n nm : nat) (a : Action) (J : Inst) : Inst * Q :=
  let '(ope, ma, job) := a in
  let proc_time := sel_proc_time nm ope ma J in
  let f5 := new_start n nm a J in
  let f2 := new_mean nm ope ma J in
  let f4 := new_end n nm a J in
  let finish := finish_of (new_ope_step job J) (end_ope_biases_batch J)
                          (mask_job_finish_batch J) in
  (mkInst (ope_pre_adj_batch J) (ope_sub_adj_batch J) (opes_appertain_batch J)
          (num_ope_biases_batch J) (nums_ope_batch J) (end_ope_biases_batch J) (nums_opes J)
          (mask_proc (proc_times_batch J) (prune_adj nm ope ma J))       (* 287 *)
          (prune_adj nm ope ma J)                                         (* 285 *)
          (new_cal n ope job J)                                           (* 300 *)
          (new_status ope J) (new_nmas ope J) f2                          (* 292 *)
          (new_unsched job J)                                             (* 307 *)
          f4                                                              (* 322 *)
          f5                                                              (* 319 *)
          (count_opes (prune_adj nm ope ma J) (length (feat_ma_nopes J))) (* 335 *)
          (upd (feat_ma_avail J) ma (time J + proc_time)%Q)               (* 336 *)
          (utilization eps9 (new_busy nm ope ma J) (time J))              (* 341 *)
          (upd (mask_job_procing_batch J) job true)                       (* 345 *)
          finish                                                          (* 347 *)
          (upd (mask_ma_procing_batch J) ma true)                         (* 346 *)
          (upd (sched_status J) ope 1%Q) (upd (sched_ma J) ope ma)        (* 325 *)
          f5 (zipw Qplus f5 f2)                                           (* 326-328 *)
          (upd (mach_idle J) ma 0%Q)                                      (* 329 *)
          (upd (mach_avail J) ma (time J + proc_time)%Q)                  (* 330 *)
          (new_busy nm ope ma J)                                          (* 331 *)
          (upd (mach_job J) ma job)                                       (* 332 *)
          (time J)
          (S (N J))                                                       (* 275 *)
          (new_ope_step job J)                                            (* 344 *)
          (list_max f4)                                                   (* 354 *)
          (forallb (fun b => b) finish),                                  (* 349 *)
   (makespan_batch J - list_max f4)%Q).                                   (* 353 *)

(** The statements of lines 272-354 that touch every slot, on a slot
    outside [self.batch_idxes]: lines 275, 287, 347-354. *)
Definition step_idle (J : Inst) : Inst * Q :=
  let finish := finish_mask J in
  (mkInst (ope_pre_adj_batch J) (ope_sub_adj_batch J) (opes_appertain_batch J)
          (num_ope_biases_batch J) (nums_ope_batch J) (end_ope_biases_batch J) (nums_opes J)
          (mask_proc (proc_times_batch J) (ope_ma_adj_batch J))           (* 287 *)
          (ope_ma_adj_batch J) (cal_cumul_adj_batch J)
          (feat_ope_status J) (feat_ope_nmas J) (feat_ope_proc J)
          (feat_ope_unsched J) (feat_ope_end J) (feat_ope_start J)
          (feat_ma_nopes J) (feat_ma_avail J) (feat_ma_util J)
          (mask_job_procing_batch J) finish (mask_ma_procing_batch J)     (* 347 *)
          (sched_status J) (sched_ma J) (sched_start J) (sched_end J)
          (mach_idle J) (mach_avail J) (mach_util J) (mach_job J)
          (time J)
          (S (N J))                                                       (* 275 *)
          (ope_step_batch J)
          (list_max (feat_ope_end J))                                     (* 354 *)
          (forallb (fun b => b) finish),                                  (* 349 *)
   (makespan_batch J - list_max (feat_ope_end J))%Q).                     (* 353 *)

(** One slot through lines 272-354; [oa] is the decision of an active slot
    and [None] for a slot outside [self.batch_idxes]. *)
Definition step_inst (n nm : nat) (oa : option Action) (J : Inst) : Inst * Q :=
  match oa with
  | Some a => step_active n nm a J
  | None => step_idle J
  end.

(* ------------------------------------------------------------------ *)
(** ** [FJSPEnv.if_no_eligible] and [FJSPEnv.next_time] *)

(** The sum of the processing times of the pending operation of every
    eligible job on every eligible machine; [0] means no eligible pair. *)
Definition pending_opes (J : Inst) : list nat :=
  zipw (fun s e => if e <? s then e else s) (ope_step_batch J) (end_ope_biases_batch J).

Definition eligible_row (J : Inst) (o : nat) (job_busy : bool) : Q :=
  qsum (zipw (fun p (mb : bool) => if negb mb && negb job_busy then p else 0%Q)
             (nth o (proc_times_batch J) []) (mask_ma_procing_batch J)).

Definition if_no_eligible_inst (J : Inst) : Q :=
  qsum (zipw (eligible_row J) (pending_opes J)
             (zipw orb (mask_job_procing_batch J) (mask_job_finish_batch J))).

(** [flag_need_trans] of one slot. *)
Definition need_trans (flag : Q) (J : Inst) : bool :=
  Qeq_bool flag 0 && negb (done_batch J).

(** [mask_job_procing_batch[batch_idxes, job_idxes] = False] for the jobs
    served by the machines in [d]. *)
Definition release_jobs (d : list bool) (jobs : list nat) (mask : list bool) : list bool :=
  fold_left (fun msk dj => if (fst dj : bool) then upd msk (snd dj) false else msk)
            (combine d jobs) mask.

(** Lines 398-402: [b] and [c]; [gmax] is
    [torch.max(self.feat_opes_batch[:, 4, :])] over the whole batch. *)
Definition nt_b (gmax : Q) (J : Inst) : list Q :=
  map (fun x => if Qgt_bool x (time J) then x else (gmax + 1)%Q) (mach_avail J).

Definition nt_c (gmax : Q) (J : Inst) : Q := list_min (nt_b gmax J).

(** Line 404, [d]: the machines that complete at [c]. *)
Definition nt_d (gmax flag : Q) (J : Inst) : list bool :=
  zipw (fun x idle => Qeq_bool x (nt_c gmax J) && Qeq_bool idle 0 && need_trans flag J)
       (mach_avail J) (mach_idle J).

(** Line 406, [e]. *)
Definition nt_time (gmax flag : Q) (J : Inst) : Q :=
  if need_trans flag J then nt_c gmax J else time J.

(** Lines 410-412: [aa[d, 0] = 1] on the transposed view writes the idle
    column of the machines in [d]. *)
Definition nt_idle (gmax flag : Q) (J : Inst) : list Q :=
  zipw (fun (dm : bool) i => if dm then 1%Q else i) (nt_d gmax flag J) (mach_idle J).

(** Line 429. *)
Definition nt_ma_procing (gmax flag : Q) (J : Inst) : list bool :=
  zipw (fun (dm : bool) p => if dm then false else p) (nt_d gmax flag J) (mask_ma_procing_batch J).

(** [next_time] on one slot. *)
Definition next_time_inst (gmax : Q) (flag : Q) (J : Inst) : Inst :=
  mkInst (ope_pre_adj_batch J) (ope_sub_adj_batch J) (opes_appertain_batch J)
         (num_ope_biases_batch J) (nums_ope_batch J) (end_ope_biases_batch J) (nums_opes J)
         (proc_times_batch J) (ope_ma_adj_batch J) (cal_cumul_adj_batch J)
         (feat_ope_status J) (feat_ope_nmas J) (feat_ope_proc J)
         (feat_ope_unsched J) (feat_ope_end J) (feat_ope_start J)
         (feat_ma_nopes J) (feat_ma_avail J)
         (utilization eps5 (mach_util J) (nt_time gmax flag J))                    (* 418 *)
         (release_jobs (nt_d gmax flag J) (mach_job J) (mask_job_procing_batch J)) (* 428 *)
         (finish_mask J)                                                           (* 430 *)
         (nt_ma_procing gmax flag J)                                               (* 429 *)
         (sched_status J) (sched_ma J) (sched_start J) (sched_end J)
         (nt_idle gmax flag J)                                                     (* 411 *)
         (mach_avail J) (mach_util J) (mach_job J)
         (nt_time gmax flag J)                                                     (* 407 *)
         (N J) (ope_step_batch J) (makespan_batch J) (done_batch J).

(* ------------------------------------------------------------------ *)
(** ** The batch *)

Definition with_insts (e : Env) (l : list Inst) : Env :=
  mkEnv (batch_size e) (num_jobs e) (num_mas e) (num_opes e)
        l (batch_idxes e) (state e) (olds e) (old_state e).

Definition if_no_eligible (e : Env) : list Q := map if_no_eligible_inst (insts e).

Definition global_max (e : Env) : Q := list_max (concat (map (@feat_ope_end) (insts e))).

Definition next_time (e : Env) (flags : list Q) : Env :=
  with_insts e (zipw (next_time_inst (global_max e)) flags (insts e)).

(** The guard of the [while] of line 358: some slot has no eligible pair
    and is not done. *)
Definition some_need_trans (e : Env) (flags : list Q) : bool :=
  existsb (fun b => b) (zipw need_trans flags (insts e)).

(** The [while] of lines 357-360; the fuel bounds the calls of [next_time]. *)
Fixpoint advance (fuel : nat) (e : Env) : option Env :=
  if some_need_trans e (if_no_eligible e)
  then match fuel with
       | O => None
       | S k => advance k (next_time e (if_no_eligible e))
       end
  else Some e.

Inductive result (A : Type) : Type :=
| Ok (a : A)
| IndexError
| NoFuel.
Arguments IndexError {A}.
Arguments NoFuel {A}.

(** The decision of slot [b]: [actions[:, i]] for [batch_idxes[i] = b]. *)
Fixpoint action_of (idxes : list nat) (acts : list Action) (b : nat) : option Action :=
  match idxes, acts with
  | i :: idxes', a :: acts' => if i =? b then Some a else action_of idxes' acts' b
  | _, _ => None
  end.

Definition in_range (e : Env) (a : Action) : bool :=
  let '(ope, ma, job) := a in
  (ope <? num_opes e) && (ma <? num_mas e) && (job <? num_jobs e).

(** Lines 272-354 on the batch: the new slots and [reward_batch]. *)
Definition step_core (e : Env) (acts : list Action) : result (Env * list Q) :=
  if (length acts =? length (batch_idxes e)) && forallb (in_range e) acts
  then
    let rs := map (fun bi : nat * Inst =>
                     step_inst (num_opes e) (num_mas e)
                               (action_of (batch_idxes e) acts (fst bi)) (snd bi))
                  (combine (seq 0 (length (insts e))) (insts e)) in
    Ok (with_insts e (map fst rs), map snd rs)
  else IndexError.

(** Lines 362-370: the active slots and the snapshot. *)
Definition finish_step (e : Env) : Env :=
  let mask_finish := map (fun I => N I + 1 <=? nums_opes I) (insts e) in
  let idx := if forallb (fun b => b) mask_finish
             then batch_idxes e
             else map fst (filter snd (combine (seq 0 (batch_size e)) mask_finish)) in
  mkEnv (batch_size e) (num_jobs e) (num_mas e) (num_opes e)
        (insts e) idx (update (state e) idx (insts e)) (olds e) (old_state e).

(** [step]: the new environment (whose [state] is the returned state),
    [reward_batch] and [done_batch]. *)
Definition step (fuel : nat) (e : Env) (acts : list Action)
  : result (Env * list Q * list bool) :=
  match step_core e acts with
  | Ok (e1, rewards) =>
      match advance fuel e1 with
      | Some e2 => let e3 := finish_step e2 in
                   Ok (e3, rewards, map (@done_batch) (insts e3))
      | None => NoFuel
      end
  | IndexError => IndexError
  | NoFuel => NoFuel
  end.

(* ------------------------------------------------------------------ *)
(** ** [FJSPEnv.reset] *)

Definition reset_inst (nj nm n : nat) (I : Inst) (s : Saved) : Inst :=
  let fo k := nth k (old_feat_opes s) [] in
  let fm k := nth k (old_feat_mas s) [] in
  let finish := tab nj (fun _ => false) in
  mkInst (ope_pre_adj_batch I) (ope_sub_adj_batch I) (opes_appertain_batch I)
         (num_ope_biases_batch I) (nums_ope_batch I) (end_ope_biases_batch I) (nums_opes I)
         (old_proc_times s) (old_ope_ma_adj s) (old_cal_cumul_adj s)
         (fo 0) (fo 1) (fo 2) (fo 3) (fo 4) (fo 5)
         (fm 0) (fm 1) (fm 2)
         (tab nj (fun _ => false)) finish (tab nm (fun _ => false))
         (tab n (fun _ => 0%Q)) (tab n (fun _ => 0)) (fo 5) (zipw Qplus (fo 5) (fo 2))
         (tab nm (fun _ => 1%Q)) (tab nm (fun _ => 0%Q)) (tab nm (fun _ => 0%Q)) (tab nm (fun _ => 0))
         0%Q 0 (num_ope_biases_batch I)
         (list_max (fo 4)) (forallb (fun b => b) finish).

Definition reset (e : Env) : Env :=
  mkEnv (batch_size e) (num_jobs e) (num_mas e) (num_opes e)
        (zipw (reset_inst (num_jobs e) (num_mas e) (num_opes e)) (insts e) (olds e))
        (seq 0 (batch_size e)) (old_state e) (olds e) (old_state e).

(* ------------------------------------------------------------------ *)
(** ** [FJSPEnv.validate_gantt] *)

(** An entry [[i, start, end]] of [ma_gantt]. *)
Definition Entry : Type := (nat * Q * Q)%type.
Definition en_ope (x : Entry) : nat := fst (fst x).
Definition en_start (x : Entry) : Q := snd (fst x).
Definition en_end (x : Entry) : Q := snd x.

(** [list.sort(key=lambda s: s[1])] is stable: every entry is placed
    behind the entries whose start is not larger. *)
Fixpoint insert_by_start (x : Entry) (l : list Entry) : list Entry :=
  match l with
  | [] => [x]
  | y :: t => if Qle_bool (en_start y) (en_start x)
              then y :: insert_by_start x t
              else x :: y :: t
  end.

Definition sort_by_start (l : list Entry) : list Entry :=
  fold_left (fun acc x => insert_by_start x acc) l [].

(** The entries appended to [ma_gantt_batch[batch_id][i]] (lines 531-534). *)
Definition ma_gantt (I : Inst) (i : nat) : list Entry :=
  map (fun o => (o, qnth o (sched_start I), qnth o (sched_end I)))
      (filter (fun o => nth o (sched_ma I) 0 =? i) (seq 0 (nums_opes I))).

(** Lines 546-553 over one sorted machine list: the loop leaves at the
    last entry.  The result is (overlaps, wrong durations). *)
Fixpoint scan_machine (proc : list (list Q)) (i : nat) (l : list Entry) : nat * nat :=
  match l with
  | x :: t =>
      match t with
      | [] => (0, 0)
      | y :: _ =>
          let r := scan_machine proc i t in
          ((if Qgt_bool (en_end x) (en_start y) then 1 else 0) + fst r,
           (if Qeq_bool (en_end x - en_start x) (qnth2 (en_ope x) i proc) then 0 else 1) + snd r)
      end
  | [] => (0, 0)
  end.

Definition flag_ma_overlap (nm : nat) (I : Inst) : nat :=
  list_sum (tab nm (fun i => fst (scan_machine (proc_times_batch I) i (sort_by_start (ma_gantt I i))))).

Definition flag_proc_time (nm : nat) (I : Inst) : nat :=
  list_sum (tab nm (fun i => snd (scan_machine (proc_times_batch I) i (sort_by_start (ma_gantt I i))))).

(** Lines 556-568: job order. *)
Definition flag_ope_overlap (nj : nat) (I : Inst) : nat :=
  list_sum (tab nj (fun i =>
    let k := nth i (nums_ope_batch I) 0 in
    let bias := nth i (num_ope_biases_batch I) 0 in
    if k <=? 1 then 0
    else list_sum (tab (k - 1) (fun j =>
           if Qgt_bool (qnth (bias + j) (sched_end I)) (qnth (bias + j + 1) (sched_start I))
           then 1 else 0)))).

(** Lines 571-578: unscheduled operations. *)
Definition flag_unscheduled (I : Inst) : nat :=
  let count := length (filter (fun s => Qeq_bool s 1) (sched_status I)) in
  if count =? nums_opes I then 0 else 1.

Definition Schedules : Type := (list Q * list nat * list Q * list Q)%type.

Definition schedules_of (I : Inst) : Schedules :=
  (sched_status I, sched_ma I, sched_start I, sched_end I).

Definition inst_flags (nj nm : nat) (I : Inst) : nat :=
  flag_ma_overlap nm I + flag_ope_overlap nj I + flag_proc_time nm I + flag_unscheduled I.

Definition validate_gantt (e : Env) : bool * list Schedules :=
  (list_sum (map (inst_flags (num_jobs e) (num_mas e)) (insts e)) =? 0,
   map schedules_of (insts e)).

(* ------------------------------------------------------------------ *)
(** ** Runs *)

(** Everything that can be reached from the constructor by [step] (with
    any decisions), [next_time] (with any flags of the batch length) and
    [reset]. *)
Inductive reachable (inp : CaseInput) : Env -> Prop :=
| reach_init : reachable inp (init inp)
| reach_step : forall e fuel acts e' rw dn,
    reachable inp e -> step fuel e acts = Ok (e', rw, dn) -> reachable inp e'
| reach_next_time : forall e flags,
    reachable inp e -> length flags = length (insts e) -> reachable inp (next_time e flags)
| reach_reset : forall e, reachable inp e -> reachable inp (reset e).

(** Successive rounds of [step]; the rewards of all rounds are collected. *)
Fixpoint run (fuel : nat) (e : Env) (rounds : list (list Action))
  : result (Env * list (list Q)) :=
  match rounds with
  | [] => Ok (e, [])
  | acts :: rest =>
      match step fuel e acts with
      | Ok (e1, rw, _) =>
          match run fuel e1 rest with
          | Ok (e2, rws) => Ok (e2, rw :: rws)
          | IndexError => IndexError
          | NoFuel => NoFuel
          end
      | IndexError => IndexError
      | NoFuel => NoFuel
      end
  end.

(** The reward of slot [b] summed over the rounds. *)
Definition total_reward (b : nat) (rws : list (list Q)) : Q :=
  qsum (map (qnth b) rws).

Definition makespan_of (e : Env) (b : nat) : Q :=
  match nth_error (insts e) b with
  | Some ins => makespan_batch ins
  | None => 0%Q
  end.

Definition static_of (I : Inst) :=
  (ope_pre_adj_batch I, ope_sub_adj_batch I, opes_appertain_batch I,
   num_ope_biases_batch I, nums_ope_batch I, end_ope_biases_batch I, nums_opes I).


(* ------------------------------------------------------------------ *)
(** ** Invariants *)

(** What no operation of the environment changes: the parameters, the
    static tensors and the copies saved by the constructor. *)
Definition stable (inp : CaseInput) (e : Env) : Prop :=
  batch_size e = para_batch_size inp /\ num_jobs e = para_num_jobs inp /\
  num_mas e = para_num_mas inp /\ num_opes e = det_num_opes inp /\
  olds e = olds (init inp) /\ old_state e = old_state (init inp) /\
  map static_of (insts e) = map static_of (insts (init inp)).

(** The shapes of the tensors of one slot: [nj] jobs, [nm] machines and
    [n] (padded) operations. *)
Record shape (nj nm n : nat) (J : Inst) : Prop := mkShape {
  sh_appertain : length (opes_appertain_batch J) = n;
  sh_biases : length (num_ope_biases_batch J) = nj;
  sh_nums : length (nums_ope_batch J) = nj;
  sh_ends : length (end_ope_biases_batch J) = nj;
  sh_proc : length (proc_times_batch J) = n;
  sh_proc_row : forall o, o < n -> length (nth o (proc_times_batch J) []) = nm;
  sh_adj : length (ope_ma_adj_batch J) = n;
  sh_adj_row : forall o, o < n -> length (nth o (ope_ma_adj_batch J) []) = nm;
  sh_cal : length (cal_cumul_adj_batch J) = n;
  sh_cal_row : forall o, o < n -> length (nth o (cal_cumul_adj_batch J) []) = n;
  sh_f0 : length (feat_ope_status J) = n;
  sh_f1 : length (feat_ope_nmas J) = n;
  sh_f2 : length (feat_ope_proc J) = n;
  sh_f3 : length (feat_ope_unsched J) = n;
  sh_f4 : length (feat_ope_end J) = n;
  sh_f5 : length (feat_ope_start J) = n;
  sh_m0 : length (feat_ma_nopes J) = nm;
  sh_m1 : length (feat_ma_avail J) = nm;
  sh_m2 : length (feat_ma_util J) = nm;
  sh_job_procing : length (mask_job_procing_batch J) = nj;
  sh_job_finish : length (mask_job_finish_batch J) = nj;
  sh_ma_procing : length (mask_ma_procing_batch J) = nm;
  sh_s0 : length (sched_status J) = n;
  sh_s1 : length (sched_ma J) = n;
  sh_s2 : length (sched_start J) = n;
  sh_s3 : length (sched_end J) = n;
  sh_idle : length (mach_idle J) = nm;
  sh_avail : length (mach_avail J) = nm;
  sh_util : length (mach_util J) = nm;
  sh_job : length (mach_job J) = nm;
  sh_ope_step : length (ope_step_batch J) = nj
}.

(** The shapes of what the loader returns. *)
Record ld_shape (nj nm n : nat) (ld : Loaded) : Prop := mkLdShape {
  lsh_proc : length (ld_proc_time ld) = n;
  lsh_proc_row : forall o, o < n -> length (nth o (ld_proc_time ld) []) = nm;
  lsh_adj : length (ld_ope_ma_adj ld) = n;
  lsh_adj_row : forall o, o < n -> length (nth o (ld_ope_ma_adj ld) []) = nm;
  lsh_cal : length (ld_cal_cumul_adj ld) = n;
  lsh_cal_row : forall o, o < n -> length (nth o (ld_cal_cumul_adj ld) []) = n;
  lsh_appertain : length (ld_opes_appertain ld) = n;
  lsh_biases : length (ld_num_ope_biases ld) = nj;
  lsh_nums : length (ld_nums_ope ld) = nj
}.

(** [env_paras] agrees with the instances and all instances have the
    tensor shapes of the batch. *)
Definition wf_shape (inp : CaseInput) : Prop :=
  det_num_jobs inp = para_num_jobs inp /\
  det_num_mas inp = para_num_mas inp /\
  length (loads inp) = para_batch_size inp /\
  Forall (ld_shape (det_num_jobs inp) (det_num_mas inp) (det_num_opes inp)) (loads inp).

(** The pruned row of a scheduled operation. *)
Definition pruned (nm : nat) (J : Inst) : Prop :=
  forall o, (qnth o (sched_status J) == 1)%Q ->
    nth o (sched_ma J) 0 < nm /\
    nth o (ope_ma_adj_batch J) [] = onehot nm (nth o (sched_ma J) 0) /\
    (forall m, m <> nth o (sched_ma J) 0 -> (qnth2 o m (proc_times_batch J) == 0)%Q).

Definition act_in_range (nj nm n : nat) (oa : option Action) : Prop :=
  match oa with
  | Some (ope, ma, job) => ope < n /\ ma < nm /\ job < nj
  | None => True
  end.

(* ------------------------------------------------------------------ *)
(** ** Concrete instances *)

(** Two jobs of two operations on two machines, every operation eligible
    on both machines, durations [[3,5],[4,2],[2,6],[5,3]]. *)
Definition demo_load : Loaded :=
  mkLoaded [[3; 5]; [4; 2]; [2; 6]; [5; 3]]%Q
           [[1; 1]; [1; 1]; [1; 1]; [1; 1]]%Z
           [[false; true; false; false]; [false; false; false; false];
            [false; false; false; true]; [false; false; false; false]]
           [[false; false; false; false]; [true; false; false; false];
            [false; false; false; false]; [false; false; true; false]]
           [0; 0; 1; 1] [0; 2] [2; 2]
           [[0; 1; 0; 0]; [0; 0; 0; 0]; [0; 0; 0; 1]; [0; 0; 0; 0]]%Q.

Definition demo_input : CaseInput := mkCaseInput 1 2 2 2 2 4 [demo_load].

(** A legal schedule of the instance: job 0 on machine 0 (0-3 and 3-7),
    job 1 on machine 1 (0-6 and 6-9). *)
Definition demo_rounds : list (list Action) :=
  [[(0, 0, 0)]; [(2, 1, 1)]; [(1, 0, 0)]; [(3, 1, 1)]].

Definition env_after (fuel : nat) (inp : CaseInput) (rounds : list (list Action)) : Env :=
  match run fuel (init inp) rounds with
  | Ok (e, _) => e
  | _ => init inp
  end.

(** The same instance with operation 0 not eligible on machine 1. *)
Definition gap_load : Loaded :=
  mkLoaded [[3; 0]; [4; 2]; [2; 6]; [5; 3]]%Q
           [[1; 0]; [1; 1]; [1; 1]; [1; 1]]%Z
           (ld_ope_pre_adj demo_load) (ld_ope_sub_adj demo_load)
           [0; 0; 1; 1] [0; 2] [2; 2]
           (ld_cal_cumul_adj demo_load).

Definition gap_input : CaseInput := mkCaseInput 1 2 2 2 2 4 [gap_load].

(** One machine, job 0 with a long and a short operation, job 1 with one
    operation. *)
Definition skew_load : Loaded :=
  mkLoaded [[10]; [1]; [1]]%Q [[1]; [1]; [1]]%Z
           [[false; true; false]; [false; false; false]; [false; false; false]]
           [[false; false; false]; [true; false; false]; [false; false; false]]
           [0; 0; 1] [0; 2] [2; 1]
           [[0; 1; 0]; [0; 0; 0]; [0; 0; 0]]%Q.

Definition skew_input : CaseInput := mkCaseInput 1 2 1 2 1 3 [skew_load].

(** Decisions that schedule the second operation of job 0 before the
    first one. *)
Definition skew_rounds : list (list Action) := [[(1, 0, 0)]; [(0, 0, 0)]].

(** A one-operation schedule whose entry lasts 5 on a machine where the
    operation takes 3. *)
Definition odd_inst : Inst :=
  mkInst [[false]] [[false]] [0] [0] [1] [0] 1
         [[3%Q]] [[1%Z]] [[0%Q]]
         [1%Q] [1%Q] [3%Q] [0%Q] [5%Q] [0%Q]
         [1%Q] [5%Q] [1%Q]
         [true] [true] [true]
         [1%Q] [0] [0%Q] [5%Q]
         [0%Q] [5%Q] [3%Q] [0]
         0%Q 1 [1] 5%Q true.

Definition odd_env : Env :=
  mkEnv 1 1 1 1 [odd_inst] [] (mkEnvState [] [snap_of odd_inst])
        [saved_of odd_inst] (mkEnvState [] [snap_of odd_inst]).

(** The utilization the source writes for a machine with busy time [busy]
    at clock [t]. *)
Definition util_value (eps busy t : Q) : Q := (qminb busy t / (t + eps))%Q.

(** Boolean checks on the concrete instances. *)
Definition slot_after_step (fuel : nat) (e : Env) (acts : list Action) (b : nat)
  : option Inst :=
  match step fuel e acts with
  | Ok (e', _, _) => nth_error (insts e') b
  | _ => None
  end.

Definition recorded_with_zero_duration (ope ma : nat) (J : Inst) : bool :=
  Qeq_bool (qnth ope (sched_status J)) 1 && (nth ope (sched_ma J) 0 =? ma) &&
  Qeq_bool (qnth ope (sched_end J) - qnth ope (sched_start J)) 0.

Definition util_is_busy_over_clock (m : nat) (J : Inst) : bool :=
  Qeq_bool (qnth m (feat_ma_util J)) (qminb (qnth m (mach_util J)) (time J) / time J).

(* ------------------------------------------------------------------ *)
(** ** Well-formed instances, legal decisions and the run invariant *)

Definition bias_of (J : Inst) (j : nat) : nat := nth j (num_ope_biases_batch J) 0.
Definition nums_of (J : Inst) (j : nat) : nat := nth j (nums_ope_batch J) 0.
Definition step_of (J : Inst) (j : nat) : nat := nth j (ope_step_batch J) 0.
Definition end_of (J : Inst) (o : nat) : Q :=
  (qnth o (feat_ope_start J) + qnth o (feat_ope_proc J))%Q.

(** Operation [o] belongs to job [j]. *)
Definition in_job (J : Inst) (j o : nat) : Prop :=
  bias_of J j <= o < bias_of J j + nums_of J j.

(** The first operation of every job as the loader counts them: the
    operations of the jobs follow each other. *)
Fixpoint prefix_from (s : nat) (l : list nat) : list nat :=
  match l with
  | [] => []
  | k :: t => s :: prefix_from (s + k) t
  end.

(** What the environment relies on in a loaded instance: the shapes,
    non-negative durations, a 0/1 adjacency, a machine with a positive
    duration for every operation of a job, jobs that are consecutive
    non-empty ranges of operations, and a cumulative adjacency that links
    every operation to the later operations of its job. *)
Record wf_load (nj nm n : nat) (ld : Loaded) : Prop := mkWfLoad {
  wl_shape : ld_shape nj nm n ld;
  wl_proc : forall o m, (0 <= qnth2 o m (ld_proc_time ld))%Q;
  wl_adj : forall o m, znth2 o m (ld_ope_ma_adj ld) = 0%Z \/ znth2 o m (ld_ope_ma_adj ld) = 1%Z;
  wl_elig : forall o, o < list_sum (ld_nums_ope ld) ->
              exists m, m < nm /\ znth2 o m (ld_ope_ma_adj ld) = 1%Z /\
                        (0 < qnth2 o m (ld_proc_time ld))%Q;
  wl_biases : ld_num_ope_biases ld = prefix_from 0 (ld_nums_ope ld);
  wl_nums : forall j, j < nj -> 1 <= nth j (ld_nums_ope ld) 0;
  wl_total : list_sum (ld_nums_ope ld) <= n;
  wl_appertain : forall j o, j < nj ->
      nth j (ld_num_ope_biases ld) 0 <= o < nth j (ld_num_ope_biases ld) 0 + nth j (ld_nums_ope ld) 0 ->
      nth o (ld_opes_appertain ld) 0 = j;
  wl_cal_pos : forall i k, (0 <= qnth2 i k (ld_cal_cumul_adj ld))%Q;
  wl_cal_one : forall j i k, j < nj ->
      nth j (ld_num_ope_biases ld) 0 <= i -> i < k ->
      k < nth j (ld_num_ope_biases ld) 0 + nth j (ld_nums_ope ld) 0 ->
      (qnth2 i k (ld_cal_cumul_adj ld) == 1)%Q
}.

Definition wf_input (inp : CaseInput) : Prop :=
  det_num_jobs inp = para_num_jobs inp /\
  det_num_mas inp = para_num_mas inp /\
  length (loads inp) = para_batch_size inp /\
  Forall (wf_load (det_num_jobs inp) (det_num_mas inp) (det_num_opes inp)) (loads inp).

(** A legal decision in a slot: the operation is the next pending one of
    its job, the job is neither in process nor finished, the machine is
    idle and has a positive duration for the operation. *)
Definition legal (nj nm : nat) (J : Inst) (a : Action) : Prop :=
  let '(ope, ma, job) := a in
  job < nj /\ ma < nm /\
  ope = step_of J job /\
  nth job (mask_job_finish_batch J) false = false /\
  nth job (mask_job_procing_batch J) false = false /\
  nth ma (mask_ma_procing_batch J) false = false /\
  (0 < qnth2 ope ma (proc_times_batch J))%Q.

(** A legal decision batch: one decision per active slot, each legal in
    its slot. *)
Definition legal_acts (e : Env) (acts : list Action) : Prop :=
  length acts = length (batch_idxes e) /\
  forall b a, action_of (batch_idxes e) acts b = Some a ->
    exists J, nth_error (insts e) b = Some J /\ legal (num_jobs e) (num_mas e) J a.

(** The states of runs with legal decisions, including the states inside
    [step]: after the decision part, after each [next_time] of the loop,
    and after the update of the active slots. *)
Inductive legal_reachable (inp : CaseInput) : Env -> Prop :=
| lr_init : legal_reachable inp (init inp)
| lr_core : forall e acts e1 rw,
    legal_reachable inp e -> legal_acts e acts -> step_core e acts = Ok (e1, rw) ->
    legal_reachable inp e1
| lr_next : forall e,
    legal_reachable inp e -> legal_reachable inp (next_time e (if_no_eligible e))
| lr_finish : forall e, legal_reachable inp e -> legal_reachable inp (finish_step e).

(** The invariant of a slot in a legal run. *)
Record Inv (nj nm n : nat) (J : Inst) : Prop := mkInv {
  iv_shape : shape nj nm n J;
  (* static *)
  iv_biases : num_ope_biases_batch J = prefix_from 0 (nums_ope_batch J);
  iv_nums : forall j, j < nj -> 1 <= nums_of J j;
  iv_ends : forall j, j < nj -> nth j (end_ope_biases_batch J) 0 = bias_of J j + nums_of J j - 1;
  iv_total : nums_opes J = list_sum (nums_ope_batch J) /\ nums_opes J <= n;
  iv_appertain : forall j o, j < nj -> in_job J j o -> nth o (opes_appertain_batch J) 0 = j;
  (* jobs *)
  iv_time : (0 <= time J)%Q;
  iv_step : forall j, j < nj -> bias_of J j <= step_of J j <= bias_of J j + nums_of J j;
  iv_finish : forall j, j < nj ->
      (nth j (mask_job_finish_batch J) false = true <-> step_of J j = bias_of J j + nums_of J j);
  iv_done : done_batch J = forallb (fun b => b) (mask_job_finish_batch J);
  iv_status : forall j o, j < nj -> in_job J j o ->
      (o < step_of J j -> qnth o (feat_ope_status J) = 1%Q) /\
      (step_of J j <= o -> qnth o (feat_ope_status J) = 0%Q);
  iv_padding : forall o, nums_opes J <= o -> qnth o (feat_ope_status J) = 0%Q;
  iv_sched_status : sched_status J = feat_ope_status J;
  iv_sched_start : sched_start J = feat_ope_start J;
  iv_sched_end : sched_end J = zipw Qplus (feat_ope_start J) (feat_ope_proc J);
  (* durations *)
  iv_proc : forall o m, (0 <= qnth2 o m (proc_times_batch J))%Q;
  iv_adj : forall o m, znth2 o m (ope_ma_adj_batch J) = 0%Z \/ znth2 o m (ope_ma_adj_batch J) = 1%Z;
  iv_elig : forall j o, j < nj -> in_job J j o -> step_of J j <= o ->
      exists m, m < nm /\ znth2 o m (ope_ma_adj_batch J) = 1%Z /\
                (0 < qnth2 o m (proc_times_batch J))%Q;
  iv_dur : forall j o, j < nj -> in_job J j o -> o < step_of J j ->
      nth o (sched_ma J) 0 < nm /\
      znth2 o (nth o (sched_ma J) 0) (ope_ma_adj_batch J) = 1%Z /\
      (qnth o (feat_ope_proc J) == qnth2 o (nth o (sched_ma J) 0%nat) (proc_times_batch J))%Q /\
      (0 < qnth o (feat_ope_proc J))%Q;
  iv_mean : forall o, (0 <= qnth o (feat_ope_proc J))%Q;
  iv_start : forall o, (0 <= qnth o (feat_ope_start J))%Q;
  iv_cal_pos : forall i k, (0 <= qnth2 i k (cal_cumul_adj_batch J))%Q;
  iv_cal_one : forall j i k, j < nj -> in_job J j i -> in_job J j k -> i < k ->
      step_of J j <= i + 1 -> (qnth2 i k (cal_cumul_adj_batch J) == 1)%Q;
  (* machines *)
  iv_mach : forall m, m < nm ->
      (qnth m (mach_idle J) = 1%Q /\ nth m (mask_ma_procing_batch J) false = false /\
       (qnth m (mach_avail J) <= time J)%Q) \/
      (qnth m (mach_idle J) = 0%Q /\ nth m (mask_ma_procing_batch J) false = true /\
       (time J < qnth m (mach_avail J))%Q /\
       let j := nth m (mach_job J) 0 in
       j < nj /\ nth j (mask_job_procing_batch J) false = true /\
       bias_of J j < step_of J j /\
       nth (step_of J j - 1) (sched_ma J) 0 = m /\
       (qnth m (mach_avail J) == end_of J (step_of J j - 1)%nat)%Q);
  iv_procing : forall j, j < nj -> nth j (mask_job_procing_batch J) false = true ->
      exists m, m < nm /\ qnth m (mach_idle J) = 0%Q /\ nth m (mach_job J) 0 = j;
  (* the schedule *)
  iv_ended : forall j o, j < nj -> in_job J j o -> o < step_of J j ->
      (o + 1 < step_of J j \/ nth j (mask_job_procing_batch J) false = false) ->
      (end_of J o <= time J)%Q;
  iv_avail : forall j o, j < nj -> in_job J j o -> o < step_of J j ->
      (end_of J o <= qnth (nth o (sched_ma J) 0%nat) (mach_avail J))%Q;
  iv_disjoint : forall j1 o1 j2 o2, j1 < nj -> in_job J j1 o1 -> o1 < step_of J j1 ->
      j2 < nj -> in_job J j2 o2 -> o2 < step_of J j2 ->
      o1 <> o2 -> nth o1 (sched_ma J) 0 = nth o2 (sched_ma J) 0 ->
      (end_of J o1 <= qnth o2 (feat_ope_start J))%Q \/
      (end_of J o2 <= qnth o1 (feat_ope_start J))%Q;
  iv_order : forall j o, j < nj -> in_job J j o -> o + 1 < step_of J j ->
      (end_of J o <= qnth (o + 1)%nat (feat_ope_start J))%Q;
  (* the makespan estimate *)
  iv_bound : forall j, j < nj -> bias_of J j < step_of J j ->
      (end_of J (step_of J j - 1)%nat <= list_max (feat_ope_end J))%Q;
  iv_clock : (time J <= list_max (feat_ope_end J))%Q
}.

(** The number of busy machines of a slot. *)
Definition count_busy (J : Inst) : nat :=
  length (filter (fun i => Qeq_bool i 0) (mach_idle J)).

(** Runs of legal calls from a state: [step] with legal decisions and
    [next_time] with the flags of [if_no_eligible], as [step] calls it. *)
Inductive legal_run (e : Env) : Env -> Prop :=
| run_here : legal_run e e
| run_step : forall e1 fuel acts e2 rw dn,
    legal_run e e1 -> legal_acts e1 acts -> step fuel e1 acts = Ok (e2, rw, dn) ->
    legal_run e e2
| run_next_time : forall e1,
    legal_run e e1 -> legal_run e (next_time e1 (if_no_eligible e1)).

(** One job of two operations on two machines; operation 0 is eligible on
    machine 0 only. *)
Definition hang_load : Loaded :=
  mkLoaded [[3; 0]; [2; 2]]%Q [[1; 0]; [1; 1]]%Z
           [[false; true]; [false; false]]
           [[false; false]; [true; false]]
           [0; 0] [0] [2]
           [[0; 1]; [0; 0]]%Q.

Definition hang_input : CaseInput := mkCaseInput 1 1 2 1 2 2 [hang_load].

(** Every operation of a loaded instance has a machine with a positive
    duration. *)
Definition every_ope_eligible (ld : Loaded) : bool :=
  forallb (fun o => existsb (fun p => Qgt_bool p 0) (nth o (ld_proc_time ld) []))
          (seq 0 (list_sum (ld_nums_ope ld))).

(** The clock of slot [b]. *)
Definition clock_of (e : Env) (b : nat) : Q :=
  match nth_error (insts e) b with
  | Some J => time J
  | None => 0%Q
  end.

(** The order [validate_gantt] sorts the entries of a machine by. *)
Definition le_start (x y : Entry) : Prop := (en_start x <= en_start y)%Q.

(* ------------------------------------------------------------------ *)
(** ** Executable views of a round and of legality *)

(** The three results of a successful [step]. *)
Definition step_env (fuel : nat) (e : Env) (acts : list Action) : Env :=
  match step fuel e acts with
  | Ok (e', _, _) => e'
  | _ => e
  end.

Definition step_rewards (fuel : nat) (e : Env) (acts : list Action) : list Q :=
  match step fuel e acts with
  | Ok (_, rw, _) => rw
  | _ => []
  end.

Definition step_dones (fuel : nat) (e : Env) (acts : list Action) : list bool :=
  match step fuel e acts with
  | Ok (_, _, dn) => dn
  | _ => []
  end.

(** The two results of the decision part of [step]. *)
Definition core_env (e : Env) (acts : list Action) : Env :=
  match step_core e acts with
  | Ok (e1, _) => e1
  | _ => e
  end.

Definition core_rewards (e : Env) (acts : list Action) : list Q :=
  match step_core e acts with
  | Ok (_, rw) => rw
  | _ => []
  end.

Definition rewards_after (fuel : nat) (inp : CaseInput) (rounds : list (list Action))
  : list (list Q) :=
  match run fuel (init inp) rounds with
  | Ok (_, rws) => rws
  | _ => []
  end.

(** Slot [b] of the batch (the slot of an empty instance outside it). *)
Definition empty_inst : Inst := init_inst 0 0 0 0 (mkLoaded [] [] [] [] [] [] [] []).

Definition slot (e : Env) (b : nat) : Inst := nth b (insts e) empty_inst.

(** [legal] and [legal_acts] as checks. *)
Definition legal_b (nj nm : nat) (J : Inst) (a : Action) : bool :=
  let '(ope, ma, job) := a in
  (job <? nj) && (ma <? nm) && (ope =? step_of J job) &&
  negb (nth job (mask_job_finish_batch J) false) &&
  negb (nth job (mask_job_procing_batch J) false) &&
  negb (nth ma (mask_ma_procing_batch J) false) &&
  Qgt_bool (qnth2 ope ma (proc_times_batch J)) 0.

Definition legal_acts_b (e : Env) (acts : list Action) : bool :=
  (length acts =? length (batch_idxes e)) &&
  forallb (fun b => match action_of (batch_idxes e) acts b with
                    | Some a => match nth_error (insts e) b with
                                | Some J => legal_b (num_jobs e) (num_mas e) J a
                                | None => false
                                end
                    | None => true
                    end)
          (batch_idxes e).

(** One job of two operations (3 and 2 time units) on one machine. *)
Definition pair_load : Loaded :=
  mkLoaded [[3]; [2]]%Q [[1]; [1]]%Z
           [[false; true]; [false; false]]
           [[false; false]; [true; false]]
           [0; 0] [0] [2]
           [[0; 1]; [0; 0]]%Q.

Definition pair_input : CaseInput := mkCaseInput 1 1 1 1 1 2 [pair_load].

Definition pair_rounds : list (list Action) := [[(0, 0, 0)]; [(1, 0, 0)]].

Definition pair_first : list Action := [(0, 0, 0)].
Definition pair_second : list Action := [(1, 0, 0)].

(** The environment after the first and after the second round. *)
Definition pair_env1 : Env := step_env 1 (init pair_input) pair_first.
Definition pair_env2 : Env := step_env 1 pair_env1 pair_second.

(** The decision that puts operation 0 of [gap_input] on machine 1. *)
Definition gap_acts : list Action := [(0, 1, 0)].
Definition gap_env1 : Env := step_env 1 (init gap_input) gap_acts.

(* ------------------------------------------------------------------ *)
(** ** [convert_feat_job_2_ope], [FJSPEnv.get_idx] and [schedule] (test.py) *)

(** [feat_job_batch.gather(1, opes_appertain_batch)] on one slot: entry [o]
    of the result is the job value at [opes_appertain[o]]; torch raises when
    an index is outside the job vector. *)
Definition convert_feat_job_2_ope (feat_job : list Q) (appertain : list nat)
  : option (list Q) :=
  if forallb (fun j => j <? length feat_job) appertain
  then Some (map (fun j => qnth j feat_job) appertain)
  else None.

(** The value [end_time_batch] has for the current start and
    processing-time features (lines 137-138 and 320-321). *)
Definition job_ends_of (J : Inst) : list Q :=
  gatherq (zipw Qplus (feat_ope_start J) (feat_ope_proc J)) (end_ope_biases_batch J).

(** The result of [get_idx]: the pair, an [IndexError] for a slot outside
    the batch, or the [ValueError] of [max] on an empty list. *)
Inductive idx_result : Type :=
| IdxOk (idx_job idx_ope : nat)
| IdxIndexError
| IdxValueError.

Definition max_idx (l : list nat) : nat := fold_right Nat.max 0 l.

(** [[idx for (idx, val) in enumerate(biases) if id_ope >= val]]. *)
Definition job_candidates (biases : list nat) (id_ope : nat) : list nat :=
  map fst (filter (fun iv => snd iv <=? id_ope) (combine (seq 0 (length biases)) biases)).

Definition get_idx (e : Env) (id_ope batch_id : nat) : idx_result :=
  match nth_error (insts e) batch_id with
  | None => IdxIndexError
  | Some J =>
      match job_candidates (num_ope_biases_batch J) id_ope with
      | [] => IdxValueError
      | c :: cs =>
          let idx_job := max_idx (c :: cs) in
          IdxOk idx_job (id_ope - nth idx_job (num_ope_biases_batch J) 0)
      end
  end.

(** The static fields of a slot of [EnvState] and of the environment. *)
Definition snap_static (s : Snap) :=
  (st_opes_appertain s, st_ope_pre_adj s, st_ope_sub_adj s, st_end_ope_biases s,
   st_nums_opes s).

Definition inst_static (J : Inst) :=
  (opes_appertain_batch J, ope_pre_adj_batch J, ope_sub_adj_batch J,
   end_ope_biases_batch J, nums_opes J).

(** The number of scheduled operations of a slot, counted from the
    pointers of the jobs. *)
Definition count_sched (J : Inst) : nat :=
  list_sum (tab (length (ope_step_batch J)) (fun j => step_of J j - bias_of J j)).

(** The slots whose [done_batch] entry is not set, in increasing order. *)
Definition open_slots (e : Env) : list nat :=
  filter (fun b => match nth_error (insts e) b with
                   | Some J => negb (done_batch J)
                   | None => false
                   end)
         (seq 0 (batch_size e)).

(** What the active slots and the counter [N] satisfy in runs of legal
    decisions. *)
Definition active_ok (e : Env) : Prop :=
  batch_idxes e = filter (fun b => existsb (Nat.eqb b) (batch_idxes e))
                         (seq 0 (batch_size e)) /\
  length (insts e) = batch_size e /\
  forall b J, nth_error (insts e) b = Some J ->
    count_sched J = Nat.min (N J) (nums_opes J) /\
    (~ In b (batch_idxes e) -> nums_opes J <= N J).

(** [schedule] of test.py.  The policy ([model.policy_old.act]) is not
    part of these sources and may sample: it is a parameter that gives the
    decisions of round [i] for the state it is shown.  The loop body runs
    before the first test of [done].  The wall-clock time the source also
    returns is left out; the verdict of [validate_gantt] decides whether
    the source prints its error line. *)
Fixpoint schedule_loop (policy : nat -> EnvState -> list Action) (fuel rounds i : nat)
    (e : Env) : result (Env * nat) :=
  match rounds with
  | O => NoFuel
  | S k =>
      match step fuel e (policy i (state e)) with
      | Ok (e', _, dn) =>
          if forallb (fun d => d) dn then Ok (e', S i)
          else schedule_loop policy fuel k (S i) e'
      | IndexError => IndexError
      | NoFuel => NoFuel
      end
  end.

Definition schedule (policy : nat -> EnvState -> list Action) (fuel rounds : nat)
    (e : Env) : result (bool * list Q) :=
  match schedule_loop policy fuel rounds 0 e with
  | Ok (e', _) => Ok (fst (validate_gantt e'), map (@makespan_batch) (insts e'))
  | IndexError => IndexError
  | NoFuel => NoFuel
  end.

(** The states in which [schedule] asks the policy for decisions, with
    the number of rounds done so far. *)
Inductive policy_run (policy : nat -> EnvState -> list Action) (fuel : nat) (e0 : Env)
  : nat -> Env -> Prop :=
| pr_start : policy_run policy fuel e0 0 e0
| pr_round : forall i e e' rw dn,
    policy_run policy fuel e0 i e ->
    step fuel e (policy i (state e)) = Ok (e', rw, dn) ->
    forallb (fun d => d) dn = false ->
    policy_run policy fuel e0 (S i) e'.

(** The largest number of operations of an instance of the batch. *)
Definition max_opes (e : Env) : nat :=
  fold_right Nat.max 0 (map (@nums_opes) (insts e)).

(** The policy that follows a fixed list of decision batches. *)
Definition replay (rounds : list (list Action)) : nat -> EnvState -> list Action :=
  fun i _ => nth i rounds [].

(** What the constructor and [step] establish between the partial schedule,
    the operation features and the makespan. *)
Definition mirrors (J : Inst) : Prop :=
  sched_status J = feat_ope_status J /\
  sched_start J = feat_ope_start J /\
  sched_end J = zipw Qplus (feat_ope_start J) (feat_ope_proc J) /\
  feat_ope_end J = gatherq (job_ends_of J) (opes_appertain_batch J) /\
  makespan_batch J = list_max (feat_ope_end J).

(** The bounds of the busy time and of the utilization feature of the
    machines of a slot. *)
Definition util_ok (J : Inst) : Prop :=
  (forall m, (0 <= qnth m (mach_util J))%Q) /\
  (forall m, (0 <= qnth m (feat_ma_util J))%Q /\ (qnth m (feat_ma_util J) < 1)%Q).

(** The feature "number of unscheduled operations in the job", read from
    the pointer of the job. *)
Definition unsched_ok (nj : nat) (J : Inst) : Prop :=
  forall j o, j < nj -> in_job J j o ->
    (qnth o (feat_ope_unsched J) == qnat (bias_of J j + nums_of J j - step_of J j))%Q.

(** The machine features that are copies of other tensors. *)
Definition mas_mirrors (J : Inst) : Prop :=
  feat_ma_nopes J = count_opes (ope_ma_adj_batch J) (length (feat_ma_nopes J)) /\
  feat_ma_avail J = mach_avail J.

(** Processing times that float32 adds without rounding: whole numbers
    whose sum over the operations and machines of an instance is below
    2^24.  Every start, end and clock value of a run is a sum of some of
    them, so it is a whole number below 2^24 and float32 holds it and
    every sum [time + duration] exactly. *)
Definition whole (q : Q) : bool := (Qden q =? 1)%positive && (0 <=? Qnum q)%Z.

Definition exact_load (ld : Loaded) : bool :=
  forallb (forallb whole) (ld_proc_time ld) &&
  negb (Qle_bool (inject_Z 16777216) (qsum (map qsum (ld_proc_time ld)))).

Definition exact_times (inp : CaseInput) : Prop :=
  forallb exact_load (loads inp) = true.

(** A whole number: what float32 holds exactly below 2^24. *)
Definition is_whole (q : Q) : Prop :=
  exists z : Z, (0 <= z)%Z /\ (q == inject_Z z)%Q.

Definition whole_below (c : Z) (q : Q) : Prop :=
  exists z : Z, (0 <= z < c)%Z /\ (q == inject_Z z)%Q.

(** The processing times of the operations that are not scheduled yet,
    on all machines. *)
Definition pending_total (J : Inst) : Q :=
  qsum (tab (length (proc_times_batch J))
            (fun o => if Qeq_bool (qnth o (feat_ope_status J)) 1 then 0%Q
                      else qsum (nth o (proc_times_batch J) []))).

(** The slot holds whole numbers only where the source adds times: the
    processing times, the clock, the available times of the machines and
    the starts of the scheduled operations; and the clock and the
    available times, with all the processing times still to come, stay
    below 2^24. *)
Definition times_exact (J : Inst) : Prop :=
  (forall o m, is_whole (qnth2 o m (proc_times_batch J))) /\
  is_whole (time J) /\
  (forall m, is_whole (qnth m (mach_avail J))) /\
  (forall o, qnth o (feat_ope_status J) = 1%Q -> is_whole (qnth o (feat_ope_start J))) /\
  exists c : Q, (time J <= c)%Q /\ (forall m, (qnth m (mach_avail J) <= c)%Q) /\
                (c + pending_total J < inject_Z 16777216)%Q.

(* ------------------------------------------------------------------ *)
(** * The environment in float32

    The time tensors of the source are float32 ([torch.zeros], the loaded
    processing times).  The model above reads them as rationals.  This
    module reads the same statements with IEEE 754 binary32 arithmetic,
    round to nearest even, as [SpecFloat] of the Standard Library defines
    it: what the code does when a sum is not a float32.  The definitions
    are those of the model above with the operations replaced; integer
    and boolean tensors are unchanged. *)
Module F32.

Definition f32 : Type := spec_float.

Definition fadd : f32 -> f32 -> f32 := SFadd 24 128.
Definition fsub : f32 -> f32 -> f32 := SFsub 24 128.
Definition fmul : f32 -> f32 -> f32 := SFmul 24 128.
Definition fdiv : f32 -> f32 -> f32 := SFdiv 24 128.
Definition fle (x y : f32) : bool := SFleb x y.
Definition fgt (x y : f32) : bool := SFltb y x.
Definition feq (x y : f32) : bool := SFeqb x y.

(** An integer tensor stored into a float tensor. *)
Definition of_Z (z : Z) : f32 := binary_normalize 24 128 z 0 false.
Definition of_nat (n : nat) : f32 := of_Z (Z.of_nat n).
Definition fzero : f32 := S754_zero false.
Definition fone : f32 := of_Z 1.

(** The float32 nearest to [a / b], for [a] and [b] that are float32. *)
Definition ratio (a b : Z) : f32 := fdiv (of_Z a) (of_Z b).

(** The Python scalars [1e-9] and [1e-5] as float32. *)
Definition eps9 : f32 := ratio 1 1000000000.
Definition eps5 : f32 := ratio 1 100000.

(** Doubles: [.double()] and Python floats.  A float32 is a double of the
    same value. *)
Definition dadd : spec_float -> spec_float -> spec_float := SFadd 53 1024.
Definition dsub : spec_float -> spec_float -> spec_float := SFsub 53 1024.
Definition round32 (x : spec_float) : f32 :=
  match x with
  | S754_finite s m e => binary_round 24 128 s m e
  | _ => x
  end.


(** [torch.sum] along a dimension, entry after entry. *)
Definition fsum (l : list f32) : f32 := fold_left fadd l fzero.
Definition dsum (l : list spec_float) : spec_float := fold_left dadd l (S754_zero false).

Definition fmaxb (x y : f32) : f32 := if fle x y then y else x.
Definition fminb (x y : f32) : f32 := if fle x y then x else y.

Fixpoint list_max (l : list f32) : f32 :=
  match l with
  | [] => fzero
  | h :: t => match t with [] => h | _ => fmaxb h (list_max t) end
  end.

Fixpoint list_min (l : list f32) : f32 :=
  match l with
  | [] => fzero
  | h :: t => match t with [] => h | _ => fminb h (list_min t) end
  end.

Definition fnth (i : nat) (l : list f32) : f32 := nth i l fzero.
Definition fnth2 (i j : nat) (m : list (list f32)) : f32 := nth j (nth i m []) fzero.

(** [v.unsqueeze(1) @ M] for a vector [v] and a matrix with [n] columns. *)
Definition vec_mat (v : list f32) (M : list (list f32)) (n : nat) : list f32 :=
  tab n (fun j => fsum (tab (length v) (fun i => fmul (fnth i v) (fnth2 i j M)))).

(** [v.gather(1, idx)] on one batch slot. *)
Definition gather (v : list f32) (idx : list nat) : list f32 :=
  map (fun i => fnth i v) idx.

(* ------------------------------------------------------------------ *)
(** ** Data model *)

Record Loaded : Type := mkLoaded {
  ld_proc_time : list (list f32);        (* tensors[0]  ope x ma *)
  ld_ope_ma_adj : list (list Z);       (* tensors[1]  ope x ma *)
  ld_ope_pre_adj : list (list bool);   (* tensors[2] *)
  ld_ope_sub_adj : list (list bool);   (* tensors[3] *)
  ld_opes_appertain : list nat;        (* tensors[4] *)
  ld_num_ope_biases : list nat;        (* tensors[5] *)
  ld_nums_ope : list nat;              (* tensors[6] *)
  ld_cal_cumul_adj : list (list f32)     (* tensors[7]  ope x ope *)
}.

(** Constructor input: [env_paras], what [nums_detec] reports, and the
    loaded instances. *)
Record CaseInput : Type := mkCaseInput {
  para_batch_size : nat;
  para_num_jobs : nat;
  para_num_mas : nat;
  det_num_jobs : nat;
  det_num_mas : nat;
  det_num_opes : nat;
  loads : list Loaded
}.

(** One batch slot of every tensor of [FJSPEnv]. *)
Record Inst : Type := mkInst {
  (* static *)
  ope_pre_adj_batch : list (list bool);
  ope_sub_adj_batch : list (list bool);
  opes_appertain_batch : list nat;
  num_ope_biases_batch : list nat;
  nums_ope_batch : list nat;
  end_ope_biases_batch : list nat;
  nums_opes : nat;
  (* dynamic *)
  proc_times_batch : list (list f32);
  ope_ma_adj_batch : list (list Z);
  cal_cumul_adj_batch : list (list f32);
  feat_ope_status : list f32;       (* feat_opes_batch[:, 0, :] *)
  feat_ope_nmas : list f32;         (* feat_opes_batch[:, 1, :] *)
  feat_ope_proc : list f32;         (* feat_opes_batch[:, 2, :] *)
  feat_ope_unsched : list f32;      (* feat_opes_batch[:, 3, :] *)
  feat_ope_end : list f32;          (* feat_opes_batch[:, 4, :] *)
  feat_ope_start : list f32;        (* feat_opes_batch[:, 5, :] *)
  feat_ma_nopes : list f32;         (* feat_mas_batch[:, 0, :] *)
  feat_ma_avail : list f32;         (* feat_mas_batch[:, 1, :] *)
  feat_ma_util : list f32;          (* feat_mas_batch[:, 2, :] *)
  mask_job_procing_batch : list bool;
  mask_job_finish_batch : list bool;
  mask_ma_procing_batch : list bool;
  sched_status : list f32;          (* schedules_batch[:, :, 0] *)
  sched_ma : list nat;            (* schedules_batch[:, :, 1] *)
  sched_start : list f32;           (* schedules_batch[:, :, 2] *)
  sched_end : list f32;             (* schedules_batch[:, :, 3] *)
  mach_idle : list f32;             (* machines_batch[:, :, 0] *)
  mach_avail : list f32;            (* machines_batch[:, :, 1] *)
  mach_util : list f32;             (* machines_batch[:, :, 2] *)
  mach_job : list nat;            (* machines_batch[:, :, 3] *)
  time : f32;
  N : nat;
  ope_step_batch : list nat;
  makespan_batch : f32;
  done_batch : bool
}.

(** The environment.  The state object and the copies saved for [reset]
    carry no arithmetic of their own; they are in the model above. *)
Record Env : Type := mkEnv {
  batch_size : nat;
  num_jobs : nat;
  num_mas : nat;
  num_opes : nat;
  insts : list Inst;
  batch_idxes : list nat
}.


(** The features, masks, partial schedules and makespan of one slot.
    [dj], [dm] are the job and machine counts reported by [nums_detec]
    (the local [num_jobs], [num_mas] of the constructor), [pm] is
    [env_paras["num_mas"]] and [n] is [self.num_opes]. *)
Definition init_inst (dj dm pm n : nat) (ld : Loaded) : Inst :=
  let proc := ld_proc_time ld in
  let adj := ld_ope_ma_adj ld in
  let cal := ld_cal_cumul_adj ld in
  let appertain := ld_opes_appertain ld in
  let biases := ld_num_ope_biases ld in
  let nums := ld_nums_ope ld in
  let ends := zipw (fun b k => b + k - 1) biases nums in
  let f0 := tab n (fun _ => fzero) in
  let f1 := map (fun row => of_nat (count_nz row)) adj in
  let f2 := zipw (fun row c => fdiv (fsum row) (fadd c eps9)) proc f1 in
  let f3 := map (fun j => of_nat (nth j nums 0)) appertain in
  let f5 := vec_mat f2 cal n in
  let end_time := gather (zipw fadd f5 f2) ends in
  let f4 := gather end_time appertain in
  let m0 := tab dm (fun m => of_nat (count_nz (map (fun row => nth m row 0%Z) adj))) in
  let finish := tab dj (fun _ => false) in
  mkInst (ld_ope_pre_adj ld) (ld_ope_sub_adj ld) appertain biases nums ends (list_sum nums)
         proc adj cal
         f0 f1 f2 f3 f4 f5
         m0 (tab dm (fun _ => fzero)) (tab dm (fun _ => fzero))
         (tab dj (fun _ => false)) finish (tab dm (fun _ => false))
         (tab n (fun _ => fzero)) (tab n (fun _ => 0)) f5 (zipw fadd f5 f2)
         (tab pm (fun _ => fone)) (tab pm (fun _ => fzero)) (tab pm (fun _ => fzero)) (tab pm (fun _ => 0))
         fzero 0 biases
         (list_max f4) (forallb (fun b => b) finish).

Definition init (inp : CaseInput) : Env :=
  mkEnv (para_batch_size inp) (para_num_jobs inp) (para_num_mas inp) (det_num_opes inp)
        (map (init_inst (det_num_jobs inp) (det_num_mas inp) (para_num_mas inp) (det_num_opes inp))
             (loads inp))
        (seq 0 (para_batch_size inp)).



(** The new value of every tensor of one slot is a function of the slot
    before the call; the functions follow the statements of the source. *)

(** Lines 278-285: the row of the chosen operation becomes the one-hot row
    of the chosen machine. *)
Definition prune_adj (nm ope ma : nat) (J : Inst) : list (list Z) :=
  upd (ope_ma_adj_batch J) ope (onehot nm ma).

(** Line 287, [self.proc_times_batch *= self.ope_ma_adj_batch]. *)
Definition mask_proc (P : list (list f32)) (A : list (list Z)) : list (list f32) :=
  zipw (zipw (fun p z => fmul p (of_Z z))) P A.

(** Line 291, [proc_times]. *)
Definition sel_proc_time (nm ope ma : nat) (J : Inst) : f32 :=
  fnth2 ope ma (mask_proc (proc_times_batch J) (prune_adj nm ope ma J)).

(** Lines 292-294. *)
Definition new_status (ope : nat) (J : Inst) : list f32 := upd (feat_ope_status J) ope fone.
Definition new_nmas (ope : nat) (J : Inst) : list f32 := upd (feat_ope_nmas J) ope fone.
Definition new_mean (nm ope ma : nat) (J : Inst) : list f32 :=
  upd (feat_ope_proc J) ope (sel_proc_time nm ope ma J).

(** Line 295: the row of the cumulative adjacency that is cleared. *)
Definition last_ope (n ope bias : nat) : nat :=
  if (Z.of_nat ope - 1 <? Z.of_nat bias)%Z then n - 1 else ope - 1.

(** Lines 297-300. *)
Definition new_cal (n ope job : nat) (J : Inst) : list (list f32) :=
  let r := last_ope n ope (nth job (num_ope_biases_batch J) 0) in
  upd (cal_cumul_adj_batch J) r (map (fun _ => fzero) (nth r (cal_cumul_adj_batch J) [])).

(** Line 307: [feat[3, start:end+1] -= 1]. *)
Definition dec_range (l : list f32) (s e : nat) : list f32 :=
  zipw (fun x i => if (s <=? i) && (i <=? e) then fsub x fone else x) l (seq 0 (length l)).

Definition new_unsched (job : nat) (J : Inst) : list f32 :=
  dec_range (feat_ope_unsched J)
            (nth job (num_ope_biases_batch J) 0) (nth job (end_ope_biases_batch J) 0).

(** Lines 310-313, [start_times]. *)
Definition start_times (ope : nat) (J : Inst) : list f32 :=
  zipw fmul (upd (feat_ope_start J) ope (time J)) (new_status ope J).

(** Lines 314-317, [estimate_times]. *)
Definition estimate_times (n nm : nat) (a : Action) (J : Inst) : list f32 :=
  let '(ope, ma, job) := a in
  zipw fmul
       (vec_mat (zipw fadd (start_times ope J) (new_mean nm ope ma J)) (new_cal n ope job J) n)
       (map (fun s => fsub fone s) (new_status ope J)).

(** Line 319. *)
Definition new_start (n nm : nat) (a : Action) (J : Inst) : list f32 :=
  zipw fadd (start_times (fst (fst a)) J) (estimate_times n nm a J).

(** Lines 320-321, [end_time_batch]. *)
Definition job_end_times (n nm : nat) (a : Action) (J : Inst) : list f32 :=
  gather (zipw fadd (new_start n nm a J) (new_mean nm (fst (fst a)) (snd (fst a)) J))
          (end_ope_biases_batch J).

(** Line 322. *)
Definition new_end (n nm : nat) (a : Action) (J : Inst) : list f32 :=
  gather (job_end_times n nm a J) (opes_appertain_batch J).

(** Line 331, the busy time of the machines. *)
Definition new_busy (nm ope ma : nat) (J : Inst) : list f32 :=
  upd (mach_util J) ma (fadd (fnth ma (mach_util J)) (sel_proc_time nm ope ma J)).

(** Lines 337-341 (with [eps9]) and 414-418 (with [eps5]). *)
Definition utilization (eps : f32) (busy : list f32) (t : f32) : list f32 :=
  map (fun u => fdiv (fminb u t) (fadd t eps)) busy.

(** Line 335. *)
Definition count_opes (A : list (list Z)) (width : nat) : list f32 :=
  tab width (fun m => of_nat (count_nz (map (fun row => nth m row 0%Z) A))).

(** Lines 347-348 and 430-431. *)
Definition finish_of (steps ends : list nat) (finish : list bool) : list bool :=
  zipw (fun se f => if (fst se =? snd se + 1) then true else f) (combine steps ends) finish.

Definition finish_mask (J : Inst) : list bool :=
  finish_of (ope_step_batch J) (end_ope_biases_batch J) (mask_job_finish_batch J).

(** Line 344. *)
Definition new_ope_step (job : nat) (J : Inst) : list nat :=
  upd (ope_step_batch J) job (S (nth job (ope_step_batch J) 0)).

(** Lines 272-354 on a slot of [self.batch_idxes] with decision
    [(ope, ma, job)]: the new slot and its reward. *)
Definition step_active (n nm : nat) (a : Action) (J : Inst) : Inst * f32 :=
  let '(ope, ma, job) := a in
  let proc_time := sel_proc_time nm ope ma J in
  let f5 := new_start n nm a J in
  let f2 := new_mean nm ope ma J in
  let f4 := new_end n nm a J in
  let finish := finish_of (new_ope_step job J) (end_ope_biases_batch J)
                          (mask_job_finish_batch J) in
  (mkInst (ope_pre_adj_batch J) (ope_sub_adj_batch J) (opes_appertain_batch J)
          (num_ope_biases_batch J) (nums_ope_batch J) (end_ope_biases_batch J) (nums_opes J)
          (mask_proc (proc_times_batch J) (prune_adj nm ope ma J))       (* 287 *)
          (prune_adj nm ope ma J)                                         (* 285 *)
          (new_cal n ope job J)                                           (* 300 *)
          (new_status ope J) (new_nmas ope J) f2                          (* 292 *)
          (new_unsched job J)                                             (* 307 *)
          f4                                                              (* 322 *)
          f5                                                              (* 319 *)
          (count_opes (prune_adj nm ope ma J) (length (feat_ma_nopes J))) (* 335 *)
          (upd (feat_ma_avail J) ma (fadd (time J) proc_time))               (* 336 *)
          (utilization eps9 (new_busy nm ope ma J) (time J))              (* 341 *)
          (upd (mask_job_procing_batch J) job true)                       (* 345 *)
          finish                                                          (* 347 *)
          (upd (mask_ma_procing_batch J) ma true)                         (* 346 *)
          (upd (sched_status J) ope fone) (upd (sched_ma J) ope ma)        (* 325 *)
          f5 (zipw fadd f5 f2)                                           (* 326-328 *)
          (upd (mach_idle J) ma fzero)                                      (* 329 *)
          (upd (mach_avail J) ma (fadd (time J) proc_time))                  (* 330 *)
          (new_busy nm ope ma J)                                          (* 331 *)
          (upd (mach_job J) ma job)                                       (* 332 *)
          (time J)
          (S (N J))                                                       (* 275 *)
          (new_ope_step job J)                                            (* 344 *)
          (list_max f4)                                                   (* 354 *)
          (forallb (fun b => b) finish),                                  (* 349 *)
   fsub (makespan_batch J) (list_max f4)).                                   (* 353 *)

(** The statements of lines 272-354 that touch every slot, on a slot
    outside [self.batch_idxes]: lines 275, 287, 347-354. *)
Definition step_idle (J : Inst) : Inst * f32 :=
  let finish := finish_mask J in
  (mkInst (ope_pre_adj_batch J) (ope_sub_adj_batch J) (opes_appertain_batch J)
          (num_ope_biases_batch J) (nums_ope_batch J) (end_ope_biases_batch J) (nums_opes J)
          (mask_proc (proc_times_batch J) (ope_ma_adj_batch J))           (* 287 *)
          (ope_ma_adj_batch J) (cal_cumul_adj_batch J)
          (feat_ope_status J) (feat_ope_nmas J) (feat_ope_proc J)
          (feat_ope_unsched J) (feat_ope_end J) (feat_ope_start J)
          (feat_ma_nopes J) (feat_ma_avail J) (feat_ma_util J)
          (mask_job_procing_batch J) finish (mask_ma_procing_batch J)     (* 347 *)
          (sched_status J) (sched_ma J) (sched_start J) (sched_end J)
          (mach_idle J) (mach_avail J) (mach_util J) (mach_job J)
          (time J)
          (S (N J))                                                       (* 275 *)
          (ope_step_batch J)
          (list_max (feat_ope_end J))                                     (* 354 *)
          (forallb (fun b => b) finish),                                  (* 349 *)
   fsub (makespan_batch J) (list_max (feat_ope_end J))).                     (* 353 *)

(** One slot through lines 272-354; [oa] is the decision of an active slot
    and [None] for a slot outside [self.batch_idxes]. *)
Definition step_inst (n nm : nat) (oa : option Action) (J : Inst) : Inst * f32 :=
  match oa with
  | Some a => step_active n nm a J
  | None => step_idle J
  end.

(* ------------------------------------------------------------------ *)
(** ** [FJSPEnv.if_no_eligible] and [FJSPEnv.next_time] *)

(** The sum of the processing times of the pending operation of every
    eligible job on every eligible machine; [0] means no eligible pair. *)
Definition pending_opes (J : Inst) : list nat :=
  zipw (fun s e => if e <? s then e else s) (ope_step_batch J) (end_ope_biases_batch J).

Definition eligible_row (J : Inst) (o : nat) (job_busy : bool) : spec_float :=
  dsum (zipw (fun p (mb : bool) => if negb mb && negb job_busy then p else fzero)
             (nth o (proc_times_batch J) []) (mask_ma_procing_batch J)).

Definition if_no_eligible_inst (J : Inst) : spec_float :=
  dsum (zipw (eligible_row J) (pending_opes J)
             (zipw orb (mask_job_procing_batch J) (mask_job_finish_batch J))).

(** [flag_need_trans] of one slot. *)
Definition need_trans (flag : f32) (J : Inst) : bool :=
  feq flag fzero && negb (done_batch J).

(** [mask_job_procing_batch[batch_idxes, job_idxes] = False] for the jobs
    served by the machines in [d]. *)
Definition release_jobs (d : list bool) (jobs : list nat) (mask : list bool) : list bool :=
  fold_left (fun msk dj => if (fst dj : bool) then upd msk (snd dj) false else msk)
            (combine d jobs) mask.

(** Lines 398-402: [b] and [c]; [gmax] is
    [torch.max(self.feat_opes_batch[:, 4, :])] over the whole batch. *)
Definition nt_b (gmax : f32) (J : Inst) : list f32 :=
  map (fun x => if fgt x (time J) then x else fadd gmax fone) (mach_avail J).

Definition nt_c (gmax : f32) (J : Inst) : f32 := list_min (nt_b gmax J).

(** Line 404, [d]: the machines that complete at [c]. *)
Definition nt_d (gmax flag : f32) (J : Inst) : list bool :=
  zipw (fun x idle => feq x (nt_c gmax J) && feq idle fzero && need_trans flag J)
       (mach_avail J) (mach_idle J).

(** Line 406, [e]. *)
Definition nt_time (gmax flag : f32) (J : Inst) : f32 :=
  if need_trans flag J then nt_c gmax J else time J.

(** Lines 410-412: [aa[d, 0] = 1] on the transposed view writes the idle
    column of the machines in [d]. *)
Definition nt_idle (gmax flag : f32) (J : Inst) : list f32 :=
  zipw (fun (dm : bool) i => if dm then fone else i) (nt_d gmax flag J) (mach_idle J).

(** Line 429. *)
Definition nt_ma_procing (gmax flag : f32) (J : Inst) : list bool :=
  zipw (fun (dm : bool) p => if dm then false else p) (nt_d gmax flag J) (mask_ma_procing_batch J).

(** [next_time] on one slot. *)
Definition next_time_inst (gmax : f32) (flag : f32) (J : Inst) : Inst :=
  mkInst (ope_pre_adj_batch J) (ope_sub_adj_batch J) (opes_appertain_batch J)
         (num_ope_biases_batch J) (nums_ope_batch J) (end_ope_biases_batch J) (nums_opes J)
         (proc_times_batch J) (ope_ma_adj_batch J) (cal_cumul_adj_batch J)
         (feat_ope_status J) (feat_ope_nmas J) (feat_ope_proc J)
         (feat_ope_unsched J) (feat_ope_end J) (feat_ope_start J)
         (feat_ma_nopes J) (feat_ma_avail J)
         (utilization eps5 (mach_util J) (nt_time gmax flag J))                    (* 418 *)
         (release_jobs (nt_d gmax flag J) (mach_job J) (mask_job_procing_batch J)) (* 428 *)
         (finish_mask J)                                                           (* 430 *)
         (nt_ma_procing gmax flag J)                                               (* 429 *)
         (sched_status J) (sched_ma J) (sched_start J) (sched_end J)
         (nt_idle gmax flag J)                                                     (* 411 *)
         (mach_avail J) (mach_util J) (mach_job J)
         (nt_time gmax flag J)                                                     (* 407 *)
         (N J) (ope_step_batch J) (makespan_batch J) (done_batch J).

(* ------------------------------------------------------------------ *)
(** ** The batch *)


Definition with_insts (e : Env) (l : list Inst) : Env :=
  mkEnv (batch_size e) (num_jobs e) (num_mas e) (num_opes e) l (batch_idxes e).

Definition if_no_eligible (e : Env) : list f32 := map if_no_eligible_inst (insts e).

Definition global_max (e : Env) : f32 := list_max (concat (map (@feat_ope_end) (insts e))).

Definition next_time (e : Env) (flags : list f32) : Env :=
  with_insts e (zipw (next_time_inst (global_max e)) flags (insts e)).

(** The guard of the [while] of line 358: some slot has no eligible pair
    and is not done. *)
Definition some_need_trans (e : Env) (flags : list f32) : bool :=
  existsb (fun b => b) (zipw need_trans flags (insts e)).

(** The [while] of lines 357-360; the fuel bounds the calls of [next_time]. *)
Fixpoint advance (fuel : nat) (e : Env) : option Env :=
  if some_need_trans e (if_no_eligible e)
  then match fuel with
       | O => None
       | S k => advance k (next_time e (if_no_eligible e))
       end
  else Some e.


Definition in_range (e : Env) (a : Action) : bool :=
  let '(ope, ma, job) := a in
  (ope <? num_opes e) && (ma <? num_mas e) && (job <? num_jobs e).

(** Lines 272-354 on the batch: the new slots and [reward_batch]. *)
Definition step_core (e : Env) (acts : list Action) : result (Env * list f32) :=
  if (length acts =? length (batch_idxes e)) && forallb (in_range e) acts
  then
    let rs := map (fun bi : nat * Inst =>
                     step_inst (num_opes e) (num_mas e)
                               (action_of (batch_idxes e) acts (fst bi)) (snd bi))
                  (combine (seq 0 (length (insts e))) (insts e)) in
    Ok (with_insts e (map fst rs), map snd rs)
  else IndexError.


(** Lines 362-365: the active slots. *)
Definition finish_step (e : Env) : Env :=
  let mask_finish := map (fun I => N I + 1 <=? nums_opes I) (insts e) in
  let idx := if forallb (fun b => b) mask_finish
             then batch_idxes e
             else map fst (filter snd (combine (seq 0 (batch_size e)) mask_finish)) in
  mkEnv (batch_size e) (num_jobs e) (num_mas e) (num_opes e) (insts e) idx.

(** [step]: the new environment, [reward_batch] and [done_batch]. *)
Definition step (fuel : nat) (e : Env) (acts : list Action)
  : result (Env * list f32 * list bool) :=
  match step_core e acts with
  | Ok (e1, rewards) =>
      match advance fuel e1 with
      | Some e2 => let e3 := finish_step e2 in
                   Ok (e3, rewards, map (@done_batch) (insts e3))
      | None => NoFuel
      end
  | IndexError => IndexError
  | NoFuel => NoFuel
  end.

(* ------------------------------------------------------------------ *)
(** ** [FJSPEnv.validate_gantt] *)

(** An entry [[i, start, end]] of [ma_gantt]: [.item()] gives the Python
    float with the value of the float32 entry. *)
Definition Entry : Type := (nat * f32 * f32)%type.
Definition en_ope (x : Entry) : nat := fst (fst x).
Definition en_start (x : Entry) : f32 := snd (fst x).
Definition en_end (x : Entry) : f32 := snd x.

(** [list.sort(key=lambda s: s[1])] is stable: every entry is placed
    behind the entries whose start is not larger. *)
Fixpoint insert_by_start (x : Entry) (l : list Entry) : list Entry :=
  match l with
  | [] => [x]
  | y :: t => if fle (en_start y) (en_start x)
              then y :: insert_by_start x t
              else x :: y :: t
  end.

Definition sort_by_start (l : list Entry) : list Entry :=
  fold_left (fun acc x => insert_by_start x acc) l [].

(** The entries appended to [ma_gantt_batch[batch_id][i]] (lines 531-534). *)
Definition ma_gantt (I : Inst) (i : nat) : list Entry :=
  map (fun o => (o, fnth o (sched_start I), fnth o (sched_end I)))
      (filter (fun o => nth o (sched_ma I) 0 =? i) (seq 0 (nums_opes I))).

(** Lines 546-553 over one sorted machine list: the loop leaves at the
    last entry.  The result is (overlaps, wrong durations).  The
    difference of two Python floats is a double; the comparison with the
    entry of the float32 tensor is made in float32. *)
Fixpoint scan_machine (proc : list (list f32)) (i : nat) (l : list Entry) : nat * nat :=
  match l with
  | x :: t =>
      match t with
      | [] => (0, 0)
      | y :: _ =>
          let r := scan_machine proc i t in
          ((if fgt (en_end x) (en_start y) then 1 else 0) + fst r,
           (if feq (round32 (dsub (en_end x) (en_start x))) (fnth2 (en_ope x) i proc) then 0 else 1) + snd r)
      end
  | [] => (0, 0)
  end.

Definition flag_ma_overlap (nm : nat) (I : Inst) : nat :=
  list_sum (tab nm (fun i => fst (scan_machine (proc_times_batch I) i (sort_by_start (ma_gantt I i))))).

Definition flag_proc_time (nm : nat) (I : Inst) : nat :=
  list_sum (tab nm (fun i => snd (scan_machine (proc_times_batch I) i (sort_by_start (ma_gantt I i))))).

(** Lines 556-568: job order. *)
Definition flag_ope_overlap (nj : nat) (I : Inst) : nat :=
  list_sum (tab nj (fun i =>
    let k := nth i (nums_ope_batch I) 0 in
    let bias := nth i (num_ope_biases_batch I) 0 in
    if k <=? 1 then 0
    else list_sum (tab (k - 1) (fun j =>
           if fgt (fnth (bias + j) (sched_end I)) (fnth (bias + j + 1) (sched_start I))
           then 1 else 0)))).

(** Lines 571-578: unscheduled operations. *)
Definition flag_unscheduled (I : Inst) : nat :=
  let count := length (filter (fun s => feq s fone) (sched_status I)) in
  if count =? nums_opes I then 0 else 1.

Definition Schedules : Type := (list f32 * list nat * list f32 * list f32)%type.

Definition schedules_of (I : Inst) : Schedules :=
  (sched_status I, sched_ma I, sched_start I, sched_end I).

Definition inst_flags (nj nm : nat) (I : Inst) : nat :=
  flag_ma_overlap nm I + flag_ope_overlap nj I + flag_proc_time nm I + flag_unscheduled I.

Definition validate_gantt (e : Env) : bool * list Schedules :=
  (list_sum (map (inst_flags (num_jobs e) (num_mas e)) (insts e)) =? 0,
   map schedules_of (insts e)).

(* ------------------------------------------------------------------ *)
(* ------------------------------------------------------------------ *)
(** ** Runs and checks *)

Fixpoint run (fuel : nat) (e : Env) (rounds : list (list Action))
  : result (Env * list (list f32)) :=
  match rounds with
  | [] => Ok (e, [])
  | acts :: rest =>
      match step fuel e acts with
      | Ok (e1, rw, _) =>
          match run fuel e1 rest with
          | Ok (e2, rws) => Ok (e2, rw :: rws)
          | IndexError => IndexError
          | NoFuel => NoFuel
          end
      | IndexError => IndexError
      | NoFuel => NoFuel
      end
  end.

Definition step_env (fuel : nat) (e : Env) (acts : list Action) : Env :=
  match step fuel e acts with
  | Ok (e', _, _) => e'
  | _ => e
  end.

Definition step_rewards (fuel : nat) (e : Env) (acts : list Action) : list f32 :=
  match step fuel e acts with
  | Ok (_, rw, _) => rw
  | _ => []
  end.

Definition core_env (e : Env) (acts : list Action) : Env :=
  match step_core e acts with
  | Ok (e1, _) => e1
  | _ => e
  end.

Definition empty_inst : Inst := init_inst 0 0 0 0 (mkLoaded [] [] [] [] [] [] [] []).

Definition slot (e : Env) (b : nat) : Inst := nth b (insts e) empty_inst.

(** A legal decision, as a check: the operation is the next pending one of
    its job, the job is neither in process nor finished, the machine is
    idle and has a positive duration for the operation. *)
Definition legal_b (nj nm : nat) (J : Inst) (a : Action) : bool :=
  let '(ope, ma, job) := a in
  (job <? nj) && (ma <? nm) && (ope =? nth job (ope_step_batch J) 0) &&
  negb (nth job (mask_job_finish_batch J) false) &&
  negb (nth job (mask_job_procing_batch J) false) &&
  negb (nth ma (mask_ma_procing_batch J) false) &&
  fgt (fnth2 ope ma (proc_times_batch J)) fzero.

Definition legal_acts_b (e : Env) (acts : list Action) : bool :=
  (length acts =? length (batch_idxes e)) &&
  forallb (fun b => match action_of (batch_idxes e) acts b with
                    | Some a => match nth_error (insts e) b with
                                | Some J => legal_b (num_jobs e) (num_mas e) J a
                                | None => false
                                end
                    | None => true
                    end)
          (batch_idxes e).

(** Every operation of a loaded instance has a machine with a positive
    duration. *)
Definition every_ope_eligible (ld : Loaded) : bool :=
  forallb (fun o => existsb (fun p => fgt p fzero) (nth o (ld_proc_time ld) []))
          (seq 0 (list_sum (ld_nums_ope ld))).

(* ------------------------------------------------------------------ *)
(** ** Concrete instances *)

(** One job of three operations on one machine, with the durations 2.5,
    0.1 and 1 as float32. *)
Definition drift_load : Loaded :=
  mkLoaded [[ratio 5 2]; [ratio 1 10]; [fone]] [[1]; [1]; [1]]%Z
           [[false; true; false]; [false; false; true]; [false; false; false]]
           [[false; false; false]; [true; false; false]; [false; true; false]]
           [0; 0; 0] [0] [3]
           [[fzero; fone; fone]; [fzero; fzero; fone]; [fzero; fzero; fzero]].

Definition drift_input : CaseInput := mkCaseInput 1 1 1 1 1 3 [drift_load].

Definition chain_first : list Action := [(0, 0, 0)].
Definition chain_second : list Action := [(1, 0, 0)].
Definition chain_third : list Action := [(2, 0, 0)].

Definition drift_env1 : Env := step_env 1 (init drift_input) chain_first.
Definition drift_env2 : Env := step_env 1 drift_env1 chain_second.
Definition drift_env3 : Env := step_env 1 drift_env2 chain_third.

(** The same job with the durations 2^24, 1 and 2^25. *)
Definition absorb_load : Loaded :=
  mkLoaded [[of_Z 16777216]; [fone]; [of_Z 33554432]] [[1]; [1]; [1]]%Z
           (ld_ope_pre_adj drift_load) (ld_ope_sub_adj drift_load)
           [0; 0; 0] [0] [3]
           (ld_cal_cumul_adj drift_load).

Definition absorb_input : CaseInput := mkCaseInput 1 1 1 1 1 3 [absorb_load].

Definition absorb_env1 : Env := step_env 1 (init absorb_input) chain_first.

(** The environment inside the second call of [step], after the decision
    part and after the first call of [next_time] of the loop. *)
Definition absorb_core : Env := core_env absorb_env1 chain_second.
Definition absorb_stuck : Env := next_time absorb_core (if_no_eligible absorb_core).






(** The two-operation instance of the exact model (durations 3 and 2). *)
Definition pair_load : Loaded :=
  mkLoaded [[of_Z 3]; [of_Z 2]] [[1]; [1]]%Z
           [[false; true]; [false; false]]
           [[false; false]; [true; false]]
           [0; 0] [0] [2]
           [[fzero; fone]; [fzero; fzero]].

Definition pair_input : CaseInput := mkCaseInput 1 1 1 1 1 2 [pair_load].
Definition pair_env1 : Env := step_env 1 (init pair_input) [(0, 0, 0)].
Definition pair_env2 : Env := step_env 1 pair_env1 [(1, 0, 0)].

End F32.
(* ------------------------------------------------------------------ *)
(** ** List lemmas *)

Section ListFacts.
Variables A B C : Type.

Lemma length_upd (l : list A) i x : length (upd l i x) = length l.
Proof. revert i; induction l as [|h t IH]; intros [|i]; simpl; auto. Qed.

Lemma nth_upd_eq (l : list A) i x d : i < length l -> nth i (upd l i x) d = x.
Proof.
  revert i; induction l as [|h t IH]; intros [|i] H; simpl in *; try lia; auto.
  apply IH; lia.
Qed.

Lemma nth_upd_neq (l : list A) i j x d : i <> j -> nth j (upd l i x) d = nth j l d.
Proof.
  revert i j; induction l as [|h t IH]; intros [|i] [|j] H; simpl; auto; try lia.
Qed.

Lemma nth_upd (l : list A) i j x d :
  nth j (upd l i x) d = if (i =? j) && (i <? length l) then x else nth j l d.
Proof.
  destruct (Nat.eqb_spec i j) as [->|Hn]; simpl.
  - destruct (Nat.ltb_spec j (length l)).
    + now apply nth_upd_eq.
    + rewrite !nth_overflow; auto. rewrite length_upd; lia.
  - now apply nth_upd_neq.
Qed.

Lemma length_tab n (f : nat -> A) : length (tab n f) = n.
Proof. unfold tab. now rewrite length_map, length_seq. Qed.

Lemma nth_tab n (f : nat -> A) i d : i < n -> nth i (tab n f) d = f i.
Proof.
  intros H. unfold tab.
  rewrite (nth_indep _ d (f 0)) by (rewrite length_map, length_seq; lia).
  rewrite map_nth, seq_nth; auto.
Qed.

Lemma length_zipw (f : A -> B -> C) l1 l2 :
  length (zipw f l1 l2) = Nat.min (length l1) (length l2).
Proof. revert l2; induction l1 as [|a t IH]; intros [|b t2]; simpl; auto. Qed.

Lemma nth_zipw (f : A -> B -> C) l1 l2 i d d1 d2 :
  i < length l1 -> i < length l2 ->
  nth i (zipw f l1 l2) d = f (nth i l1 d1) (nth i l2 d2).
Proof.
  revert l2 i; induction l1 as [|a t IH]; intros [|b t2] [|i] H1 H2; simpl in *; try lia; auto.
  apply IH; lia.
Qed.

Lemma nth_error_zipw (f : A -> B -> C) l1 l2 i :
  nth_error (zipw f l1 l2) i =
  match nth_error l1 i, nth_error l2 i with
  | Some a, Some b => Some (f a b)
  | _, _ => None
  end.
Proof.
  revert l2 i; induction l1 as [|a t IH]; intros [|b t2] [|i]; simpl; auto.
  destruct (nth_error t i); auto.
Qed.

Lemma nth_error_indexed (g : nat -> A -> B) (l : list A) s i :
  nth_error (map (fun bi : nat * A => g (fst bi) (snd bi)) (combine (seq s (length l)) l)) i =
  option_map (g (s + i)) (nth_error l i).
Proof.
  revert s i; induction l as [|a t IH]; intros s [|i]; simpl; auto.
  - now rewrite Nat.add_0_r.
  - rewrite IH. now rewrite Nat.add_succ_r.
Qed.

Lemma length_indexed (g : nat -> A -> B) (l : list A) s :
  length (map (fun bi : nat * A => g (fst bi) (snd bi)) (combine (seq s (length l)) l)) = length l.
Proof. rewrite length_map, length_combine, length_seq. lia. Qed.
End ListFacts.

Lemma nth_error_Some_lt (A : Type) (l : list A) i x : nth_error l i = Some x -> i < length l.
Proof. intros H. apply nth_error_Some. congruence. Qed.

Lemma list_ext_nth_error (A : Type) (l1 l2 : list A) :
  (forall i, nth_error l1 i = nth_error l2 i) -> l1 = l2.
Proof.
  revert l2; induction l1 as [|a t IH]; intros [|b t2] H; auto.
  - specialize (H 0); discriminate.
  - specialize (H 0); discriminate.
  - f_equal.
    + specialize (H 0); simpl in H; congruence.
    + apply IH; intros i; apply (H (S i)).
Qed.

(* ------------------------------------------------------------------ *)
(** ** Slot-wise view of the batch operations *)

Arguments step_inst : simpl never.
Arguments step_active : simpl never.
Arguments step_idle : simpl never.
Arguments next_time_inst : simpl never.
Arguments init_inst : simpl never.
Arguments reset_inst : simpl never.
Arguments if_no_eligible_inst : simpl never.

Lemma insts_next_time e flags b :
  nth_error (insts (next_time e flags)) b =
  match nth_error flags b, nth_error (insts e) b with
  | Some f, Some J => Some (next_time_inst (global_max e) f J)
  | _, _ => None
  end.
Proof. unfold next_time; simpl. apply nth_error_zipw. Qed.

Lemma nth_error_if_no_eligible e b :
  nth_error (if_no_eligible e) b = option_map if_no_eligible_inst (nth_error (insts e) b).
Proof. unfold if_no_eligible. apply nth_error_map. Qed.

Lemma insts_next_time_own e b :
  nth_error (insts (next_time e (if_no_eligible e))) b =
  option_map (fun J => next_time_inst (global_max e) (if_no_eligible_inst J) J)
             (nth_error (insts e) b).
Proof.
  rewrite insts_next_time, nth_error_if_no_eligible.
  destruct (nth_error (insts e) b); reflexivity.
Qed.

Lemma step_core_slot e acts e1 rw b :
  step_core e acts = Ok (e1, rw) ->
  nth_error (insts e1) b =
    option_map (fun J => fst (step_inst (num_opes e) (num_mas e)
                                        (action_of (batch_idxes e) acts b) J))
               (nth_error (insts e) b)
  /\ nth_error rw b =
    option_map (fun J => snd (step_inst (num_opes e) (num_mas e)
                                        (action_of (batch_idxes e) acts b) J))
               (nth_error (insts e) b).
Proof.
  unfold step_core. destruct (_ && _); [|discriminate].
  intros H; inversion H; subst; clear H. simpl.
  pose proof (nth_error_indexed
             (fun b J => step_inst (num_opes e) (num_mas e) (action_of (batch_idxes e) acts b) J)
             (insts e) 0 b) as Hi.
  simpl in Hi.
  rewrite (nth_error_map fst), (nth_error_map snd), Hi.
  destruct (nth_error (insts e) b); simpl; auto.
Qed.

Lemma step_core_dims e acts e1 rw :
  step_core e acts = Ok (e1, rw) ->
  batch_size e1 = batch_size e /\ num_jobs e1 = num_jobs e /\ num_mas e1 = num_mas e /\
  num_opes e1 = num_opes e /\ batch_idxes e1 = batch_idxes e /\ state e1 = state e /\
  olds e1 = olds e /\ old_state e1 = old_state e /\ length (insts e1) = length (insts e).
Proof.
  unfold step_core. destruct (_ && _); [|discriminate].
  intros H; inversion H; subst; clear H. simpl.
  repeat split; auto.
  rewrite length_map.
  apply (length_indexed
           (fun b J => step_inst (num_opes e) (num_mas e) (action_of (batch_idxes e) acts b) J)
           (insts e) 0).
Qed.

(** A relation between the old and the new slot that every call of
    [next_time_inst] respects is respected by the whole loop. *)
Lemma advance_slotwise (R : Inst -> Inst -> Prop) :
  (forall J, R J J) ->
  (forall J1 J2 J3, R J1 J2 -> R J2 J3 -> R J1 J3) ->
  (forall g f J, R J (next_time_inst g f J)) ->
  forall fuel e e', advance fuel e = Some e' ->
  forall b J, nth_error (insts e) b = Some J ->
  exists J', nth_error (insts e') b = Some J' /\ R J J'.
Proof.
  intros Hrefl Htrans Hnext.
  induction fuel as [|k IH]; intros e e' Hadv b J Hb; simpl in Hadv;
    destruct (some_need_trans e (if_no_eligible e)).
  - discriminate.
  - inversion Hadv; subst. eauto.
  - destruct (IH _ _ Hadv b (next_time_inst (global_max e) (if_no_eligible_inst J) J))
      as (J' & HJ' & HR).
    + rewrite insts_next_time_own, Hb. reflexivity.
    + exists J'; split; auto. eapply Htrans; [apply Hnext|exact HR].
  - inversion Hadv; subst. eauto.
Qed.

Lemma advance_dims fuel e e' :
  advance fuel e = Some e' ->
  batch_size e' = batch_size e /\ num_jobs e' = num_jobs e /\ num_mas e' = num_mas e /\
  num_opes e' = num_opes e /\ batch_idxes e' = batch_idxes e /\ state e' = state e /\
  olds e' = olds e /\ old_state e' = old_state e /\ length (insts e') = length (insts e).
Proof.
  revert e; induction fuel as [|k IH]; intros e Hadv; simpl in Hadv;
    destruct (some_need_trans e (if_no_eligible e)); try discriminate.
  - inversion Hadv; subst; repeat split; auto.
  - apply IH in Hadv. simpl in Hadv.
    destruct Hadv as (?&?&?&?&?&?&?&?&Hl). repeat split; auto.
    rewrite Hl. unfold if_no_eligible. rewrite length_zipw, length_map. lia.
  - inversion Hadv; subst; repeat split; auto.
Qed.

(** The pieces of a successful [step]. *)
Lemma step_inv fuel e acts e' rw dn :
  step fuel e acts = Ok (e', rw, dn) ->
  exists e1 e2, step_core e acts = Ok (e1, rw) /\ advance fuel e1 = Some e2 /\
                e' = finish_step e2 /\ dn = map (@done_batch) (insts e').
Proof.
  unfold step. destruct (step_core e acts) as [[e1 r]| |]; try discriminate.
  destruct (advance fuel e1) as [e2|] eqn:Ha; try discriminate.
  intros H; inversion H; subst. exists e1, e2; repeat split; auto.
Qed.

(* ------------------------------------------------------------------ *)
(** ** C10: [next_time] changes the clock of stalled, unfinished slots only *)

Lemma next_time_inst_clock g f J :
  time (next_time_inst g f J) = if need_trans f J then nt_c g J else time J.
Proof. reflexivity. Qed.

Lemma next_time_inst_frame g f J :
  Qeq_bool f 0 = false \/ done_batch J = true -> time (next_time_inst g f J) = time J.
Proof.
  intros H. rewrite next_time_inst_clock. unfold need_trans.
  destruct H as [H|H]; rewrite H; simpl; auto.
  now rewrite andb_false_r.
Qed.

(** C10. In a call [next_time(flags)] every slot whose flag is nonzero or
    whose [done_batch] entry is set keeps its clock; this holds for any flag
    vector and so for the one [if_no_eligible] returns. *)
Theorem next_time_frame_clock (e : Env) (flags : list Q) (b : nat) (J : Inst) (f : Q) :
  nth_error (insts e) b = Some J ->
  nth_error flags b = Some f ->
  Qeq_bool f 0 = false \/ done_batch J = true ->
  (exists J', nth_error (insts (next_time e flags)) b = Some J' /\ time J' = time J) /\
  (flags = if_no_eligible e -> f = if_no_eligible_inst J).
Proof.
  intros HJ Hf Hc. split.
  - exists (next_time_inst (global_max e) f J). split.
    + now rewrite insts_next_time, Hf, HJ.
    + now apply next_time_inst_frame.
  - intros ->. rewrite nth_error_if_no_eligible, HJ in Hf. simpl in Hf. congruence.
Qed.

(* ------------------------------------------------------------------ *)
(** ** C2: the rewards telescope *)

Lemma step_inst_reward n nm oa J :
  snd (step_inst n nm oa J) =
    (makespan_batch J - list_max (feat_ope_end (fst (step_inst n nm oa J))))%Q /\
  makespan_batch (fst (step_inst n nm oa J)) =
    list_max (feat_ope_end (fst (step_inst n nm oa J))).
Proof. destruct oa as [[[ope ma] job]|]; split; reflexivity. Qed.

Lemma step_reward fuel e acts e' rw dn b J :
  step fuel e acts = Ok (e', rw, dn) ->
  nth_error (insts e) b = Some J ->
  exists J', nth_error (insts e') b = Some J' /\
             nth_error rw b = Some (makespan_batch J - list_max (feat_ope_end J'))%Q /\
             makespan_batch J' = list_max (feat_ope_end J').
Proof.
  intros Hs HJ.
  destruct (step_inv _ _ _ Hs) as (e1 & e2 & Hc & Ha & -> & _).
  destruct (step_core_slot _ _ b Hc) as [H1 Hr]. rewrite HJ in H1, Hr.
  cbn [option_map] in H1, Hr.
  assert (HR : exists J', nth_error (insts e2) b = Some J' /\
            (makespan_batch J' = makespan_batch
               (fst (step_inst (num_opes e) (num_mas e) (action_of (batch_idxes e) acts b) J)) /\
             feat_ope_end J' = feat_ope_end
               (fst (step_inst (num_opes e) (num_mas e) (action_of (batch_idxes e) acts b) J)))).
  { apply (advance_slotwise
              (fun J1 J2 => makespan_batch J2 = makespan_batch J1 /\
                            feat_ope_end J2 = feat_ope_end J1)) with (fuel := fuel) (e := e1); auto.
    intros ? ? ? [? ?] [? ?]; split; congruence. }
  destruct HR as (J' & HJ' & Hm & He).
  exists J'. cbn [finish_step insts]. split; [exact HJ'|].
    destruct (step_inst_reward (num_opes e) (num_mas e) (action_of (batch_idxes e) acts b) J)
      as [Hrw Hmk].
    rewrite Hr, Hrw, Hm, He. auto.
Qed.

Lemma step_length fuel e acts e' rw dn :
  step fuel e acts = Ok (e', rw, dn) -> length (insts e') = length (insts e).
Proof.
  intros Hs. destruct (step_inv _ _ _ Hs) as (e1 & e2 & Hc & Ha & -> & _).
  simpl. apply advance_dims in Ha. apply step_core_dims in Hc. lia.
Qed.

Lemma makespan_of_some e b J : nth_error (insts e) b = Some J -> makespan_of e b = makespan_batch J.
Proof. unfold makespan_of. now intros ->. Qed.

Lemma run_telescopes fuel rounds : forall e e' rws b,
  run fuel e rounds = Ok (e', rws) -> b < length (insts e) ->
  (total_reward b rws == makespan_of e b - makespan_of e' b)%Q.
Proof.
  induction rounds as [|acts rest IH]; intros e e' rws b Hr Hb; simpl in Hr.
  - inversion Hr; subst. unfold total_reward; simpl. lra.
  - destruct (step fuel e acts) as [[[e1 rw] dn]| |] eqn:Hs; try discriminate.
    destruct (run fuel e1 rest) as [[e2 rws']| |] eqn:Hrun; try discriminate.
    inversion Hr; subst; clear Hr.
    destruct (nth_error (insts e) b) as [J|] eqn:HJ;
      [|apply nth_error_None in HJ; lia].
    destruct (step_reward _ _ _ b Hs HJ) as (J' & HJ' & Hrw & Hmk).
    assert (Hb1 : b < length (insts e1)) by (rewrite (step_length _ _ _ Hs); exact Hb).
    specialize (IH _ _ _ b Hrun Hb1).
    unfold total_reward in *. simpl. rewrite IH.
    rewrite (makespan_of_some _ _ HJ), (makespan_of_some _ _ HJ').
    unfold qnth. rewrite (nth_error_nth _ _ _ Hrw). rewrite Hmk. lra.
Qed.



(* ------------------------------------------------------------------ *)
(** ** C3: [reset] gives back the constructed environment *)

Lemma map_slotwise (A B : Type) (f : A -> B) (l l' : list A) :
  length l' = length l ->
  (forall b x, nth_error l b = Some x -> exists x', nth_error l' b = Some x' /\ f x' = f x) ->
  map f l' = map f l.
Proof.
  intros Hl H. apply list_ext_nth_error. intros i. rewrite !nth_error_map.
  destruct (nth_error l i) as [x|] eqn:Hx.
  - destruct (H _ _ Hx) as (x' & -> & Hf). simpl. now rewrite Hf.
  - apply nth_error_None in Hx. rewrite <- Hl in Hx. apply nth_error_None in Hx.
    now rewrite Hx.
Qed.

Lemma step_inst_static n nm oa J : static_of (fst (step_inst n nm oa J)) = static_of J.
Proof. destruct oa as [[[ope ma] job]|]; reflexivity. Qed.

Lemma next_time_inst_static g f J : static_of (next_time_inst g f J) = static_of J.
Proof. reflexivity. Qed.

Lemma reset_inst_static nj nm n J s : static_of (reset_inst nj nm n J s) = static_of J.
Proof. reflexivity. Qed.

Lemma stable_init inp : stable inp (init inp).
Proof. unfold stable. repeat split; reflexivity. Qed.

Lemma stable_next_time inp e flags :
  stable inp e -> length flags = length (insts e) -> stable inp (next_time e flags).
Proof.
  unfold stable. intros (?&?&?&?&?&?&Hs) Hl. repeat split; auto.
  rewrite <- Hs. apply map_slotwise.
  - unfold next_time, with_insts; cbn [insts]. rewrite length_zipw. lia.
  - intros b J HJ. rewrite insts_next_time, HJ.
    destruct (nth_error flags b) as [f|] eqn:Hf.
    + eexists; split; [reflexivity|apply next_time_inst_static].
    + apply nth_error_None in Hf. apply nth_error_Some_lt in HJ. lia.
Qed.

Lemma stable_step inp fuel e acts e' rw dn :
  stable inp e -> step fuel e acts = Ok (e', rw, dn) -> stable inp e'.
Proof.
  unfold stable. intros (?&?&?&?&?&?&Hs) Hst.
  destruct (step_inv _ _ _ Hst) as (e1 & e2 & Hc & Ha & -> & _).
  pose proof (step_core_dims _ _ Hc) as (?&?&?&?&?&?&?&?&Hl1).
  pose proof (advance_dims _ _ Ha) as (?&?&?&?&?&?&?&?&Hl2).
  cbn [finish_step batch_size num_jobs num_mas num_opes olds old_state insts].
  repeat split; try congruence.
  rewrite <- Hs. apply map_slotwise; [lia|].
  intros b J HJ.
  destruct (step_core_slot _ _ b Hc) as [Hb1 _]. rewrite HJ in Hb1. cbn [option_map] in Hb1.
  destruct (advance_slotwise (fun J1 J2 => static_of J2 = static_of J1))
    with (fuel := fuel) (e := e1) (e' := e2) (b := b)
         (J := fst (step_inst (num_opes e) (num_mas e) (action_of (batch_idxes e) acts b) J))
    as (J' & HJ' & Hst'); auto.
  - intros; congruence.
  - exists J'; split; auto. rewrite Hst'. apply step_inst_static.
Qed.

Lemma stable_lengths inp e :
  stable inp e -> length (olds e) = length (insts e).
Proof.
  unfold stable. intros (_&_&_&_&Ho&_&Hs).
  rewrite Ho. apply (f_equal (@length _)) in Hs.
  unfold init in *; cbn [insts olds] in *. rewrite !length_map in *. lia.
Qed.

Lemma stable_reset inp e : stable inp e -> stable inp (reset e).
Proof.
  intros Hst. pose proof (stable_lengths Hst) as Hl.
  destruct Hst as (?&?&?&?&?&?&Hs). unfold stable, reset.
  cbn [batch_size num_jobs num_mas num_opes olds old_state insts]. repeat split; auto.
  rewrite <- Hs. apply map_slotwise.
  - rewrite length_zipw. lia.
  - intros b J HJ. rewrite nth_error_zipw, HJ.
    destruct (nth_error (olds e) b) as [s|] eqn:Hb.
    + eexists; split; [reflexivity|apply reset_inst_static].
    + apply nth_error_None in Hb. apply nth_error_Some_lt in HJ. lia.
Qed.

Lemma reachable_stable inp e : reachable inp e -> stable inp e.
Proof.
  induction 1.
  - apply stable_init.
  - eapply stable_step; eauto.
  - now apply stable_next_time.
  - now apply stable_reset.
Qed.

Lemma reset_inst_init dj dm pm n ld J :
  static_of J = static_of (init_inst dj dm pm n ld) ->
  reset_inst dj dm n J (saved_of (init_inst dj dm dm n ld)) = init_inst dj dm dm n ld.
Proof.
  intros Hs. unfold static_of in Hs.
  destruct J; cbn in Hs. unfold init_inst in Hs. cbn in Hs.
  inversion Hs; subst; clear Hs.
  reflexivity.
Qed.

Lemma reset_gives_init inp e :
  stable inp e ->
  det_num_jobs inp = para_num_jobs inp ->
  det_num_mas inp = para_num_mas inp ->
  reset e = init inp.
Proof.
  intros Hr Hj Hm.
  pose proof (stable_lengths Hr) as Hl.
  destruct Hr as (Hb & Hnj & Hnm & Hno & Ho & Hos & Hs).
  unfold reset. rewrite Hb, Hnj, Hnm, Hno, Ho, Hos.
  assert (Hi : zipw (reset_inst (para_num_jobs inp) (para_num_mas inp) (det_num_opes inp))
                    (insts e) (olds (init inp)) = insts (init inp)).
  { apply list_ext_nth_error. intros i. rewrite nth_error_zipw.
    assert (Hsi := f_equal (fun l => nth_error l i) Hs). cbn beta in Hsi.
    rewrite !nth_error_map in Hsi.
    unfold init in *. cbn [insts olds] in *. rewrite !nth_error_map in *.
    rewrite <- Hj, <- Hm in *.
    destruct (nth_error (insts e) i) as [J|]; destruct (nth_error (loads inp) i) as [ld|];
      cbn [option_map] in *; try discriminate; auto.
    f_equal. apply reset_inst_init with (pm := det_num_mas inp). congruence. }
  rewrite Hi. unfold init. cbn. rewrite <- Hj, <- Hm. reflexivity.
Qed.

(** C3. From every state reached by [step], [next_time] and [reset] calls,
    [reset] produces exactly the environment the constructor builds from
    the same input (all tensors, masks, schedules, machine records, clocks,
    counters, active slots, makespans, completion flags and the state
    snapshot), when [env_paras] carries the job and machine counts of the
    instances. *)
Theorem reset_restores_initial (inp : CaseInput) (e : Env) :
  reachable inp e ->
  det_num_jobs inp = para_num_jobs inp ->
  det_num_mas inp = para_num_mas inp ->
  reset e = init inp.
Proof.
  intros Hr Hj Hm. apply reset_gives_init; auto. now apply reachable_stable.
Qed.

(* ------------------------------------------------------------------ *)
(** ** Shapes *)

Lemma length_vec_mat v M n : length (vec_mat v M n) = n.
Proof. unfold vec_mat. apply length_tab. Qed.

Lemma length_gatherq v idx : length (gatherq v idx) = length idx.
Proof. unfold gatherq. apply length_map. Qed.

Lemma length_dec_range l s e : length (dec_range l s e) = length l.
Proof. unfold dec_range. rewrite length_zipw, length_seq. lia. Qed.

Lemma length_onehot n k : length (onehot n k) = n.
Proof. apply length_tab. Qed.

Lemma length_finish_of steps ends finish :
  length (finish_of steps ends finish) =
  Nat.min (Nat.min (length steps) (length ends)) (length finish).
Proof. unfold finish_of. now rewrite length_zipw, length_combine. Qed.

Lemma length_release_jobs d jobs mask : length (release_jobs d jobs mask) = length mask.
Proof.
  unfold release_jobs. revert mask.
  induction (combine d jobs) as [|[dm j] t IH]; intros mask; simpl; auto.
  rewrite IH. destruct dm; auto. apply length_upd.
Qed.

Lemma length_utilization eps busy t : length (utilization eps busy t) = length busy.
Proof. apply length_map. Qed.

Lemma length_count_opes A w : length (count_opes A w) = w.
Proof. apply length_tab. Qed.

Lemma length_new_status ope J : length (new_status ope J) = length (feat_ope_status J).
Proof. apply length_upd. Qed.

Lemma length_new_mean nm ope ma J : length (new_mean nm ope ma J) = length (feat_ope_proc J).
Proof. apply length_upd. Qed.

Lemma length_start_times ope J :
  length (start_times ope J) = Nat.min (length (feat_ope_start J)) (length (feat_ope_status J)).
Proof. unfold start_times. now rewrite length_zipw, length_upd, length_new_status. Qed.

Lemma length_estimate_times n nm a J :
  length (estimate_times n nm a J) = Nat.min n (length (feat_ope_status J)).
Proof.
  destruct a as [[ope ma] job]. unfold estimate_times.
  now rewrite length_zipw, length_vec_mat, length_map, length_new_status.
Qed.

Lemma length_new_start n nm a J :
  length (new_start n nm a J) =
  Nat.min (Nat.min (length (feat_ope_start J)) (length (feat_ope_status J)))
          (Nat.min n (length (feat_ope_status J))).
Proof. unfold new_start. now rewrite length_zipw, length_start_times, length_estimate_times. Qed.

Lemma length_new_end n nm a J : length (new_end n nm a J) = length (opes_appertain_batch J).
Proof. apply length_gatherq. Qed.

Lemma length_new_busy nm ope ma J : length (new_busy nm ope ma J) = length (mach_util J).
Proof. apply length_upd. Qed.

Lemma length_mask_proc P A : length (mask_proc P A) = Nat.min (length P) (length A).
Proof. apply length_zipw. Qed.

Lemma length_prune_adj nm ope ma J : length (prune_adj nm ope ma J) = length (ope_ma_adj_batch J).
Proof. apply length_upd. Qed.

Lemma length_new_cal n ope job J : length (new_cal n ope job J) = length (cal_cumul_adj_batch J).
Proof. apply length_upd. Qed.

Lemma length_nt_d g f J : length (nt_d g f J) = Nat.min (length (mach_avail J)) (length (mach_idle J)).
Proof. apply length_zipw. Qed.

Lemma nth_row_upd (A : Type) (M : list (list A)) i o (row : list A) n k :
  (forall o, o < n -> length (nth o M []) = k) -> length row = k ->
  o < n -> length (nth o (upd M i row) []) = k.
Proof.
  intros HM Hr Ho. rewrite nth_upd.
  destruct ((i =? o) && (i <? length M)); auto.
Qed.

Lemma nth_row_mask_proc (P : list (list Q)) (A : list (list Z)) n k o :
  length P = n -> length A = n ->
  (forall o, o < n -> length (nth o P []) = k) ->
  (forall o, o < n -> length (nth o A []) = k) ->
  o < n -> length (nth o (mask_proc P A) []) = k.
Proof.
  intros H1 H2 R1 R2 Ho. unfold mask_proc.
  rewrite (nth_zipw _ P A [] [] []) by lia.
  rewrite length_zipw, R1, R2 by lia. lia.
Qed.

Ltac proj :=
  cbn [fst snd ope_pre_adj_batch ope_sub_adj_batch opes_appertain_batch num_ope_biases_batch
    nums_ope_batch end_ope_biases_batch nums_opes proc_times_batch ope_ma_adj_batch
    cal_cumul_adj_batch feat_ope_status
    feat_ope_nmas feat_ope_proc feat_ope_unsched feat_ope_end feat_ope_start feat_ma_nopes
    feat_ma_avail feat_ma_util mask_job_procing_batch mask_job_finish_batch mask_ma_procing_batch
    sched_status sched_ma sched_start sched_end mach_idle mach_avail mach_util mach_job
    time N ope_step_batch makespan_batch done_batch].

Ltac proj_in H :=
  cbn [fst snd ope_pre_adj_batch ope_sub_adj_batch opes_appertain_batch num_ope_biases_batch
    nums_ope_batch end_ope_biases_batch nums_opes proc_times_batch ope_ma_adj_batch
    cal_cumul_adj_batch feat_ope_status
    feat_ope_nmas feat_ope_proc feat_ope_unsched feat_ope_end feat_ope_start feat_ma_nopes
    feat_ma_avail feat_ma_util mask_job_procing_batch mask_job_finish_batch mask_ma_procing_batch
    sched_status sched_ma sched_start sched_end mach_idle mach_avail mach_util mach_job
    time N ope_step_batch makespan_batch done_batch] in H.

Ltac unfold_step := unfold step_inst, step_active, step_idle.

Ltac unfold_step_in H := unfold step_inst, step_active, step_idle in H.

Ltac len :=
  rewrite ?length_upd, ?length_tab, ?length_vec_mat, ?length_gatherq,
          ?length_dec_range, ?length_onehot, ?length_map, ?length_finish_of,
          ?length_release_jobs, ?length_combine, ?length_seq, ?length_utilization,
          ?length_count_opes, ?length_new_status, ?length_new_mean, ?length_new_start,
          ?length_new_end, ?length_new_busy, ?length_mask_proc, ?length_prune_adj,
          ?length_new_cal, ?length_nt_d, ?length_start_times, ?length_estimate_times,
          ?length_zipw.

Lemma shape_init_inst nj nm n ld :
  ld_shape nj nm n ld -> shape nj nm n (init_inst nj nm nm n ld).
Proof.
  intros [].
  constructor; unfold init_inst; proj; repeat len; auto; try lia.
Qed.

Lemma shape_step_inst nj nm n oa J :
  shape nj nm n J -> act_in_range nj nm n oa -> shape nj nm n (fst (step_inst n nm oa J)).
Proof.
  intros [] Hr.
  destruct oa as [[[ope ma] job]|];
    (constructor; unfold_step; proj; unfold new_unsched, new_nmas, new_ope_step, finish_mask;
     repeat len; auto; try lia).
  - intros o Ho. apply nth_row_mask_proc with (n := n); len; auto.
    intros o' Ho'. apply nth_row_upd with (n := n); auto. apply length_onehot.
  - intros o Ho. apply nth_row_upd with (n := n); auto. apply length_onehot.
  - intros o Ho. unfold new_cal. apply nth_row_upd with (n := n); auto.
    len. destruct Hr as (Hope & _ & _). apply sh_cal_row0.
    unfold last_ope. destruct (_ <? _)%Z; lia.
  - intros o Ho. apply nth_row_mask_proc with (n := n); auto.
Qed.

Lemma shape_next_time_inst nj nm n g f J :
  shape nj nm n J -> shape nj nm n (next_time_inst g f J).
Proof.
  intros [].
  constructor; unfold next_time_inst; proj;
    unfold nt_idle, nt_ma_procing, finish_mask; repeat len; auto; try lia.
Qed.

(* ------------------------------------------------------------------ *)
(** ** Slot properties of all reachable states *)

Lemma action_of_In idxes : forall acts b a, action_of idxes acts b = Some a -> In a acts.
Proof.
  induction idxes as [|i t IH]; intros [|a0 acts] b a H; simpl in H; try discriminate.
  destruct (i =? b).
  - inversion H; subst. now left.
  - right. eapply IH; eauto.
Qed.

Lemma step_core_in_range e acts e1 rw b :
  step_core e acts = Ok (e1, rw) ->
  act_in_range (num_jobs e) (num_mas e) (num_opes e) (action_of (batch_idxes e) acts b).
Proof.
  unfold step_core. destruct (_ && _) eqn:Hc; [|discriminate]. intros _.
  apply andb_prop in Hc. destruct Hc as [_ Hc].
  destruct (action_of (batch_idxes e) acts b) as [[[ope ma] job]|] eqn:Ha; simpl; auto.
  apply action_of_In in Ha. rewrite forallb_forall in Hc. apply Hc in Ha.
  unfold in_range in Ha. apply andb_prop in Ha. destruct Ha as [Ha H3].
  apply andb_prop in Ha. destruct Ha as [H1 H2].
  apply Nat.ltb_lt in H1, H2, H3. auto.
Qed.

Lemma advance_preserves (P : Inst -> Prop) :
  (forall g f J, P J -> P (next_time_inst g f J)) ->
  forall fuel e e', advance fuel e = Some e' ->
  (forall b J, nth_error (insts e) b = Some J -> P J) ->
  forall b J, nth_error (insts e') b = Some J -> P J.
Proof.
  intros Hn fuel e e' Ha Hall b J' HJ'.
  pose proof (advance_dims _ _ Ha) as (_&_&_&_&_&_&_&_&Hl).
  destruct (nth_error (insts e) b) as [J|] eqn:HJ.
  - destruct (advance_slotwise (fun J1 J2 => P J1 -> P J2)) with (fuel := fuel) (e := e)
      (e' := e') (b := b) (J := J) as (J2 & HJ2 & HP); auto.
    rewrite HJ' in HJ2. inversion HJ2; subst. apply HP. eapply Hall; eauto.
  - apply nth_error_None in HJ. apply nth_error_Some_lt in HJ'. lia.
Qed.

Lemma reachable_slots (inp : CaseInput) (P : Inst -> Prop) :
  det_num_jobs inp = para_num_jobs inp ->
  det_num_mas inp = para_num_mas inp ->
  (forall b J, nth_error (insts (init inp)) b = Some J -> P J) ->
  (forall oa J, P J ->
     act_in_range (para_num_jobs inp) (para_num_mas inp) (det_num_opes inp) oa ->
     P (fst (step_inst (det_num_opes inp) (para_num_mas inp) oa J))) ->
  (forall g f J, P J -> P (next_time_inst g f J)) ->
  forall e, reachable inp e -> forall b J, nth_error (insts e) b = Some J -> P J.
Proof.
  intros Hj Hm Hinit Hstep Hnext e Hr.
  induction Hr as [|e fuel acts e' rw dn Hr IH Hs|e flags Hr IH Hl|e Hr IH]; intros b J HJ.
  - eauto.
  - pose proof (reachable_stable Hr) as (_ & Hnj & Hnm & Hno & _).
    destruct (step_inv _ _ _ Hs) as (e1 & e2 & Hc & Ha & -> & _).
    cbn [finish_step insts] in HJ.
    revert b J HJ. apply (advance_preserves P Hnext _ _ Ha).
    intros b J HJ. destruct (step_core_slot _ _ b Hc) as [Hb1 _].
    rewrite HJ in Hb1. destruct (nth_error (insts e) b) as [J0|] eqn:HJ0; [|discriminate].
    cbn [option_map] in Hb1. inversion Hb1; subst.
    rewrite Hno, Hnm. apply Hstep; eauto.
    pose proof (step_core_in_range _ _ b Hc) as Hin. now rewrite Hnj, Hnm, Hno in Hin.
  - rewrite insts_next_time in HJ.
    destruct (nth_error flags b); [|discriminate].
    destruct (nth_error (insts e) b) eqn:HJ0; [|discriminate].
    inversion HJ; subst. eauto.
  - rewrite (reset_gives_init (reachable_stable Hr) Hj Hm) in HJ. eauto.
Qed.

Lemma init_slot inp b J :
  nth_error (insts (init inp)) b = Some J ->
  exists ld, nth_error (loads inp) b = Some ld /\
             J = init_inst (det_num_jobs inp) (det_num_mas inp) (para_num_mas inp)
                           (det_num_opes inp) ld.
Proof.
  unfold init; cbn [insts]. rewrite nth_error_map.
  destruct (nth_error (loads inp) b) as [ld|]; [|discriminate].
  cbn [option_map]. intros H; inversion H; subst. eauto.
Qed.

Lemma reachable_shape inp e b J :
  wf_shape inp -> reachable inp e -> nth_error (insts e) b = Some J ->
  shape (para_num_jobs inp) (para_num_mas inp) (det_num_opes inp) J.
Proof.
  intros (Hj & Hm & Hl & Hall) Hr HJ.
  revert e Hr b J HJ. apply reachable_slots; auto.
  - intros b J HJ. destruct (init_slot _ _ HJ) as (ld & Hld & ->).
    rewrite <- Hj, <- Hm. apply shape_init_inst.
    rewrite Forall_forall in Hall. apply Hall. eapply nth_error_In; eauto.
  - intros; now apply shape_step_inst.
  - intros; now apply shape_next_time_inst.
Qed.


(* ------------------------------------------------------------------ *)
(** ** C8: the row of a scheduled operation *)

Lemma qnth2_masked (P : list (list Q)) (A : list (list Z)) n nm o m :
  length P = n -> length A = n ->
  (forall o, o < n -> length (nth o P []) = nm) ->
  (forall o, o < n -> length (nth o A []) = nm) ->
  (qnth2 o m (mask_proc P A) == qnth2 o m P * inject_Z (znth2 o m A))%Q.
Proof.
  intros HP HA RP RA. unfold qnth2, znth2, mask_proc.
  destruct (Nat.lt_ge_cases o n) as [Ho|Ho].
  - rewrite (nth_zipw _ P A [] [] []) by lia.
    destruct (Nat.lt_ge_cases m nm) as [Hm|Hm].
    + rewrite (nth_zipw _ _ _ 0%Q 0%Q 0%Z) by (rewrite ?RP, ?RA; lia). reflexivity.
    + rewrite (nth_overflow (zipw _ _ _)) by (rewrite length_zipw, RP, RA; lia).
      rewrite (nth_overflow (nth o P [])) by (rewrite RP; lia). ring.
  - rewrite (nth_overflow (zipw _ _ _)) by (rewrite length_zipw; lia).
    rewrite (nth_overflow P) by lia. simpl. destruct m; ring.
Qed.

Lemma nth_onehot nm k m : nth m (onehot nm k) 0%Z = if (m <? nm) && (m =? k) then 1%Z else 0%Z.
Proof.
  unfold onehot. destruct (Nat.ltb_spec m nm); simpl.
  - now rewrite nth_tab.
  - apply nth_overflow. rewrite length_tab. lia.
Qed.

Lemma count_nz_onehot nm k : k < nm -> count_nz (onehot nm k) = 1.
Proof.
  unfold onehot, count_nz, tab. intros Hk.
  assert (G : forall s len, s <= k < s + len ->
            length (filter (fun z => negb (z =? 0)%Z)
                      (map (fun m => if m =? k then 1%Z else 0%Z) (seq s len))) = 1 /\
            forall s', k < s' ->
            length (filter (fun z => negb (z =? 0)%Z)
                      (map (fun m => if m =? k then 1%Z else 0%Z) (seq s' len))) = 0).
  { intros s len; revert s. induction len as [|len IH]; intros s Hs; [lia|]. split.
    - simpl. destruct (Nat.eqb_spec s k) as [->|Hn]; simpl.
      + destruct len; [reflexivity|]. f_equal.
        destruct (IH k) as [_ H0]; [lia|]. apply H0. lia.
      + apply IH. lia.
    - intros s' Hs'. simpl. destruct (Nat.eqb_spec s' k); [lia|]. simpl.
      destruct len; [reflexivity|].
      destruct (IH k) as [_ H0]; [lia|]. apply H0. lia. }
  apply (G 0 nm). lia.
Qed.

Lemma pruned_init_inst dj dm pm n ld : pruned pm (init_inst dj dm pm n ld).
Proof.
  intros o H. unfold init_inst in H. proj_in H. unfold qnth in H.
  destruct (Nat.lt_ge_cases o n).
  - rewrite nth_tab in H by auto. discriminate.
  - rewrite nth_overflow in H by (rewrite length_tab; lia). discriminate.
Qed.

Lemma pruned_step_inst nj nm n oa J :
  shape nj nm n J -> pruned nm J -> act_in_range nj nm n oa ->
  pruned nm (fst (step_inst n nm oa J)).
Proof.
  intros Hsh Hp Hr o Hst.
  assert (Ho : o < n).
  { destruct (Nat.lt_ge_cases o n) as [|Hge]; auto. exfalso.
    pose proof (@shape_step_inst nj nm n oa J Hsh Hr) as Hsh'.
    unfold qnth in Hst. rewrite nth_overflow in Hst by (rewrite (sh_s0 Hsh'); lia).
    discriminate. }
  assert (Hrows : forall ope ma o', o' < n -> length (nth o' (prune_adj nm ope ma J) []) = nm).
  { intros ope ma o' Ho'. apply nth_row_upd with (n := n); auto.
    apply (sh_adj_row Hsh). apply length_onehot. }
  destruct oa as [[[ope ma] job]|]; unfold_step; unfold_step_in Hst; proj; proj_in Hst.
  - destruct Hr as (Hope & Hma & Hjob).
    unfold qnth in Hst. rewrite nth_upd in Hst. rewrite nth_upd.
    unfold prune_adj at 1. rewrite (nth_upd (ope_ma_adj_batch J)).
    rewrite (sh_s0 Hsh) in Hst. rewrite (sh_s1 Hsh), (sh_adj Hsh).
    destruct (Nat.eqb_spec ope o) as [->|Hne]; cbn [andb] in *.
    + apply Nat.ltb_lt in Ho. rewrite Ho. repeat split; auto.
      intros m Hm.
      rewrite (@qnth2_masked _ _ n nm); auto.
      * unfold znth2, prune_adj.
        rewrite nth_upd_eq by (rewrite (sh_adj Hsh); now apply Nat.ltb_lt).
        rewrite nth_onehot. destruct (Nat.eqb_spec m ma); [contradiction|].
        rewrite andb_false_r. simpl. ring.
      * apply (sh_proc Hsh).
      * rewrite length_prune_adj. apply (sh_adj Hsh).
      * apply (sh_proc_row Hsh).
    + destruct (Hp o Hst) as (H1 & H2 & H3). repeat split; auto.
      intros m Hm.
      rewrite (@qnth2_masked _ _ n nm); auto.
      * rewrite (H3 m Hm). ring.
      * apply (sh_proc Hsh).
      * rewrite length_prune_adj. apply (sh_adj Hsh).
      * apply (sh_proc_row Hsh).
  - destruct (Hp o Hst) as (H1 & H2 & H3). repeat split; auto.
    intros m Hm.
    rewrite (@qnth2_masked _ _ n nm); auto.
    + rewrite (H3 m Hm). ring.
    + apply (sh_proc Hsh).
    + apply (sh_adj Hsh).
    + apply (sh_proc_row Hsh).
    + apply (sh_adj_row Hsh).
Qed.

Lemma pruned_next_time_inst nm g f J : pruned nm J -> pruned nm (next_time_inst g f J).
Proof. intros Hp o Hst. exact (Hp o Hst). Qed.

Lemma reachable_pruned inp e b J :
  wf_shape inp -> reachable inp e -> nth_error (insts e) b = Some J ->
  shape (para_num_jobs inp) (para_num_mas inp) (det_num_opes inp) J /\
  pruned (para_num_mas inp) J.
Proof.
  intros Hwf Hr HJ. pose proof Hwf as (Hj & Hm & Hl & Hall).
  revert e Hr b J HJ. apply reachable_slots; auto.
  - intros b J HJ. split.
    + apply (reachable_shape b Hwf (reach_init inp) HJ).
    + destruct (init_slot _ _ HJ) as (ld & Hld & ->). apply pruned_init_inst.
  - intros oa J [Hs Hp] Hin. split.
    + now apply shape_step_inst.
    + eapply pruned_step_inst; eauto.
  - intros g f J [Hs Hp]. split.
    + now apply shape_next_time_inst.
    + now apply pruned_next_time_inst.
Qed.

(** Right after a decision [(ope, ma, job)] the schedule of the slot
    records [ope] as scheduled on [ma]. *)
Lemma step_inst_records nj nm n ope ma job J :
  shape nj nm n J -> ope < n ->
  qnth ope (sched_status (fst (step_inst n nm (Some (ope, ma, job)) J))) = 1%Q /\
  nth ope (sched_ma (fst (step_inst n nm (Some (ope, ma, job)) J))) 0 = ma.
Proof.
  intros Hsh Ho. unfold_step; proj. unfold qnth.
  rewrite !nth_upd_eq; auto.
  - rewrite (sh_s1 Hsh); auto.
  - rewrite (sh_s0 Hsh); auto.
Qed.

(** C8. In every reachable state the adjacency row of an operation whose
    schedule entry is marked scheduled is the one-hot row of the machine
    recorded for it (exactly one nonzero entry, at that machine) and the
    processing-time row is zero everywhere else; a decision [(ope, ma, job)]
    records [ma] for [ope]. *)
Theorem scheduled_row_pruned (inp : CaseInput) (e : Env) (b : nat) (J : Inst) (o : nat) :
  wf_shape inp ->
  reachable inp e ->
  nth_error (insts e) b = Some J ->
  (qnth o (sched_status J) == 1)%Q ->
  let ma := nth o (sched_ma J) 0 in
  ma < num_mas e /\
  nth o (ope_ma_adj_batch J) [] = onehot (num_mas e) ma /\
  count_nz (nth o (ope_ma_adj_batch J) []) = 1 /\
  znth2 o ma (ope_ma_adj_batch J) = 1%Z /\
  (forall m, m <> ma -> znth2 o m (ope_ma_adj_batch J) = 0%Z) /\
  (forall m, m <> ma -> (qnth2 o m (proc_times_batch J) == 0)%Q) /\
  (forall ope ma' job, ope < num_opes e ->
     let J' := fst (step_inst (num_opes e) (num_mas e) (Some (ope, ma', job)) J) in
     qnth ope (sched_status J') = 1%Q /\ nth ope (sched_ma J') 0 = ma').
Proof.
  intros Hwf Hr HJ Hst ma.
  destruct (reachable_pruned b Hwf Hr HJ) as [Hsh Hp].
  pose proof (reachable_stable Hr) as (_ & _ & Hnm & Hno & _).
  rewrite Hnm, Hno.
  destruct (Hp o Hst) as (H1 & H2 & H3). fold ma in H1, H2, H3.
  repeat split; auto.
  - rewrite H2. now apply count_nz_onehot.
  - unfold znth2. rewrite H2, nth_onehot.
    apply Nat.ltb_lt in H1. now rewrite H1, Nat.eqb_refl.
  - intros m Hm. unfold znth2. rewrite H2, nth_onehot.
    destruct (Nat.eqb_spec m ma); [contradiction|]. now rewrite andb_false_r.
  - intros; subst. eapply step_inst_records; eauto.
  - intros; subst. eapply step_inst_records; eauto.
Qed.

(* ------------------------------------------------------------------ *)
(** ** C9: the utilization feature *)

Lemma advance_last fuel : forall e e',
  advance fuel e = Some e' -> e' = e \/ exists e0, e' = next_time e0 (if_no_eligible e0).
Proof.
  induction fuel as [|k IH]; intros e e' Ha; simpl in Ha;
    destruct (some_need_trans e (if_no_eligible e)); try discriminate.
  - inversion Ha; auto.
  - destruct (IH _ _ Ha) as [->|H]; eauto.
  - inversion Ha; auto.
Qed.

Lemma nth_utilization eps busy t m :
  m < length busy -> qnth m (utilization eps busy t) = util_value eps (qnth m busy) t.
Proof.
  intros Hm. unfold utilization, qnth, util_value.
  rewrite (nth_indep _ 0%Q ((fun u => (qminb u t / (t + eps))%Q) 0%Q))
    by (rewrite length_map; auto).
  now rewrite (map_nth (fun u => (qminb u t / (t + eps))%Q)).
Qed.

Lemma qminb_spec x y : (qminb x y == x /\ x <= y)%Q \/ (qminb x y == y /\ y <= x)%Q.
Proof.
  unfold qminb. destruct (Qle_bool x y) eqn:H.
  - left. split; [reflexivity|now apply Qle_bool_iff].
  - right. split; [reflexivity|].
    destruct (Qlt_le_dec y x) as [Hlt|Hle]; [now apply Qlt_le_weak|].
    apply Qle_bool_iff in Hle. congruence.
Qed.

Lemma util_value_zero eps busy t :
  (t == 0)%Q -> (0 <= busy)%Q -> (util_value eps busy t == 0)%Q.
Proof.
  intros Ht Hb. unfold util_value.
  assert (Hm : (qminb busy t == 0)%Q).
  { destruct (qminb_spec busy t) as [[H1 H2]|[H1 H2]]; lra. }
  rewrite Hm. unfold Qdiv. ring.
Qed.

Lemma next_time_inst_util g f J :
  feat_ma_util (next_time_inst g f J) =
  utilization eps5 (mach_util (next_time_inst g f J)) (time (next_time_inst g f J)).
Proof. reflexivity. Qed.

Lemma step_active_util n nm a J :
  feat_ma_util (fst (step_inst n nm (Some a) J)) =
  utilization eps9 (mach_util (fst (step_inst n nm (Some a) J)))
              (time (fst (step_inst n nm (Some a) J))).
Proof. destruct a as [[ope ma] job]. reflexivity. Qed.

Lemma step_idle_util n nm J :
  feat_ma_util (fst (step_inst n nm None J)) = feat_ma_util J.
Proof. reflexivity. Qed.

Lemma next_time_util e flags b J' :
  nth_error (insts (next_time e flags)) b = Some J' ->
  feat_ma_util J' = utilization eps5 (mach_util J') (time J').
Proof.
  rewrite insts_next_time.
  destruct (nth_error flags b); [|discriminate].
  destruct (nth_error (insts e) b); [|discriminate].
  intros H; inversion H; subst. apply next_time_inst_util.
Qed.

Lemma step_util fuel e acts e' rw dn b J J' :
  step fuel e acts = Ok (e', rw, dn) ->
  nth_error (insts e) b = Some J ->
  nth_error (insts e') b = Some J' ->
  feat_ma_util J' = utilization eps5 (mach_util J') (time J') \/
  feat_ma_util J' = utilization eps9 (mach_util J') (time J') \/
  feat_ma_util J' = feat_ma_util J.
Proof.
  intros Hs HJ HJ'.
  destruct (step_inv _ _ _ Hs) as (e1 & e2 & Hc & Ha & -> & _).
  cbn [finish_step insts] in HJ'.
  destruct (advance_last _ _ Ha) as [->|[e0 ->]].
  - destruct (step_core_slot _ _ b Hc) as [Hb1 _]. rewrite HJ, HJ' in Hb1.
    cbn [option_map] in Hb1. inversion Hb1; subst.
    destruct (action_of (batch_idxes e) acts b) as [a|].
    + right; left. apply step_active_util.
    + right; right. apply step_idle_util.
  - left. eapply next_time_util; eauto.
Qed.

(** C9 as the code has it. After [next_time] the utilization of machine [m]
    is min(busy time, clock) / (clock + 1e-5) in every slot; the decision
    part of [step] writes min(busy time, clock) / (clock + 1e-9) in the
    active slots, so after [step] a slot carries one of the two or, outside
    the active slots when no time advance ran, its old value; with clock 0
    and a non-negative busy time both formulas give 0. *)
Theorem utilization_formula (e : Env) (flags : list Q) (b : nat) (J' : Inst) (m : nat) :
  nth_error (insts (next_time e flags)) b = Some J' ->
  m < length (mach_util J') ->
  qnth m (feat_ma_util J') = util_value eps5 (qnth m (mach_util J')) (time J') /\
  (forall n nm a J,
      m < length (mach_util (fst (step_inst n nm (Some a) J))) ->
      qnth m (feat_ma_util (fst (step_inst n nm (Some a) J))) =
      util_value eps9 (qnth m (mach_util (fst (step_inst n nm (Some a) J))))
                 (time (fst (step_inst n nm (Some a) J)))) /\
  (forall fuel e0 acts e1 rw dn J0 J1,
      step fuel e0 acts = Ok (e1, rw, dn) ->
      nth_error (insts e0) b = Some J0 ->
      nth_error (insts e1) b = Some J1 ->
      m < length (mach_util J1) ->
      qnth m (feat_ma_util J1) = util_value eps5 (qnth m (mach_util J1)) (time J1) \/
      qnth m (feat_ma_util J1) = util_value eps9 (qnth m (mach_util J1)) (time J1) \/
      feat_ma_util J1 = feat_ma_util J0) /\
  (forall eps busy t, (t == 0)%Q -> (0 <= busy)%Q -> (util_value eps busy t == 0)%Q).
Proof.
  intros HJ' Hm. repeat split.
  - rewrite (next_time_util _ _ _ HJ'). now apply nth_utilization.
  - intros n nm a J Hm1. rewrite step_active_util. now apply nth_utilization.
  - intros fuel e0 acts e1 rw dn J0 J1 Hs H0 H1 Hm1.
    destruct (@step_util fuel e0 acts e1 rw dn b J0 J1 Hs H0 H1) as [H|[H|H]].
    + left. rewrite H. now apply nth_utilization.
    + right; left. rewrite H. now apply nth_utilization.
    + right; right. exact H.
  - intros. now apply util_value_zero.
Qed.

(** The claim fails on the code: after the first decision on the
    one-machine instance the clock is 10, the machine was busy for 10, and
    the feature is 10 / (10 + 1e-5), not 10 / 10. *)
Lemma utilization_not_busy_over_clock :
  match slot_after_step 1 (init skew_input) [(0, 0, 0)] 0 with
  | Some J => Qle_bool (time J) 0 || util_is_busy_over_clock 0 J
  | None => true
  end = false.
Proof. vm_compute. reflexivity. Qed.

(* ------------------------------------------------------------------ *)
(** ** The entries of the tensors after a decision *)

Section StepEntries.
Variables nj nm n : nat.
Variable J : Inst.
Hypothesis Hsh : shape nj nm n J.
Variables ope ma job : nat.
Hypothesis Hope : ope < n.

Lemma nth_new_status o :
  qnth o (new_status ope J) = if ope =? o then 1%Q else qnth o (feat_ope_status J).
Proof.
  unfold new_status, qnth. rewrite nth_upd, (sh_f0 Hsh).
  apply Nat.ltb_lt in Hope. rewrite Hope, andb_true_r. reflexivity.
Qed.

Lemma nth_new_mean o :
  qnth o (new_mean nm ope ma J) =
  if ope =? o then sel_proc_time nm ope ma J else qnth o (feat_ope_proc J).
Proof.
  unfold new_mean, qnth. rewrite nth_upd, (sh_f2 Hsh).
  apply Nat.ltb_lt in Hope. rewrite Hope, andb_true_r. reflexivity.
Qed.

Lemma sel_proc_time_eq :
  ma < nm -> (sel_proc_time nm ope ma J == qnth2 ope ma (proc_times_batch J))%Q.
Proof.
  intros Hma. unfold sel_proc_time.
  rewrite (@qnth2_masked _ _ n nm).
  - unfold znth2, prune_adj. rewrite nth_upd_eq by (rewrite (sh_adj Hsh); auto).
    rewrite nth_onehot. apply Nat.ltb_lt in Hma. rewrite Hma, Nat.eqb_refl. simpl. ring.
  - apply (sh_proc Hsh).
  - rewrite length_prune_adj. apply (sh_adj Hsh).
  - apply (sh_proc_row Hsh).
  - intros o' Ho'. apply nth_row_upd with (n := n); auto.
    apply (sh_adj_row Hsh). apply length_onehot.
Qed.

Lemma nth_start_times o :
  o < n ->
  qnth o (start_times ope J) =
  ((if ope =? o then time J else qnth o (feat_ope_start J)) * qnth o (new_status ope J))%Q.
Proof.
  intros Ho. unfold start_times, qnth at 1.
  rewrite (nth_zipw Qmult _ _ 0%Q 0%Q 0%Q)
    by (rewrite ?length_upd, ?length_new_status, ?(sh_f5 Hsh), ?(sh_f0 Hsh); auto).
  rewrite nth_upd, (sh_f5 Hsh).
  apply Nat.ltb_lt in Hope. rewrite Hope, andb_true_r. reflexivity.
Qed.

Lemma nth_estimate_times o :
  o < n ->
  qnth o (estimate_times n nm (ope, ma, job) J) =
  (qnth o (vec_mat (zipw Qplus (start_times ope J) (new_mean nm ope ma J))
                   (new_cal n ope job J) n)
   * (1 - qnth o (new_status ope J)))%Q.
Proof using Hsh Hope.
  intros Ho. unfold estimate_times, qnth at 1.
  rewrite (nth_zipw Qmult _ _ 0%Q 0%Q (1 - 0)%Q)
    by (rewrite ?length_vec_mat, ?length_map, ?length_new_status, ?(sh_f0 Hsh); auto).
  rewrite (map_nth (fun s => (1 - s)%Q)). reflexivity.
Qed.

Lemma nth_new_start o :
  o < n ->
  qnth o (new_start n nm (ope, ma, job) J) =
  (qnth o (start_times ope J) + qnth o (estimate_times n nm (ope, ma, job) J))%Q.
Proof.
  intros Ho. unfold new_start, qnth at 1. cbn [fst].
  rewrite (nth_zipw Qplus _ _ 0%Q 0%Q 0%Q); auto.
  - rewrite length_start_times, (sh_f5 Hsh), (sh_f0 Hsh). lia.
  - rewrite length_estimate_times, (sh_f0 Hsh). lia.
Qed.

(** The start of the chosen operation is the clock. *)
Lemma new_start_ope : (qnth ope (new_start n nm (ope, ma, job) J) == time J)%Q.
Proof.
  rewrite nth_new_start, nth_start_times, nth_estimate_times by auto.
  rewrite nth_new_status, Nat.eqb_refl. ring.
Qed.

(** A scheduled operation keeps its start. *)
Lemma new_start_scheduled o :
  o < n -> o <> ope -> qnth o (feat_ope_status J) = 1%Q ->
  (qnth o (new_start n nm (ope, ma, job) J) == qnth o (feat_ope_start J))%Q.
Proof.
  intros Ho Hne H1.
  rewrite nth_new_start, nth_start_times, nth_estimate_times by auto.
  rewrite nth_new_status. destruct (Nat.eqb_spec ope o); [congruence|].
  rewrite H1. ring.
Qed.

Lemma nth_sched_end o :
  o < n ->
  qnth o (sched_end (fst (step_inst n nm (Some (ope, ma, job)) J))) =
  (qnth o (new_start n nm (ope, ma, job) J) + qnth o (new_mean nm ope ma J))%Q.
Proof.
  intros Ho. unfold_step; proj. unfold qnth at 1.
  rewrite (nth_zipw Qplus _ _ 0%Q 0%Q 0%Q); auto.
  - rewrite length_new_start, (sh_f5 Hsh), (sh_f0 Hsh). lia.
  - rewrite length_new_mean, (sh_f2 Hsh). lia.
Qed.
End StepEntries.

(* ------------------------------------------------------------------ *)
(** ** C4: decisions are not checked for eligibility *)

Lemma step_not_index_error fuel e acts :
  length acts = length (batch_idxes e) ->
  forallb (in_range e) acts = true ->
  step fuel e acts <> IndexError.
Proof.
  intros Hl Hr. unfold step, step_core.
  apply Nat.eqb_eq in Hl. rewrite Hl, Hr. cbn [andb].
  destruct (advance fuel _); discriminate.
Qed.

Lemma step_inst_zero_duration nj nm n ope ma job J :
  shape nj nm n J -> ope < n -> ma < nm ->
  (qnth2 ope ma (proc_times_batch J) == 0)%Q ->
  let J1 := fst (step_inst n nm (Some (ope, ma, job)) J) in
  qnth ope (sched_status J1) = 1%Q /\ nth ope (sched_ma J1) 0 = ma /\
  (qnth ope (sched_start J1) == time J)%Q /\ (qnth ope (sched_end J1) == time J)%Q.
Proof.
  intros Hsh Ho Hm Hz J1.
  destruct (@step_inst_records nj nm n ope ma job J Hsh Ho) as [H1 H2].
  repeat split; auto.
  - unfold J1. unfold_step; proj. now apply new_start_ope with (nj := nj).
  - unfold J1. rewrite (@nth_sched_end nj nm n J Hsh ope ma job Ho ope Ho).
    rewrite (@new_start_ope nj nm n J Hsh ope ma job Ho).
    rewrite (@nth_new_mean nj nm n J Hsh ope ma Ho), Nat.eqb_refl.
    rewrite (@sel_proc_time_eq nj nm n J Hsh ope ma Ho Hm), Hz. ring.
Qed.

(** C4 as the code has it: [step] has no eligibility check. Decisions
    with indices in range never raise, and whenever [step] returns, an
    operation assigned to a machine whose processing-time entry is 0 is
    recorded as scheduled on that machine with start and end equal to the
    clock of the slot. *)
Theorem step_records_ineligible (inp : CaseInput) (fuel : nat) (e e' : Env)
        (acts : list Action) (rw : list Q) (dn : list bool)
        (b ope ma job : nat) (J : Inst) :
  wf_shape inp ->
  reachable inp e ->
  step fuel e acts = Ok (e', rw, dn) ->
  nth_error (insts e) b = Some J ->
  action_of (batch_idxes e) acts b = Some (ope, ma, job) ->
  (qnth2 ope ma (proc_times_batch J) == 0)%Q ->
  (exists J', nth_error (insts e') b = Some J' /\
     qnth ope (sched_status J') = 1%Q /\ nth ope (sched_ma J') 0 = ma /\
     (qnth ope (sched_start J') == time J)%Q /\ (qnth ope (sched_end J') == time J)%Q) /\
  (forall fuel' acts', length acts' = length (batch_idxes e) ->
     forallb (in_range e) acts' = true -> step fuel' e acts' <> IndexError).
Proof.
  intros Hwf Hr Hs HJ Ha Hz. split; [|intros; now apply step_not_index_error].
  pose proof (reachable_shape b Hwf Hr HJ) as Hsh.
  pose proof (reachable_stable Hr) as (_ & Hnj & Hnm & Hno & _).
  destruct (step_inv _ _ _ Hs) as (e1 & e2 & Hc & Hadv & -> & _).
  pose proof (step_core_in_range _ _ b Hc) as Hin. rewrite Ha in Hin.
  destruct Hin as (Ho & Hm & Hj). rewrite Hno in Ho. rewrite Hnm in Hm.
  destruct (step_core_slot _ _ b Hc) as [Hb1 _]. rewrite HJ, Ha in Hb1.
  cbn [option_map] in Hb1. rewrite Hno, Hnm in Hb1.
  assert (HR : exists J', nth_error (insts e2) b = Some J' /\
     (sched_status J' = sched_status
        (fst (step_inst (det_num_opes inp) (para_num_mas inp) (Some (ope, ma, job)) J)) /\
      sched_ma J' = sched_ma
        (fst (step_inst (det_num_opes inp) (para_num_mas inp) (Some (ope, ma, job)) J)) /\
      sched_start J' = sched_start
        (fst (step_inst (det_num_opes inp) (para_num_mas inp) (Some (ope, ma, job)) J)) /\
      sched_end J' = sched_end
        (fst (step_inst (det_num_opes inp) (para_num_mas inp) (Some (ope, ma, job)) J)))).
  { apply (advance_slotwise
              (fun J1 J2 => sched_status J2 = sched_status J1 /\ sched_ma J2 = sched_ma J1 /\
                            sched_start J2 = sched_start J1 /\ sched_end J2 = sched_end J1))
      with (fuel := fuel) (e := e1); auto.
    intros ? ? ? (?&?&?&?) (?&?&?&?); repeat split; congruence. }
  destruct HR as (J' & HJ' & E1 & E2 & E3 & E4).
  exists J'. cbn [finish_step insts]. split; auto.
  rewrite E1, E2, E3, E4.
  now apply step_inst_zero_duration with (nj := para_num_jobs inp).
Qed.

(** The claim fails on the code: on the instance whose operation 0 is not
    eligible on machine 1, the decision (0, 1, 0) is accepted and recorded
    with duration 0. *)
Lemma ineligible_pair_is_scheduled :
  Qeq_bool (qnth2 0 1 (ld_proc_time gap_load)) 0 = true /\
  match slot_after_step 1 (init gap_input) [(0, 1, 0)] 0 with
  | Some J => recorded_with_zero_duration 0 1 J
  | None => false
  end = true.
Proof. split; vm_compute; reflexivity. Qed.

(* ------------------------------------------------------------------ *)
(** ** C5: the duration check of [validate_gantt] *)

(** [validate_gantt] returns the schedule of the environment unchanged,
    and passes the one-entry schedule whose entry lasts 5 although the
    operation takes 3 on its machine: the scan leaves before it looks at
    the duration of the last entry of a machine. *)
Theorem validate_gantt_misses_last_entry :
  snd (validate_gantt odd_env) = map schedules_of (insts odd_env) /\
  fst (validate_gantt odd_env) = true /\
  ma_gantt odd_inst 0 = [(0, 0%Q, 5%Q)] /\
  Qeq_bool (5 - 0) (qnth2 0 0 (proc_times_batch odd_inst)) = false /\
  (forall proc i x, scan_machine proc i [x] = (0, 0)).
Proof. repeat split; vm_compute; reflexivity. Qed.

(* ------------------------------------------------------------------ *)
(** ** Sums, maxima and minima *)

Unset Implicit Arguments.

Lemma qsum_nonneg l : (forall x, In x l -> (0 <= x)%Q) -> (0 <= qsum l)%Q.
Proof.
  induction l as [|h t IH]; intros H; simpl; [lra|].
  assert (0 <= h)%Q by (apply H; now left).
  assert (0 <= qsum t)%Q by (apply IH; intros; apply H; now right). lra.
Qed.

Lemma qsum_ge_term l x :
  (forall y, In y l -> (0 <= y)%Q) -> In x l -> (x <= qsum l)%Q.
Proof.
  induction l as [|h t IH]; intros H Hx; simpl; [contradiction|].
  assert (0 <= h)%Q by (apply H; now left).
  assert (0 <= qsum t)%Q by (apply qsum_nonneg; intros; apply H; now right).
  destruct Hx as [->|Hx]; [lra|].
  assert (x <= qsum t)%Q by (apply IH; auto; intros; apply H; now right). lra.
Qed.

Lemma in_tab (A : Type) n (f : nat -> A) x : In x (tab n f) <-> exists i, i < n /\ x = f i.
Proof.
  unfold tab. rewrite in_map_iff. split.
  - intros (i & <- & Hi). apply in_seq in Hi. exists i. split; [lia|reflexivity].
  - intros (i & Hi & ->). exists i. split; auto. apply in_seq. lia.
Qed.

Lemma qsum_tab_nonneg n f : (forall i, i < n -> (0 <= f i)%Q) -> (0 <= qsum (tab n f))%Q.
Proof.
  intros H. apply qsum_nonneg. intros x Hx. apply in_tab in Hx.
  destruct Hx as (i & Hi & ->). auto.
Qed.

Lemma qsum_tab_ge n f i :
  (forall i, i < n -> (0 <= f i)%Q) -> i < n -> (f i <= qsum (tab n f))%Q.
Proof.
  intros H Hi. apply qsum_ge_term.
  - intros x Hx. apply in_tab in Hx. destruct Hx as (k & Hk & ->). auto.
  - apply in_tab. eauto.
Qed.

Lemma in_zipw (A B C : Type) (f : A -> B -> C) l1 l2 x (da : A) (db : B) :
  In x (zipw f l1 l2) <->
  exists i, i < length l1 /\ i < length l2 /\ x = f (nth i l1 da) (nth i l2 db).
Proof.
  revert l2; induction l1 as [|a t IH]; intros [|b t2]; simpl.
  - split; [contradiction|intros (i & H & _); lia].
  - split; [contradiction|intros (i & H & _); lia].
  - split; [contradiction|intros (i & _ & H & _); lia].
  - rewrite IH. split.
    + intros [<-|(i & H1 & H2 & ->)].
      * exists 0. repeat split; lia.
      * exists (S i). repeat split; lia.
    + intros ([|i] & H1 & H2 & ->); [now left|].
      right. exists i. repeat split; lia.
Qed.

Lemma qmaxb_spec x y : (x <= qmaxb x y)%Q /\ (y <= qmaxb x y)%Q /\
                       (qmaxb x y = x \/ qmaxb x y = y).
Proof.
  unfold qmaxb. destruct (Qle_bool x y) eqn:H.
  - apply Qle_bool_iff in H. repeat split; auto; lra.
  - assert (y <= x)%Q.
    { destruct (Qlt_le_dec y x) as [Hlt|Hle]; [now apply Qlt_le_weak|].
      apply Qle_bool_iff in Hle. congruence. }
    repeat split; auto; lra.
Qed.

Lemma qminb_le x y : (qminb x y <= x)%Q /\ (qminb x y <= y)%Q /\
                     (qminb x y = x \/ qminb x y = y).
Proof.
  unfold qminb. destruct (Qle_bool x y) eqn:H.
  - apply Qle_bool_iff in H. repeat split; auto; lra.
  - assert (y <= x)%Q.
    { destruct (Qlt_le_dec y x) as [Hlt|Hle]; [now apply Qlt_le_weak|].
      apply Qle_bool_iff in Hle. congruence. }
    repeat split; auto; lra.
Qed.

Lemma list_max_ge l x : In x l -> (x <= list_max l)%Q.
Proof.
  induction l as [|h t IH]; intros Hx; [contradiction|].
  cbn [list_max]. destruct t as [|h2 t2].
  - destruct Hx as [->|[]]. lra.
  - destruct (qmaxb_spec h (list_max (h2 :: t2))) as (H1 & H2 & _).
    destruct Hx as [->|Hx]; auto.
    specialize (IH Hx). lra.
Qed.

Lemma list_min_le l x : In x l -> (list_min l <= x)%Q.
Proof.
  induction l as [|h t IH]; intros Hx; [contradiction|].
  cbn [list_min]. destruct t as [|h2 t2].
  - destruct Hx as [->|[]]. lra.
  - destruct (qminb_le h (list_min (h2 :: t2))) as (H1 & H2 & _).
    destruct Hx as [->|Hx]; auto.
    specialize (IH Hx). lra.
Qed.

Lemma list_min_in l : l <> [] -> In (list_min l) l.
Proof.
  induction l as [|h t IH]; intros Hn; [congruence|].
  cbn [list_min]. destruct t as [|h2 t2]; [now left|].
  destruct (qminb_le h (list_min (h2 :: t2))) as (_ & _ & [->| ->]).
  - now left.
  - right. apply IH. discriminate.
Qed.

Lemma nth_In_q l i : i < length l -> In (qnth i l) l.
Proof. intros. unfold qnth. now apply nth_In. Qed.

Lemma nth_vec_mat v M n o :
  o < n ->
  qnth o (vec_mat v M n) = qsum (tab (length v) (fun i => (qnth i v * qnth2 i o M)%Q)).
Proof. intros Ho. unfold vec_mat, qnth at 1. now rewrite nth_tab. Qed.

Lemma nth_gatherq v idx k :
  k < length idx -> qnth k (gatherq v idx) = qnth (nth k idx 0) v.
Proof.
  intros Hk. unfold gatherq, qnth at 1.
  rewrite (nth_indep _ 0%Q ((fun i => qnth i v) 0)) by (rewrite length_map; auto).
  now rewrite (map_nth (fun i => qnth i v)).
Qed.

(* ------------------------------------------------------------------ *)
(** ** Job ranges *)

Lemma length_prefix_from l : forall s, length (prefix_from s l) = length l.
Proof. induction l as [|k t IH]; intros s; simpl; auto. Qed.

Lemma prefix_from_bounds l : forall s j, j < length l ->
  s <= nth j (prefix_from s l) 0 /\
  nth j (prefix_from s l) 0 + nth j l 0 <= s + list_sum l.
Proof.
  induction l as [|k t IH]; intros s j Hj; simpl in *; [lia|].
  destruct j as [|j]; [lia|].
  destruct (IH (s + k) j) as [H1 H2]; lia.
Qed.

Lemma prefix_from_ordered l : forall s j1 j2, j1 < j2 -> j2 < length l ->
  nth j1 (prefix_from s l) 0 + nth j1 l 0 <= nth j2 (prefix_from s l) 0.
Proof.
  induction l as [|k t IH]; intros s j1 j2 H12 Hj; simpl in *; [lia|].
  destruct j2 as [|j2]; [lia|]. destruct j1 as [|j1].
  - destruct (prefix_from_bounds t (s + k) j2) as [H1 _]; lia.
  - apply IH; lia.
Qed.

Lemma prefix_from_cover l : forall s o, s <= o < s + list_sum l ->
  exists j, j < length l /\
            nth j (prefix_from s l) 0 <= o < nth j (prefix_from s l) 0 + nth j l 0.
Proof.
  induction l as [|k t IH]; intros s o Ho; simpl in *; [lia|].
  destruct (Nat.lt_ge_cases o (s + k)) as [Hlt|Hge].
  - exists 0. split; lia.
  - destruct (IH (s + k) o) as (j & Hj & H); [lia|].
    exists (S j). split; [lia|exact H].
Qed.

Section Jobs.
Variables nj nm n : nat.
Variable J : Inst.
Hypothesis HI : Inv nj nm n J.

Lemma job_lengths : length (nums_ope_batch J) = nj.
Proof. apply (sh_nums (iv_shape HI)). Qed.

Lemma in_job_bound j o : j < nj -> in_job J j o -> o < nums_opes J /\ o < n.
Proof.
  intros Hj [H1 H2]. unfold bias_of, nums_of in *.
  destruct (iv_total HI) as [Ht Hn]. rewrite (iv_biases HI) in *.
  destruct (prefix_from_bounds (nums_ope_batch J) 0 j) as [_ Hb];
    [rewrite job_lengths; auto|]. lia.
Qed.

Lemma in_job_unique j1 j2 o : j1 < nj -> j2 < nj -> in_job J j1 o -> in_job J j2 o -> j1 = j2.
Proof.
  intros H1 H2 I1 I2.
  rewrite <- (iv_appertain HI H1 I1). now rewrite <- (iv_appertain HI H2 I2).
Qed.

Lemma in_job_cover o : o < nums_opes J -> exists j, j < nj /\ in_job J j o.
Proof.
  intros Ho. destruct (iv_total HI) as [Ht _].
  destruct (prefix_from_cover (nums_ope_batch J) 0 o) as (j & Hj & H); [lia|].
  exists j. rewrite job_lengths in Hj. split; auto.
  unfold in_job, bias_of, nums_of. now rewrite (iv_biases HI).
Qed.

Lemma end_index j : j < nj ->
  nth j (end_ope_biases_batch J) 0 + 1 = bias_of J j + nums_of J j.
Proof.
  intros Hj. rewrite (iv_ends HI Hj). pose proof (iv_nums HI Hj). lia.
Qed.

(** Every operation is scheduled (status 1) or not (status 0). *)
Lemma status_cases o :
  qnth o (feat_ope_status J) = 1%Q \/ qnth o (feat_ope_status J) = 0%Q.
Proof.
  destruct (Nat.lt_ge_cases o (nums_opes J)) as [Ho|Ho].
  - destruct (in_job_cover o Ho) as (j & Hj & Hin).
    destruct (iv_status HI Hj Hin) as [H1 H0].
    destruct (Nat.lt_ge_cases o (step_of J j)); auto.
  - right. now apply (iv_padding HI).
Qed.

Lemma status_one_scheduled o :
  qnth o (feat_ope_status J) = 1%Q ->
  exists j, j < nj /\ in_job J j o /\ o < step_of J j.
Proof.
  intros H1.
  destruct (Nat.lt_ge_cases o (nums_opes J)) as [Ho|Ho].
  - destruct (in_job_cover o Ho) as (j & Hj & Hin).
    exists j. repeat split; auto; try apply Hin.
    destruct (Nat.lt_ge_cases o (step_of J j)) as [|Hge]; auto.
    destruct (iv_status HI Hj Hin) as [_ H0]. rewrite (H0 Hge) in H1. discriminate.
  - pose proof (iv_padding HI) as Hp. rewrite (Hp o Ho) in H1. discriminate.
Qed.

Lemma finish_mask_nth j : j < nj ->
  nth j (finish_mask J) false = nth j (mask_job_finish_batch J) false.
Proof.
  intros Hj. unfold finish_mask, finish_of.
  pose proof (iv_shape HI) as Hsh.
  rewrite (nth_zipw _ _ _ false (0, 0) false)
    by (rewrite ?length_combine, ?(sh_ope_step Hsh), ?(sh_ends Hsh), ?(sh_job_finish Hsh); lia).
  rewrite combine_nth by (rewrite (sh_ope_step Hsh), (sh_ends Hsh); auto).
  cbn [fst snd]. destruct (Nat.eqb_spec (nth j (ope_step_batch J) 0)
                                        (nth j (end_ope_biases_batch J) 0 + 1)) as [He|He]; auto.
  symmetry. apply (iv_finish HI Hj). unfold step_of. rewrite He. now apply end_index.
Qed.
End Jobs.

(* ------------------------------------------------------------------ *)
(** ** Non-negative vectors *)

Lemma qnth_default l o : length l <= o -> qnth o l = 0%Q.
Proof. intros H. unfold qnth. now apply nth_overflow. Qed.

Lemma qnth_tab n f o : o < n -> qnth o (tab n f) = f o.
Proof. intros H. unfold qnth. now apply nth_tab. Qed.

Lemma qnth_tab_const n c o : qnth o (tab n (fun _ => c)) = c \/ qnth o (tab n (fun _ => c)) = 0%Q.
Proof.
  destruct (Nat.lt_ge_cases o n).
  - left. now apply qnth_tab.
  - right. apply qnth_default. now rewrite length_tab.
Qed.

Lemma qnth_zipw_plus a b o :
  (forall i, (0 <= qnth i a)%Q) -> (forall i, (0 <= qnth i b)%Q) ->
  (0 <= qnth o (zipw Qplus a b))%Q.
Proof.
  intros Ha Hb.
  destruct (Nat.lt_ge_cases o (length a)); destruct (Nat.lt_ge_cases o (length b)).
  - unfold qnth at 1. rewrite (nth_zipw Qplus a b 0%Q 0%Q 0%Q) by auto.
    specialize (Ha o). specialize (Hb o). unfold qnth in *. lra.
  - rewrite qnth_default; [lra|rewrite length_zipw; lia].
  - rewrite qnth_default; [lra|rewrite length_zipw; lia].
  - rewrite qnth_default; [lra|rewrite length_zipw; lia].
Qed.

Lemma qnth_gatherq_nonneg v idx k :
  (forall i, (0 <= qnth i v)%Q) -> (0 <= qnth k (gatherq v idx))%Q.
Proof.
  intros Hv. destruct (Nat.lt_ge_cases k (length idx)).
  - rewrite nth_gatherq by auto. apply Hv.
  - rewrite qnth_default; [lra|rewrite length_gatherq; lia].
Qed.

Lemma list_max_nonneg l : (forall i, (0 <= qnth i l)%Q) -> (0 <= list_max l)%Q.
Proof.
  intros H. destruct l as [|h t]; [simpl; lra|].
  assert (h <= list_max (h :: t))%Q by (apply list_max_ge; now left).
  specialize (H 0). unfold qnth in H. simpl in H. lra.
Qed.

Lemma qnth_vec_mat_nonneg v M n o :
  (forall i, (0 <= qnth i v)%Q) -> (forall i k, (0 <= qnth2 i k M)%Q) ->
  (0 <= qnth o (vec_mat v M n))%Q.
Proof.
  intros Hv HM. destruct (Nat.lt_ge_cases o n).
  - rewrite nth_vec_mat by auto. apply qsum_tab_nonneg. intros i _.
    apply Qmult_le_0_compat; auto.
  - rewrite qnth_default; [lra|rewrite length_vec_mat; lia].
Qed.

Lemma qsum_row_nonneg (M : list (list Q)) o :
  (forall i k, (0 <= qnth2 i k M)%Q) -> (0 <= qsum (nth o M []))%Q.
Proof.
  intros HM. apply qsum_nonneg. intros x Hx.
  destruct (In_nth _ _ 0%Q Hx) as (k & Hk & <-). apply (HM o k).
Qed.

Lemma qnat_nonneg k : (0 <= qnat k)%Q.
Proof.
  unfold qnat. change 0%Q with (inject_Z 0). rewrite <- Zle_Qle. lia.
Qed.

Lemma qdiv_nonneg x y : (0 <= x)%Q -> (0 < y)%Q -> (0 <= x / y)%Q.
Proof.
  intros Hx Hy. unfold Qdiv. apply Qmult_le_0_compat; auto.
  apply Qlt_le_weak. now apply Qinv_lt_0_compat.
Qed.

(* ------------------------------------------------------------------ *)
(** ** The invariant holds in the constructed environment *)

Lemma init_mean_nonneg dj dm pm n ld o :
  (forall i k, (0 <= qnth2 i k (ld_proc_time ld))%Q) ->
  (0 <= qnth o (feat_ope_proc (init_inst dj dm pm n ld)))%Q.
Proof.
  intros Hp. unfold init_inst; proj.
  set (f1 := map (fun row => qnat (count_nz row)) (ld_ope_ma_adj ld)).
  destruct (Nat.lt_ge_cases o (length (ld_proc_time ld)));
    destruct (Nat.lt_ge_cases o (length f1));
    try (rewrite qnth_default; [lra|rewrite length_zipw; lia]).
  unfold qnth.
  rewrite (nth_zipw (fun row c => (qsum row / (c + eps9))%Q) (ld_proc_time ld) f1 0%Q [] 0%Q)
    by auto.
  apply qdiv_nonneg.
  - now apply qsum_row_nonneg.
  - assert (0 <= nth o f1 0%Q)%Q.
    { unfold f1. destruct (nth_in_or_default o (map (fun row => qnat (count_nz row))
                                                      (ld_ope_ma_adj ld)) 0%Q) as [Hin| ->].
      - apply in_map_iff in Hin. destruct Hin as (row & <- & _). apply qnat_nonneg.
      - lra. }
    unfold eps9. lra.
Qed.

Lemma init_start_nonneg dj dm pm n ld o :
  (forall i k, (0 <= qnth2 i k (ld_proc_time ld))%Q) ->
  (forall i k, (0 <= qnth2 i k (ld_cal_cumul_adj ld))%Q) ->
  (0 <= qnth o (feat_ope_start (init_inst dj dm pm n ld)))%Q.
Proof.
  intros Hp Hc.
  change (feat_ope_start (init_inst dj dm pm n ld))
    with (vec_mat (feat_ope_proc (init_inst dj dm pm n ld)) (ld_cal_cumul_adj ld) n).
  apply qnth_vec_mat_nonneg; auto.
  intros i. now apply init_mean_nonneg.
Qed.

Lemma init_end_nonneg dj dm pm n ld o :
  (forall i k, (0 <= qnth2 i k (ld_proc_time ld))%Q) ->
  (forall i k, (0 <= qnth2 i k (ld_cal_cumul_adj ld))%Q) ->
  (0 <= qnth o (feat_ope_end (init_inst dj dm pm n ld)))%Q.
Proof.
  intros Hp Hc.
  change (feat_ope_end (init_inst dj dm pm n ld))
    with (gatherq (gatherq (zipw Qplus (feat_ope_start (init_inst dj dm pm n ld))
                                       (feat_ope_proc (init_inst dj dm pm n ld)))
                           (end_ope_biases_batch (init_inst dj dm pm n ld)))
                  (ld_opes_appertain ld)).
  apply qnth_gatherq_nonneg. intros i. apply qnth_gatherq_nonneg. intros k.
  apply qnth_zipw_plus.
  - intros; now apply init_start_nonneg.
  - intros; now apply init_mean_nonneg.
Qed.

Lemma Inv_init_inst nj nm n ld :
  wf_load nj nm n ld -> Inv nj nm n (init_inst nj nm nm n ld).
Proof.
  intros W.
  assert (Hsh := shape_init_inst (wl_shape W)).
  assert (Hin : forall j o, j < nj -> in_job (init_inst nj nm nm n ld) j o ->
                  step_of (init_inst nj nm nm n ld) j <= o /\ o < list_sum (ld_nums_ope ld)).
  { intros j o Hj [H1 H2]. split; [exact H1|].
    unfold bias_of, nums_of in *. unfold init_inst in H1, H2; proj_in H1; proj_in H2.
    rewrite (wl_biases W) in *.
    destruct (prefix_from_bounds (ld_nums_ope ld) 0 j) as [_ Hb];
      [rewrite (lsh_nums (wl_shape W)); auto|]. lia. }
  constructor; auto.
  - apply (wl_biases W).
  - intros j Hj. apply (wl_nums W); auto.
  - intros j Hj. unfold bias_of, nums_of, init_inst; proj.
    rewrite (nth_zipw (fun b k => b + k - 1) _ _ 0 0 0); auto.
    + rewrite (lsh_biases (wl_shape W)); auto.
    + rewrite (lsh_nums (wl_shape W)); auto.
  - split; [reflexivity|apply (wl_total W)].
  - intros j o Hj Ho. apply (wl_appertain W); auto.
  - simpl. lra.
  - intros j Hj. unfold step_of, bias_of, nums_of, init_inst; proj. lia.
  - intros j Hj. unfold step_of, bias_of, nums_of, init_inst; proj.
    rewrite nth_tab by auto. pose proof (wl_nums W Hj). split; [discriminate|lia].
  - intros j o Hj Ho. destruct (Hin j o Hj Ho) as [H1 _]. split; [lia|].
    intros _. unfold init_inst; proj.
    destruct (qnth_tab_const n 0%Q o); auto.
  - intros o _. unfold init_inst; proj. destruct (qnth_tab_const n 0%Q o); auto.
  - apply (wl_proc W).
  - apply (wl_adj W).
  - intros j o Hj Ho _. destruct (Hin j o Hj Ho) as [_ H2]. apply (wl_elig W); auto.
  - intros j o Hj Ho Hlt. destruct (Hin j o Hj Ho) as [H1 _]. lia.
  - intros o. apply init_mean_nonneg. apply (wl_proc W).
  - intros o. apply init_start_nonneg; [apply (wl_proc W)|apply (wl_cal_pos W)].
  - apply (wl_cal_pos W).
  - intros j i k Hj [Hi1 Hi2] [Hk1 Hk2] Hik _. apply (wl_cal_one W) with (j := j); auto.
  - intros m Hm. left. unfold init_inst; proj.
    rewrite !qnth_tab by auto. rewrite nth_tab by auto. repeat split; auto. lra.
  - intros j Hj Hp. unfold init_inst in Hp; proj_in Hp. rewrite nth_tab in Hp by auto.
    discriminate.
  - intros j o Hj Ho Hlt. destruct (Hin j o Hj Ho) as [H1 _]. lia.
  - intros j o Hj Ho Hlt. destruct (Hin j o Hj Ho) as [H1 _]. lia.
  - intros j1 o1 j2 o2 Hj Ho Hlt. destruct (Hin j1 o1 Hj Ho) as [H1 _]. lia.
  - intros j o Hj Ho Hlt. destruct (Hin j o Hj Ho) as [H1 _]. lia.
  - intros j Hj Hlt. unfold step_of, bias_of, init_inst in Hlt; proj_in Hlt. lia.
  - apply Qle_trans with 0%Q; [simpl; lra|].
    apply list_max_nonneg. intros i.
    apply init_end_nonneg; [apply (wl_proc W)|apply (wl_cal_pos W)].
Qed.

(* ------------------------------------------------------------------ *)
(** ** The invariant is kept outside the active slots *)

Ltac old_clause HI :=
  first [ exact (iv_biases HI) | exact (iv_nums HI) | exact (iv_ends HI) | exact (iv_total HI)
        | exact (iv_appertain HI) | exact (iv_time HI) | exact (iv_step HI)
        | exact (iv_finish HI) | exact (iv_done HI) | exact (iv_status HI)
        | exact (iv_padding HI) | exact (iv_sched_status HI) | exact (iv_sched_start HI)
        | exact (iv_sched_end HI) | exact (iv_proc HI) | exact (iv_adj HI)
        | exact (iv_elig HI) | exact (iv_dur HI) | exact (iv_mean HI) | exact (iv_start HI)
        | exact (iv_cal_pos HI) | exact (iv_cal_one HI) | exact (iv_mach HI)
        | exact (iv_procing HI) | exact (iv_ended HI) | exact (iv_avail HI)
        | exact (iv_disjoint HI) | exact (iv_order HI) | exact (iv_bound HI)
        | exact (iv_clock HI) ].

Lemma masked_entry nj nm n J o m :
  shape nj nm n J ->
  (qnth2 o m (mask_proc (proc_times_batch J) (ope_ma_adj_batch J))
   == qnth2 o m (proc_times_batch J) * inject_Z (znth2 o m (ope_ma_adj_batch J)))%Q.
Proof.
  intros Hsh. apply qnth2_masked with (n := n) (nm := nm).
  - apply (sh_proc Hsh).
  - apply (sh_adj Hsh).
  - apply (sh_proc_row Hsh).
  - apply (sh_adj_row Hsh).
Qed.

Lemma masked_nonneg (P : Q) (z : Z) :
  (0 <= P)%Q -> z = 0%Z \/ z = 1%Z -> (0 <= P * inject_Z z)%Q.
Proof.
  intros HP [-> | ->].
  - change (inject_Z 0) with 0%Q. lra.
  - change (inject_Z 1) with 1%Q. lra.
Qed.

Lemma Inv_step_idle nj nm n J :
  Inv nj nm n J -> Inv nj nm n (fst (step_inst n nm None J)).
Proof.
  intros HI. pose proof (iv_shape HI) as Hsh.
  constructor; try (old_clause HI).
  - apply shape_step_inst; simpl; auto.
  - intros j Hj. unfold_step; proj.
    rewrite (finish_mask_nth nj nm n J HI j Hj). apply (iv_finish HI Hj).
  - reflexivity.
  - intros o m. unfold_step; proj. rewrite (masked_entry nj nm n J o m Hsh).
    apply masked_nonneg; [apply (iv_proc HI)|apply (iv_adj HI)].
  - intros j o Hj Ho Hs. destruct (iv_elig HI Hj Ho Hs) as (m & Hm & Ha & Hp).
    exists m. repeat split; auto. unfold_step; proj.
    rewrite (masked_entry nj nm n J o m Hsh). rewrite Ha.
    change (inject_Z 1) with 1%Q. lra.
  - intros j o Hj Ho Hs. destruct (iv_dur HI Hj Ho Hs) as (H1 & H2 & H3 & H4).
    repeat split; auto. unfold_step; proj.
    rewrite (masked_entry nj nm n J o _ Hsh). rewrite H2, H3.
    change (inject_Z 1) with 1%Q. lra.
Qed.

(* ------------------------------------------------------------------ *)
(** ** The invariant is kept by a legal decision *)

Section StepActive.
Variables nj nm n : nat.
Variable J : Inst.
Hypothesis HI : Inv nj nm n J.
Variables ope ma job : nat.
Hypothesis HL : legal nj nm J (ope, ma, job).

Local Abbreviation J1 := (fst (step_inst n nm (Some (ope, ma, job)) J)).
Local Abbreviation Hsh := (iv_shape HI).

Lemma la_job : job < nj.
Proof. apply HL. Qed.

Lemma la_ma : ma < nm.
Proof. apply HL. Qed.

Lemma la_ope : ope = step_of J job.
Proof. apply HL. Qed.

Lemma la_in_job : in_job J job ope.
Proof.
  destruct HL as (Hj & _ & He & Hf & _).
  pose proof (iv_step HI Hj) as [H1 H2].
  pose proof (iv_finish HI Hj) as Hfin.
  unfold in_job. rewrite He. split; auto.
  destruct (Nat.eq_dec (step_of J job) (bias_of J job + nums_of J job)) as [E|E]; [|lia].
  apply Hfin in E. congruence.
Qed.

Lemma la_ope_lt : ope < n.
Proof. apply (in_job_bound nj nm n J HI job ope la_job la_in_job). Qed.

Lemma la_proc_pos : (0 < sel_proc_time nm ope ma J)%Q.
Proof.
  rewrite (@sel_proc_time_eq nj nm n J Hsh ope ma la_ope_lt la_ma). apply HL.
Qed.

Lemma la_unscheduled j o : j < nj -> in_job J j o -> o < step_of J j -> o <> ope.
Proof.
  intros Hj Ho Hlt ->.
  assert (j = job) by (apply (in_job_unique nj nm n J HI j job ope); auto using la_job, la_in_job).
  subst j. rewrite <- la_ope in Hlt. lia.
Qed.

Lemma step1_of j : j < nj ->
  step_of J1 j = if job =? j then S ope else step_of J j.
Proof.
  intros Hj. unfold step_of at 1. unfold_step; proj. unfold new_ope_step.
  rewrite nth_upd, (sh_ope_step Hsh).
  pose proof la_job as Hjob. apply Nat.ltb_lt in Hjob. rewrite Hjob, andb_true_r.
  destruct (job =? j); auto. now rewrite la_ope.
Qed.

Lemma status1 o :
  qnth o (feat_ope_status J1) = if ope =? o then 1%Q else qnth o (feat_ope_status J).
Proof. unfold_step; proj. apply (@nth_new_status nj nm n J Hsh ope la_ope_lt). Qed.

Lemma mean1 o :
  qnth o (feat_ope_proc J1) =
  if ope =? o then sel_proc_time nm ope ma J else qnth o (feat_ope_proc J).
Proof. unfold_step; proj. apply (@nth_new_mean nj nm n J Hsh ope ma la_ope_lt). Qed.

Lemma start1_ope : (qnth ope (feat_ope_start J1) == time J)%Q.
Proof. unfold_step; proj. apply (@new_start_ope nj nm n J Hsh ope ma job la_ope_lt). Qed.

Lemma start1_scheduled j o : j < nj -> in_job J j o -> o < step_of J j ->
  (qnth o (feat_ope_start J1) == qnth o (feat_ope_start J))%Q.
Proof.
  intros Hj Ho Hlt. unfold_step; proj.
  apply (@new_start_scheduled nj nm n J Hsh ope ma job la_ope_lt o).
  - apply (in_job_bound nj nm n J HI j o Hj Ho).
  - now apply (la_unscheduled j).
  - now apply (iv_status HI Hj Ho).
Qed.

Lemma end1_ope : (end_of J1 ope == time J + sel_proc_time nm ope ma J)%Q.
Proof. unfold end_of. rewrite start1_ope, mean1, Nat.eqb_refl. reflexivity. Qed.

Lemma end1_scheduled j o : j < nj -> in_job J j o -> o < step_of J j ->
  (end_of J1 o == end_of J o)%Q.
Proof.
  intros Hj Ho Hlt. unfold end_of. rewrite (start1_scheduled j o Hj Ho Hlt), mean1.
  destruct (Nat.eqb_spec ope o) as [E|E]; [|reflexivity].
  exfalso. now apply (la_unscheduled j o Hj Ho Hlt).
Qed.

Lemma sched_ma1 o :
  nth o (sched_ma J1) 0 = if ope =? o then ma else nth o (sched_ma J) 0.
Proof.
  unfold_step; proj. rewrite nth_upd, (sh_s1 Hsh).
  pose proof la_ope_lt as H. apply Nat.ltb_lt in H. now rewrite H, andb_true_r.
Qed.

Lemma adj1 o m :
  znth2 o m (ope_ma_adj_batch J1) =
  if ope =? o then (if (m <? nm) && (m =? ma) then 1%Z else 0%Z)
  else znth2 o m (ope_ma_adj_batch J).
Proof.
  unfold_step; proj. unfold znth2, prune_adj. rewrite nth_upd, (sh_adj Hsh).
  pose proof la_ope_lt as H. apply Nat.ltb_lt in H. rewrite H, andb_true_r.
  destruct (ope =? o); auto. apply nth_onehot.
Qed.

Lemma proc1 o m :
  (qnth2 o m (proc_times_batch J1)
   == qnth2 o m (proc_times_batch J) * inject_Z (znth2 o m (ope_ma_adj_batch J1)))%Q.
Proof.
  unfold_step; proj. apply qnth2_masked with (n := n) (nm := nm).
  - apply (sh_proc Hsh).
  - rewrite length_prune_adj. apply (sh_adj Hsh).
  - apply (sh_proc_row Hsh).
  - intros o' Ho'. apply nth_row_upd with (n := n); auto.
    + apply (sh_adj_row Hsh).
    + apply length_onehot.
Qed.

Lemma adj1_binary o m :
  znth2 o m (ope_ma_adj_batch J1) = 0%Z \/ znth2 o m (ope_ma_adj_batch J1) = 1%Z.
Proof.
  rewrite adj1. destruct (ope =? o).
  - destruct ((m <? nm) && (m =? ma)); auto.
  - apply (iv_adj HI).
Qed.

(** The cleared row of the cumulative adjacency. *)
Lemma last_ope_cases :
  let r := last_ope n ope (bias_of J job) in
  r < n /\ ((ope = bias_of J job /\ r = n - 1) \/ (bias_of J job < ope /\ r = ope - 1)).
Proof.
  pose proof la_ope_lt. pose proof la_in_job as [H1 H2].
  unfold last_ope. destruct (Z.ltb_spec (Z.of_nat ope - 1) (Z.of_nat (bias_of J job))).
  - split; [lia|]. left. split; lia.
  - split; [lia|]. right. split; lia.
Qed.

Lemma cal1 i k :
  qnth2 i k (cal_cumul_adj_batch J1) =
  if last_ope n ope (bias_of J job) =? i
  then qnth k (map (fun _ => 0%Q) (nth i (cal_cumul_adj_batch J) []))
  else qnth2 i k (cal_cumul_adj_batch J).
Proof.
  unfold_step; proj. unfold new_cal, qnth2. fold (bias_of J job).
  rewrite nth_upd, (sh_cal Hsh).
  destruct last_ope_cases as [Hr _]. apply Nat.ltb_lt in Hr. rewrite Hr, andb_true_r.
  destruct (Nat.eqb_spec (last_ope n ope (bias_of J job)) i) as [->|]; reflexivity.
Qed.

Lemma cal1_pos i k : (0 <= qnth2 i k (cal_cumul_adj_batch J1))%Q.
Proof.
  rewrite cal1. destruct (_ =? _); [|apply (iv_cal_pos HI)].
  unfold qnth.
  destruct (nth_in_or_default k (map (fun _ => 0%Q) (nth i (cal_cumul_adj_batch J) [])) 0%Q)
    as [Hin| ->]; [|lra].
  apply in_map_iff in Hin. destruct Hin as (x & <- & _). lra.
Qed.

Lemma cal1_keep i k :
  i <> last_ope n ope (bias_of J job) ->
  qnth2 i k (cal_cumul_adj_batch J1) = qnth2 i k (cal_cumul_adj_batch J).
Proof.
  intros Hne. rewrite cal1.
  destruct (Nat.eqb_spec (last_ope n ope (bias_of J job)) i); [congruence|reflexivity].
Qed.

Lemma status1_binary o :
  qnth o (feat_ope_status J1) = 1%Q \/ qnth o (feat_ope_status J1) = 0%Q.
Proof.
  rewrite status1. destruct (ope =? o); auto.
  apply (status_cases nj nm n J HI).
Qed.

Lemma mean1_nonneg o : (0 <= qnth o (feat_ope_proc J1))%Q.
Proof.
  rewrite mean1. destruct (ope =? o).
  - apply Qlt_le_weak, la_proc_pos.
  - apply (iv_mean HI).
Qed.

Lemma start_times_value o : o < n ->
  qnth o (start_times ope J) =
  ((if ope =? o then time J else qnth o (feat_ope_start J)) * qnth o (feat_ope_status J1))%Q.
Proof.
  intros Ho. rewrite (@nth_start_times nj nm n J Hsh ope la_ope_lt o Ho).
  reflexivity.
Qed.

Lemma start_times_nonneg o : (0 <= qnth o (start_times ope J))%Q.
Proof.
  destruct (Nat.lt_ge_cases o n) as [Ho|Ho].
  - rewrite (start_times_value o Ho).
    assert (0 <= (if ope =? o then time J else qnth o (feat_ope_start J)))%Q.
    { destruct (ope =? o); [apply (iv_time HI)|apply (iv_start HI)]. }
    destruct (status1_binary o) as [-> | ->]; lra.
  - rewrite qnth_default; [lra|].
    rewrite length_start_times, (sh_f5 Hsh), (sh_f0 Hsh). lia.
Qed.

Lemma summand_nonneg i :
  (0 <= qnth i (zipw Qplus (start_times ope J) (new_mean nm ope ma J)))%Q.
Proof.
  apply qnth_zipw_plus.
  - apply start_times_nonneg.
  - intros k. apply (mean1_nonneg k).
Qed.

Lemma start1_value o : o < n ->
  qnth o (feat_ope_start J1) =
  (qnth o (start_times ope J)
   + qnth o (vec_mat (zipw Qplus (start_times ope J) (new_mean nm ope ma J))
                     (cal_cumul_adj_batch J1) n)
     * (1 - qnth o (feat_ope_status J1)))%Q.
Proof.
  intros Ho. unfold_step; proj.
  rewrite (@nth_new_start nj nm n J Hsh ope ma job la_ope_lt o Ho).
  rewrite (@nth_estimate_times nj nm n J Hsh ope ma job la_ope_lt o Ho).
  reflexivity.
Qed.

Lemma start1_nonneg o : (0 <= qnth o (feat_ope_start J1))%Q.
Proof.
  destruct (Nat.lt_ge_cases o n) as [Ho|Ho].
  - rewrite (start1_value o Ho).
    pose proof (start_times_nonneg o).
    assert (0 <= qnth o (vec_mat (zipw Qplus (start_times ope J) (new_mean nm ope ma J))
                                 (cal_cumul_adj_batch J1) n))%Q.
    { apply qnth_vec_mat_nonneg; [apply summand_nonneg|apply cal1_pos]. }
    destruct (status1_binary o) as [-> | ->]; lra.
  - rewrite qnth_default; [lra|].
    rewrite (sh_f5 (@shape_step_inst nj nm n (Some (ope, ma, job)) J Hsh
                      (conj la_ope_lt (conj la_ma la_job)))). lia.
Qed.

Lemma step1_range j : j < nj ->
  bias_of J j <= step_of J1 j <= bias_of J j + nums_of J j /\
  step_of J j <= step_of J1 j.
Proof.
  intros Hj. rewrite (step1_of j Hj). pose proof (iv_step HI Hj).
  destruct (Nat.eqb_spec job j) as [<-|]; [|lia].
  pose proof la_in_job as [H1 H2]. pose proof la_ope. lia.
Qed.

(** The last scheduled operation of a job after the decision. *)
Lemma last1_in_job j : j < nj -> bias_of J j < step_of J1 j ->
  in_job J j (step_of J1 j - 1).
Proof. intros Hj Hlt. pose proof (step1_range j Hj). unfold in_job. lia. Qed.

Lemma last1_cases j : j < nj -> bias_of J j < step_of J1 j ->
  (j = job /\ step_of J1 j - 1 = ope) \/
  (j <> job /\ step_of J1 j = step_of J j /\ step_of J1 j - 1 <> ope).
Proof.
  intros Hj Hlt. pose proof (last1_in_job j Hj Hlt) as Hin. revert Hlt Hin.
  rewrite (step1_of j Hj).
  destruct (Nat.eqb_spec job j) as [<-|Hne]; intros Hlt Hin.
  - left. split; auto. lia.
  - right. repeat split; auto. intros E. rewrite E in Hin.
    apply Hne. apply (in_job_unique nj nm n J HI job j ope); auto using la_job, la_in_job.
Qed.

Lemma unscheduled1 j k : j < nj -> in_job J j k -> step_of J1 j <= k ->
  k <> ope /\ qnth k (feat_ope_status J1) = 0%Q.
Proof.
  intros Hj Hk Hle. pose proof (step1_range j Hj) as [_ Hmono].
  assert (Hne : k <> ope).
  { intros ->.
    assert (j = job)
      by (apply (in_job_unique nj nm n J HI j job ope); auto using la_job, la_in_job).
    subst j. rewrite (step1_of job la_job), Nat.eqb_refl in Hle. lia. }
  split; auto. rewrite status1.
  destruct (Nat.eqb_spec ope k); [congruence|].
  apply (iv_status HI Hj Hk). lia.
Qed.

Lemma last1_value j : j < nj -> bias_of J j < step_of J1 j ->
  (qnth (step_of J1 j - 1) (zipw Qplus (start_times ope J) (new_mean nm ope ma J))
   == end_of J1 (step_of J1 j - 1))%Q.
Proof.
  intros Hj Hlt.
  pose proof (last1_in_job j Hj Hlt) as Hin.
  destruct (in_job_bound nj nm n J HI j _ Hj Hin) as [_ Hn].
  unfold qnth at 1.
  rewrite (nth_zipw Qplus _ _ 0%Q 0%Q 0%Q)
    by (rewrite ?length_start_times, ?length_new_mean, ?(sh_f5 Hsh), ?(sh_f0 Hsh),
          ?(sh_f2 Hsh); lia).
  fold (qnth (step_of J1 j - 1) (start_times ope J)).
  rewrite (start_times_value _ Hn). unfold end_of.
  change (nth (step_of J1 j - 1) (new_mean nm ope ma J) 0%Q)
    with (qnth (step_of J1 j - 1) (feat_ope_proc J1)).
  destruct (last1_cases j Hj Hlt) as [[-> E]|(Hne & E1 & E2)].
  - rewrite E. rewrite Nat.eqb_refl, start1_ope, status1, Nat.eqb_refl. ring.
  - destruct (Nat.eqb_spec ope (step_of J1 j - 1)) as [E|_]; [congruence|].
    assert (Hs : step_of J1 j - 1 < step_of J j) by lia.
    rewrite (start1_scheduled j _ Hj Hin Hs), status1.
    destruct (Nat.eqb_spec ope (step_of J1 j - 1)) as [E|_]; [congruence|].
    rewrite (proj1 (iv_status HI Hj Hin) Hs). ring.
Qed.

Lemma last1_link j k : j < nj -> bias_of J j < step_of J1 j ->
  in_job J j k -> step_of J1 j <= k ->
  (qnth2 (step_of J1 j - 1) k (cal_cumul_adj_batch J1) == 1)%Q.
Proof.
  intros Hj Hlt Hk Hle.
  pose proof (last1_in_job j Hj Hlt) as Hin.
  destruct (in_job_bound nj nm n J HI j k Hj Hk) as [_ Hkn].
  pose proof (step1_range j Hj) as [_ Hmono].
  rewrite cal1_keep.
  - apply (iv_cal_one HI Hj Hin Hk); [lia|].
    destruct (last1_cases j Hj Hlt) as [[-> E]|(Hne & E1 & E2)].
    + rewrite E, <- la_ope. lia.
    + lia.
  - destruct last_ope_cases as [_ [[_ ->]|[Hb ->]]]; [lia|].
    destruct (last1_cases j Hj Hlt) as [[-> E]|(Hne & E1 & E2)]; [lia|].
    intros E. apply Hne.
    apply (in_job_unique nj nm n J HI j job (ope - 1)); auto using la_job.
    + now rewrite <- E.
    + pose proof la_in_job as [H1 H2]. unfold in_job. lia.
Qed.

(** The estimated start of an unscheduled operation is not before the end
    of the last scheduled operation of its job. *)
Lemma est_lower j k : j < nj -> bias_of J j < step_of J1 j ->
  in_job J j k -> step_of J1 j <= k ->
  (end_of J1 (step_of J1 j - 1) <= qnth k (feat_ope_start J1))%Q.
Proof.
  intros Hj Hlt Hk Hle.
  pose proof (last1_in_job j Hj Hlt) as Hin.
  destruct (in_job_bound nj nm n J HI j k Hj Hk) as [_ Hkn].
  destruct (in_job_bound nj nm n J HI j _ Hj Hin) as [_ Hln].
  destruct (unscheduled1 j k Hj Hk Hle) as [Hne H0].
  rewrite (start1_value k Hkn), H0.
  pose proof (start_times_nonneg k) as Hst.
  rewrite nth_vec_mat by auto.
  set (v := zipw Qplus (start_times ope J) (new_mean nm ope ma J)).
  assert (Hlen : length v = n).
  { unfold v. rewrite length_zipw, length_start_times, length_new_mean,
      (sh_f5 Hsh), (sh_f0 Hsh), (sh_f2 Hsh). lia. }
  assert (Hterm : (qnth (step_of J1 j - 1) v * qnth2 (step_of J1 j - 1) k (cal_cumul_adj_batch J1)
                   <= qsum (tab (length v)
                         (fun i => qnth i v * qnth2 i k (cal_cumul_adj_batch J1))))%Q).
  { apply (qsum_tab_ge (length v)
             (fun i => (qnth i v * qnth2 i k (cal_cumul_adj_batch J1))%Q)).
    - intros i _. apply Qmult_le_0_compat; [apply summand_nonneg|apply cal1_pos].
    - lia. }
  rewrite (last1_link j k Hj Hlt Hk Hle) in Hterm.
  unfold v in Hterm at 1. rewrite (last1_value j Hj Hlt) in Hterm.
  lra.
Qed.

Lemma end1_value o : o < n ->
  qnth o (zipw Qplus (feat_ope_start J1) (feat_ope_proc J1)) = end_of J1 o.
Proof.
  intros Ho. unfold end_of, qnth.
  pose proof (@shape_step_inst nj nm n (Some (ope, ma, job)) J Hsh
                (conj la_ope_lt (conj la_ma la_job))) as Hsh1.
  rewrite (nth_zipw Qplus _ _ 0%Q 0%Q 0%Q); auto.
  - rewrite (sh_f5 Hsh1); auto.
  - rewrite (sh_f2 Hsh1); auto.
Qed.

Lemma job_end1 j o : j < nj -> in_job J j o ->
  qnth o (feat_ope_end J1) = end_of J1 (bias_of J j + nums_of J j - 1).
Proof.
  intros Hj Ho.
  destruct (in_job_bound nj nm n J HI j o Hj Ho) as [_ Hon].
  assert (He : in_job J j (bias_of J j + nums_of J j - 1)).
  { pose proof (iv_nums HI Hj). unfold in_job. lia. }
  destruct (in_job_bound nj nm n J HI j _ Hj He) as [_ Hen].
  change (feat_ope_end J1) with (new_end n nm (ope, ma, job) J).
  unfold new_end. rewrite nth_gatherq by (rewrite (sh_appertain Hsh); auto).
  rewrite (iv_appertain HI Hj Ho).
  unfold job_end_times. rewrite nth_gatherq by (rewrite (sh_ends Hsh); auto).
  rewrite (iv_ends HI Hj). cbn [fst snd].
  apply (end1_value _ Hen).
Qed.

Lemma bound1 j : j < nj -> bias_of J j < step_of J1 j ->
  (end_of J1 (step_of J1 j - 1) <= list_max (feat_ope_end J1))%Q.
Proof.
  intros Hj Hlt.
  pose proof (last1_in_job j Hj Hlt) as Hin.
  destruct (in_job_bound nj nm n J HI j _ Hj Hin) as [_ Hln].
  pose proof (@shape_step_inst nj nm n (Some (ope, ma, job)) J Hsh
                (conj la_ope_lt (conj la_ma la_job))) as Hsh1.
  assert (Hmax : (qnth (step_of J1 j - 1) (feat_ope_end J1) <= list_max (feat_ope_end J1))%Q).
  { apply list_max_ge. apply nth_In_q. rewrite (sh_f4 Hsh1). auto. }
  rewrite (job_end1 j _ Hj Hin) in Hmax.
  pose proof (step1_range j Hj) as [[_ Hup] _].
  assert (He : in_job J j (bias_of J j + nums_of J j - 1)).
  { pose proof (iv_nums HI Hj). unfold in_job. lia. }
  destruct (Nat.eq_dec (step_of J1 j - 1) (bias_of J j + nums_of J j - 1)) as [E|E].
  - rewrite E. exact Hmax.
  - assert (Hle : step_of J1 j <= bias_of J j + nums_of J j - 1) by lia.
    pose proof (est_lower j _ Hj Hlt He Hle) as Hl.
    pose proof (mean1_nonneg (bias_of J j + nums_of J j - 1)) as Hm.
    unfold end_of in Hmax at 1. lra.
Qed.

Lemma clock1 : (time J1 <= list_max (feat_ope_end J1))%Q.
Proof.
  assert (Hlt : bias_of J job < step_of J1 job).
  { rewrite (step1_of job la_job), Nat.eqb_refl. pose proof la_in_job as [H _]. lia. }
  pose proof (bound1 job la_job Hlt) as Hb.
  rewrite (step1_of job la_job), Nat.eqb_refl in Hb.
  replace (S ope - 1) with ope in Hb by lia.
  rewrite end1_ope in Hb. pose proof la_proc_pos.
  change (time J1) with (time J). lra.
Qed.

(** Which operations are scheduled after the decision. *)
Lemma scheduled1_cases j o : j < nj -> in_job J j o -> o < step_of J1 j ->
  o = ope \/ (o <> ope /\ o < step_of J j).
Proof.
  intros Hj Ho Hlt. rewrite (step1_of j Hj) in Hlt.
  destruct (Nat.eq_dec o ope) as [|Hne]; auto. right. split; auto.
  destruct (Nat.eqb_spec job j) as [<-|]; auto.
  pose proof la_ope. lia.
Qed.

Lemma c_finish j : j < nj ->
  (nth j (mask_job_finish_batch J1) false = true <->
   step_of J1 j = bias_of J j + nums_of J j).
Proof.
  intros Hj.
  change (mask_job_finish_batch J1)
    with (finish_of (ope_step_batch J1) (end_ope_biases_batch J) (mask_job_finish_batch J)).
  unfold finish_of.
  pose proof (@shape_step_inst nj nm n (Some (ope, ma, job)) J Hsh
                (conj la_ope_lt (conj la_ma la_job))) as Hsh1.
  rewrite (nth_zipw _ _ _ false (0, 0) false)
    by (rewrite ?length_combine, ?(sh_ope_step Hsh1), ?(sh_ends Hsh), ?(sh_job_finish Hsh); lia).
  rewrite combine_nth by (rewrite (sh_ope_step Hsh1), (sh_ends Hsh); auto).
  cbn [fst snd]. fold (step_of J1 j).
  pose proof (end_index nj nm n J HI j Hj) as He.
  destruct (Nat.eqb_spec (step_of J1 j) (nth j (end_ope_biases_batch J) 0 + 1)) as [E|E].
  - split; auto. intros _. lia.
  - split; [|intros; lia]. intros Hf.
    pose proof (proj1 (iv_finish HI Hj) Hf) as Hs.
    rewrite (step1_of j Hj) in E |- *.
    destruct (Nat.eqb_spec job j) as [<-|]; [|lia].
    destruct HL as (_ & _ & _ & Hfin & _). congruence.
Qed.

Lemma c_status j o : j < nj -> in_job J j o ->
  (o < step_of J1 j -> qnth o (feat_ope_status J1) = 1%Q) /\
  (step_of J1 j <= o -> qnth o (feat_ope_status J1) = 0%Q).
Proof.
  intros Hj Ho. split.
  - intros Hlt. rewrite status1.
    destruct (scheduled1_cases j o Hj Ho Hlt) as [->|[Hne Hs]].
    + now rewrite Nat.eqb_refl.
    + destruct (Nat.eqb_spec ope o); [congruence|].
      now apply (iv_status HI Hj Ho).
  - intros Hle. now apply (unscheduled1 j o Hj Ho).
Qed.

Lemma c_padding o : nums_opes J <= o -> qnth o (feat_ope_status J1) = 0%Q.
Proof.
  intros Ho. rewrite status1.
  destruct (in_job_bound nj nm n J HI job ope la_job la_in_job) as [Hlt _].
  destruct (Nat.eqb_spec ope o); [lia|]. now apply (iv_padding HI).
Qed.

Lemma c_sched_status : sched_status J1 = feat_ope_status J1.
Proof. unfold_step; proj. unfold new_status. now rewrite (iv_sched_status HI). Qed.

Lemma c_proc o m : (0 <= qnth2 o m (proc_times_batch J1))%Q.
Proof. rewrite proc1. apply masked_nonneg; [apply (iv_proc HI)|apply adj1_binary]. Qed.

Lemma c_elig j o : j < nj -> in_job J j o -> step_of J1 j <= o ->
  exists m, m < nm /\ znth2 o m (ope_ma_adj_batch J1) = 1%Z /\
            (0 < qnth2 o m (proc_times_batch J1))%Q.
Proof.
  intros Hj Ho Hle. destruct (unscheduled1 j o Hj Ho Hle) as [Hne _].
  pose proof (step1_range j Hj) as [_ Hmono].
  destruct (iv_elig HI Hj Ho) as (m & Hm & Ha & Hp); [lia|].
  assert (Ha1 : znth2 o m (ope_ma_adj_batch J1) = 1%Z).
  { rewrite adj1. destruct (Nat.eqb_spec ope o); [congruence|exact Ha]. }
  exists m. repeat split; auto.
  rewrite proc1, Ha1. change (inject_Z 1) with 1%Q. lra.
Qed.

Lemma c_dur j o : j < nj -> in_job J j o -> o < step_of J1 j ->
  nth o (sched_ma J1) 0 < nm /\
  znth2 o (nth o (sched_ma J1) 0) (ope_ma_adj_batch J1) = 1%Z /\
  (qnth o (feat_ope_proc J1) == qnth2 o (nth o (sched_ma J1) 0%nat) (proc_times_batch J1))%Q /\
  (0 < qnth o (feat_ope_proc J1))%Q.
Proof.
  intros Hj Ho Hlt. rewrite sched_ma1, mean1.
  destruct (scheduled1_cases j o Hj Ho Hlt) as [->|[Hne Hs]].
  - rewrite Nat.eqb_refl.
    assert (Ha1 : znth2 ope ma (ope_ma_adj_batch J1) = 1%Z).
    { rewrite adj1, Nat.eqb_refl. pose proof la_ma as Hm. apply Nat.ltb_lt in Hm.
      now rewrite Hm, Nat.eqb_refl. }
    split; [apply la_ma|]. split; [exact Ha1|]. split; [reflexivity|apply la_proc_pos].
  - destruct (Nat.eqb_spec ope o); [congruence|].
    destruct (iv_dur HI Hj Ho Hs) as (H1 & H2 & H3 & H4).
    assert (Ha1 : znth2 o (nth o (sched_ma J) 0) (ope_ma_adj_batch J1) = 1%Z).
    { rewrite adj1. destruct (Nat.eqb_spec ope o); [congruence|exact H2]. }
    repeat split; auto.
    rewrite proc1, Ha1. change (inject_Z 1) with 1%Q. rewrite H3. ring.
Qed.

Lemma c_cal_one j i k : j < nj -> in_job J j i -> in_job J j k -> i < k ->
  step_of J1 j <= i + 1 -> (qnth2 i k (cal_cumul_adj_batch J1) == 1)%Q.
Proof.
  intros Hj Hi Hk Hik Hle.
  pose proof (step1_range j Hj) as [_ Hmono].
  destruct (in_job_bound nj nm n J HI j k Hj Hk) as [_ Hkn].
  rewrite cal1_keep.
  - apply (iv_cal_one HI Hj Hi Hk Hik). lia.
  - destruct last_ope_cases as [_ [[_ ->]|[Hb ->]]]; [lia|].
    intros E.
    assert (j = job).
    { apply (in_job_unique nj nm n J HI j job i); auto using la_job.
      pose proof la_in_job as [H1 H2]. unfold in_job. lia. }
    subst j. rewrite (step1_of job la_job), Nat.eqb_refl in Hle. lia.
Qed.

(** The machine records after the decision. *)
Lemma idle1 m : qnth m (mach_idle J1) = if ma =? m then 0%Q else qnth m (mach_idle J).
Proof.
  unfold_step; proj. unfold qnth. rewrite nth_upd, (sh_idle Hsh).
  pose proof la_ma as H. apply Nat.ltb_lt in H. now rewrite H, andb_true_r.
Qed.

Lemma avail1 m :
  qnth m (mach_avail J1) =
  if ma =? m then (time J + sel_proc_time nm ope ma J)%Q else qnth m (mach_avail J).
Proof.
  unfold_step; proj. unfold qnth. rewrite nth_upd, (sh_avail Hsh).
  pose proof la_ma as H. apply Nat.ltb_lt in H. now rewrite H, andb_true_r.
Qed.

Lemma mjob1 m : nth m (mach_job J1) 0 = if ma =? m then job else nth m (mach_job J) 0.
Proof.
  unfold_step; proj. rewrite nth_upd, (sh_job Hsh).
  pose proof la_ma as H. apply Nat.ltb_lt in H. now rewrite H, andb_true_r.
Qed.

Lemma maproc1 m :
  nth m (mask_ma_procing_batch J1) false =
  if ma =? m then true else nth m (mask_ma_procing_batch J) false.
Proof.
  unfold_step; proj. rewrite nth_upd, (sh_ma_procing Hsh).
  pose proof la_ma as H. apply Nat.ltb_lt in H. now rewrite H, andb_true_r.
Qed.

Lemma jproc1 j :
  nth j (mask_job_procing_batch J1) false =
  if job =? j then true else nth j (mask_job_procing_batch J) false.
Proof.
  unfold_step; proj. rewrite nth_upd, (sh_job_procing Hsh).
  pose proof la_job as H. apply Nat.ltb_lt in H. now rewrite H, andb_true_r.
Qed.

Lemma ma_idle_before :
  qnth ma (mach_idle J) = 1%Q /\ (qnth ma (mach_avail J) <= time J)%Q.
Proof.
  destruct HL as (_ & Hm & _ & _ & _ & Hidle & _).
  destruct (iv_mach HI Hm) as [(H1 & _ & H3)|(_ & H2 & _)]; [auto|congruence].
Qed.

Lemma job_free_before : nth job (mask_job_procing_batch J) false = false.
Proof. apply HL. Qed.

Lemma c_mach m : m < nm ->
  (qnth m (mach_idle J1) = 1%Q /\ nth m (mask_ma_procing_batch J1) false = false /\
   (qnth m (mach_avail J1) <= time J)%Q) \/
  (qnth m (mach_idle J1) = 0%Q /\ nth m (mask_ma_procing_batch J1) false = true /\
   (time J < qnth m (mach_avail J1))%Q /\
   nth m (mach_job J1) 0 < nj /\
   nth (nth m (mach_job J1) 0) (mask_job_procing_batch J1) false = true /\
   bias_of J (nth m (mach_job J1) 0) < step_of J1 (nth m (mach_job J1) 0) /\
   nth (step_of J1 (nth m (mach_job J1) 0) - 1) (sched_ma J1) 0 = m /\
   (qnth m (mach_avail J1) == end_of J1 (step_of J1 (nth m (mach_job J1) 0) - 1)%nat)%Q).
Proof.
  intros Hm. rewrite idle1, maproc1, avail1, mjob1.
  destruct (Nat.eqb_spec ma m) as [<-|Hne].
  - right. rewrite jproc1, Nat.eqb_refl, (step1_of job la_job), Nat.eqb_refl.
    replace (S ope - 1) with ope by lia.
    rewrite sched_ma1, Nat.eqb_refl, end1_ope.
    pose proof la_proc_pos. pose proof la_in_job as [Hb _].
    repeat split; auto using la_job; try lra; try lia.
  - destruct (iv_mach HI Hm) as [(H1 & H2 & H3)|(H1 & H2 & H3 & H4 & H5 & H6 & H7 & H8)].
    + left. auto.
    + right. set (j := nth m (mach_job J) 0) in *.
      assert (Hj : j <> job).
      { intros E. rewrite E in H5. rewrite job_free_before in H5. discriminate. }
      rewrite jproc1, (step1_of j H4).
      destruct (Nat.eqb_spec job j) as [|_]; [congruence|].
      assert (Hin : in_job J j (step_of J j - 1)).
      { pose proof (iv_step HI H4). unfold in_job. lia. }
      assert (Hlt : step_of J j - 1 < step_of J j) by lia.
      rewrite sched_ma1.
      destruct (Nat.eqb_spec ope (step_of J j - 1)) as [E|_].
      { exfalso. symmetry in E. revert E. now apply (la_unscheduled j _ H4 Hin). }
      rewrite (end1_scheduled j _ H4 Hin Hlt).
      repeat split; auto.
Qed.

Lemma c_procing j : j < nj -> nth j (mask_job_procing_batch J1) false = true ->
  exists m, m < nm /\ qnth m (mach_idle J1) = 0%Q /\ nth m (mach_job J1) 0 = j.
Proof.
  intros Hj. rewrite jproc1.
  destruct (Nat.eqb_spec job j) as [<-|Hne]; intros Hp.
  - exists ma. rewrite idle1, mjob1, Nat.eqb_refl. auto using la_ma.
  - destruct (iv_procing HI Hj Hp) as (m & Hm & Hi & Hjm).
    exists m. rewrite idle1, mjob1.
    destruct (Nat.eqb_spec ma m) as [<-|]; auto.
    destruct ma_idle_before as [H1 _]. rewrite H1 in Hi. discriminate.
Qed.

Lemma c_ended j o : j < nj -> in_job J j o -> o < step_of J1 j ->
  (o + 1 < step_of J1 j \/ nth j (mask_job_procing_batch J1) false = false) ->
  (end_of J1 o <= time J)%Q.
Proof.
  intros Hj Ho Hlt Hc. revert Hc. rewrite jproc1, (step1_of j Hj).
  destruct (scheduled1_cases j o Hj Ho Hlt) as [->|[Hne Hs]].
  - assert (j = job)
      by (apply (in_job_unique nj nm n J HI j job ope); auto using la_job, la_in_job).
    subst j. rewrite Nat.eqb_refl. intros [H|H]; [lia|discriminate].
  - rewrite (end1_scheduled j o Hj Ho Hs).
    destruct (Nat.eqb_spec job j) as [<-|_]; intros Hc.
    + apply (iv_ended HI Hj Ho Hs). right. apply job_free_before.
    + apply (iv_ended HI Hj Ho Hs). exact Hc.
Qed.

Lemma c_avail j o : j < nj -> in_job J j o -> o < step_of J1 j ->
  (end_of J1 o <= qnth (nth o (sched_ma J1) 0%nat) (mach_avail J1))%Q.
Proof.
  intros Hj Ho Hlt. rewrite sched_ma1, avail1.
  destruct (scheduled1_cases j o Hj Ho Hlt) as [->|[Hne Hs]].
  - rewrite !Nat.eqb_refl, end1_ope. lra.
  - destruct (Nat.eqb_spec ope o); [congruence|].
    rewrite (end1_scheduled j o Hj Ho Hs).
    pose proof (iv_avail HI Hj Ho Hs) as Ha.
    destruct (Nat.eqb_spec ma (nth o (sched_ma J) 0)) as [E|_]; auto.
    rewrite <- E in Ha. destruct ma_idle_before as [_ H2].
    pose proof la_proc_pos. lra.
Qed.

Lemma before_ope j o : j < nj -> in_job J j o -> o < step_of J j ->
  nth o (sched_ma J) 0 = ma -> (end_of J o <= time J)%Q.
Proof.
  intros Hj Ho Hs E. pose proof (iv_avail HI Hj Ho Hs) as Ha. rewrite E in Ha.
  destruct ma_idle_before as [_ H2]. lra.
Qed.

Lemma c_disjoint j1 o1 j2 o2 :
  j1 < nj -> in_job J j1 o1 -> o1 < step_of J1 j1 ->
  j2 < nj -> in_job J j2 o2 -> o2 < step_of J1 j2 ->
  o1 <> o2 -> nth o1 (sched_ma J1) 0 = nth o2 (sched_ma J1) 0 ->
  (end_of J1 o1 <= qnth o2 (feat_ope_start J1))%Q \/
  (end_of J1 o2 <= qnth o1 (feat_ope_start J1))%Q.
Proof.
  intros Hj1 Ho1 Hl1 Hj2 Ho2 Hl2 Hne. rewrite !sched_ma1.
  destruct (scheduled1_cases j1 o1 Hj1 Ho1 Hl1) as [->|[Hn1 Hs1]];
    destruct (scheduled1_cases j2 o2 Hj2 Ho2 Hl2) as [->|[Hn2 Hs2]]; try congruence.
  - rewrite Nat.eqb_refl. destruct (Nat.eqb_spec ope o2); [congruence|]. intros E.
    right. rewrite (end1_scheduled j2 o2 Hj2 Ho2 Hs2), start1_ope.
    apply (before_ope j2 o2 Hj2 Ho2 Hs2). auto.
  - rewrite Nat.eqb_refl. destruct (Nat.eqb_spec ope o1); [congruence|]. intros E.
    left. rewrite (end1_scheduled j1 o1 Hj1 Ho1 Hs1), start1_ope.
    apply (before_ope j1 o1 Hj1 Ho1 Hs1). auto.
  - destruct (Nat.eqb_spec ope o1); [congruence|].
    destruct (Nat.eqb_spec ope o2); [congruence|]. intros E.
    rewrite (end1_scheduled j1 o1 Hj1 Ho1 Hs1), (end1_scheduled j2 o2 Hj2 Ho2 Hs2),
      (start1_scheduled j1 o1 Hj1 Ho1 Hs1), (start1_scheduled j2 o2 Hj2 Ho2 Hs2).
    apply (iv_disjoint HI Hj1 Ho1 Hs1 Hj2 Ho2 Hs2 Hne E).
Qed.

Lemma c_order j o : j < nj -> in_job J j o -> o + 1 < step_of J1 j ->
  (end_of J1 o <= qnth (o + 1)%nat (feat_ope_start J1))%Q.
Proof.
  intros Hj Ho Hlt.
  pose proof (step1_range j Hj) as [[_ Hup] _].
  assert (Ho' : in_job J j (o + 1)) by (destruct Ho; unfold in_job; lia).
  assert (Hl : o < step_of J1 j) by lia.
  destruct (scheduled1_cases j (o + 1) Hj Ho' Hlt) as [E|[Hn Hs]].
  - assert (j = job).
    { apply (in_job_unique nj nm n J HI j job ope); auto using la_job, la_in_job.
      now rewrite <- E. }
    subst j. rewrite E, start1_ope.
    assert (Hs : o < step_of J job) by (rewrite <- la_ope; lia).
    rewrite (end1_scheduled job o Hj Ho Hs).
    apply (iv_ended HI Hj Ho Hs). right. apply job_free_before.
  - assert (Hs0 : o < step_of J j) by lia.
    rewrite (end1_scheduled j o Hj Ho Hs0), (start1_scheduled j (o + 1) Hj Ho' Hs).
    apply (iv_order HI Hj Ho). exact Hs.
Qed.

(** A legal decision keeps the invariant. *)
Lemma Inv_step_active : Inv nj nm n J1.
Proof.
  apply mkInv.
  - apply shape_step_inst; [exact Hsh|exact (conj la_ope_lt (conj la_ma la_job))].
  - exact (iv_biases HI).
  - exact (iv_nums HI).
  - exact (iv_ends HI).
  - exact (iv_total HI).
  - exact (iv_appertain HI).
  - exact (iv_time HI).
  - intros j Hj. apply (step1_range j Hj).
  - exact c_finish.
  - reflexivity.
  - exact c_status.
  - exact c_padding.
  - exact c_sched_status.
  - reflexivity.
  - reflexivity.
  - exact c_proc.
  - exact adj1_binary.
  - exact c_elig.
  - exact c_dur.
  - exact mean1_nonneg.
  - exact start1_nonneg.
  - exact cal1_pos.
  - exact c_cal_one.
  - exact c_mach.
  - exact c_procing.
  - exact c_ended.
  - exact c_avail.
  - exact c_disjoint.
  - exact c_order.
  - exact bound1.
  - exact clock1.
Qed.
End StepActive.

(* ------------------------------------------------------------------ *)
(** ** Stalled slots *)

Lemma qsum_zero l x :
  (forall y, In y l -> (0 <= y)%Q) -> (qsum l == 0)%Q -> In x l -> (x == 0)%Q.
Proof.
  intros Hp Hz Hx. pose proof (qsum_ge_term l x Hp Hx). pose proof (Hp x Hx). lra.
Qed.

Lemma release_jobs_nth d : forall jobs mask j,
  nth j (release_jobs d jobs mask) false = true <->
  nth j mask false = true /\
  (forall m, m < length d -> m < length jobs -> nth m d false = true -> nth m jobs 0 <> j).
Proof.
  unfold release_jobs.
  induction d as [|dm d IH]; intros [|jb jobs] mask j; simpl.
  - split; [intros H; split; auto; intros; lia|tauto].
  - split; [intros H; split; auto; intros; lia|tauto].
  - split; [intros H; split; auto; intros; lia|tauto].
  - rewrite IH. split.
    + intros [H1 H2]. destruct dm.
      * rewrite nth_upd in H1.
        destruct (Nat.eqb_spec jb j) as [->|Hne].
        -- destruct (Nat.ltb_spec j (length mask)); simpl in H1; [discriminate|].
           rewrite nth_overflow in H1 by lia. discriminate.
        -- simpl in H1. split; auto.
           intros [|m] Hm1 Hm2 Hd; auto. apply H2; auto; lia.
      * split; auto. intros [|m] Hm1 Hm2 Hd; [discriminate|]. apply H2; auto; lia.
    + intros [H1 H2]. split.
      * destruct dm; auto. rewrite nth_upd.
        assert (jb <> j) by (apply (H2 0); auto; lia).
        destruct (Nat.eqb_spec jb j); [congruence|]. simpl. exact H1.
      * intros m Hm1 Hm2 Hd. apply (H2 (S m)); auto; lia.
Qed.

Lemma release_jobs_none d : forall jobs mask,
  (forall m, nth m d false = false) -> release_jobs d jobs mask = mask.
Proof.
  unfold release_jobs.
  induction d as [|dm d IH]; intros [|jb jobs] mask H; simpl; auto.
  pose proof (H 0) as H0. simpl in H0. subst dm.
  apply IH. intros m. apply (H (S m)).
Qed.

Section Stalled.
Variables nj nm n : nat.
Variable J : Inst.
Hypothesis HI : Inv nj nm n J.

Local Abbreviation Hsh := (iv_shape HI).

Lemma finish_mask_same : finish_mask J = mask_job_finish_batch J.
Proof.
  apply nth_ext with (d := false) (d' := false).
  - unfold finish_mask. rewrite length_finish_of, (sh_ope_step Hsh), (sh_ends Hsh),
      (sh_job_finish Hsh). lia.
  - intros j Hj. apply (finish_mask_nth nj nm n J HI).
    unfold finish_mask in Hj.
    rewrite length_finish_of, (sh_ope_step Hsh), (sh_ends Hsh), (sh_job_finish Hsh) in Hj. lia.
Qed.

Lemma pending_nth j : j < nj -> step_of J j < bias_of J j + nums_of J j ->
  nth j (pending_opes J) 0 = step_of J j.
Proof.
  intros Hj Hlt. unfold pending_opes.
  rewrite (nth_zipw _ _ _ 0 0 0) by (rewrite ?(sh_ope_step Hsh), ?(sh_ends Hsh); auto).
  pose proof (end_index nj nm n J HI j Hj).
  fold (step_of J j).
  destruct (Nat.ltb_spec (nth j (end_ope_biases_batch J) 0) (step_of J j)); [lia|reflexivity].
Qed.

Lemma eligible_row_nonneg o jb : (0 <= eligible_row J o jb)%Q.
Proof.
  unfold eligible_row. apply qsum_nonneg. intros x Hx.
  apply (in_zipw _ _ _ _ _ _ _ 0%Q false) in Hx. destruct Hx as (m & _ & _ & ->).
  destruct (negb _ && negb jb); [apply (iv_proc HI o m)|lra].
Qed.

(** With flag 0 no idle machine has a positive duration for the pending
    operation of a job that is neither in process nor finished. *)
Lemma no_eligible_zero j m :
  (if_no_eligible_inst J == 0)%Q -> j < nj -> m < nm ->
  step_of J j < bias_of J j + nums_of J j ->
  nth j (mask_job_procing_batch J) false = false ->
  nth m (mask_ma_procing_batch J) false = false ->
  (qnth2 (step_of J j) m (proc_times_batch J) == 0)%Q.
Proof.
  intros Hz Hj Hm Hlt Hp Hmp.
  assert (Hfin : nth j (mask_job_finish_batch J) false = false).
  { destruct (nth j (mask_job_finish_batch J) false) eqn:E; auto.
    apply (iv_finish HI Hj) in E. lia. }
  assert (Hon : step_of J j < n).
  { apply (in_job_bound nj nm n J HI j). auto.
    pose proof (iv_step HI Hj). unfold in_job. lia. }
  unfold if_no_eligible_inst in Hz.
  assert (Hnn : forall y, In y (zipw (eligible_row J) (pending_opes J)
                  (zipw orb (mask_job_procing_batch J) (mask_job_finish_batch J))) ->
                (0 <= y)%Q).
  { intros y Hy. apply (in_zipw _ _ _ _ _ _ _ 0 false) in Hy.
    destruct Hy as (k & _ & _ & ->). apply eligible_row_nonneg. }
  assert (Hrow : (eligible_row J (step_of J j) false == 0)%Q).
  { apply (qsum_zero _ _ Hnn Hz).
    apply (in_zipw _ _ _ _ _ _ _ 0 false). exists j.
    rewrite length_zipw, (sh_job_procing Hsh), (sh_job_finish Hsh).
    unfold pending_opes at 1. rewrite length_zipw, (sh_ope_step Hsh), (sh_ends Hsh).
    repeat split; try lia.
    rewrite (pending_nth j Hj Hlt).
    rewrite (nth_zipw orb _ _ false false false)
      by (rewrite ?(sh_job_procing Hsh), ?(sh_job_finish Hsh); auto).
    now rewrite Hp, Hfin. }
  unfold eligible_row in Hrow.
  apply (qsum_zero _ (qnth2 (step_of J j) m (proc_times_batch J))) in Hrow; auto.
  - intros y Hy. apply (in_zipw _ _ _ _ _ _ _ 0%Q false) in Hy. destruct Hy as (k & _ & _ & ->).
    destruct (negb _ && negb false); [apply (iv_proc HI (step_of J j) k)|lra].
  - apply (in_zipw _ _ _ _ _ _ _ 0%Q false). exists m.
    rewrite (sh_proc_row Hsh Hon), (sh_ma_procing Hsh).
    repeat split; auto. now rewrite Hmp.
Qed.

(** A slot that needs a time advance has a busy machine. *)
Lemma stalled_busy :
  need_trans (if_no_eligible_inst J) J = true ->
  exists m, m < nm /\ qnth m (mach_idle J) = 0%Q.
Proof.
  unfold need_trans. intros H. apply andb_prop in H. destruct H as [Hz Hd].
  apply Qeq_bool_iff in Hz. rewrite (iv_done HI) in Hd.
  apply negb_true_iff in Hd.
  assert (Hex : exists j, j < nj /\ nth j (mask_job_finish_batch J) false = false).
  { destruct (forallb_forall (fun b : bool => b) (mask_job_finish_batch J)) as [_ Hall].
    destruct (existsb negb (mask_job_finish_batch J)) eqn:E.
    - apply existsb_exists in E. destruct E as (x & Hx & Hn).
      destruct (In_nth _ _ false Hx) as (j & Hj & Hjx).
      exists j. rewrite (sh_job_finish Hsh) in Hj. split; auto.
      rewrite Hjx. now destruct x.
    - rewrite Hall in Hd; [discriminate|].
      intros x Hx. destruct x; auto.
      assert (existsb negb (mask_job_finish_batch J) = true)
        by (apply existsb_exists; exists false; auto).
      congruence. }
  destruct Hex as (j & Hj & Hfin).
  assert (Hlt : step_of J j < bias_of J j + nums_of J j).
  { pose proof (iv_step HI Hj).
    destruct (Nat.eq_dec (step_of J j) (bias_of J j + nums_of J j)) as [E|]; [|lia].
    apply (iv_finish HI Hj) in E. congruence. }
  destruct (nth j (mask_job_procing_batch J) false) eqn:Hp.
  - destruct (iv_procing HI Hj Hp) as (m & Hm & Hi & _). eauto.
  - assert (Hin : in_job J j (step_of J j)).
    { pose proof (iv_step HI Hj). unfold in_job. lia. }
    destruct (iv_elig HI Hj Hin (Nat.le_refl _)) as (m & Hm & _ & Hpos).
    exists m. split; auto.
    destruct (iv_mach HI Hm) as [(H1 & H2 & H3)|(H1 & _)]; auto.
    pose proof (no_eligible_zero j m Hz Hj Hm Hlt Hp H2). lra.
Qed.
End Stalled.

(* ------------------------------------------------------------------ *)
(** ** The invariant is kept by [next_time] *)

Lemma Qgt_bool_true x y : Qgt_bool x y = true <-> (y < x)%Q.
Proof.
  unfold Qgt_bool. rewrite negb_true_iff. split.
  - intros H. apply Qnot_le_lt. intros Hle. apply Qle_bool_iff in Hle. congruence.
  - intros H. destruct (Qle_bool x y) eqn:E; auto.
    apply Qle_bool_iff in E. lra.
Qed.

Lemma Qgt_bool_false x y : Qgt_bool x y = false <-> (x <= y)%Q.
Proof.
  unfold Qgt_bool. rewrite negb_false_iff. apply Qle_bool_iff.
Qed.

Lemma release_jobs_freed d : forall jobs mask j,
  nth j mask false = true -> nth j (release_jobs d jobs mask) false = false ->
  exists m, m < length d /\ m < length jobs /\ nth m d false = true /\ nth m jobs 0 = j.
Proof.
  unfold release_jobs.
  induction d as [|dm d IH]; intros [|jb jobs] mask j Hm Hr; simpl in Hr; try congruence.
  destruct dm.
  - destruct (Nat.eq_dec jb j) as [->|Hne].
    + exists 0. simpl. repeat split; auto; lia.
    + destruct (IH jobs (upd mask jb false) j) as (m & H1 & H2 & H3 & H4); auto.
      * now rewrite nth_upd_neq.
      * exists (S m). simpl. repeat split; auto; lia.
  - destruct (IH jobs mask j Hm Hr) as (m & H1 & H2 & H3 & H4).
    exists (S m). simpl. repeat split; auto; lia.
Qed.

Section NextTime.
Variables nj nm n : nat.
Variable J : Inst.
Hypothesis HI : Inv nj nm n J.
Variable g : Q.
Hypothesis Hg : (list_max (feat_ope_end J) <= g)%Q.

Local Abbreviation Hsh := (iv_shape HI).
Local Abbreviation flag := (if_no_eligible_inst J).
Local Abbreviation J2 := (next_time_inst g (if_no_eligible_inst J) J).
Local Abbreviation c := (nt_c g J).

Lemma busy_bound m : m < nm -> qnth m (mach_idle J) = 0%Q ->
  (time J < qnth m (mach_avail J))%Q /\
  (qnth m (mach_avail J) <= list_max (feat_ope_end J))%Q.
Proof.
  intros Hm Hi.
  destruct (iv_mach HI Hm) as [(H1 & _)|(_ & _ & H3 & H4 & _ & H6 & _ & H8)].
  - rewrite H1 in Hi. discriminate.
  - split; auto. rewrite H8. apply (iv_bound HI H4 H6).
Qed.

Lemma idle_avail m : m < nm -> qnth m (mach_idle J) = 1%Q ->
  (qnth m (mach_avail J) <= time J)%Q.
Proof.
  intros Hm Hi.
  destruct (iv_mach HI Hm) as [(_ & _ & H3)|(H1 & _)]; auto.
  rewrite H1 in Hi. discriminate.
Qed.

Lemma idle_cases m : m < nm ->
  qnth m (mach_idle J) = 1%Q \/ qnth m (mach_idle J) = 0%Q.
Proof.
  intros Hm. destruct (iv_mach HI Hm) as [(H1 & _)|(H1 & _)]; auto.
Qed.

Lemma nt_b_nth m : m < nm ->
  qnth m (nt_b g J) =
  if Qgt_bool (qnth m (mach_avail J)) (time J) then qnth m (mach_avail J) else (g + 1)%Q.
Proof.
  intros Hm. unfold nt_b, qnth.
  rewrite (nth_indep _ 0%Q ((fun x => if Qgt_bool x (time J) then x else (g + 1)%Q) 0%Q))
    by (rewrite length_map, (sh_avail Hsh); auto).
  now rewrite (map_nth (fun x => if Qgt_bool x (time J) then x else (g + 1)%Q)).
Qed.

Lemma nt_b_busy m : m < nm -> qnth m (mach_idle J) = 0%Q ->
  qnth m (nt_b g J) = qnth m (mach_avail J).
Proof.
  intros Hm Hi. rewrite (nt_b_nth m Hm).
  destruct (busy_bound m Hm Hi) as [H _]. apply Qgt_bool_true in H. now rewrite H.
Qed.

Lemma nt_b_idle m : m < nm -> qnth m (mach_idle J) = 1%Q ->
  qnth m (nt_b g J) = (g + 1)%Q.
Proof.
  intros Hm Hi. rewrite (nt_b_nth m Hm).
  pose proof (idle_avail m Hm Hi) as H. apply Qgt_bool_false in H. now rewrite H.
Qed.

Lemma nt_c_le m : m < nm -> (c <= qnth m (nt_b g J))%Q.
Proof.
  intros Hm. apply list_min_le. apply nth_In_q.
  unfold nt_b. rewrite length_map, (sh_avail Hsh). auto.
Qed.

(** The clock a stalled slot jumps to is the earliest completion of a
    busy machine. *)
Lemma nt_c_props :
  need_trans flag J = true ->
  (time J < c)%Q /\ (c <= list_max (feat_ope_end J))%Q /\
  (forall m, m < nm -> qnth m (mach_idle J) = 0%Q -> (c <= qnth m (mach_avail J))%Q) /\
  (exists m, m < nm /\ qnth m (mach_idle J) = 0%Q /\ qnth m (mach_avail J) = c).
Proof.
  intros Hneed.
  destruct (stalled_busy nj nm n J HI Hneed) as (m0 & Hm0 & Hi0).
  destruct (busy_bound m0 Hm0 Hi0) as [Ht0 Hb0].
  pose proof (nt_c_le m0 Hm0) as Hc0. rewrite (nt_b_busy m0 Hm0 Hi0) in Hc0.
  assert (Hin : In c (nt_b g J)).
  { apply list_min_in. intros E. apply (f_equal (@length _)) in E.
    unfold nt_b in E. rewrite length_map, (sh_avail Hsh) in E. simpl in E. lia. }
  destruct (In_nth _ _ 0%Q Hin) as (m1 & Hm1 & E1).
  unfold nt_b in Hm1. rewrite length_map, (sh_avail Hsh) in Hm1.
  fold (qnth m1 (nt_b g J)) in E1.
  destruct (idle_cases m1 Hm1) as [Hi1|Hi1].
  - rewrite (nt_b_idle m1 Hm1 Hi1) in E1. rewrite <- E1 in Hc0. lra.
  - rewrite (nt_b_busy m1 Hm1 Hi1) in E1.
    destruct (busy_bound m1 Hm1 Hi1) as [Ht1 Hb1].
    repeat split.
    + rewrite <- E1. exact Ht1.
    + rewrite <- E1. exact Hb1.
    + intros m Hm Hi. pose proof (nt_c_le m Hm) as Hc.
      now rewrite (nt_b_busy m Hm Hi) in Hc.
    + exists m1. auto.
Qed.

Lemma time2_mono : (time J <= time J2)%Q.
Proof.
  change (time J2) with (nt_time g flag J). unfold nt_time.
  destruct (need_trans flag J) eqn:E; [|lra].
  destruct (nt_c_props E) as [H _]. lra.
Qed.

Lemma nt_d_nth m : m < nm ->
  nth m (nt_d g flag J) false =
  Qeq_bool (qnth m (mach_avail J)) c && Qeq_bool (qnth m (mach_idle J)) 0
  && need_trans flag J.
Proof.
  intros Hm. unfold nt_d.
  rewrite (nth_zipw _ _ _ false 0%Q 0%Q)
    by (rewrite ?(sh_avail Hsh), ?(sh_idle Hsh); auto).
  reflexivity.
Qed.

Lemma nt_d_true m : m < nm -> nth m (nt_d g flag J) false = true ->
  need_trans flag J = true /\ qnth m (mach_idle J) = 0%Q /\
  (qnth m (mach_avail J) == c)%Q.
Proof.
  intros Hm. rewrite (nt_d_nth m Hm). intros H.
  apply andb_prop in H. destruct H as [H H3]. apply andb_prop in H. destruct H as [H1 H2].
  apply Qeq_bool_iff in H1. repeat split; auto.
  destruct (idle_cases m Hm) as [E|E]; auto. rewrite E in H2. discriminate.
Qed.

Lemma nt_d_false_busy m : m < nm -> nth m (nt_d g flag J) false = false ->
  qnth m (mach_idle J) = 0%Q -> (time J2 < qnth m (mach_avail J))%Q.
Proof.
  intros Hm. rewrite (nt_d_nth m Hm). intros Hd Hi.
  destruct (busy_bound m Hm Hi) as [Ht _].
  change (time J2) with (nt_time g flag J). unfold nt_time.
  destruct (need_trans flag J) eqn:E; auto.
  destruct (nt_c_props E) as (_ & _ & Hle & _). specialize (Hle m Hm Hi).
  rewrite Hi in Hd. rewrite andb_true_r in Hd. simpl in Hd. rewrite andb_true_r in Hd.
  destruct (Qlt_le_dec c (qnth m (mach_avail J))) as [|Hge]; auto.
  assert (Heq : (qnth m (mach_avail J) == c)%Q) by lra.
  apply Qeq_bool_iff in Heq. congruence.
Qed.

Lemma idle2 m : m < nm ->
  qnth m (mach_idle J2) = if nth m (nt_d g flag J) false then 1%Q else qnth m (mach_idle J).
Proof.
  intros Hm. change (mach_idle J2) with (nt_idle g flag J). unfold nt_idle, qnth.
  rewrite (nth_zipw _ _ _ 0%Q false 0%Q)
    by (rewrite ?length_nt_d, ?(sh_avail Hsh), ?(sh_idle Hsh); lia).
  reflexivity.
Qed.

Lemma maproc2 m : m < nm ->
  nth m (mask_ma_procing_batch J2) false =
  if nth m (nt_d g flag J) false then false else nth m (mask_ma_procing_batch J) false.
Proof.
  intros Hm. change (mask_ma_procing_batch J2) with (nt_ma_procing g flag J).
  unfold nt_ma_procing.
  rewrite (nth_zipw _ _ _ false false false)
    by (rewrite ?length_nt_d, ?(sh_avail Hsh), ?(sh_idle Hsh), ?(sh_ma_procing Hsh); lia).
  reflexivity.
Qed.

(** Two busy machines serve different jobs. *)
Lemma busy_job_unique m1 m2 : m1 < nm -> m2 < nm ->
  qnth m1 (mach_idle J) = 0%Q -> qnth m2 (mach_idle J) = 0%Q ->
  nth m1 (mach_job J) 0 = nth m2 (mach_job J) 0 -> m1 = m2.
Proof.
  intros H1 H2 I1 I2 E.
  destruct (iv_mach HI H1) as [(X & _)|(_ & _ & _ & _ & _ & _ & S1 & _)];
    [rewrite X in I1; discriminate|].
  destruct (iv_mach HI H2) as [(X & _)|(_ & _ & _ & _ & _ & _ & S2 & _)];
    [rewrite X in I2; discriminate|].
  rewrite <- S1, <- S2, E. reflexivity.
Qed.

Lemma jproc2_kept j m : j < nj -> m < nm ->
  qnth m (mach_idle J) = 0%Q -> nth m (mach_job J) 0 = j ->
  nth m (nt_d g flag J) false = false ->
  nth j (mask_job_procing_batch J) false = true ->
  nth j (mask_job_procing_batch J2) false = true.
Proof.
  intros Hj Hm Hi Hjm Hd Hp.
  change (mask_job_procing_batch J2)
    with (release_jobs (nt_d g flag J) (mach_job J) (mask_job_procing_batch J)).
  apply release_jobs_nth. split; auto.
  intros m' Hm1 Hm2 Hd' E.
  rewrite (sh_job Hsh) in Hm2.
  destruct (nt_d_true m' Hm2 Hd') as (_ & Hi' & _).
  assert (m' = m) by (apply busy_job_unique; auto; congruence).
  subst m'. congruence.
Qed.

Lemma jproc2_true j : nth j (mask_job_procing_batch J2) false = true ->
  nth j (mask_job_procing_batch J) false = true /\
  (forall m, m < nm -> nth m (nt_d g flag J) false = true -> nth m (mach_job J) 0 <> j).
Proof.
  change (mask_job_procing_batch J2)
    with (release_jobs (nt_d g flag J) (mach_job J) (mask_job_procing_batch J)).
  intros H. apply release_jobs_nth in H. destruct H as [H1 H2]. split; auto.
  intros m Hm Hd. apply H2; auto.
  - rewrite length_nt_d, (sh_avail Hsh), (sh_idle Hsh). lia.
  - rewrite (sh_job Hsh). auto.
Qed.

Lemma jproc2_false j : j < nj ->
  nth j (mask_job_procing_batch J) false = true ->
  nth j (mask_job_procing_batch J2) false = false ->
  need_trans flag J = true /\ (end_of J (step_of J j - 1) == c)%Q.
Proof.
  intros Hj Hp H2.
  destruct (release_jobs_freed _ _ _ j Hp H2) as (m & _ & Hm & Hd & E).
  rewrite (sh_job Hsh) in Hm.
  destruct (nt_d_true m Hm Hd) as (Hneed & Hi & Hc).
  split; auto.
  destruct (iv_mach HI Hm) as [(X & _)|(_ & _ & _ & _ & _ & _ & _ & H8)];
    [rewrite X in Hi; discriminate|].
  rewrite E in H8. rewrite <- H8. exact Hc.
Qed.

Lemma c2_mach m : m < nm ->
  (qnth m (mach_idle J2) = 1%Q /\ nth m (mask_ma_procing_batch J2) false = false /\
   (qnth m (mach_avail J) <= time J2)%Q) \/
  (qnth m (mach_idle J2) = 0%Q /\ nth m (mask_ma_procing_batch J2) false = true /\
   (time J2 < qnth m (mach_avail J))%Q /\
   nth m (mach_job J) 0 < nj /\
   nth (nth m (mach_job J) 0) (mask_job_procing_batch J2) false = true /\
   bias_of J (nth m (mach_job J) 0) < step_of J (nth m (mach_job J) 0) /\
   nth (step_of J (nth m (mach_job J) 0) - 1) (sched_ma J) 0 = m /\
   (qnth m (mach_avail J) == end_of J (step_of J (nth m (mach_job J) 0) - 1)%nat)%Q).
Proof.
  intros Hm. rewrite (idle2 m Hm), (maproc2 m Hm).
  destruct (nth m (nt_d g flag J) false) eqn:Hd.
  - left. destruct (nt_d_true m Hm Hd) as (Hneed & Hi & Hc).
    repeat split; auto.
    change (time J2) with (nt_time g flag J). unfold nt_time. rewrite Hneed. lra.
  - destruct (iv_mach HI Hm) as [(H1 & H2 & H3)|(H1 & H2 & H3 & H4 & H5 & H6 & H7 & H8)].
    + left. repeat split; auto. pose proof time2_mono. lra.
    + right. repeat split; auto.
      * now apply nt_d_false_busy.
      * apply (jproc2_kept _ m); auto.
Qed.

Lemma c2_procing j : j < nj -> nth j (mask_job_procing_batch J2) false = true ->
  exists m, m < nm /\ qnth m (mach_idle J2) = 0%Q /\ nth m (mach_job J) 0 = j.
Proof.
  intros Hj H2. destruct (jproc2_true j H2) as [Hp Hfree].
  destruct (iv_procing HI Hj Hp) as (m & Hm & Hi & E).
  exists m. repeat split; auto. rewrite (idle2 m Hm).
  destruct (nth m (nt_d g flag J) false) eqn:Hd; auto.
  exfalso. apply (Hfree m Hm Hd E).
Qed.

Lemma c2_ended j o : j < nj -> in_job J j o -> o < step_of J j ->
  (o + 1 < step_of J j \/ nth j (mask_job_procing_batch J2) false = false) ->
  (end_of J o <= time J2)%Q.
Proof.
  intros Hj Ho Hs Hc. pose proof time2_mono as Hmono.
  assert (Hold : (o + 1 < step_of J j \/ nth j (mask_job_procing_batch J) false = false) ->
                 (end_of J o <= time J2)%Q).
  { intros H. pose proof (iv_ended HI Hj Ho Hs H). lra. }
  destruct Hc as [Hc|Hc]; [auto|].
  destruct (nth j (mask_job_procing_batch J) false) eqn:Hp; [|auto].
  destruct (jproc2_false j Hj Hp Hc) as [Hneed He].
  destruct (Nat.eq_dec (o + 1) (step_of J j)) as [E|E]; [|apply Hold; left; lia].
  replace (step_of J j - 1) with o in He by lia.
  change (time J2) with (nt_time g flag J). unfold nt_time. rewrite Hneed. lra.
Qed.

Lemma c2_clock : (time J2 <= list_max (feat_ope_end J))%Q.
Proof.
  change (time J2) with (nt_time g flag J). unfold nt_time.
  destruct (need_trans flag J) eqn:E; [|apply (iv_clock HI)].
  apply (nt_c_props E).
Qed.

Lemma Inv_next_time : Inv nj nm n J2.
Proof.
  apply mkInv.
  - apply shape_next_time_inst. exact Hsh.
  - exact (iv_biases HI).
  - exact (iv_nums HI).
  - exact (iv_ends HI).
  - exact (iv_total HI).
  - exact (iv_appertain HI).
  - pose proof (iv_time HI). pose proof time2_mono. lra.
  - exact (iv_step HI).
  - intros j Hj. change (mask_job_finish_batch J2) with (finish_mask J).
    rewrite (finish_mask_same nj nm n J HI). apply (iv_finish HI Hj).
  - change (mask_job_finish_batch J2) with (finish_mask J).
    rewrite (finish_mask_same nj nm n J HI). exact (iv_done HI).
  - exact (iv_status HI).
  - exact (iv_padding HI).
  - exact (iv_sched_status HI).
  - exact (iv_sched_start HI).
  - exact (iv_sched_end HI).
  - exact (iv_proc HI).
  - exact (iv_adj HI).
  - exact (iv_elig HI).
  - exact (iv_dur HI).
  - exact (iv_mean HI).
  - exact (iv_start HI).
  - exact (iv_cal_pos HI).
  - exact (iv_cal_one HI).
  - exact c2_mach.
  - exact c2_procing.
  - exact c2_ended.
  - exact (iv_avail HI).
  - exact (iv_disjoint HI).
  - exact (iv_order HI).
  - exact (iv_bound HI).
  - exact c2_clock.
Qed.
End NextTime.

(* ------------------------------------------------------------------ *)
(** ** The invariant in legal runs *)

Lemma list_max_in l : l <> [] -> In (list_max l) l.
Proof.
  induction l as [|h t IH]; intros Hn; [congruence|].
  cbn [list_max]. destruct t as [|h2 t2]; [now left|].
  destruct (qmaxb_spec h (list_max (h2 :: t2))) as (_ & _ & [->| ->]).
  - now left.
  - right. apply IH. discriminate.
Qed.

Lemma concat_nil (A B : Type) (f : A -> list B) l :
  (forall x, In x l -> f x = []) -> concat (map f l) = [].
Proof.
  induction l as [|a l IH]; simpl; intros H; auto.
  rewrite (H a) by auto. simpl. apply IH. auto.
Qed.

(** [torch.max(self.feat_opes_batch[:, 4, :])] bounds the completion
    estimates of every slot. *)
Lemma global_max_ge n e b J :
  (forall b' J', nth_error (insts e) b' = Some J' -> length (feat_ope_end J') = n) ->
  nth_error (insts e) b = Some J ->
  (list_max (feat_ope_end J) <= global_max e)%Q.
Proof.
  intros Hlen HJ. unfold global_max. destruct n as [|n].
  - rewrite concat_nil.
    + apply Hlen in HJ. apply length_zero_iff_nil in HJ. rewrite HJ. simpl. lra.
    + intros x Hx. apply In_nth_error in Hx. destruct Hx as [b' Hb'].
      apply Hlen in Hb'. now apply length_zero_iff_nil.
  - apply list_max_ge. apply in_concat. exists (feat_ope_end J). split.
    + apply in_map. eapply nth_error_In; eauto.
    + apply list_max_in. intros E. apply Hlen in HJ. rewrite E in HJ. discriminate.
Qed.

(** The parameters and the slot invariant in every state of a legal run. *)
Lemma legal_reachable_Inv inp e :
  wf_input inp -> legal_reachable inp e ->
  (num_jobs e = para_num_jobs inp /\ num_mas e = para_num_mas inp /\
   num_opes e = det_num_opes inp) /\
  forall b J, nth_error (insts e) b = Some J ->
    Inv (para_num_jobs inp) (para_num_mas inp) (det_num_opes inp) J.
Proof.
  intros (Hj & Hm & Hl & Hall) Hr.
  induction Hr as [|e acts e1 rw Hr [(Dj & Dm & Dn) IH] Hleg Hc|e Hr [D IH]|e Hr [D IH]].
  - split; [repeat split; reflexivity|].
    intros b J HJ. destruct (@init_slot inp b J HJ) as (ld & Hld & ->).
    rewrite Hj, Hm. apply Inv_init_inst.
    rewrite <- Hj, <- Hm. rewrite Forall_forall in Hall. apply Hall.
    eapply nth_error_In; eauto.
  - pose proof (@step_core_dims e acts e1 rw Hc) as (_ & Ej & Em & En & _).
    split; [repeat split; congruence|].
    intros b J HJ. destruct (@step_core_slot e acts e1 rw b Hc) as [Hb _].
    rewrite HJ in Hb. destruct (nth_error (insts e) b) as [J0|] eqn:HJ0; [|discriminate].
    cbn [option_map] in Hb. inversion Hb; subst J; clear Hb.
    rewrite Dn, Dm. specialize (IH b J0 HJ0).
    destruct (action_of (batch_idxes e) acts b) as [[[ope ma] job]|] eqn:Ha.
    + destruct Hleg as [_ Hleg]. destruct (Hleg b _ Ha) as (J' & HJ' & HL).
      rewrite HJ0 in HJ'. inversion HJ'; subst J'. rewrite Dj, Dm in HL.
      now apply Inv_step_active.
    + now apply Inv_step_idle.
  - split; [exact D|].
    intros b J HJ. rewrite insts_next_time_own in HJ.
    destruct (nth_error (insts e) b) as [J0|] eqn:HJ0; [|discriminate].
    cbn [option_map] in HJ. inversion HJ; subst J; clear HJ.
    apply Inv_next_time; [now apply (IH b)|].
    apply (global_max_ge (det_num_opes inp) e b); auto.
    intros b' J' HJ'. apply (sh_f4 (iv_shape (IH b' J' HJ'))).
  - split; [exact D|]. exact IH.
Qed.

Lemma advance_legal inp fuel : forall e e',
  legal_reachable inp e -> advance fuel e = Some e' -> legal_reachable inp e'.
Proof.
  induction fuel as [|k IH]; intros e e' Hr Ha; simpl in Ha;
    destruct (some_need_trans e (if_no_eligible e)); try discriminate.
  - inversion Ha; subst; auto.
  - apply (IH _ _ (lr_next Hr) Ha).
  - inversion Ha; subst; auto.
Qed.

Lemma step_legal inp fuel e acts e' rw dn :
  legal_reachable inp e -> legal_acts e acts -> step fuel e acts = Ok (e', rw, dn) ->
  legal_reachable inp e'.
Proof.
  intros Hr Hl Hs.
  destruct (@step_inv fuel e acts e' rw dn Hs) as (e1 & e2 & Hc & Ha & -> & _).
  apply lr_finish. apply (advance_legal inp fuel e1 e2); auto.
  eapply lr_core; eauto.
Qed.

Lemma legal_run_reachable inp e e' :
  legal_reachable inp e -> legal_run e e' -> legal_reachable inp e'.
Proof.
  intros Hr Hrun. induction Hrun as [|e1 fuel acts e2 rw dn Hrun IH Hl Hs|e1 Hrun IH].
  - exact Hr.
  - eapply step_legal; eauto.
  - now apply lr_next.
Qed.

(* ------------------------------------------------------------------ *)
(** ** C6: the clock in legal runs *)

Lemma step_inst_time n nm oa J : time (fst (step_inst n nm oa J)) = time J.
Proof. destruct oa as [[[ope ma] job]|]; reflexivity. Qed.

Lemma next_time_own_clock inp e b J J' :
  wf_input inp -> legal_reachable inp e ->
  nth_error (insts e) b = Some J ->
  nth_error (insts (next_time e (if_no_eligible e))) b = Some J' ->
  (time J <= time J')%Q.
Proof.
  intros Hwf Hr HJ HJ'.
  destruct (legal_reachable_Inv inp e Hwf Hr) as [_ HI].
  rewrite insts_next_time_own, HJ in HJ'. cbn [option_map] in HJ'.
  inversion HJ'; subst J'.
  apply (time2_mono _ _ _ J (HI b J HJ)).
  apply (global_max_ge (det_num_opes inp) e b); auto.
  intros b' J0 HJ0. apply (sh_f4 (iv_shape (HI b' J0 HJ0))).
Qed.

Lemma advance_clock inp fuel : forall e e' b J J',
  wf_input inp -> legal_reachable inp e -> advance fuel e = Some e' ->
  nth_error (insts e) b = Some J -> nth_error (insts e') b = Some J' ->
  (time J <= time J')%Q.
Proof.
  induction fuel as [|k IH]; intros e e' b J J' Hwf Hr Ha HJ HJ'; simpl in Ha;
    destruct (some_need_trans e (if_no_eligible e)); try discriminate.
  - inversion Ha; subst. rewrite HJ in HJ'. inversion HJ'; subst. lra.
  - pose proof (insts_next_time_own e b) as Hn. rewrite HJ in Hn. cbn [option_map] in Hn.
    apply Qle_trans with (time (next_time_inst (global_max e) (if_no_eligible_inst J) J)).
    + apply (next_time_own_clock inp e b); auto.
    + apply (IH (next_time e (if_no_eligible e)) e' b); auto.
      now apply lr_next.
  - inversion Ha; subst. rewrite HJ in HJ'. inversion HJ'; subst. lra.
Qed.

Lemma step_clock inp fuel e acts e' rw dn b J J' :
  wf_input inp -> legal_reachable inp e -> legal_acts e acts ->
  step fuel e acts = Ok (e', rw, dn) ->
  nth_error (insts e) b = Some J -> nth_error (insts e') b = Some J' ->
  (time J <= time J')%Q.
Proof.
  intros Hwf Hr Hl Hs HJ HJ'.
  destruct (@step_inv fuel e acts e' rw dn Hs) as (e1 & e2 & Hc & Ha & -> & _).
  cbn [finish_step insts] in HJ'.
  destruct (@step_core_slot e acts e1 rw b Hc) as [Hb _].
  rewrite HJ in Hb. cbn [option_map] in Hb.
  rewrite <- (step_inst_time (num_opes e) (num_mas e) (action_of (batch_idxes e) acts b) J).
  apply (advance_clock inp fuel e1 e2 b); auto.
  eapply lr_core; eauto.
Qed.

Lemma legal_run_slots e e' :
  legal_run e e' -> length (insts e') = length (insts e).
Proof.
  induction 1 as [|e1 fuel acts e2 rw dn Hrun IH Hl Hs|e1 Hrun IH]; auto.
  - destruct (@step_inv fuel e1 acts e2 rw dn Hs) as (x1 & x2 & Hc & Ha & -> & _).
    pose proof (@step_core_dims e1 acts x1 rw Hc) as (_&_&_&_&_&_&_&_&L1).
    pose proof (@advance_dims fuel x1 x2 Ha) as (_&_&_&_&_&_&_&_&L2).
    cbn [finish_step insts]. lia.
  - unfold next_time, with_insts; cbn [insts].
    unfold if_no_eligible. rewrite length_zipw, length_map. lia.
Qed.

(** C6 (as amended): in a run from the constructed environment of a
    well-formed batch in which every [step] gets legal decisions and every
    [next_time] gets the flags of [if_no_eligible], the clock of a slot at a
    later state is never smaller than at an earlier state. *)
Theorem clock_monotone_in_legal_runs (inp : CaseInput) (e1 e2 : Env) (b : nat)
    (J1 J2 : Inst) :
  wf_input inp ->
  legal_run (init inp) e1 -> legal_run e1 e2 ->
  nth_error (insts e1) b = Some J1 -> nth_error (insts e2) b = Some J2 ->
  (time J1 <= time J2)%Q.
Proof.
  intros Hwf H1 H2 HJ1.
  assert (Hr1 : legal_reachable inp e1) by (eapply legal_run_reachable; eauto; apply lr_init).
  revert J2.
  induction H2 as [|e3 fuel acts e4 rw dn Hrun IH Hl Hs|e3 Hrun IH]; intros J2 HJ2.
  - rewrite HJ1 in HJ2. inversion HJ2; subst. lra.
  - assert (Hr3 : legal_reachable inp e3) by (eapply legal_run_reachable; eauto).
    destruct (nth_error (insts e3) b) as [J3|] eqn:HJ3.
    + apply Qle_trans with (time J3); [now apply IH|].
      apply (step_clock inp fuel e3 acts e4 rw dn b); auto.
    + apply nth_error_None in HJ3. apply nth_error_Some_lt in HJ1.
      pose proof (legal_run_slots e1 e3 Hrun). lia.
  - assert (Hr3 : legal_reachable inp e3) by (eapply legal_run_reachable; eauto).
    destruct (nth_error (insts e3) b) as [J3|] eqn:HJ3.
    + apply Qle_trans with (time J3); [now apply IH|].
      apply (next_time_own_clock inp e3 b); auto.
    + apply nth_error_None in HJ3. apply nth_error_Some_lt in HJ1.
      pose proof (legal_run_slots e1 e3 Hrun). lia.
Qed.

(** The claim fails on the code: on the one-machine instance the decisions
    (1, 0, 0) and (0, 0, 0) schedule the second operation of job 0 before
    the first one; [step] accepts them and leaves the clock at 11.  A call
    of [next_time] whose flag marks the slot as stalled then sets the clock
    to 2, one more than the largest completion estimate. *)
Lemma clock_goes_back_after_unchecked_decisions :
  Qeq_bool (clock_of (env_after 2 skew_input skew_rounds) 0) 11 = true /\
  Qeq_bool (clock_of (next_time (env_after 2 skew_input skew_rounds) [0%Q]) 0) 2 = true.
Proof. split; vm_compute; reflexivity. Qed.

(* ------------------------------------------------------------------ *)
(** ** C7: the loop of [step] ends *)

Lemma length_filter_le (A : Type) (p : A -> bool) l : length (filter p l) <= length l.
Proof. induction l as [|x l IH]; simpl; [lia|]. destruct (p x); simpl; lia. Qed.

Lemma count_le (p : Q -> bool) : forall l1 l2, length l1 = length l2 ->
  (forall m, m < length l1 -> p (qnth m l2) = true -> p (qnth m l1) = true) ->
  length (filter p l2) <= length (filter p l1).
Proof.
  induction l1 as [|x l1 IH]; intros [|y l2] Hl H; simpl in *; try lia.
  assert (H0 : p y = true -> p x = true) by (apply (H 0); lia).
  assert (IH' : length (filter p l2) <= length (filter p l1)).
  { apply IH; [lia|]. intros m Hm. apply (H (S m)). lia. }
  destruct (p y); destruct (p x) eqn:E; simpl; try lia;
    specialize (H0 eq_refl); discriminate.
Qed.

Lemma count_lt (p : Q -> bool) : forall l1 l2 m0, length l1 = length l2 ->
  (forall m, m < length l1 -> p (qnth m l2) = true -> p (qnth m l1) = true) ->
  m0 < length l1 -> p (qnth m0 l1) = true -> p (qnth m0 l2) = false ->
  length (filter p l2) < length (filter p l1).
Proof.
  induction l1 as [|x l1 IH]; intros [|y l2] m0 Hl H Hm Hp1 Hp2; simpl in *; try lia.
  destruct m0 as [|m0].
  - unfold qnth in Hp1, Hp2; simpl in Hp1, Hp2. rewrite Hp1, Hp2. simpl.
    assert (length (filter p l2) <= length (filter p l1)).
    { apply count_le; [lia|]. intros m Hm'. apply (H (S m)). lia. }
    lia.
  - assert (IH' : length (filter p l2) < length (filter p l1)).
    { apply (IH l2 m0); auto; try lia. intros m Hm'. apply (H (S m)). lia. }
    assert (H0 : p y = true -> p x = true) by (apply (H 0); lia).
    destruct (p y); destruct (p x) eqn:E; simpl; try lia;
      specialize (H0 eq_refl); discriminate.
Qed.

Section Frees.
Variables nj nm n : nat.
Variable J : Inst.
Hypothesis HI : Inv nj nm n J.
Variable g : Q.
Hypothesis Hg : (list_max (feat_ope_end J) <= g)%Q.

Local Abbreviation Hsh := (iv_shape HI).
Local Abbreviation J2 := (next_time_inst g (if_no_eligible_inst J) J).

Lemma count_busy_le : count_busy J <= nm.
Proof. unfold count_busy. rewrite <- (sh_idle Hsh). apply length_filter_le. Qed.

(** A stalled slot has a busy machine. *)
Lemma stalled_count : need_trans (if_no_eligible_inst J) J = true -> 1 <= count_busy J.
Proof.
  intros H. destruct (stalled_busy nj nm n J HI H) as (m & Hm & Hi).
  unfold count_busy.
  assert (Hin : In (qnth m (mach_idle J)) (filter (fun i => Qeq_bool i 0) (mach_idle J))).
  { apply filter_In. split; [apply nth_In_q; rewrite (sh_idle Hsh); auto|].
    rewrite Hi. reflexivity. }
  destruct (filter _ _); [contradiction|simpl; lia].
Qed.

(** [next_time] frees a machine of every stalled slot. *)
Lemma next_time_frees :
  need_trans (if_no_eligible_inst J) J = true -> count_busy J2 < count_busy J.
Proof.
  intros Hneed.
  destruct (nt_c_props nj nm n J HI g Hg Hneed) as (_ & _ & _ & m0 & Hm0 & Hi0 & Ha0).
  pose proof (shape_next_time_inst g (if_no_eligible_inst J) Hsh) as Hsh2.
  unfold count_busy. apply count_lt with (m0 := m0).
  - rewrite (sh_idle Hsh2), (sh_idle Hsh). reflexivity.
  - intros m Hm. rewrite (sh_idle Hsh) in Hm. rewrite (idle2 nj nm n J HI g m Hm).
    destruct (nth m (nt_d g (if_no_eligible_inst J) J) false); [discriminate|auto].
  - rewrite (sh_idle Hsh); auto.
  - rewrite Hi0. reflexivity.
  - rewrite (idle2 nj nm n J HI g m0 Hm0), (nt_d_nth nj nm n J HI g m0 Hm0).
    rewrite Ha0, Hi0, Hneed, Qeq_bool_refl. reflexivity.
Qed.

(** [next_time] leaves the flag of the other slots as it is. *)
Lemma next_time_unflagged :
  need_trans (if_no_eligible_inst J) J = false ->
  need_trans (if_no_eligible_inst J2) J2 = false.
Proof.
  intros Hn.
  assert (Hd : forall m, nth m (nt_d g (if_no_eligible_inst J) J) false = false).
  { intros m. destruct (Nat.lt_ge_cases m nm) as [Hm|Hm].
    - rewrite (nt_d_nth nj nm n J HI g m Hm), Hn. apply andb_false_r.
    - apply nth_overflow. rewrite length_nt_d, (sh_avail Hsh), (sh_idle Hsh). lia. }
  assert (E1 : mask_job_procing_batch J2 = mask_job_procing_batch J).
  { change (mask_job_procing_batch J2)
      with (release_jobs (nt_d g (if_no_eligible_inst J) J) (mach_job J)
                         (mask_job_procing_batch J)).
    now apply release_jobs_none. }
  assert (E2 : mask_job_finish_batch J2 = mask_job_finish_batch J).
  { change (mask_job_finish_batch J2) with (finish_mask J).
    apply (finish_mask_same nj nm n J HI). }
  assert (E3 : mask_ma_procing_batch J2 = mask_ma_procing_batch J).
  { pose proof (shape_next_time_inst g (if_no_eligible_inst J) Hsh) as Hsh2.
    apply nth_ext with (d := false) (d' := false).
    - rewrite (sh_ma_procing Hsh2), (sh_ma_procing Hsh). reflexivity.
    - intros m Hm. rewrite (sh_ma_procing Hsh2) in Hm.
      rewrite (maproc2 nj nm n J HI g m Hm), Hd. reflexivity. }
  assert (E : if_no_eligible_inst J2 = if_no_eligible_inst J).
  { set (K := J2) in *.
    unfold if_no_eligible_inst, pending_opes, eligible_row.
    rewrite E1, E2, E3. reflexivity. }
  unfold need_trans. rewrite E. exact Hn.
Qed.
End Frees.

Lemma some_need_trans_slot e :
  some_need_trans e (if_no_eligible e) = true ->
  exists b J, nth_error (insts e) b = Some J /\
              need_trans (if_no_eligible_inst J) J = true.
Proof.
  unfold some_need_trans. intros H. apply existsb_exists in H.
  destruct H as (x & Hx & Hx2). subst x.
  apply In_nth_error in Hx. destruct Hx as [b Hb].
  rewrite nth_error_zipw, nth_error_if_no_eligible in Hb.
  destruct (nth_error (insts e) b) as [J|] eqn:HJ; [|discriminate].
  cbn [option_map] in Hb. exists b, J. split; [exact HJ|]. congruence.
Qed.

(** The loop ends within [k] calls of [next_time] when no stalled slot has
    more than [k] busy machines. *)
Lemma advance_terminates inp : wf_input inp -> forall k e,
  legal_reachable inp e ->
  (forall b J, nth_error (insts e) b = Some J ->
     need_trans (if_no_eligible_inst J) J = true -> count_busy J <= k) ->
  exists e', advance k e = Some e'.
Proof.
  intros Hwf. induction k as [|k IH]; intros e Hr Hb; simpl.
  - destruct (some_need_trans e (if_no_eligible e)) eqn:Hs; [|eauto].
    destruct (some_need_trans_slot e Hs) as (b & J & HJ & Hn).
    destruct (legal_reachable_Inv inp e Hwf Hr) as [_ HI].
    pose proof (stalled_count _ _ _ J (HI b J HJ) Hn). specialize (Hb b J HJ Hn). lia.
  - destruct (some_need_trans e (if_no_eligible e)) eqn:Hs; [|eauto].
    apply IH; [now apply lr_next|].
    intros b J2 HJ2 Hn2. rewrite insts_next_time_own in HJ2.
    destruct (nth_error (insts e) b) as [J|] eqn:HJ; [|discriminate].
    cbn [option_map] in HJ2. inversion HJ2; subst J2; clear HJ2.
    destruct (legal_reachable_Inv inp e Hwf Hr) as [_ HI].
    assert (Hg : (list_max (feat_ope_end J) <= global_max e)%Q).
    { apply (global_max_ge (det_num_opes inp) e b); auto.
      intros b' J0 HJ0. apply (sh_f4 (iv_shape (HI b' J0 HJ0))). }
    destruct (need_trans (if_no_eligible_inst J) J) eqn:Hn.
    + pose proof (next_time_frees _ _ _ J (HI b J HJ) (global_max e) Hg Hn).
      specialize (Hb b J HJ Hn). lia.
    + rewrite (next_time_unflagged _ _ _ J (HI b J HJ) (global_max e) Hn) in Hn2.
      discriminate.
Qed.

(** C7 (as amended): for a well-formed batch whose processing times
    float32 adds exactly and a round of legal decisions in a run of legal
    decisions, the loop of [step] ends after at most [num_mas] calls of
    [next_time], and [step] returns.  [exact_times] is the condition under
    which the float32 sums of the source are the sums of this model; the
    model itself needs no such condition. *)
Theorem time_advance_loop_bound (inp : CaseInput) (e e1 : Env) (acts : list Action)
    (rw : list Q) :
  wf_input inp -> exact_times inp ->
  legal_run (init inp) e -> legal_acts e acts ->
  step_core e acts = Ok (e1, rw) ->
  exists e2, advance (num_mas e) e1 = Some e2 /\
             step (num_mas e) e acts =
             Ok (finish_step e2, rw, map (@done_batch) (insts (finish_step e2))).
Proof.
  intros Hwf _ Hrun Hl Hc.
  assert (Hr : legal_reachable inp e) by (eapply legal_run_reachable; eauto; apply lr_init).
  assert (Hr1 : legal_reachable inp e1) by (eapply lr_core; eauto).
  destruct (legal_reachable_Inv inp e Hwf Hr) as [(_ & Dm & _) _].
  destruct (legal_reachable_Inv inp e1 Hwf Hr1) as [_ HI1].
  destruct (advance_terminates inp Hwf (num_mas e) e1 Hr1) as [e2 Ha].
  - intros b J HJ _. rewrite Dm. apply (count_busy_le _ _ _ J (HI1 b J HJ)).
  - exists e2. split; auto. unfold step. rewrite Hc, Ha. reflexivity.
Qed.

(** In float32 the loop cannot leave the state it reaches after the
    second decision on the durations 2^24, 1 and 2^25. *)
Lemma absorb_stuck_forever : forall k, F32.advance k F32.absorb_stuck = None.
Proof.
  assert (Hn : F32.some_need_trans F32.absorb_stuck (F32.if_no_eligible F32.absorb_stuck) = true)
    by (vm_compute; reflexivity).
  assert (Hf : F32.next_time F32.absorb_stuck (F32.if_no_eligible F32.absorb_stuck) =
               F32.absorb_stuck) by (vm_compute; reflexivity).
  induction k as [|k IH]; cbn [F32.advance]; rewrite Hn; [reflexivity|].
  rewrite Hf. exact IH.
Qed.

(** The claim fails on the code outside these conditions.
    - With a decision that is not legal: every operation of the instance
      has a machine with a positive duration, and after the decision
      (0, 1, 0), which puts operation 0 on the machine it is not eligible
      on, no call of [next_time] frees the machine: the loop is still
      running after 2 and after 100 calls.
    - With legal decisions and sums that float32 rounds: one job with the
      durations 2^24, 1 and 2^25 on one machine.  The second operation
      starts at 2^24 and 2^24 + 1 is 2^24 in float32, so the available
      time of the machine is the clock; [next_time] finds no available
      time after the clock, frees nothing, and the loop never ends. *)
Lemma loop_spins_outside_the_conditions :
  (forallb every_ope_eligible (loads hang_input) = true /\
   step (para_num_mas hang_input) (init hang_input) [(0, 1, 0)] = NoFuel /\
   step 100 (init hang_input) [(0, 1, 0)] = NoFuel) /\
  (F32.every_ope_eligible F32.absorb_load = true /\
   F32.legal_acts_b (F32.init F32.absorb_input) F32.chain_first = true /\
   (exists rw dn, F32.step 1 (F32.init F32.absorb_input) F32.chain_first =
                  Ok (F32.absorb_env1, rw, dn)) /\
   F32.legal_acts_b F32.absorb_env1 F32.chain_second = true /\
   F32.fnth 0 (F32.mach_avail (F32.slot F32.absorb_core 0)) =
     F32.time (F32.slot F32.absorb_core 0) /\
   forall fuel, F32.step fuel F32.absorb_env1 F32.chain_second = NoFuel).
Proof.
  split; [repeat split; vm_compute; reflexivity|].
  split; [vm_compute; reflexivity|].
  split; [vm_compute; reflexivity|].
  split; [eexists; eexists; vm_compute; reflexivity|].
  split; [vm_compute; reflexivity|].
  split; [vm_compute; reflexivity|].
  intros fuel. unfold F32.step.
  assert (Hc : exists rw, F32.step_core F32.absorb_env1 F32.chain_second =
                          Ok (F32.absorb_core, rw))
    by (eexists; vm_compute; reflexivity).
  destruct Hc as [rw Hc]. rewrite Hc.
  assert (Hn : F32.some_need_trans F32.absorb_core (F32.if_no_eligible F32.absorb_core) = true)
    by (vm_compute; reflexivity).
  destruct fuel as [|k]; cbn [F32.advance]; rewrite Hn; [reflexivity|].
  fold F32.absorb_stuck. now rewrite absorb_stuck_forever.
Qed.

(* ------------------------------------------------------------------ *)
(** ** C1: the schedule of a completed slot passes [validate_gantt] *)

Lemma insert_perm x l : Permutation (x :: l) (insert_by_start x l).
Proof.
  induction l as [|y t IH]; simpl; auto.
  destruct (Qle_bool (en_start y) (en_start x)); auto.
  apply perm_trans with (y :: x :: t); [apply perm_swap|apply perm_skip, IH].
Qed.

Lemma fold_insert_perm l : forall acc,
  Permutation (l ++ acc) (fold_left (fun a x => insert_by_start x a) l acc).
Proof.
  induction l as [|x l IH]; intros acc; simpl; auto.
  apply perm_trans with (l ++ insert_by_start x acc); [|apply IH].
  apply perm_trans with (l ++ x :: acc); [apply Permutation_middle|].
  apply Permutation_app_head, insert_perm.
Qed.

Lemma sort_perm l : Permutation l (sort_by_start l).
Proof.
  unfold sort_by_start. rewrite <- (app_nil_r l) at 1. apply fold_insert_perm.
Qed.

Lemma insert_sorted x l :
  StronglySorted le_start l -> StronglySorted le_start (insert_by_start x l).
Proof.
  induction 1 as [|y t Hs IH Hall]; simpl.
  - constructor; constructor.
  - destruct (Qle_bool (en_start y) (en_start x)) eqn:E.
    + constructor; auto.
      apply (Permutation_Forall (insert_perm x t)). constructor; auto.
      apply Qle_bool_iff in E. exact E.
    + assert (Hxy : le_start x y).
      { unfold le_start. destruct (Qlt_le_dec (en_start x) (en_start y)) as [|Hle];
          [now apply Qlt_le_weak|].
        apply Qle_bool_iff in Hle. congruence. }
      constructor; [constructor; auto|]. constructor; auto.
      eapply Forall_impl; [|exact Hall]. intros z Hz. unfold le_start in *.
      eapply Qle_trans; eauto.
Qed.

Lemma fold_insert_sorted l : forall acc,
  StronglySorted le_start acc ->
  StronglySorted le_start (fold_left (fun a x => insert_by_start x a) l acc).
Proof.
  induction l as [|x l IH]; intros acc Hs; simpl; auto.
  apply IH. now apply insert_sorted.
Qed.

Lemma sort_sorted l : StronglySorted le_start (sort_by_start l).
Proof. apply fold_insert_sorted. constructor. Qed.

Lemma scan_cons proc i x y t :
  scan_machine proc i (x :: y :: t) =
  ((if Qgt_bool (en_end x) (en_start y) then 1 else 0) + fst (scan_machine proc i (y :: t)),
   (if Qeq_bool (en_end x - en_start x) (qnth2 (en_ope x) i proc) then 0 else 1)
   + snd (scan_machine proc i (y :: t))).
Proof. reflexivity. Qed.

(** The scan of a machine finds nothing in a sorted list of entries of
    different operations that have their durations and do not overlap. *)
Lemma scan_clean proc i : forall l,
  StronglySorted le_start l ->
  (forall x, In x l -> Qeq_bool (en_end x - en_start x) (qnth2 (en_ope x) i proc) = true) ->
  (forall x y, In x l -> In y l -> en_ope x <> en_ope y -> le_start x y ->
               (en_end x <= en_start y)%Q) ->
  NoDup (map en_ope l) ->
  scan_machine proc i l = (0, 0).
Proof.
  induction l as [|x t IH]; intros Hs Hdur Hdis Hnd; [reflexivity|].
  destruct t as [|y t]; [reflexivity|].
  rewrite scan_cons.
  inversion Hs as [|? ? Hs' Hall]; subst. inversion Hnd as [|? ? Hnot Hnd']; subst.
  rewrite IH; auto.
  - rewrite (Hdur x) by (now left).
    assert (Hle : (en_end x <= en_start y)%Q).
    { apply Hdis; [now left|right; now left| |].
      - intros E. apply Hnot. simpl. now left.
      - inversion Hall; subst; auto. }
    apply Qgt_bool_false in Hle. rewrite Hle. reflexivity.
  - intros z Hz. apply Hdur. now right.
  - intros z1 z2 H1 H2. apply Hdis; now right.
Qed.

Lemma in_ma_gantt J i x :
  In x (ma_gantt J i) <->
  exists o, o < nums_opes J /\ nth o (sched_ma J) 0 = i /\
            x = (o, qnth o (sched_start J), qnth o (sched_end J)).
Proof.
  unfold ma_gantt. rewrite in_map_iff. split.
  - intros (o & <- & Ho). apply filter_In in Ho. destruct Ho as [Ho Hm].
    apply in_seq in Ho. apply Nat.eqb_eq in Hm. exists o. repeat split; auto; lia.
  - intros (o & Ho & Hm & ->). exists o. split; auto.
    apply filter_In. split; [apply in_seq; lia|now apply Nat.eqb_eq].
Qed.

Lemma nodup_ma_gantt J i : NoDup (map en_ope (ma_gantt J i)).
Proof.
  unfold ma_gantt. rewrite map_map. cbn [en_ope fst]. rewrite map_id.
  apply NoDup_filter, seq_NoDup.
Qed.

Lemma list_sum_tab_zero n f : (forall i, i < n -> f i = 0) -> list_sum (tab n f) = 0.
Proof.
  intros H. unfold tab.
  assert (G : forall l, (forall i, In i l -> f i = 0) -> list_sum (map f l) = 0).
  { induction l as [|a l IH]; simpl; intros Hl; auto.
    rewrite (Hl a) by auto. rewrite IH; auto. }
  apply G. intros i Hi. apply in_seq in Hi. apply H. lia.
Qed.

(** A status vector with [k] ones followed by zeros. *)
Lemma count_ones : forall l k, k <= length l ->
  (forall o, o < k -> qnth o l = 1%Q) -> (forall o, k <= o -> qnth o l = 0%Q) ->
  length (filter (fun s => Qeq_bool s 1) l) = k.
Proof.
  induction l as [|x l IH]; intros k Hk H1 H0; simpl in *.
  - lia.
  - destruct k as [|k].
    + pose proof (H0 0 (Nat.le_refl _)) as Hx. unfold qnth in Hx; simpl in Hx. subst x.
      cbn. apply (IH 0); [lia| intros; lia|].
      intros o _. apply (H0 (S o)). lia.
    + pose proof (H1 0 ltac:(lia)) as Hx. unfold qnth in Hx; simpl in Hx. subst x.
      cbn. f_equal. apply IH; [lia| |].
      * intros o Ho. apply (H1 (S o)). lia.
      * intros o Ho. apply (H0 (S o)). lia.
Qed.

Section Completed.
Variables nj nm n : nat.
Variable J : Inst.
Hypothesis HI : Inv nj nm n J.
Hypothesis Hdone : done_batch J = true.

Local Abbreviation Hsh := (iv_shape HI).

Lemma all_finished j : j < nj -> step_of J j = bias_of J j + nums_of J j.
Proof.
  intros Hj. apply (iv_finish HI Hj).
  rewrite (iv_done HI) in Hdone. rewrite forallb_forall in Hdone.
  apply Hdone. apply nth_In. now rewrite (sh_job_finish Hsh).
Qed.

Lemma all_scheduled o : o < nums_opes J ->
  exists j, j < nj /\ in_job J j o /\ o < step_of J j.
Proof.
  intros Ho. destruct (in_job_cover nj nm n J HI o Ho) as (j & Hj & Hin).
  exists j. repeat split; auto; try apply Hin.
  rewrite (all_finished j Hj). apply Hin.
Qed.

Lemma sched_end_nth o : o < n -> qnth o (sched_end J) = end_of J o.
Proof.
  intros Ho. rewrite (iv_sched_end HI). unfold end_of, qnth.
  now rewrite (nth_zipw Qplus _ _ 0%Q 0%Q 0%Q)
    by (rewrite ?(sh_f5 Hsh), ?(sh_f2 Hsh); auto).
Qed.

Lemma flag_unscheduled_zero : flag_unscheduled J = 0.
Proof.
  unfold flag_unscheduled.
  destruct (iv_total HI) as [_ Hn].
  rewrite (count_ones (sched_status J) (nums_opes J)).
  - now rewrite Nat.eqb_refl.
  - now rewrite (sh_s0 Hsh).
  - intros o Ho. rewrite (iv_sched_status HI).
    destruct (all_scheduled o Ho) as (j & Hj & Hin & Hlt).
    now apply (iv_status HI Hj Hin).
  - intros o Ho. rewrite (iv_sched_status HI). now apply (iv_padding HI).
Qed.

Lemma flag_ope_overlap_zero : flag_ope_overlap nj J = 0.
Proof.
  unfold flag_ope_overlap. apply list_sum_tab_zero. intros j Hj.
  fold (nums_of J j). fold (bias_of J j).
  destruct (nums_of J j <=? 1) eqn:E; auto.
  apply Nat.leb_gt in E.
  apply list_sum_tab_zero. intros k Hk.
  assert (Hin : in_job J j (bias_of J j + k)) by (unfold in_job; lia).
  assert (Hlt : bias_of J j + k + 1 < step_of J j) by (rewrite (all_finished j Hj); lia).
  destruct (in_job_bound nj nm n J HI j _ Hj Hin) as [_ Hon].
  pose proof (iv_order HI Hj Hin Hlt) as Hle.
  rewrite (sched_end_nth _ Hon), (iv_sched_start HI).
  apply Qgt_bool_false in Hle. now rewrite Hle.
Qed.

(** The entries of a machine in a completed schedule. *)
Lemma entry_props i x : In x (ma_gantt J i) ->
  exists j, j < nj /\ in_job J j (en_ope x) /\ en_ope x < step_of J j /\
            nth (en_ope x) (sched_ma J) 0 = i /\
            en_start x = qnth (en_ope x) (feat_ope_start J) /\
            en_end x = end_of J (en_ope x).
Proof.
  intros Hx. apply in_ma_gantt in Hx. destruct Hx as (o & Ho & Hm & ->).
  destruct (all_scheduled o Ho) as (j & Hj & Hin & Hlt).
  destruct (in_job_bound nj nm n J HI j o Hj Hin) as [_ Hon].
  exists j. cbn [en_ope en_start en_end fst snd]. repeat split; auto; try apply Hin.
  - now rewrite (iv_sched_start HI).
  - now apply sched_end_nth.
Qed.

Lemma machine_scan_clean i :
  scan_machine (proc_times_batch J) i (sort_by_start (ma_gantt J i)) = (0, 0).
Proof.
  pose proof (sort_perm (ma_gantt J i)) as Hp.
  assert (Hin : forall x, In x (sort_by_start (ma_gantt J i)) -> In x (ma_gantt J i)).
  { intros x Hx. eapply Permutation_in; [apply Permutation_sym; exact Hp|exact Hx]. }
  apply scan_clean.
  - apply sort_sorted.
  - intros x Hx. destruct (entry_props i x (Hin x Hx)) as (j & Hj & Hj1 & Hlt & Hm & Hs & He).
    destruct (iv_dur HI Hj Hj1 Hlt) as (_ & _ & Hd & _).
    apply Qeq_bool_iff. rewrite He, Hs. unfold end_of. rewrite <- Hm, <- Hd. ring.
  - intros x y Hx Hy Hne Hle.
    destruct (entry_props i x (Hin x Hx)) as (j1 & Hj1 & Hi1 & Hl1 & Hm1 & Hs1 & He1).
    destruct (entry_props i y (Hin y Hy)) as (j2 & Hj2 & Hi2 & Hl2 & Hm2 & Hs2 & He2).
    destruct (iv_dur HI Hj2 Hi2 Hl2) as (_ & _ & _ & Hpos).
    unfold le_start in Hle. rewrite Hs1, Hs2 in Hle. rewrite He1, Hs2.
    destruct (iv_disjoint HI Hj1 Hi1 Hl1 Hj2 Hi2 Hl2 Hne) as [H|H]; auto.
    + congruence.
    + unfold end_of in H. lra.
  - apply (Permutation_NoDup (Permutation_map en_ope Hp)). apply nodup_ma_gantt.
Qed.

Lemma inst_flags_zero : inst_flags nj nm J = 0.
Proof.
  unfold inst_flags, flag_ma_overlap, flag_proc_time.
  rewrite flag_ope_overlap_zero, flag_unscheduled_zero.
  rewrite !list_sum_tab_zero; auto; intros i _; now rewrite machine_scan_clean.
Qed.
End Completed.

Lemma list_sum_map_zero (A : Type) (f : A -> nat) l :
  (forall x, In x l -> f x = 0) -> list_sum (map f l) = 0.
Proof.
  induction l as [|a l IH]; simpl; intros H; auto.
  rewrite (H a) by auto. rewrite IH; auto.
Qed.

(** C1 (as amended): in a run of legal decisions from the constructed
    environment of a well-formed batch whose processing times float32 adds
    exactly, the schedule of a slot whose done flag is set adds nothing to
    the four counters of [validate_gantt], and [validate_gantt] returns
    [True] when the done flag of every slot is set.  [exact_times] is the
    condition under which the float32 sums of the source are the sums of
    this model; the model itself needs no such condition. *)
Theorem completed_schedule_validates (inp : CaseInput) (e : Env) (b : nat) (J : Inst) :
  wf_input inp ->
  exact_times inp ->
  legal_run (init inp) e ->
  nth_error (insts e) b = Some J ->
  done_batch J = true ->
  flag_ma_overlap (num_mas e) J = 0 /\ flag_ope_overlap (num_jobs e) J = 0 /\
  flag_proc_time (num_mas e) J = 0 /\ flag_unscheduled J = 0 /\
  inst_flags (num_jobs e) (num_mas e) J = 0 /\
  ((forall b' J', nth_error (insts e) b' = Some J' -> done_batch J' = true) ->
   fst (validate_gantt e) = true).
Proof.
  intros Hwf _ Hrun HJ Hd.
  assert (Hr : legal_reachable inp e) by (eapply legal_run_reachable; eauto; apply lr_init).
  destruct (legal_reachable_Inv inp e Hwf Hr) as [(Dj & Dm & _) HI].
  rewrite Dj, Dm.
  pose proof (inst_flags_zero _ _ _ J (HI b J HJ) Hd) as Hz.
  unfold inst_flags in Hz.
  repeat split; try lia.
  - exact (inst_flags_zero _ _ _ J (HI b J HJ) Hd).
  - intros Hall. unfold validate_gantt. cbn [fst]. apply Nat.eqb_eq.
    apply list_sum_map_zero. intros J' HJ'. apply In_nth_error in HJ'.
    destruct HJ' as [b' Hb']. rewrite Dj, Dm.
    apply (inst_flags_zero _ _ _ J' (HI b' J' Hb')). eapply Hall; eauto.
Qed.

(** The claim fails on the code without that condition.  One job of three
    operations on one machine with the float32 durations 2.5, 0.1 and 1;
    the three decisions are legal and complete the instance.  Operation 1
    starts at 2.5 and its end, 2.5 + 0.1 rounded to float32, is
    2.5999999; the entry is not the last of the machine, its end minus its
    start is 0.0999999 and not the float32 0.1, and [validate_gantt]
    counts a wrong processing time and returns [False]. *)
Lemma completed_schedule_fails_in_float32 :
  (F32.every_ope_eligible F32.drift_load = true /\
   F32.legal_acts_b (F32.init F32.drift_input) F32.chain_first = true /\
   F32.legal_acts_b F32.drift_env1 F32.chain_second = true /\
   F32.legal_acts_b F32.drift_env2 F32.chain_third = true /\
   (exists rws, F32.run 1 (F32.init F32.drift_input)
                        [F32.chain_first; F32.chain_second; F32.chain_third] =
                Ok (F32.drift_env3, rws)) /\
   F32.done_batch (F32.slot F32.drift_env3 0) = true) /\
  F32.fnth 1 (F32.sched_start (F32.slot F32.drift_env3 0)) = F32.ratio 5 2 /\
  F32.feq (F32.fsub (F32.fnth 1 (F32.sched_end (F32.slot F32.drift_env3 0)))
                    (F32.fnth 1 (F32.sched_start (F32.slot F32.drift_env3 0))))
          (F32.ratio 1 10) = false /\
  F32.flag_proc_time 1 (F32.slot F32.drift_env3 0) = 1 /\
  fst (F32.validate_gantt F32.drift_env3) = false.
Proof.
  split; [|repeat split; vm_compute; reflexivity].
  split; [vm_compute; reflexivity|].
  split; [vm_compute; reflexivity|].
  split; [vm_compute; reflexivity|].
  split; [vm_compute; reflexivity|].
  split; [eexists; vm_compute; reflexivity|vm_compute; reflexivity].
Qed.

(* ------------------------------------------------------------------ *)
(** ** The checks of legality are sound *)

Lemma action_of_idx idxes : forall acts b a,
  action_of idxes acts b = Some a -> In b idxes.
Proof.
  induction idxes as [|i t IH]; intros [|a0 acts] b a H; simpl in H; try discriminate.
  destruct (Nat.eqb_spec i b) as [->|Hne].
  - now left.
  - right. eapply IH; eauto.
Qed.

Lemma legal_b_sound nj nm J a : legal_b nj nm J a = true -> legal nj nm J a.
Proof.
  destruct a as [[ope ma] job]. unfold legal_b, legal. intros H.
  repeat (apply andb_prop in H; let H' := fresh "H" in destruct H as [H H']).
  repeat match goal with
         | X : negb _ = true |- _ => apply negb_true_iff in X
         | X : (_ <? _) = true |- _ => apply Nat.ltb_lt in X
         | X : (_ =? _) = true |- _ => apply Nat.eqb_eq in X
         | X : Qgt_bool _ _ = true |- _ => apply Qgt_bool_true in X
         end.
  repeat split; auto.
Qed.

Lemma legal_acts_b_sound e acts : legal_acts_b e acts = true -> legal_acts e acts.
Proof.
  unfold legal_acts_b, legal_acts. intros H. apply andb_prop in H. destruct H as [Hl Hf].
  apply Nat.eqb_eq in Hl. split; auto.
  intros b a Ha. rewrite forallb_forall in Hf.
  specialize (Hf b (action_of_idx _ _ _ _ Ha)). rewrite Ha in Hf.
  destruct (nth_error (insts e) b) as [J|]; [|discriminate].
  exists J. split; auto. now apply legal_b_sound.
Qed.

Lemma wf_input_shape inp : wf_input inp -> wf_shape inp.
Proof.
  intros (Hj & Hm & Hl & Hall). repeat split; auto.
  eapply Forall_impl; [|exact Hall]. intros ld W. apply (wl_shape W).
Qed.

(* ------------------------------------------------------------------ *)
(** ** The concrete instances are well formed *)

Ltac upto o := do 5 (try (destruct o as [|o])).

Ltac close_q := cbn; first [lra | reflexivity | lia | auto].

Lemma pair_input_wf : wf_input pair_input.
Proof.
  unfold wf_input. cbn [det_num_jobs det_num_mas det_num_opes para_num_jobs para_num_mas
                        para_batch_size loads pair_input].
  repeat split; auto. constructor; [|constructor].
  constructor.
  - constructor; try reflexivity; intros o Ho; upto o; cbn; lia.
  - intros o m. unfold qnth2. upto o; upto m; cbn; lra.
  - intros o m. unfold znth2. upto o; upto m; cbn; auto.
  - intros o Ho. cbn in Ho. exists 0. unfold znth2, qnth2.
    upto o; try lia; cbn; repeat split; auto; lra.
  - reflexivity.
  - intros j Hj. upto j; cbn; lia.
  - cbn. lia.
  - intros j o Hj. upto j; try lia. cbn. intros Ho. upto o; cbn; lia.
  - intros i k. unfold qnth2. upto i; upto k; cbn; lra.
  - intros j i k Hj. upto j; try lia. cbn. intros Hi Hk Hb. unfold qnth2.
    upto i; upto k; try lia; cbn; reflexivity.
Qed.

Lemma pair_input_exact : exact_times pair_input.
Proof. vm_compute; reflexivity. Qed.

Lemma gap_input_shape : wf_shape gap_input.
Proof.
  unfold wf_shape. cbn [det_num_jobs det_num_mas det_num_opes para_num_jobs para_num_mas
                        para_batch_size loads gap_input].
  repeat split; auto. constructor; [|constructor].
  constructor; try reflexivity; intros o Ho; upto o; cbn; lia.
Qed.

(* ------------------------------------------------------------------ *)
(** ** The theorems at concrete runs *)

(** C10 on the constructed two-operation instance with a nonzero flag. *)
Lemma next_time_frame_clock_at_pair :
  (nth_error (insts (init pair_input)) 0 = Some (slot (init pair_input) 0) /\
   nth_error [1%Q] 0 = Some 1%Q /\
   Qeq_bool 1 0 = false) /\
  exists J', nth_error (insts (next_time (init pair_input) [1%Q])) 0 = Some J' /\
             time J' = time (slot (init pair_input) 0).
Proof.
  split; [repeat split; reflexivity|].
  apply (@next_time_frame_clock (init pair_input) [1%Q] 0 (slot (init pair_input) 0) 1%Q);
    [reflexivity|reflexivity|left; reflexivity].
Defined.


(** C3 after the first round of the two-operation instance. *)
Lemma reset_restores_initial_at_pair :
  (step 1 (init pair_input) pair_first =
     Ok (pair_env1,
         step_rewards 1 (init pair_input) pair_first,
         step_dones 1 (init pair_input) pair_first) /\
   det_num_jobs pair_input = para_num_jobs pair_input /\
   det_num_mas pair_input = para_num_mas pair_input) /\
  reset pair_env1 = init pair_input.
Proof.
  assert (H1 : step 1 (init pair_input) pair_first =
     Ok (pair_env1,
         step_rewards 1 (init pair_input) pair_first,
         step_dones 1 (init pair_input) pair_first)) by (vm_compute; reflexivity).
  split; [repeat split; auto|].
  apply (@reset_restores_initial pair_input pair_env1);
    [|reflexivity|reflexivity].
  exact (@reach_step pair_input (init pair_input) 1 pair_first pair_env1
             (step_rewards 1 (init pair_input) pair_first)
             (step_dones 1 (init pair_input) pair_first)
                     (@reach_init pair_input) H1).
Defined.

(** C8 after the first round of the two-operation instance: operation 0
    is scheduled on machine 0. *)
Lemma scheduled_row_pruned_at_pair :
  (qnth 0 (sched_status (slot pair_env1 0)) == 1)%Q /\
  nth 0 (ope_ma_adj_batch (slot pair_env1 0)) [] =
  onehot (num_mas pair_env1)
         (nth 0 (sched_ma (slot pair_env1 0)) 0).
Proof.
  assert (H1 : step 1 (init pair_input) pair_first =
     Ok (pair_env1,
         step_rewards 1 (init pair_input) pair_first,
         step_dones 1 (init pair_input) pair_first)) by (vm_compute; reflexivity).
  assert (H2 : nth_error (insts pair_env1) 0 =
               Some (slot pair_env1 0))
    by (vm_compute; reflexivity).
  assert (H3 : (qnth 0 (sched_status (slot pair_env1 0))
                == 1)%Q) by (vm_compute; reflexivity).
  split; [exact H3|].
  apply (@scheduled_row_pruned pair_input pair_env1 0
           (slot pair_env1 0) 0
           (wf_input_shape pair_input pair_input_wf)
           (@reach_step pair_input (init pair_input) 1 pair_first pair_env1
             (step_rewards 1 (init pair_input) pair_first)
             (step_dones 1 (init pair_input) pair_first)
                        (@reach_init pair_input) H1) H2 H3).
Defined.

(** C9 after a call of [next_time] on the constructed two-operation
    instance. *)
Lemma utilization_formula_at_pair :
  (nth_error (insts (next_time (init pair_input) [0%Q])) 0 =
     Some (slot (next_time (init pair_input) [0%Q]) 0) /\
   0 < length (mach_util (slot (next_time (init pair_input) [0%Q]) 0))) /\
  qnth 0 (feat_ma_util (slot (next_time (init pair_input) [0%Q]) 0)) =
  util_value eps5 (qnth 0 (mach_util (slot (next_time (init pair_input) [0%Q]) 0)))
             (time (slot (next_time (init pair_input) [0%Q]) 0)).
Proof.
  assert (H1 : nth_error (insts (next_time (init pair_input) [0%Q])) 0 =
               Some (slot (next_time (init pair_input) [0%Q]) 0)) by reflexivity.
  assert (H2 : 0 < length (mach_util (slot (next_time (init pair_input) [0%Q]) 0)))
    by (vm_compute; lia).
  split; [split; assumption|].
  apply (@utilization_formula (init pair_input) [0%Q] 0
           (slot (next_time (init pair_input) [0%Q]) 0) 0 H1 H2).
Defined.

(** C4 on the instance whose operation 0 is not eligible on machine 1. *)
Lemma step_records_ineligible_at_gap :
  (qnth2 0 1 (proc_times_batch (slot (init gap_input) 0)) == 0)%Q /\
  exists J', nth_error (insts gap_env1) 0 = Some J' /\
     qnth 0 (sched_status J') = 1%Q /\ nth 0 (sched_ma J') 0 = 1 /\
     (qnth 0 (sched_start J') == time (slot (init gap_input) 0))%Q /\
     (qnth 0 (sched_end J') == time (slot (init gap_input) 0))%Q.
Proof.
  assert (H1 : step 1 (init gap_input) gap_acts =
     Ok (gap_env1,
         step_rewards 1 (init gap_input) gap_acts,
         step_dones 1 (init gap_input) gap_acts)) by (vm_compute; reflexivity).
  assert (H2 : nth_error (insts (init gap_input)) 0 = Some (slot (init gap_input) 0))
    by reflexivity.
  assert (H3 : action_of (batch_idxes (init gap_input)) gap_acts 0 = Some (0, 1, 0))
    by reflexivity.
  assert (H4 : (qnth2 0 1 (proc_times_batch (slot (init gap_input) 0)) == 0)%Q)
    by (vm_compute; reflexivity).
  split; [exact H4|].
  apply (@step_records_ineligible gap_input 1 (init gap_input)
           gap_env1 gap_acts
           (step_rewards 1 (init gap_input) gap_acts)
           (step_dones 1 (init gap_input) gap_acts) 0 0 1 0
           (slot (init gap_input) 0)
           gap_input_shape (@reach_init gap_input) H1 H2 H3 H4).
Defined.

(** C6 over the first round of the two-operation instance: the clock
    goes from 0 to 3. *)
Lemma clock_monotone_at_pair :
  legal_acts_b (init pair_input) pair_first = true /\
  (time (slot (init pair_input) 0) <=
   time (slot pair_env1 0))%Q.
Proof.
  assert (H0 : legal_acts_b (init pair_input) pair_first = true) by (vm_compute; reflexivity).
  assert (H1 : step 1 (init pair_input) pair_first =
     Ok (pair_env1,
         step_rewards 1 (init pair_input) pair_first,
         step_dones 1 (init pair_input) pair_first)) by (vm_compute; reflexivity).
  assert (H2 : nth_error (insts pair_env1) 0 =
               Some (slot pair_env1 0))
    by (vm_compute; reflexivity).
  split; [exact H0|].
  apply (clock_monotone_in_legal_runs pair_input (init pair_input)
           pair_env1 0
           (slot (init pair_input) 0)
           (slot pair_env1 0)
           pair_input_wf (@run_here (init pair_input))
           (@run_step (init pair_input) (init pair_input) 1 pair_first pair_env1
             (step_rewards 1 (init pair_input) pair_first)
             (step_dones 1 (init pair_input) pair_first)
                      (@run_here (init pair_input))
                      (legal_acts_b_sound (init pair_input) pair_first H0) H1)
           eq_refl H2).
Defined.

(** C7 in the first round of the two-operation instance: the loop calls
    [next_time] once, and the instance has one machine.  The float32
    reading of the round returns as well. *)
Lemma time_advance_loop_bound_at_pair :
  (legal_acts_b (init pair_input) pair_first = true /\
   forallb exact_load (loads pair_input) = true /\
   (exists rw dn, F32.step 1 (F32.init F32.pair_input) pair_first =
                  Ok (F32.pair_env1, rw, dn))) /\
  exists e2, advance (num_mas (init pair_input)) (core_env (init pair_input) pair_first)
             = Some e2 /\
             step (num_mas (init pair_input)) (init pair_input) pair_first =
             Ok (finish_step e2, core_rewards (init pair_input) pair_first,
                 map (@done_batch) (insts (finish_step e2))).
Proof.
  assert (H0 : legal_acts_b (init pair_input) pair_first = true) by (vm_compute; reflexivity).
  assert (H1 : step_core (init pair_input) pair_first =
               Ok (core_env (init pair_input) pair_first,
                   core_rewards (init pair_input) pair_first)) by (vm_compute; reflexivity).
  assert (H2 : forallb exact_load (loads pair_input) = true) by (vm_compute; reflexivity).
  split; [split; [exact H0|split; [exact H2|eexists; eexists; vm_compute; reflexivity]]|].
  apply (time_advance_loop_bound pair_input (init pair_input)
           (core_env (init pair_input) pair_first) pair_first
           (core_rewards (init pair_input) pair_first)
           pair_input_wf H2 (@run_here (init pair_input))
           (legal_acts_b_sound (init pair_input) pair_first H0) H1).
Defined.

(** C1 after the two rounds of the two-operation instance; the float32
    reading of the run validates as well. *)
Lemma completed_schedule_validates_at_pair :
  (legal_acts_b (init pair_input) pair_first = true /\
   legal_acts_b pair_env1 pair_second = true /\
   done_batch (slot pair_env2 0)
   = true /\
   forallb exact_load (loads pair_input) = true /\
   fst (F32.validate_gantt F32.pair_env2) = true) /\
  inst_flags 1 1 (slot pair_env2 0)
  = 0.
Proof.
  assert (H0 : legal_acts_b (init pair_input) pair_first = true) by (vm_compute; reflexivity).
  assert (H1 : step 1 (init pair_input) pair_first =
     Ok (pair_env1,
         step_rewards 1 (init pair_input) pair_first,
         step_dones 1 (init pair_input) pair_first)) by (vm_compute; reflexivity).
  assert (H2 : legal_acts_b pair_env1 pair_second = true)
    by (vm_compute; reflexivity).
  assert (H3 : step 1 pair_env1 pair_second =
     Ok (pair_env2,
         step_rewards 1 pair_env1 pair_second,
         step_dones 1 pair_env1 pair_second))
    by (vm_compute; reflexivity).
  assert (H4 : nth_error
                 (insts pair_env2) 0
               = Some (slot pair_env2 0)) by (vm_compute; reflexivity).
  assert (H5 : done_batch
                 (slot pair_env2 0)
               = true) by (vm_compute; reflexivity).
  assert (H6 : forallb exact_load (loads pair_input) = true) by (vm_compute; reflexivity).
  assert (H7 : fst (F32.validate_gantt F32.pair_env2) = true) by (vm_compute; reflexivity).
  split; [repeat split; assumption|].
  apply (completed_schedule_validates pair_input
           pair_env2 0
           (slot pair_env2 0)
           pair_input_wf H6
           (@run_step (init pair_input) pair_env1 1 pair_second pair_env2
             (step_rewards 1 pair_env1 pair_second) (step_dones 1 pair_env1 pair_second)
              (@run_step (init pair_input) (init pair_input) 1 pair_first pair_env1
             (step_rewards 1 (init pair_input) pair_first)
             (step_dones 1 (init pair_input) pair_first)
                         (@run_here (init pair_input))
                         (legal_acts_b_sound (init pair_input) pair_first H0) H1)
              (legal_acts_b_sound pair_env1 pair_second H2)
              H3)
           H4 H5).
Defined.

(* ------------------------------------------------------------------ *)
(** * Further properties of the environment *)

(** ** Slot properties in runs of legal decisions *)

(** A slot property that holds after the constructor and is kept, for
    slots that satisfy the run invariant, by a legal decision, by the part
    of [step] outside the active slots and by [next_time] with the flag of
    [if_no_eligible], holds in every state of a legal run. *)
Lemma legal_reachable_slots (inp : CaseInput) (P : Inst -> Prop) :
  wf_input inp ->
  (forall b J, nth_error (insts (init inp)) b = Some J -> P J) ->
  (forall J a, Inv (para_num_jobs inp) (para_num_mas inp) (det_num_opes inp) J ->
     legal (para_num_jobs inp) (para_num_mas inp) J a -> P J ->
     P (fst (step_inst (det_num_opes inp) (para_num_mas inp) (Some a) J))) ->
  (forall J, Inv (para_num_jobs inp) (para_num_mas inp) (det_num_opes inp) J -> P J ->
     P (fst (step_inst (det_num_opes inp) (para_num_mas inp) None J))) ->
  (forall g J, Inv (para_num_jobs inp) (para_num_mas inp) (det_num_opes inp) J ->
     (list_max (feat_ope_end J) <= g)%Q -> P J ->
     P (next_time_inst g (if_no_eligible_inst J) J)) ->
  forall e, legal_reachable inp e ->
  forall b J, nth_error (insts e) b = Some J -> P J.
Proof.
  intros Hwf Hinit Hact Hidle Hnext e Hr.
  induction Hr as [|e acts e1 rw Hr IH Hleg Hc|e Hr IH|e Hr IH]; intros b J HJ.
  - eauto.
  - destruct (legal_reachable_Inv inp e Hwf Hr) as [(Dj & Dm & Dn) HI].
    destruct (@step_core_slot e acts e1 rw b Hc) as [Hb _].
    rewrite HJ in Hb. destruct (nth_error (insts e) b) as [J0|] eqn:HJ0; [|discriminate].
    cbn [option_map] in Hb. inversion Hb; subst J; clear Hb.
    rewrite Dn, Dm.
    destruct (action_of (batch_idxes e) acts b) as [a|] eqn:Ha.
    + destruct Hleg as [_ Hleg]. destruct (Hleg b _ Ha) as (J' & HJ' & HL).
      rewrite HJ0 in HJ'. inversion HJ'; subst J'. rewrite Dj, Dm in HL.
      apply Hact; eauto.
    + apply Hidle; eauto.
  - destruct (legal_reachable_Inv inp e Hwf Hr) as [_ HI].
    rewrite insts_next_time_own in HJ.
    destruct (nth_error (insts e) b) as [J0|] eqn:HJ0; [|discriminate].
    cbn [option_map] in HJ. inversion HJ; subst J; clear HJ.
    apply Hnext; eauto.
    apply (global_max_ge (det_num_opes inp) e b); auto.
    intros b' J' HJ'. apply (sh_f4 (iv_shape (HI b' J' HJ'))).
  - apply (IH b J). exact HJ.
Qed.

(** The static tensors of a slot of a reachable state are those of the
    constructed slot, which satisfies the run invariant. *)
Lemma reachable_static inp e b J :
  wf_input inp -> reachable inp e -> nth_error (insts e) b = Some J ->
  exists J0, nth_error (insts (init inp)) b = Some J0 /\
             Inv (para_num_jobs inp) (para_num_mas inp) (det_num_opes inp) J0 /\
             static_of J = static_of J0.
Proof.
  intros Hwf Hr HJ.
  pose proof (@reachable_stable inp e Hr) as (_ & _ & _ & _ & _ & _ & Hs).
  assert (Hn : nth_error (map static_of (insts e)) b = Some (static_of J))
    by (rewrite nth_error_map, HJ; reflexivity).
  rewrite Hs, nth_error_map in Hn.
  destruct (nth_error (insts (init inp)) b) as [J0|] eqn:HJ0; [|discriminate].
  cbn [option_map] in Hn.
  assert (Hst : static_of J = static_of J0) by congruence.
  exists J0. split; [reflexivity|]. split; [|exact Hst].
  apply (proj2 (legal_reachable_Inv inp (init inp) Hwf (lr_init inp)) b J0 HJ0).
Qed.

(* ------------------------------------------------------------------ *)
(** ** [get_idx]: the job and the position of an operation *)

Lemma in_combine_seq (A : Type) (d : A) (l : list A) : forall s i v,
  In (i, v) (combine (seq s (length l)) l) <->
  s <= i < s + length l /\ nth (i - s) l d = v.
Proof.
  induction l as [|x l IH]; intros s i v; simpl.
  - split; [tauto|lia].
  - rewrite IH. split.
    + intros [E|[H1 H2]].
      * inversion E; subst. rewrite Nat.sub_diag. split; [lia|reflexivity].
      * split; [lia|]. replace (i - s) with (S (i - S s)) by lia. exact H2.
    + intros [H1 H2]. destruct (Nat.eq_dec i s) as [->|Hne].
      * left. rewrite Nat.sub_diag in H2. now subst.
      * right. split; [lia|]. replace (i - s) with (S (i - S s)) in H2 by lia. exact H2.
Qed.

Lemma in_job_candidates biases o i :
  In i (job_candidates biases o) <-> i < length biases /\ nth i biases 0 <= o.
Proof.
  unfold job_candidates. rewrite in_map_iff. split.
  - intros ([i' v] & E & H). simpl in E. subst i'.
    apply filter_In in H. destruct H as [H1 H2]. simpl in H2.
    apply (in_combine_seq nat 0 biases 0) in H1. destruct H1 as [H1 H3].
    rewrite Nat.sub_0_r in H3. apply Nat.leb_le in H2. subst v. split; [lia|exact H2].
  - intros [H1 H2]. exists (i, nth i biases 0). split; auto.
    apply filter_In. split.
    + apply (in_combine_seq nat 0 biases 0). rewrite Nat.sub_0_r. split; [lia|reflexivity].
    + simpl. now apply Nat.leb_le.
Qed.

Lemma max_idx_le l m : (forall i, In i l -> i <= m) -> max_idx l <= m.
Proof.
  induction l as [|x l IH]; intros Hle; simpl; [lia|].
  assert (x <= m) by (apply Hle; now left).
  assert (max_idx l <= m) by (apply IH; intros i Hi; apply Hle; now right).
  unfold max_idx in *. lia.
Qed.

Lemma max_idx_ge l m : In m l -> m <= max_idx l.
Proof.
  induction l as [|x l IH]; intros Hin; [contradiction|]. simpl.
  destruct Hin as [->|Hin]; [lia|]. specialize (IH Hin). unfold max_idx in *. lia.
Qed.

Lemma max_idx_is l m : In m l -> (forall i, In i l -> i <= m) -> max_idx l = m.
Proof.
  intros Hin Hle. pose proof (max_idx_le l m Hle). pose proof (max_idx_ge l m Hin). lia.
Qed.

(** The candidates of an operation of job [j] end with [j]. *)
Lemma candidates_of_job nj nm n J j o :
  Inv nj nm n J -> j < nj -> in_job J j o ->
  In j (job_candidates (num_ope_biases_batch J) o) /\
  forall i, In i (job_candidates (num_ope_biases_batch J) o) -> i <= j.
Proof.
  intros HI Hj [H1 H2]. pose proof (iv_shape HI) as Hsh. split.
  - apply in_job_candidates. rewrite (sh_biases Hsh). split; auto.
  - intros i Hi. apply in_job_candidates in Hi. rewrite (sh_biases Hsh) in Hi.
    destruct Hi as [Hi Hle].
    destruct (Nat.le_gt_cases i j) as [|Hgt]; auto.
    pose proof (prefix_from_ordered (nums_ope_batch J) 0 j i Hgt) as Ho.
    rewrite (sh_nums Hsh) in Ho. specialize (Ho Hi).
    unfold bias_of, nums_of in *. rewrite <- (iv_biases HI) in Ho. lia.
Qed.

Lemma get_idx_slot e b J o j :
  nth_error (insts e) b = Some J ->
  In j (job_candidates (num_ope_biases_batch J) o) ->
  (forall i, In i (job_candidates (num_ope_biases_batch J) o) -> i <= j) ->
  get_idx e o b = IdxOk j (o - nth j (num_ope_biases_batch J) 0).
Proof.
  intros HJ Hin Hle. unfold get_idx. rewrite HJ.
  destruct (job_candidates (num_ope_biases_batch J) o) as [|c cs] eqn:E; [contradiction|].
  cbv zeta. now rewrite (max_idx_is (c :: cs) j Hin Hle).
Qed.

(** X1: [get_idx] gives, for an operation of an instance, the job that
    [opes_appertain_batch] records for it and its position in that job, and
    then raises for no operation id. *)
Theorem get_idx_locates (inp : CaseInput) (e : Env) (b : nat) (J : Inst) (o : nat) :
  wf_input inp -> reachable inp e ->
  nth_error (insts e) b = Some J -> o < nums_opes J ->
  (exists j k, get_idx e o b = IdxOk j k /\ j < num_jobs e /\
               nth o (opes_appertain_batch J) 0 = j /\
               nth j (num_ope_biases_batch J) 0 + k = o /\
               k < nth j (nums_ope_batch J) 0) /\
  (forall o', exists j' k', get_idx e o' b = IdxOk j' k').
Proof.
  intros Hwf Hr HJ Ho.
  destruct (reachable_static inp e b J Hwf Hr HJ) as (J0 & _ & HI & Hst).
  pose proof (@reachable_stable inp e Hr) as (_ & Hnj & _).
  unfold static_of in Hst. injection Hst as _ _ Ea Eb En Ee Et.
  assert (Ho0 : o < nums_opes J0) by congruence.
  destruct (in_job_cover _ _ _ J0 HI o Ho0) as (j & Hj & Hin).
  destruct (candidates_of_job _ _ _ J0 j o HI Hj Hin) as [Hc1 Hc2].
  split.
  - exists j, (o - nth j (num_ope_biases_batch J) 0). rewrite Hnj.
    destruct Hin as [H1 H2]. unfold bias_of, nums_of in H1, H2.
    repeat split; auto.
    + apply (get_idx_slot e b J o j HJ); rewrite Eb; auto.
    + rewrite Ea. apply (iv_appertain HI Hj). split; auto.
    + rewrite Eb. lia.
    + rewrite Eb, En. lia.
  - intros o'.
    assert (Hb0 : nth 0 (num_ope_biases_batch J0) 0 = 0).
    { rewrite (iv_biases HI). destruct (nums_ope_batch J0); reflexivity. }
    destruct (Nat.lt_ge_cases o' (nums_opes J0)) as [Hlt|Hge].
    + destruct (in_job_cover _ _ _ J0 HI o' Hlt) as (j' & Hj' & Hin').
      destruct (candidates_of_job _ _ _ J0 j' o' HI Hj' Hin') as [Hd1 Hd2].
      exists j', (o' - nth j' (num_ope_biases_batch J) 0).
      apply (get_idx_slot e b J o' j' HJ); rewrite Eb; auto.
    + unfold get_idx. rewrite HJ.
      destruct (job_candidates (num_ope_biases_batch J) o') as [|c cs] eqn:E.
      * assert (Hc0 : In 0 (job_candidates (num_ope_biases_batch J) o')).
        { apply in_job_candidates. rewrite Eb.
          rewrite (sh_biases (iv_shape HI)). split; [lia|]. rewrite Hb0. lia. }
        rewrite E in Hc0. contradiction.
      * eexists _, _. reflexivity.
Qed.

(* ------------------------------------------------------------------ *)
(** ** The partial schedule and the completion times *)

Lemma reachable_mirrors inp e b J :
  det_num_jobs inp = para_num_jobs inp -> det_num_mas inp = para_num_mas inp ->
  reachable inp e -> nth_error (insts e) b = Some J -> mirrors J.
Proof.
  intros Hj Hm Hr HJ. revert e Hr b J HJ.
  apply reachable_slots; [exact Hj|exact Hm| | |].
  - intros b J HJ. destruct (init_slot _ _ HJ) as (ld & _ & ->).
    unfold mirrors, job_ends_of, init_inst; cbn. repeat split; reflexivity.
  - intros oa J (H1 & H2 & H3 & H4 & H5) _. destruct oa as [[[ope ma] job]|].
    + unfold mirrors, job_ends_of, step_inst, step_active, new_end, job_end_times, new_status;
        cbn. rewrite H1. repeat split; reflexivity.
    + unfold mirrors, job_ends_of, step_inst, step_idle; cbn. repeat split; assumption.
  - intros g f J (H1 & H2 & H3 & H4 & H5).
    unfold mirrors, job_ends_of, next_time_inst; cbn. repeat split; assumption.
Qed.

(** X2: in every state that calls of [step], [next_time] and [reset] can
    produce, whatever the decisions, columns 0, 2 and 3 of [schedules_batch]
    are the status row, the start row and the sum of the start and
    processing-time rows of [feat_opes_batch]. *)
Theorem schedule_mirrors_features (inp : CaseInput) (e : Env) (b : nat) (J : Inst) :
  det_num_jobs inp = para_num_jobs inp -> det_num_mas inp = para_num_mas inp ->
  reachable inp e -> nth_error (insts e) b = Some J ->
  sched_status J = feat_ope_status J /\
  sched_start J = feat_ope_start J /\
  sched_end J = zipw Qplus (feat_ope_start J) (feat_ope_proc J).
Proof.
  intros Hj Hm Hr HJ.
  destruct (reachable_mirrors inp e b J Hj Hm Hr HJ) as (H1 & H2 & H3 & _). auto.
Qed.

Lemma convert_some feat_job appertain :
  Forall (fun j => j < length feat_job) appertain ->
  convert_feat_job_2_ope feat_job appertain = Some (gatherq feat_job appertain).
Proof.
  intros H. unfold convert_feat_job_2_ope.
  replace (forallb (fun j => j <? length feat_job) appertain) with true; [reflexivity|].
  symmetry. apply forallb_forall. rewrite Forall_forall in H.
  intros j Hin. apply Nat.ltb_lt. auto.
Qed.

Lemma convert_none feat_job appertain :
  ~ Forall (fun j => j < length feat_job) appertain ->
  convert_feat_job_2_ope feat_job appertain = None.
Proof.
  intros H. unfold convert_feat_job_2_ope.
  destruct (forallb (fun j => j <? length feat_job) appertain) eqn:E; [|reflexivity].
  exfalso. apply H. rewrite Forall_forall. intros j Hin.
  rewrite forallb_forall in E. apply Nat.ltb_lt. auto.
Qed.

(** X3: the completion row of [feat_opes_batch] holds, for every operation
    of a job, the end (start plus processing time) of the last operation of
    that job; it is what [convert_feat_job_2_ope] makes of the ends of the
    jobs, which raises exactly when [opes_appertain_batch] has an entry
    that is no job; and [makespan_batch] is the maximum of the row. *)
Theorem job_completion_feature (inp : CaseInput) (e : Env) (b : nat) (J : Inst) (j o : nat) :
  wf_input inp -> reachable inp e -> nth_error (insts e) b = Some J ->
  j < num_jobs e -> in_job J j o ->
  qnth o (feat_ope_end J) = end_of J (nth j (end_ope_biases_batch J) 0) /\
  nth j (end_ope_biases_batch J) 0 + 1 = bias_of J j + nums_of J j /\
  makespan_batch J = list_max (feat_ope_end J) /\
  (Forall (fun i => i < num_jobs e) (opes_appertain_batch J) ->
   convert_feat_job_2_ope (job_ends_of J) (opes_appertain_batch J) = Some (feat_ope_end J)) /\
  (~ Forall (fun i => i < num_jobs e) (opes_appertain_batch J) ->
   convert_feat_job_2_ope (job_ends_of J) (opes_appertain_batch J) = None).
Proof.
  intros Hwf Hr HJ Hj Hin.
  pose proof Hwf as (Dj & Dm & _).
  destruct (reachable_mirrors inp e b J Dj Dm Hr HJ) as (_ & _ & _ & H4 & H5).
  destruct (reachable_static inp e b J Hwf Hr HJ) as (J0 & _ & HI & Hst).
  pose proof (@reachable_stable inp e Hr) as (_ & Hnj & _).
  pose proof (@reachable_shape inp e b J (@wf_input_shape inp Hwf) Hr HJ) as Hsh.
  unfold static_of in Hst. injection Hst as _ _ Ea Eb En Ee Et.
  rewrite Hnj in *.
  assert (Hin0 : in_job J0 j o).
  { unfold in_job, bias_of, nums_of in *. rewrite <- Eb, <- En. exact Hin. }
  destruct (in_job_bound _ _ _ J0 HI j o Hj Hin0) as [_ Hon].
  pose proof (end_index _ _ _ J0 HI j Hj) as Hend.
  assert (Hlast : in_job J0 j (nth j (end_ope_biases_batch J0) 0)).
  { pose proof (iv_nums HI Hj). unfold in_job. lia. }
  destruct (in_job_bound _ _ _ J0 HI j _ Hj Hlast) as [_ Hln].
  assert (Hlen : length (job_ends_of J) = para_num_jobs inp).
  { unfold job_ends_of. rewrite length_gatherq. apply (sh_ends Hsh). }
  split; [|split; [|split; [|split]]].
  - rewrite H4. rewrite nth_gatherq by (rewrite (sh_appertain Hsh); exact Hon).
    rewrite Ea, (iv_appertain HI Hj Hin0).
    unfold job_ends_of. rewrite nth_gatherq by (rewrite (sh_ends Hsh); exact Hj).
    rewrite Ee. unfold end_of.
    set (x := nth j (end_ope_biases_batch J0) 0) in *.
    unfold qnth.
    rewrite (@nth_zipw _ _ _ Qplus _ _ _ 0%Q 0%Q 0%Q); [reflexivity| |];
      [rewrite (sh_f5 Hsh)|rewrite (sh_f2 Hsh)]; exact Hln.
  - unfold bias_of, nums_of in *. rewrite Ee, Eb, En. exact Hend.
  - exact H5.
  - intros Hall. rewrite H4. apply convert_some. now rewrite Hlen.
  - intros Hall. apply convert_none. now rewrite Hlen.
Qed.

(* ------------------------------------------------------------------ *)
(** ** [EnvState.update]: the state returned by [step] *)

Lemma snap_static_update : forall S L,
  length S = length L -> map snap_static (zipw snap_update S L) = map snap_static S.
Proof.
  induction S as [|s S IH]; intros [|J L] Hl; simpl in *; try discriminate; auto.
  f_equal. apply IH. lia.
Qed.

Lemma snap_update_fresh : forall S L,
  map snap_static S = map inst_static L -> zipw snap_update S L = map snap_of L.
Proof.
  induction S as [|s S IH]; intros [|J L] H; simpl in *; try discriminate; auto.
  injection H as E1 E2 E3 E4 E5 HS. f_equal; [|now apply IH].
  unfold snap_update, snap_of. now rewrite E1, E2, E3, E4, E5.
Qed.

Lemma inst_static_of l1 l2 :
  map static_of l1 = map static_of l2 -> map inst_static l1 = map inst_static l2.
Proof.
  revert l2. induction l1 as [|J l1 IH]; intros [|K l2] H; simpl in *; try discriminate; auto.
  injection H as E1 E2 E3 E4 E5 E6 E7 Hl. f_equal; [|now apply IH].
  unfold inst_static. congruence.
Qed.

(** The static fields of the state object are those of the constructed
    environment in every reachable state. *)
Lemma reachable_state_static inp e :
  reachable inp e ->
  map snap_static (st_slots (state e)) = map inst_static (insts (init inp)).
Proof.
  intros Hr. induction Hr as [|e fuel acts e' rw dn Hr IH Hs|e flags Hr IH Hl|e Hr IH].
  - unfold init; cbn [state st_slots insts]. rewrite map_map. reflexivity.
  - pose proof (@reachable_stable inp e' (@reach_step inp e fuel acts e' rw dn Hr Hs))
      as (_ & _ & _ & _ & _ & _ & Hst).
    destruct (@step_inv fuel e acts e' rw dn Hs) as (e1 & e2 & Hc & Ha & -> & _).
    pose proof (@step_core_dims e acts e1 rw Hc) as (_&_&_&_&_&S1&_&_&_).
    pose proof (@advance_dims fuel e1 e2 Ha) as (_&_&_&_&_&S2&_&_&_).
    cbn [finish_step state insts] in *. unfold update; cbn [st_slots].
    rewrite S2, S1. rewrite snap_static_update; [exact IH|].
    apply (f_equal (@length _)) in IH. apply (f_equal (@length _)) in Hst.
    rewrite !length_map in IH, Hst. lia.
  - exact IH.
  - pose proof (@reachable_stable inp e Hr) as (_ & _ & _ & _ & _ & Ho & _).
    unfold reset; cbn [state]. rewrite Ho.
    unfold init; cbn [old_state st_slots insts]. rewrite map_map. reflexivity.
Qed.

(** X4: the state that a successful [step] returns shows the tensors of
    the environment after the call, slot by slot, and its active slots; its
    static fields are those the constructor gave it, in every reachable
    state. *)
Theorem step_state_is_snapshot (inp : CaseInput) (fuel : nat) (e e' : Env)
    (acts : list Action) (rw : list Q) (dn : list bool) :
  reachable inp e -> step fuel e acts = Ok (e', rw, dn) ->
  state e' = mkEnvState (batch_idxes e') (map snap_of (insts e')) /\
  dn = map (@done_batch) (insts e') /\
  map snap_static (st_slots (state e)) = map inst_static (insts e).
Proof.
  intros Hr Hs.
  pose proof (@reachable_stable inp e Hr) as (_ & _ & _ & _ & _ & _ & Hst0).
  pose proof (@reachable_stable inp e' (@reach_step inp e fuel acts e' rw dn Hr Hs))
    as (_ & _ & _ & _ & _ & _ & Hst).
  pose proof (reachable_state_static inp e Hr) as Hsn.
  destruct (@step_inv fuel e acts e' rw dn Hs) as (e1 & e2 & Hc & Ha & -> & Hd).
  pose proof (@step_core_dims e acts e1 rw Hc) as (_&_&_&_&_&S1&_&_&_).
  pose proof (@advance_dims fuel e1 e2 Ha) as (_&_&_&_&_&S2&_&_&_).
  split; [|split; [exact Hd|]].
  - cbn [finish_step state insts batch_idxes] in *. unfold update. f_equal.
    apply snap_update_fresh. rewrite S2, S1, Hsn. symmetry. now apply inst_static_of.
  - rewrite Hsn. symmetry. now apply inst_static_of.
Qed.

(* ------------------------------------------------------------------ *)
(** ** [if_no_eligible]: the flag and the legal decisions *)

Lemma qsum_pos_ex l : (0 < qsum l)%Q -> exists x, In x l /\ (0 < x)%Q.
Proof.
  induction l as [|h t IH]; simpl; intros H; [lra|].
  destruct (Qlt_le_dec 0 h) as [Hh|Hh].
  - exists h. split; [now left|exact Hh].
  - destruct IH as (x & Hx & Hp); [lra|]. exists x. split; [now right|exact Hp].
Qed.

Section Eligible.
Variables nj nm n : nat.
Variable J : Inst.
Hypothesis HI : Inv nj nm n J.

Lemma flag_nonneg : (0 <= if_no_eligible_inst J)%Q.
Proof.
  unfold if_no_eligible_inst. apply qsum_nonneg. intros y Hy.
  apply (in_zipw _ _ _ _ _ _ _ 0 false) in Hy.
  destruct Hy as (k & _ & _ & ->). apply (eligible_row_nonneg nj nm n J HI).
Qed.

Lemma unfinished_step j : j < nj ->
  nth j (mask_job_finish_batch J) false = false ->
  step_of J j < bias_of J j + nums_of J j.
Proof.
  intros Hj Hf. pose proof (iv_step HI Hj) as Hs.
  destruct (Nat.eq_dec (step_of J j) (bias_of J j + nums_of J j)) as [E|E]; [|lia].
  apply (iv_finish HI Hj) in E. congruence.
Qed.

Lemma flag_pos_legal : (0 < if_no_eligible_inst J)%Q -> exists a, legal nj nm J a.
Proof.
  intros Hpos. pose proof (iv_shape HI) as Hsh.
  unfold if_no_eligible_inst in Hpos.
  destruct (qsum_pos_ex _ Hpos) as (x & Hx & Hxp).
  apply (in_zipw _ _ _ _ _ _ _ 0 false) in Hx. destruct Hx as (j & _ & Hjl & ->).
  rewrite length_zipw, (sh_job_procing Hsh), (sh_job_finish Hsh) in Hjl.
  assert (Hj : j < nj) by lia.
  rewrite (@nth_zipw _ _ _ orb _ _ _ false false false) in Hxp
    by (rewrite ?(sh_job_procing Hsh), ?(sh_job_finish Hsh); auto).
  unfold eligible_row in Hxp.
  destruct (qsum_pos_ex _ Hxp) as (y & Hy & Hyp).
  apply (in_zipw _ _ _ _ _ _ _ 0%Q false) in Hy. destruct Hy as (m & _ & Hml & ->).
  rewrite (sh_ma_procing Hsh) in Hml.
  destruct (nth m (mask_ma_procing_batch J) false) eqn:Em; cbn [negb andb] in Hyp; [lra|].
  destruct (nth j (mask_job_procing_batch J) false) eqn:Ep; cbn [negb orb] in Hyp; [lra|].
  destruct (nth j (mask_job_finish_batch J) false) eqn:Ef; cbn [negb] in Hyp; [lra|].
  pose proof (unfinished_step j Hj Ef) as Hlt.
  rewrite (pending_nth nj nm n J HI j Hj Hlt) in Hyp.
  exists (step_of J j, m, j). unfold legal. repeat split; auto.
Qed.

Lemma legal_flag_pos a : legal nj nm J a -> (0 < if_no_eligible_inst J)%Q.
Proof.
  destruct a as [[ope ma] job]. intros (Hj & Hm & -> & Hf & Hp & Hmp & Hpos).
  pose proof flag_nonneg as Hnn.
  destruct (Qlt_le_dec 0 (if_no_eligible_inst J)) as [H|H]; [exact H|].
  assert (Hz : (if_no_eligible_inst J == 0)%Q) by lra.
  pose proof (no_eligible_zero nj nm n J HI job ma Hz Hj Hm (unfinished_step job Hj Hf) Hp Hmp).
  lra.
Qed.

End Eligible.

Lemma advance_settles fuel : forall e e',
  advance fuel e = Some e' -> some_need_trans e' (if_no_eligible e') = false.
Proof.
  induction fuel as [|k IH]; intros e e' Ha; simpl in Ha;
    destruct (some_need_trans e (if_no_eligible e)) eqn:Hs; try discriminate.
  - inversion Ha; subst; auto.
  - eapply IH; eauto.
  - inversion Ha; subst; auto.
Qed.

Lemma settled_slot e b J :
  some_need_trans e (if_no_eligible e) = false -> nth_error (insts e) b = Some J ->
  need_trans (if_no_eligible_inst J) J = false.
Proof.
  unfold some_need_trans. intros Hs HJ.
  destruct (need_trans (if_no_eligible_inst J) J) eqn:E; [|reflexivity].
  assert (Hin : In true (zipw need_trans (if_no_eligible e) (insts e))).
  { apply nth_error_In with (n := b).
    rewrite nth_error_zipw, nth_error_if_no_eligible, HJ. cbn [option_map]. now rewrite E. }
  assert (existsb (fun x : bool => x) (zipw need_trans (if_no_eligible e) (insts e)) = true)
    by (apply existsb_exists; exists true; auto).
  congruence.
Qed.

(** X5: in a run of legal decisions the entry of [if_no_eligible] for a
    slot is never negative, and it is positive exactly when the slot has a
    legal decision: an idle machine with a positive processing time for the
    pending operation of a job that is neither in process nor finished. *)
Theorem no_eligible_flag_meaning (inp : CaseInput) (e : Env) (b : nat) (J : Inst) :
  wf_input inp -> legal_run (init inp) e -> nth_error (insts e) b = Some J ->
  nth_error (if_no_eligible e) b = Some (if_no_eligible_inst J) /\
  (0 <= if_no_eligible_inst J)%Q /\
  ((0 < if_no_eligible_inst J)%Q <-> exists a, legal (num_jobs e) (num_mas e) J a).
Proof.
  intros Hwf Hrun HJ.
  assert (Hr : legal_reachable inp e)
    by (apply (legal_run_reachable inp (init inp) e); [apply lr_init|exact Hrun]).
  destruct (legal_reachable_Inv inp e Hwf Hr) as [(Dj & Dm & Dn) HI].
  specialize (HI b J HJ). rewrite Dj, Dm.
  split; [|split; [|split]].
  - rewrite nth_error_if_no_eligible, HJ. reflexivity.
  - apply (flag_nonneg _ _ _ J HI).
  - apply (flag_pos_legal _ _ _ J HI).
  - intros [a Ha]. apply (legal_flag_pos _ _ _ J HI a Ha).
Qed.

(** X6: after a successful [step] with legal decisions, every slot that
    is not done has a legal decision: the loop of [step] leaves no slot
    waiting. *)
Theorem step_leaves_a_decision (inp : CaseInput) (fuel : nat) (e e' : Env)
    (acts : list Action) (rw : list Q) (dn : list bool) (b : nat) (J : Inst) :
  wf_input inp -> legal_run (init inp) e -> legal_acts e acts ->
  step fuel e acts = Ok (e', rw, dn) ->
  nth_error (insts e') b = Some J -> done_batch J = false ->
  exists a, legal (num_jobs e') (num_mas e') J a.
Proof.
  intros Hwf Hrun Hl Hs HJ Hd.
  assert (Hr : legal_reachable inp e)
    by (apply (legal_run_reachable inp (init inp) e); [apply lr_init|exact Hrun]).
  pose proof (step_legal inp fuel e acts e' rw dn Hr Hl Hs) as Hr'.
  destruct (legal_reachable_Inv inp e' Hwf Hr') as [(Dj & Dm & Dn) HI].
  specialize (HI b J HJ). rewrite Dj, Dm.
  destruct (@step_inv fuel e acts e' rw dn Hs) as (e1 & e2 & Hc & Ha & -> & _).
  cbn [finish_step insts] in HJ.
  pose proof (settled_slot e2 b J (advance_settles fuel e1 e2 Ha) HJ) as Hn.
  unfold need_trans in Hn. rewrite Hd in Hn. cbn [negb] in Hn. rewrite andb_true_r in Hn.
  apply (flag_pos_legal _ _ _ J HI).
  pose proof (flag_nonneg _ _ _ J HI) as Hnn.
  destruct (Qlt_le_dec 0 (if_no_eligible_inst J)) as [H|H]; [exact H|].
  assert (Hz : (if_no_eligible_inst J == 0)%Q) by lra.
  apply Qeq_bool_iff in Hz. congruence.
Qed.

(* ------------------------------------------------------------------ *)
(** ** The active slots after [step] *)

Lemma tab_succ (A : Type) k (f : nat -> A) : tab (S k) f = tab k f ++ [f k].
Proof. unfold tab. rewrite seq_S, map_app. reflexivity. Qed.

Lemma list_sum_tab_succ k f : list_sum (tab (S k) f) = list_sum (tab k f) + f k.
Proof. rewrite tab_succ, list_sum_app. simpl. lia. Qed.

Lemma sum_tab_le k f g :
  (forall j, j < k -> f j <= g j) -> list_sum (tab k f) <= list_sum (tab k g).
Proof.
  induction k as [|k IH]; intros H; [reflexivity|].
  rewrite !list_sum_tab_succ. specialize (H k (Nat.lt_succ_diag_r k)) as Hk.
  assert (list_sum (tab k f) <= list_sum (tab k g)) by (apply IH; intros; apply H; lia).
  lia.
Qed.

Lemma sum_tab_eq k f g :
  (forall j, j < k -> f j <= g j) -> list_sum (tab k f) = list_sum (tab k g) ->
  forall j, j < k -> f j = g j.
Proof.
  induction k as [|k IH]; intros H E j Hj; [lia|].
  rewrite !list_sum_tab_succ in E. specialize (H k (Nat.lt_succ_diag_r k)) as Hk.
  assert (Hle : list_sum (tab k f) <= list_sum (tab k g))
    by (apply sum_tab_le; intros; apply H; lia).
  destruct (Nat.eq_dec j k) as [->|Hne]; [lia|].
  apply IH; [intros; apply H; lia|lia|lia].
Qed.

Lemma sum_tab_ext k f g :
  (forall j, j < k -> f j = g j) -> list_sum (tab k f) = list_sum (tab k g).
Proof.
  induction k as [|k IH]; intros H; [reflexivity|].
  rewrite !list_sum_tab_succ, (H k), IH; auto.
Qed.

Lemma sum_tab_bump k f g i :
  i < k -> g i = S (f i) -> (forall j, j < k -> j <> i -> g j = f j) ->
  list_sum (tab k g) = S (list_sum (tab k f)).
Proof.
  induction k as [|k IH]; intros Hi Hg Ho; [lia|].
  rewrite !list_sum_tab_succ. destruct (Nat.eq_dec i k) as [->|Hne].
  - rewrite Hg. rewrite (sum_tab_ext k g f); [lia|]. intros j Hj. apply Ho; lia.
  - rewrite IH; [|lia|exact Hg|intros; apply Ho; lia]. rewrite (Ho k); lia.
Qed.

Lemma list_sum_tab_nth l : list_sum l = list_sum (tab (length l) (fun j => nth j l 0)).
Proof.
  induction l as [|x l IH] using rev_ind; [reflexivity|].
  rewrite length_app, list_sum_app. cbn [length list_sum]. rewrite Nat.add_1_r.
  rewrite list_sum_tab_succ. rewrite app_nth2, Nat.sub_diag by lia. cbn [nth].
  rewrite IH. rewrite (sum_tab_ext (length l) (fun j => nth j l 0) (fun j => nth j (l ++ [x]) 0)).
  - simpl. lia.
  - intros j Hj. now rewrite app_nth1.
Qed.

Lemma filter_all (A : Type) (f : A -> bool) l :
  (forall x, In x l -> f x = true) -> filter f l = l.
Proof.
  induction l as [|x l IH]; intros H; simpl; [reflexivity|].
  rewrite (H x) by now left. f_equal. apply IH. intros; apply H; now right.
Qed.

Lemma existsb_eqb b l : existsb (Nat.eqb b) l = true <-> In b l.
Proof.
  rewrite existsb_exists. split.
  - intros (x & Hx & E). apply Nat.eqb_eq in E. now subst.
  - intros H. exists b. split; [exact H|apply Nat.eqb_refl].
Qed.

(** The indices selected by a boolean mask, [torch.arange(k)[mask]]. *)
Lemma masked_arange mask : forall s,
  map fst (filter snd (combine (seq s (length mask)) mask)) =
  filter (fun b => nth (b - s) mask false) (seq s (length mask)).
Proof.
  induction mask as [|m mask IH]; intros s; [reflexivity|].
  assert (E : filter (fun b => nth (b - s) (m :: mask) false) (seq (S s) (length mask)) =
              filter (fun b => nth (b - S s) mask false) (seq (S s) (length mask))).
  { apply filter_ext_in. intros b Hb. apply in_seq in Hb.
    replace (b - s) with (S (b - S s)) by lia. reflexivity. }
  cbn [length seq combine filter snd]. rewrite E, Nat.sub_diag. cbn [nth].
  destruct m; cbn [map fst]; rewrite IH; reflexivity.
Qed.

Lemma filter_member k (p : nat -> bool) :
  filter (fun b => existsb (Nat.eqb b) (filter p (seq 0 k))) (seq 0 k) = filter p (seq 0 k).
Proof.
  apply filter_ext_in. intros b Hb.
  destruct (p b) eqn:E.
  - apply existsb_eqb. apply filter_In. auto.
  - destruct (existsb (Nat.eqb b) (filter p (seq 0 k))) eqn:E2; [|reflexivity].
    apply existsb_eqb in E2. apply filter_In in E2. destruct E2; congruence.
Qed.

Lemma action_of_some idxes : forall acts b,
  length acts = length idxes -> In b idxes -> exists a, action_of idxes acts b = Some a.
Proof.
  induction idxes as [|i idxes IH]; intros [|a acts] b Hl Hin; simpl in *;
    try contradiction; try discriminate.
  destruct (Nat.eqb_spec i b) as [E|E]; [eauto|].
  destruct Hin as [Hin|Hin]; [contradiction|]. apply IH; auto.
Qed.

Lemma action_of_none idxes : forall acts b, ~ In b idxes -> action_of idxes acts b = None.
Proof.
  induction idxes as [|i idxes IH]; intros [|a acts] b Hin; simpl in *; auto.
  destruct (Nat.eqb_spec i b) as [E|E]; [tauto|]. apply IH. tauto.
Qed.

Section Counting.
Variables nj nm n : nat.
Variable J : Inst.
Hypothesis HI : Inv nj nm n J.

Lemma nums_opes_sum : nums_opes J = list_sum (tab nj (fun j => nums_of J j)).
Proof.
  rewrite (proj1 (iv_total HI)), (list_sum_tab_nth (nums_ope_batch J)).
  now rewrite (sh_nums (iv_shape HI)).
Qed.

Lemma count_sched_le : count_sched J <= nums_opes J.
Proof.
  unfold count_sched. rewrite nums_opes_sum, (sh_ope_step (iv_shape HI)).
  apply sum_tab_le. intros j Hj. pose proof (iv_step HI Hj). lia.
Qed.

Lemma count_sched_full :
  count_sched J = nums_opes J <->
  forall j, j < nj -> step_of J j = bias_of J j + nums_of J j.
Proof.
  unfold count_sched. rewrite nums_opes_sum, (sh_ope_step (iv_shape HI)). split.
  - intros E j Hj. pose proof (iv_step HI Hj).
    assert (step_of J j - bias_of J j = nums_of J j); [|lia].
    apply (sum_tab_eq nj (fun j => step_of J j - bias_of J j) (fun j => nums_of J j)); auto.
    intros i Hi. pose proof (iv_step HI Hi). lia.
  - intros H. apply sum_tab_ext. intros j Hj. rewrite (H j Hj). lia.
Qed.

Lemma done_iff_full : done_batch J = true <-> count_sched J = nums_opes J.
Proof.
  rewrite count_sched_full, (iv_done HI), forallb_forall. split.
  - intros H j Hj. apply (iv_finish HI Hj). apply H. apply nth_In.
    now rewrite (sh_job_finish (iv_shape HI)).
  - intros H x Hx. apply (In_nth _ _ false) in Hx. destruct Hx as (j & Hj & <-).
    rewrite (sh_job_finish (iv_shape HI)) in Hj. apply (iv_finish HI Hj). auto.
Qed.

Lemma legal_count_lt a : legal nj nm J a -> count_sched J < nums_opes J.
Proof.
  destruct a as [[ope ma] job]. intros (Hj & _ & _ & Hf & _).
  pose proof count_sched_le.
  destruct (Nat.eq_dec (count_sched J) (nums_opes J)) as [E|E]; [|lia].
  pose proof (proj1 count_sched_full E job Hj) as Hs.
  apply (iv_finish HI Hj) in Hs. congruence.
Qed.

Lemma count_sched_active ope ma job :
  legal nj nm J (ope, ma, job) ->
  count_sched (fst (step_inst n nm (@Some Action (ope, ma, job)) J)) = S (count_sched J).
Proof.
  intros HL.
  change (count_sched (fst (step_inst n nm (@Some (nat * nat * nat) (ope, ma, job)) J)) =
          S (count_sched J)).
  pose proof HL as (Hj & _ & He & _).
  pose proof (Inv_step_active nj nm n J HI ope ma job HL) as HI1.
  unfold count_sched. rewrite (sh_ope_step (iv_shape HI1)), (sh_ope_step (iv_shape HI)).
  apply (sum_tab_bump nj _ _ job Hj).
  - rewrite (step1_of nj nm n J HI ope ma job HL job Hj), Nat.eqb_refl.
    pose proof (iv_step HI Hj). subst ope.
    change (bias_of (fst (step_inst n nm (Some (step_of J job, ma, job)) J)) job)
      with (bias_of J job). lia.
  - intros j Hjj Hne. rewrite (step1_of nj nm n J HI ope ma job HL j Hjj).
    destruct (Nat.eqb_spec job j) as [E|E]; [congruence|].
    change (bias_of (fst (step_inst n nm (Some (ope, ma, job)) J)) j) with (bias_of J j).
    reflexivity.
Qed.

End Counting.

Lemma finish_mask_entry (l : list Inst) b J :
  nth_error l b = Some J ->
  nth b (map (fun I => N I + 1 <=? nums_opes I) l) false = (N J + 1 <=? nums_opes J).
Proof.
  intros HJ. apply nth_error_nth. rewrite nth_error_map, HJ. reflexivity.
Qed.

(** The active slots and the counter [N] in runs of legal decisions. *)
Lemma legal_reachable_active inp e :
  wf_input inp -> legal_reachable inp e -> active_ok e.
Proof.
  intros Hwf Hr.
  induction Hr as [|e acts e1 rw Hr IH Hleg Hc|e Hr IH|e Hr IH].
  - destruct Hwf as (Hj & Hm & Hl & Hall). unfold active_ok, init.
    cbn [batch_idxes batch_size insts]. split; [|split].
    + symmetry. apply filter_all. intros x Hx. now apply existsb_eqb.
    + now rewrite length_map.
    + intros b J HJ. split.
      * apply nth_error_In in HJ. apply in_map_iff in HJ. destruct HJ as (ld & <- & _).
        unfold count_sched. rewrite list_sum_tab_zero; [reflexivity|].
        intros i _. unfold step_of, bias_of, init_inst; cbn. lia.
      * intros Hn. exfalso. apply Hn. apply in_seq.
        apply nth_error_Some_lt in HJ. rewrite length_map in HJ. lia.
  - destruct (legal_reachable_Inv inp e Hwf Hr) as [(Dj & Dm & Dn) HI].
    destruct IH as (A1 & A2 & A3).
    pose proof (@step_core_dims e acts e1 rw Hc) as (B1&_&_&_&B5&_&_&_&B9).
    unfold active_ok. rewrite B1, B5, B9. split; [exact A1|split; [exact A2|]].
    intros b J1 HJ1.
    destruct (@step_core_slot e acts e1 rw b Hc) as [Hb _].
    rewrite HJ1 in Hb. destruct (nth_error (insts e) b) as [J|] eqn:HJ; [|discriminate].
    cbn [option_map] in Hb. inversion Hb; subst J1; clear Hb.
    destruct (A3 b J HJ) as [C1 C2]. specialize (HI b J HJ).
    rewrite Dn, Dm.
    destruct (in_dec Nat.eq_dec b (batch_idxes e)) as [Hin|Hin].
    + destruct Hleg as [Hlen Hleg].
      destruct (action_of_some (batch_idxes e) acts b Hlen Hin) as [a Ha].
      rewrite Ha. destruct (Hleg b a Ha) as (J' & HJ' & HL).
      rewrite HJ in HJ'. inversion HJ'; subst J'. rewrite Dj, Dm in HL.
      destruct a as [[ope ma] job].
      rewrite (count_sched_active _ _ _ J HI ope ma job HL).
      pose proof (legal_count_lt _ _ _ J HI _ HL) as Hlt.
      change (N (fst (step_inst (det_num_opes inp) (para_num_mas inp) (Some (ope, ma, job)) J)))
        with (S (N J)).
      change (nums_opes (fst (step_inst (det_num_opes inp) (para_num_mas inp)
                                        (Some (ope, ma, job)) J)))
        with (nums_opes J).
      split; [lia|]. intros Hn. contradiction.
    + rewrite (action_of_none (batch_idxes e) acts b Hin). specialize (C2 Hin).
      change (count_sched (fst (step_inst (det_num_opes inp) (para_num_mas inp) None J)))
        with (count_sched J).
      change (N (fst (step_inst (det_num_opes inp) (para_num_mas inp) None J)))
        with (S (N J)).
      change (nums_opes (fst (step_inst (det_num_opes inp) (para_num_mas inp) None J)))
        with (nums_opes J).
      split; [lia|]. intros _. lia.
  - destruct IH as (A1 & A2 & A3). unfold active_ok.
    assert (Hl : length (insts (next_time e (if_no_eligible e))) = length (insts e)).
    { unfold next_time, with_insts; cbn [insts]. unfold if_no_eligible.
      rewrite length_zipw, length_map. lia. }
    rewrite Hl. split; [exact A1|split; [exact A2|]].
    intros b J2 HJ2. rewrite insts_next_time_own in HJ2.
    destruct (nth_error (insts e) b) as [J|] eqn:HJ; [|discriminate].
    cbn [option_map] in HJ2. inversion HJ2; subst J2; clear HJ2.
    exact (A3 b J HJ).
  - destruct IH as (A1 & A2 & A3). unfold active_ok.
    cbn [finish_step batch_idxes batch_size insts].
    set (mask := map (fun I => N I + 1 <=? nums_opes I) (insts e)).
    assert (Hlm : length mask = batch_size e) by (unfold mask; now rewrite length_map).
    assert (Hidx : map fst (filter snd (combine (seq 0 (batch_size e)) mask)) =
                   filter (fun b => nth (b - 0) mask false) (seq 0 (batch_size e))).
    { rewrite <- Hlm. apply masked_arange. }
    destruct (forallb (fun b : bool => b) mask) eqn:Eall.
    + split; [exact A1|split; [exact A2|exact A3]].
    + rewrite Hidx. split; [|split; [exact A2|]].
      * symmetry. apply filter_member.
      * intros b J HJ. destruct (A3 b J HJ) as [C1 _]. split; [exact C1|].
        intros Hn.
        assert (Hb : b < batch_size e) by (rewrite <- A2; eapply nth_error_Some_lt; eauto).
        destruct (N J + 1 <=? nums_opes J) eqn:E; [|apply Nat.leb_gt in E; lia].
        exfalso. apply Hn. apply filter_In. split; [apply in_seq; lia|].
        rewrite Nat.sub_0_r. unfold mask. now rewrite (finish_mask_entry (insts e) b J HJ).
Qed.

(** X7: after a successful [step] with legal decisions the active slots
    are the slots that are not done, in increasing order, and the returned
    state lists them; a slot is done exactly when the counter [N] has
    reached its number of operations. *)
Theorem active_slots_are_open (inp : CaseInput) (fuel : nat) (e e' : Env)
    (acts : list Action) (rw : list Q) (dn : list bool) :
  wf_input inp -> legal_run (init inp) e -> legal_acts e acts ->
  step fuel e acts = Ok (e', rw, dn) ->
  batch_idxes e' = open_slots e' /\
  st_batch_idxes (state e') = batch_idxes e' /\
  forall b J, nth_error (insts e') b = Some J ->
    (done_batch J = true <-> nums_opes J <= N J).
Proof.
  intros Hwf Hrun Hl Hs.
  assert (Hr : legal_reachable inp e)
    by (apply (legal_run_reachable inp (init inp) e); [apply lr_init|exact Hrun]).
  destruct (@step_inv fuel e acts e' rw dn Hs) as (e1 & e2 & Hc & Ha & -> & _).
  assert (Hr2 : legal_reachable inp e2).
  { apply (advance_legal inp fuel e1 e2); [|exact Ha]. eapply lr_core; eauto. }
  destruct (legal_reachable_Inv inp e2 Hwf Hr2) as [_ HI].
  destruct (legal_reachable_active inp e2 Hwf Hr2) as (A1 & A2 & A3).
  assert (Hdone : forall b J, nth_error (insts e2) b = Some J ->
                    (done_batch J = true <-> nums_opes J <= N J)).
  { intros b J HJ. destruct (A3 b J HJ) as [C1 _].
    rewrite (done_iff_full _ _ _ J (HI b J HJ)). lia. }
  assert (Hopen : forall b J, nth_error (insts e2) b = Some J ->
                    negb (done_batch J) = (N J + 1 <=? nums_opes J)).
  { intros b J HJ. pose proof (Hdone b J HJ) as Hd.
    destruct (done_batch J); destruct (Nat.leb_spec (N J + 1) (nums_opes J)); cbn [negb];
      try reflexivity.
    - pose proof (proj1 Hd eq_refl). lia.
    - assert (false = true) by (apply Hd; lia). discriminate. }
  split; [|split; [reflexivity|exact Hdone]].
  unfold open_slots. cbn [finish_step batch_idxes batch_size insts].
  set (mask := map (fun I => N I + 1 <=? nums_opes I) (insts e2)).
  assert (Hlm : length mask = batch_size e2) by (unfold mask; now rewrite length_map).
  destruct (forallb (fun b : bool => b) mask) eqn:Eall.
  - rewrite A1 at 1. apply filter_ext_in. intros b Hb. apply in_seq in Hb.
    destruct (nth_error (insts e2) b) as [J|] eqn:HJ;
      [|apply nth_error_None in HJ; lia].
    rewrite (Hopen b J HJ).
    assert (Hm : (N J + 1 <=? nums_opes J) = true).
    { rewrite forallb_forall in Eall. apply Eall. unfold mask.
      apply in_map_iff. exists J. split; [reflexivity|]. eapply nth_error_In; eauto. }
    rewrite Hm. apply existsb_eqb.
    destruct (in_dec Nat.eq_dec b (batch_idxes e2)) as [Hin|Hin]; [exact Hin|].
    apply Nat.leb_le in Hm. pose proof (proj2 (A3 b J HJ) Hin). lia.
  - replace (seq 0 (batch_size e2)) with (seq 0 (length mask)) by now rewrite Hlm.
    rewrite masked_arange. apply filter_ext_in. intros b Hb. apply in_seq in Hb.
    destruct (nth_error (insts e2) b) as [J|] eqn:HJ;
      [|apply nth_error_None in HJ; lia].
    rewrite (Hopen b J HJ), Nat.sub_0_r. unfold mask.
    apply (finish_mask_entry (insts e2) b J HJ).
Qed.

(* ------------------------------------------------------------------ *)
(** ** The makespan and the ends of the scheduled operations *)

Lemma legal_run_is_reachable inp e : legal_run (init inp) e -> reachable inp e.
Proof.
  induction 1 as [|e1 fuel acts e2 rw dn Hrun IH Hl Hs|e1 Hrun IH].
  - apply reach_init.
  - eapply reach_step; eauto.
  - apply reach_next_time; [exact IH|]. unfold if_no_eligible. now rewrite length_map.
Qed.

Section Ends.
Variables nj nm n : nat.
Variable J : Inst.
Hypothesis HI : Inv nj nm n J.

Lemma end_chain j o : j < nj -> in_job J j o ->
  forall d, o + d < step_of J j -> (end_of J o <= end_of J (o + d)%nat)%Q.
Proof.
  intros Hj Hin. induction d as [|d IH]; intros Hlt.
  - rewrite Nat.add_0_r. lra.
  - assert (Hin' : in_job J j (o + d)).
    { pose proof (iv_step HI Hj). unfold in_job in *. lia. }
    pose proof (iv_order HI Hj Hin') as Ho.
    replace (o + S d) with (o + d + 1) by lia.
    specialize (Ho ltac:(lia)). specialize (IH ltac:(lia)).
    pose proof (iv_mean HI (o + d + 1)). unfold end_of at 2. lra.
Qed.

Lemma scheduled_end_le j o : j < nj -> in_job J j o -> o < step_of J j ->
  (end_of J o <= list_max (feat_ope_end J))%Q.
Proof.
  intros Hj Hin Hlt.
  pose proof (end_chain j o Hj Hin (step_of J j - 1 - o)) as Hc.
  replace (o + (step_of J j - 1 - o)) with (step_of J j - 1) in Hc by lia.
  specialize (Hc ltac:(lia)).
  assert (Hb : bias_of J j < step_of J j) by (destruct Hin; lia).
  pose proof (iv_bound HI Hj Hb). lra.
Qed.

Lemma sched_end_is_end o : o < n -> qnth o (sched_end J) = end_of J o.
Proof.
  intros Ho. rewrite (iv_sched_end HI). unfold end_of, qnth.
  pose proof (iv_shape HI) as Hsh.
  now rewrite (nth_zipw Qplus _ _ 0%Q 0%Q 0%Q)
    by (rewrite ?(sh_f5 Hsh), ?(sh_f2 Hsh); auto).
Qed.

(** An operation with status 1 is an operation of a job, before the
    pointer of the job. *)
Lemma status_one_below_pointer o : qnth o (sched_status J) = 1%Q ->
  exists j, j < nj /\ in_job J j o /\ o < step_of J j.
Proof.
  intros Hs. rewrite (iv_sched_status HI) in Hs.
  destruct (Nat.lt_ge_cases o (nums_opes J)) as [Ho|Ho].
  - destruct (in_job_cover nj nm n J HI o Ho) as (j & Hj & Hin).
    exists j. repeat split; auto; try apply Hin.
    destruct (Nat.lt_ge_cases o (step_of J j)) as [|Hge]; auto.
    pose proof (proj2 (iv_status HI Hj Hin) Hge) as Hz. rewrite Hz in Hs. discriminate.
  - rewrite (iv_padding HI Ho) in Hs. discriminate.
Qed.

Lemma unfinished_job : done_batch J = false ->
  exists j, j < nj /\ nth j (mask_job_finish_batch J) false = false.
Proof.
  rewrite (iv_done HI). intros Hd.
  assert (G : forall l, forallb (fun b : bool => b) l = false ->
                exists j, j < length l /\ nth j l false = false).
  { induction l as [|x l IH]; simpl; intros H; [discriminate|].
    destruct x.
    - destruct (IH H) as (j & Hj & Hn). exists (S j). split; [lia|exact Hn].
    - exists 0. split; [lia|reflexivity]. }
  destruct (G _ Hd) as (j & Hj & Hn). rewrite (sh_job_finish (iv_shape HI)) in Hj. eauto.
Qed.

Lemma unfinished_flag : done_batch J = false -> flag_unscheduled J = 1.
Proof.
  intros Hd. destruct (unfinished_job Hd) as (j & Hj & Hf).
  pose proof (iv_shape HI) as Hsh. destruct (iv_total HI) as [_ Hn].
  pose proof (unfinished_step nj nm n J HI j Hj Hf) as Hlt.
  pose proof (iv_step HI Hj) as Hst.
  assert (Hin : in_job J j (step_of J j)) by (unfold in_job; lia).
  destruct (in_job_bound nj nm n J HI j _ Hj Hin) as [Ho1 Ho2].
  set (ref := tab n (fun o => if o <? nums_opes J then 1%Q else 0%Q)).
  assert (Href : length (filter (fun s => Qeq_bool s 1) ref) = nums_opes J).
  { apply count_ones.
    - unfold ref. now rewrite length_tab.
    - intros o Ho. unfold ref. rewrite qnth_tab by lia.
      destruct (Nat.ltb_spec o (nums_opes J)); [reflexivity|lia].
    - intros o Ho. destruct (Nat.lt_ge_cases o n) as [Hon|Hon].
      + unfold ref. rewrite qnth_tab by lia.
        destruct (Nat.ltb_spec o (nums_opes J)); [lia|reflexivity].
      + apply qnth_default. unfold ref. now rewrite length_tab. }
  assert (Hcnt : length (filter (fun s => Qeq_bool s 1) (sched_status J)) < nums_opes J).
  { rewrite <- Href.
    apply (count_lt (fun s => Qeq_bool s 1) ref (sched_status J) (step_of J j)).
    - unfold ref. now rewrite length_tab, (sh_s0 Hsh).
    - unfold ref. rewrite length_tab. intros m Hm Hp. rewrite qnth_tab by lia.
      destruct (Nat.ltb_spec m (nums_opes J)); [reflexivity|].
      rewrite (iv_sched_status HI), (@iv_padding _ _ _ _ HI m) in Hp by lia. discriminate.
    - unfold ref. now rewrite length_tab.
    - unfold ref. rewrite qnth_tab by lia.
      destruct (Nat.ltb_spec (step_of J j) (nums_opes J)); [reflexivity|lia].
    - rewrite (iv_sched_status HI).
      now rewrite (proj2 (iv_status HI Hj Hin) (Nat.le_refl _)). }
  unfold flag_unscheduled.
  destruct (Nat.eqb_spec (length (filter (fun s => Qeq_bool s 1) (sched_status J)))
                         (nums_opes J)); [lia|reflexivity].
Qed.

End Ends.

(** X8: in a run of legal decisions [makespan_batch] is never below the
    end of an operation with status 1 in the schedule, and for a slot that
    is done it is the end of one of its operations. *)
Theorem makespan_is_latest_end (inp : CaseInput) (e : Env) (b : nat) (J : Inst) :
  wf_input inp -> legal_run (init inp) e -> nth_error (insts e) b = Some J ->
  (forall o, qnth o (sched_status J) = 1%Q ->
     (qnth o (sched_end J) <= makespan_batch J)%Q) /\
  (done_batch J = true -> 0 < nums_opes J ->
   exists o, o < nums_opes J /\ qnth o (sched_status J) = 1%Q /\
             qnth o (sched_end J) = makespan_batch J).
Proof.
  intros Hwf Hrun HJ.
  assert (Hr : legal_reachable inp e)
    by (apply (legal_run_reachable inp (init inp) e); [apply lr_init|exact Hrun]).
  destruct (legal_reachable_Inv inp e Hwf Hr) as [_ HI]. specialize (HI b J HJ).
  pose proof Hwf as (Dj & Dm & _).
  destruct (reachable_mirrors inp e b J Dj Dm (legal_run_is_reachable inp e Hrun) HJ)
    as (_ & _ & _ & H4 & H5).
  pose proof (iv_shape HI) as Hsh.
  split.
  - intros o Hs. destruct (status_one_below_pointer _ _ _ J HI o Hs) as (j & Hj & Hin & Hlt).
    destruct (in_job_bound _ _ _ J HI j o Hj Hin) as [_ Hon].
    rewrite (sched_end_is_end _ _ _ J HI o Hon), H5.
    apply (scheduled_end_le _ _ _ J HI j o Hj Hin Hlt).
  - intros Hd Hpos.
    destruct (in_job_cover _ _ _ J HI 0 Hpos) as (j0 & Hj0 & Hin0).
    assert (Hne : feat_ope_end J <> []).
    { intros E. pose proof (sh_f4 Hsh) as Hl. rewrite E in Hl. simpl in Hl.
      destruct (iv_total HI). lia. }
    pose proof (list_max_in (feat_ope_end J) Hne) as Hmax.
    apply (In_nth _ _ 0%Q) in Hmax. destruct Hmax as (o0 & Ho0 & Hv).
    rewrite (sh_f4 Hsh) in Ho0. fold (qnth o0 (feat_ope_end J)) in Hv.
    rewrite H4 in Hv at 1.
    rewrite nth_gatherq in Hv by (rewrite (sh_appertain Hsh); exact Ho0).
    set (j := nth o0 (opes_appertain_batch J) 0) in *.
    destruct (Nat.lt_ge_cases j (para_num_jobs inp)) as [Hj|Hj].
    + pose proof (end_index _ _ _ J HI j Hj) as Hend.
      pose proof (iv_nums HI Hj) as Hnum.
      set (x := nth j (end_ope_biases_batch J) 0) in *.
      assert (Hin : in_job J j x) by (unfold in_job; lia).
      destruct (in_job_bound _ _ _ J HI j x Hj Hin) as [Hx1 Hx2].
      pose proof (all_finished _ _ _ J HI Hd j Hj) as Hfin.
      exists x. split; [exact Hx1|]. split.
      * rewrite (iv_sched_status HI). apply (iv_status HI Hj Hin). lia.
      * rewrite (sched_end_is_end _ _ _ J HI x Hx2), H5, <- Hv.
        unfold job_ends_of. rewrite nth_gatherq by (rewrite (sh_ends Hsh); exact Hj).
        fold x. unfold end_of, qnth.
        now rewrite (nth_zipw Qplus _ _ 0%Q 0%Q 0%Q)
          by (rewrite ?(sh_f5 Hsh), ?(sh_f2 Hsh); auto).
    + exfalso. rewrite qnth_default in Hv
        by (unfold job_ends_of; rewrite length_gatherq, (sh_ends Hsh); exact Hj).
      pose proof (all_finished _ _ _ J HI Hd j0 Hj0) as Hfin.
      pose proof (iv_nums HI Hj0) as Hnum.
      set (x := step_of J j0 - 1).
      assert (Hin : in_job J j0 x) by (unfold in_job, x; lia).
      assert (Hb : bias_of J j0 < step_of J j0) by lia.
      pose proof (iv_bound HI Hj0 Hb) as Hbd. fold x in Hbd.
      destruct (iv_dur HI Hj0 Hin ltac:(unfold x; lia)) as (_ & _ & _ & Hp).
      pose proof (iv_start HI x). unfold end_of in Hbd. rewrite <- Hv in Hbd. lra.
Qed.

Lemma list_sum_map_ge (A : Type) (f : A -> nat) l x : In x l -> f x <= list_sum (map f l).
Proof.
  induction l as [|a l IH]; simpl; intros H; [contradiction|].
  destruct H as [->|H]; [lia|]. specialize (IH H). lia.
Qed.

(** X9: in a run of legal decisions [validate_gantt] returns [False]
    as long as some slot is not done: a slot with an unfinished job has
    fewer operations of status 1 than [nums_opes] and adds 1 to the count
    of unscheduled operations. *)
Theorem validate_gantt_rejects_unfinished (inp : CaseInput) (e : Env) (b : nat) (J : Inst) :
  wf_input inp -> legal_run (init inp) e ->
  nth_error (insts e) b = Some J -> done_batch J = false ->
  flag_unscheduled J = 1 /\ fst (validate_gantt e) = false.
Proof.
  intros Hwf Hrun HJ Hd.
  assert (Hr : legal_reachable inp e)
    by (apply (legal_run_reachable inp (init inp) e); [apply lr_init|exact Hrun]).
  destruct (legal_reachable_Inv inp e Hwf Hr) as [(Dj & Dm & _) HI].
  pose proof (unfinished_flag _ _ _ J (HI b J HJ) Hd) as Hu.
  split; [exact Hu|].
  unfold validate_gantt. cbn [fst]. apply Nat.eqb_neq.
  pose proof (list_sum_map_ge Inst (inst_flags (num_jobs e) (num_mas e)) (insts e) J
                (nth_error_In _ _ HJ)) as Hge.
  unfold inst_flags in Hge at 1. lia.
Qed.

(* ------------------------------------------------------------------ *)
(** ** The scheduling loop of test.py and train.py *)

Lemma action_of_nth idxes : forall acts k d,
  NoDup idxes -> length acts = length idxes -> k < length idxes ->
  action_of idxes acts (nth k idxes 0) = Some (nth k acts d).
Proof.
  induction idxes as [|i idxes IH]; intros [|a acts] k d Hnd Hl Hk; simpl in *;
    try lia; try discriminate.
  inversion Hnd as [|x l Hni Hnd']; subst.
  destruct k as [|k].
  - now rewrite Nat.eqb_refl.
  - destruct (Nat.eqb_spec i (nth k idxes 0)) as [E|E].
    + exfalso. apply Hni. rewrite E. apply nth_In. lia.
    + apply IH; auto; lia.
Qed.

(** A batch of legal decisions passes the index checks of [step]. *)
Lemma legal_step_core_ok inp e acts :
  wf_input inp -> legal_reachable inp e -> legal_acts e acts ->
  exists e1 rw, step_core e acts = Ok (e1, rw).
Proof.
  intros Hwf Hr [Hlen Hleg].
  destruct (legal_reachable_Inv inp e Hwf Hr) as [(Dj & Dm & Dn) HI].
  destruct (legal_reachable_active inp e Hwf Hr) as (A1 & _ & _).
  assert (Hnd : NoDup (batch_idxes e)).
  { rewrite A1. apply NoDup_filter, seq_NoDup. }
  unfold step_core.
  assert (Hchk : forallb (in_range e) acts = true).
  { apply forallb_forall. intros a Ha.
    apply (@In_nth Action acts a (0, 0, 0)) in Ha. destruct Ha as (k & Hk & <-).
    rewrite Hlen in Hk.
    pose proof (action_of_nth (batch_idxes e) acts k (0, 0, 0) Hnd Hlen Hk) as Hact.
    destruct (Hleg _ _ Hact) as (J & HJ & HL).
    destruct (nth k acts (0, 0, 0)) as [[ope ma] job].
    rewrite Dj, Dm in HL.
    pose proof (la_ope_lt _ _ _ J (HI _ J HJ) ope ma job HL) as Ho.
    destruct HL as (Hj & Hm & _).
    unfold in_range. rewrite Dj, Dm, Dn.
    apply Nat.ltb_lt in Ho, Hj, Hm. now rewrite Ho, Hj, Hm. }
  rewrite Hchk, Hlen, Nat.eqb_refl. cbn [andb]. eauto.
Qed.

(** [step] returns for a batch of legal decisions in a legal run. *)
Lemma legal_step_ok inp fuel e acts :
  wf_input inp -> legal_reachable inp e -> legal_acts e acts ->
  para_num_mas inp <= fuel ->
  exists e' rw, step fuel e acts = Ok (e', rw, map (@done_batch) (insts e')).
Proof.
  intros Hwf Hr Hl Hfuel.
  destruct (legal_step_core_ok inp e acts Hwf Hr Hl) as (e1 & rw & Hc).
  assert (Hr1 : legal_reachable inp e1) by (eapply lr_core; eauto).
  destruct (legal_reachable_Inv inp e1 Hwf Hr1) as [_ HI1].
  destruct (advance_terminates inp Hwf fuel e1 Hr1) as [e2 Ha].
  - intros b J HJ _. pose proof (count_busy_le _ _ _ J (HI1 b J HJ)). lia.
  - exists (finish_step e2), rw. unfold step. rewrite Hc, Ha. reflexivity.
Qed.

(** Every call of [step] adds one to the counter of every slot. *)
Lemma step_counts fuel e acts e' rw dn b J' :
  step fuel e acts = Ok (e', rw, dn) -> nth_error (insts e') b = Some J' ->
  exists J, nth_error (insts e) b = Some J /\ N J' = S (N J).
Proof.
  intros Hs HJ'.
  destruct (@step_inv fuel e acts e' rw dn Hs) as (e1 & e2 & Hc & Ha & -> & _).
  cbn [finish_step insts] in HJ'.
  pose proof (@step_core_dims e acts e1 rw Hc) as (_&_&_&_&_&_&_&_&L1).
  pose proof (@advance_dims fuel e1 e2 Ha) as (_&_&_&_&_&_&_&_&L2).
  destruct (nth_error (insts e) b) as [J|] eqn:HJ.
  - exists J. split; [reflexivity|].
    destruct (@step_core_slot e acts e1 rw b Hc) as [Hb _]. rewrite HJ in Hb.
    cbn [option_map] in Hb.
    destruct (advance_slotwise (fun J1 J2 => N J2 = N J1)) with (fuel := fuel) (e := e1)
      (e' := e2) (b := b)
      (J := fst (step_inst (num_opes e) (num_mas e) (action_of (batch_idxes e) acts b) J))
      as (J2 & HJ2 & HN); auto.
    + intros; congruence.
    + rewrite HJ' in HJ2. inversion HJ2; subst J2. rewrite HN.
      destruct (action_of (batch_idxes e) acts b) as [[[ope ma] job]|]; reflexivity.
  - apply nth_error_None in HJ. apply nth_error_Some_lt in HJ'. lia.
Qed.

(** A slot of a legal run is done exactly when the counter has reached
    its number of operations. *)
Lemma done_iff_counter inp e b J :
  wf_input inp -> legal_reachable inp e -> nth_error (insts e) b = Some J ->
  (done_batch J = true <-> nums_opes J <= N J).
Proof.
  intros Hwf Hr HJ.
  destruct (legal_reachable_Inv inp e Hwf Hr) as [_ HI].
  destruct (legal_reachable_active inp e Hwf Hr) as (_ & _ & A3).
  destruct (A3 b J HJ) as [C1 _].
  rewrite (done_iff_full _ _ _ J (HI b J HJ)). lia.
Qed.

Lemma max_opes_le e i :
  max_opes e <= i <-> forall b J, nth_error (insts e) b = Some J -> nums_opes J <= i.
Proof.
  unfold max_opes. induction (insts e) as [|x l IH]; simpl.
  - split; [intros _ [|b] J H; discriminate|lia].
  - split.
    + intros H [|b] J HJ; simpl in HJ.
      * inversion HJ; subst. lia.
      * apply (proj1 IH ltac:(lia) b J HJ).
    + intros H. pose proof (H 0 x eq_refl).
      assert (fold_right Nat.max 0 (map (@nums_opes) l) <= i); [|lia].
      apply IH. intros b J HJ. apply (H (S b) J HJ).
Qed.

Lemma max_opes_static inp e : reachable inp e -> max_opes e = max_opes (init inp).
Proof.
  intros Hr. pose proof (@reachable_stable inp e Hr) as (_ & _ & _ & _ & _ & _ & Hs).
  unfold max_opes. f_equal.
  assert (G : forall l1 l2 : list Inst, map static_of l1 = map static_of l2 ->
                map (@nums_opes) l1 = map (@nums_opes) l2).
  { induction l1 as [|a l1 IH]; intros [|c l2] H; simpl in *; try discriminate; auto.
    injection H as E1 E2 E3 E4 E5 E6 E7 Hl. f_equal; auto. }
  now apply G.
Qed.

Lemma all_done_slots e :
  forallb (fun d : bool => d) (map (@done_batch) (insts e)) = true <->
  forall b J, nth_error (insts e) b = Some J -> done_batch J = true.
Proof.
  rewrite forallb_forall. split.
  - intros H b J HJ. apply H. apply in_map. eapply nth_error_In; eauto.
  - intros H x Hx. apply in_map_iff in Hx. destruct Hx as (J & <- & HJ).
    apply In_nth_error in HJ. destruct HJ as [b Hb]. eauto.
Qed.

Section Schedule.
Variable inp : CaseInput.
Variable policy : nat -> EnvState -> list Action.
Variable fuel : nat.
Hypothesis Hwf : wf_input inp.
Hypothesis Hfuel : para_num_mas inp <= fuel.
Hypothesis Hpol : forall i e,
  policy_run policy fuel (init inp) i e -> legal_acts e (policy i (state e)).

(** At the head of the loop after [i] rounds: the run is legal, every
    counter is [i], and some instance has more than [i] operations unless
    no round has been made. *)
Lemma policy_run_inv i e :
  policy_run policy fuel (init inp) i e ->
  legal_run (init inp) e /\
  (forall b J, nth_error (insts e) b = Some J -> N J = i) /\
  i < Nat.max 1 (max_opes (init inp)).
Proof.
  induction 1 as [|i e e' rw dn Hrun IH Hs Hnd].
  - split; [apply run_here|]. split; [|lia].
    intros b J HJ. destruct (@init_slot inp b J HJ) as (ld & _ & ->). reflexivity.
  - destruct IH as (Hlr & HN & Hi).
    pose proof (Hpol i e Hrun) as Hl.
    assert (Hlr' : legal_run (init inp) e') by (eapply run_step; eauto).
    assert (HN' : forall b J, nth_error (insts e') b = Some J -> N J = S i).
    { intros b J' HJ'.
      destruct (step_counts fuel e (policy i (state e)) e' rw dn b J' Hs HJ')
        as (J & HJ & ->). now rewrite (HN b J HJ). }
    split; [exact Hlr'|]. split; [exact HN'|].
    destruct (Nat.lt_ge_cases (S i) (Nat.max 1 (max_opes (init inp)))) as [|Hge]; auto.
    exfalso.
    assert (Hr' : legal_reachable inp e')
      by (apply (legal_run_reachable inp (init inp) e'); [apply lr_init|exact Hlr']).
    destruct (@step_inv fuel e (policy i (state e)) e' rw dn Hs) as (_ & _ & _ & _ & _ & Hd).
    assert (Hall : forallb (fun d : bool => d) dn = true).
    { rewrite Hd. apply all_done_slots. intros b J HJ.
      apply (done_iff_counter inp e' b J Hwf Hr' HJ). rewrite (HN' b J HJ).
      rewrite <- (max_opes_static inp e' (legal_run_is_reachable inp e' Hlr')) in Hge.
      apply (proj1 (max_opes_le e' (S i)) ltac:(lia) b J HJ). }
    congruence.
Qed.

Lemma schedule_loop_ends : forall k i e,
  policy_run policy fuel (init inp) i e ->
  Nat.max 1 (max_opes (init inp)) <= i + k ->
  exists e', schedule_loop policy fuel k i e = Ok (e', Nat.max 1 (max_opes (init inp))) /\
             legal_run (init inp) e' /\
             (forall b J, nth_error (insts e') b = Some J -> done_batch J = true).
Proof.
  induction k as [|k IH]; intros i e Hrun Hk.
  - destruct (policy_run_inv i e Hrun) as (_ & _ & Hi). lia.
  - destruct (policy_run_inv i e Hrun) as (Hlr & HN & Hi).
    pose proof (Hpol i e Hrun) as Hl.
    assert (Hr : legal_reachable inp e)
      by (apply (legal_run_reachable inp (init inp) e); [apply lr_init|exact Hlr]).
    destruct (legal_step_ok inp fuel e (policy i (state e)) Hwf Hr Hl Hfuel)
      as (e' & rw & Hs).
    assert (Hlr' : legal_run (init inp) e') by (eapply run_step; eauto).
    cbn [schedule_loop]. rewrite Hs.
    destruct (forallb (fun d : bool => d) (map (@done_batch) (insts e'))) eqn:Hd.
    + exists e'. split; [|split; [exact Hlr'|now apply all_done_slots]].
      f_equal. f_equal.
      assert (Hr' : legal_reachable inp e')
        by (apply (legal_run_reachable inp (init inp) e'); [apply lr_init|exact Hlr']).
      assert (Hle : max_opes e' <= S i).
      { apply max_opes_le. intros b J' HJ'.
        destruct (step_counts fuel e (policy i (state e)) e' rw _ b J' Hs HJ')
          as (J & HJ & HNJ).
        pose proof (proj1 (all_done_slots e') Hd b J' HJ') as Hdj.
        apply (done_iff_counter inp e' b J' Hwf Hr' HJ') in Hdj.
        rewrite (HN b J HJ) in HNJ. lia. }
      rewrite (max_opes_static inp e' (legal_run_is_reachable inp e' Hlr')) in Hle. lia.
    + apply IH; [|lia]. eapply pr_round; eauto.
Qed.

End Schedule.

(** X10: [schedule] of test.py (and the same loop of train.py), for a
    well-formed batch whose processing times float32 adds exactly.  If the
    decisions of the policy are legal in every state in which the loop asks
    for them, the loop ends after as many rounds as the largest instance
    has operations (one round for an empty batch), every instance is done,
    [validate_gantt] returns [True], so the error line is not printed, and
    the makespans of the final environment are returned.  [exact_times] is
    the condition under which the float32 sums of the source are the sums
    of this model. *)
Theorem schedule_completes (inp : CaseInput) (policy : nat -> EnvState -> list Action)
    (fuel rounds : nat) :
  wf_input inp -> exact_times inp -> para_num_mas inp <= fuel ->
  Nat.max 1 (max_opes (init inp)) <= rounds ->
  (forall i e, policy_run policy fuel (init inp) i e -> legal_acts e (policy i (state e))) ->
  exists e',
    schedule_loop policy fuel rounds 0 (init inp) =
      Ok (e', Nat.max 1 (max_opes (init inp))) /\
    legal_run (init inp) e' /\
    (forall b J, nth_error (insts e') b = Some J -> done_batch J = true) /\
    schedule policy fuel rounds (init inp) = Ok (true, map (@makespan_batch) (insts e')).
Proof.
  intros Hwf _ Hfuel Hrounds Hpol.
  destruct (schedule_loop_ends inp policy fuel Hwf Hfuel Hpol rounds 0 (init inp))
    as (e' & Hloop & Hlr & Hdone); [apply pr_start|lia|].
  exists e'. split; [exact Hloop|]. split; [exact Hlr|]. split; [exact Hdone|].
  unfold schedule. rewrite Hloop. f_equal. f_equal.
  assert (Hr : legal_reachable inp e')
    by (apply (legal_run_reachable inp (init inp) e'); [apply lr_init|exact Hlr]).
  destruct (legal_reachable_Inv inp e' Hwf Hr) as [(Dj & Dm & _) HI].
  unfold validate_gantt. cbn [fst]. apply Nat.eqb_eq.
  apply list_sum_map_zero. intros J' HJ'. apply In_nth_error in HJ'.
  destruct HJ' as [b' Hb']. rewrite Dj, Dm.
  apply (inst_flags_zero _ _ _ J' (HI b' J' Hb')). eapply Hdone; eauto.
Qed.

(* ------------------------------------------------------------------ *)
(** ** The partial schedule, the machines and the pointers in legal runs *)

(** X11: in every state of a run of legal decisions two operations with
    status 1 on one machine do not overlap, an operation with status 1
    ends no later than the next operation of its job starts if that has
    status 1, and an operation with status 1 has a machine of the instance,
    a start that is not negative and an end that is not before its start.
    When float32 adds the processing times exactly, the time between its
    start and its end is its positive processing time on its machine. *)
Theorem partial_schedule_feasible (inp : CaseInput) (e : Env) (b : nat) (J : Inst) :
  wf_input inp -> legal_run (init inp) e -> nth_error (insts e) b = Some J ->
  (forall o1 o2, qnth o1 (sched_status J) = 1%Q -> qnth o2 (sched_status J) = 1%Q ->
     o1 <> o2 -> nth o1 (sched_ma J) 0 = nth o2 (sched_ma J) 0 ->
     (qnth o1 (sched_end J) <= qnth o2 (sched_start J))%Q \/
     (qnth o2 (sched_end J) <= qnth o1 (sched_start J))%Q) /\
  (forall o, qnth o (sched_status J) = 1%Q -> qnth (o + 1) (sched_status J) = 1%Q ->
     nth o (opes_appertain_batch J) 0 = nth (o + 1) (opes_appertain_batch J) 0 ->
     (qnth o (sched_end J) <= qnth (o + 1)%nat (sched_start J))%Q) /\
  (forall o, qnth o (sched_status J) = 1%Q ->
     nth o (sched_ma J) 0 < num_mas e /\
     (0 <= qnth o (sched_start J))%Q /\
     (qnth o (sched_start J) <= qnth o (sched_end J))%Q /\
     (exact_times inp ->
      (qnth o (sched_end J) - qnth o (sched_start J) ==
       qnth2 o (nth o (sched_ma J) 0%nat) (proc_times_batch J))%Q /\
      (qnth o (sched_start J) < qnth o (sched_end J))%Q)).
Proof.
  intros Hwf Hrun HJ.
  assert (Hr : legal_reachable inp e)
    by (apply (legal_run_reachable inp (init inp) e); [apply lr_init|exact Hrun]).
  destruct (legal_reachable_Inv inp e Hwf Hr) as [(Dj & Dm & Dn) HI]. specialize (HI b J HJ).
  rewrite Dm. split; [|split].
  - intros o1 o2 H1 H2 Hne Hma.
    destruct (status_one_below_pointer _ _ _ J HI o1 H1) as (j1 & Hj1 & Hin1 & Hlt1).
    destruct (status_one_below_pointer _ _ _ J HI o2 H2) as (j2 & Hj2 & Hin2 & Hlt2).
    destruct (in_job_bound _ _ _ J HI j1 o1 Hj1 Hin1) as [_ Hn1].
    destruct (in_job_bound _ _ _ J HI j2 o2 Hj2 Hin2) as [_ Hn2].
    rewrite !(sched_end_is_end _ _ _ J HI) by assumption.
    rewrite (iv_sched_start HI).
    apply (iv_disjoint HI Hj1 Hin1 Hlt1 Hj2 Hin2 Hlt2 Hne Hma).
  - intros o H1 H2 Happ.
    destruct (status_one_below_pointer _ _ _ J HI o H1) as (j1 & Hj1 & Hin1 & Hlt1).
    destruct (status_one_below_pointer _ _ _ J HI (o + 1) H2) as (j2 & Hj2 & Hin2 & Hlt2).
    rewrite (iv_appertain HI Hj1 Hin1), (iv_appertain HI Hj2 Hin2) in Happ. subst j2.
    destruct (in_job_bound _ _ _ J HI j1 o Hj1 Hin1) as [_ Hn1].
    rewrite (sched_end_is_end _ _ _ J HI o Hn1), (iv_sched_start HI).
    apply (iv_order HI Hj1 Hin1 Hlt2).
  - intros o H1.
    destruct (status_one_below_pointer _ _ _ J HI o H1) as (j1 & Hj1 & Hin1 & Hlt1).
    destruct (in_job_bound _ _ _ J HI j1 o Hj1 Hin1) as [_ Hn1].
    destruct (iv_dur HI Hj1 Hin1 Hlt1) as (Hm & _ & Hd & Hp).
    pose proof (iv_start HI o) as Hs.
    rewrite (sched_end_is_end _ _ _ J HI o Hn1), (iv_sched_start HI).
    unfold end_of. repeat split; auto; lra.
Qed.

(** X12: in every state of a run of legal decisions a machine is either
    idle (idle flag 1, not in [mask_ma_procing_batch]) or busy (idle flag
    0, in [mask_ma_procing_batch]) with the job recorded for it in process;
    and every job in process has a busy machine recorded for it.  When
    float32 adds the processing times exactly, the available time of an
    idle machine is not after the clock and that of a busy machine is
    after the clock. *)
Theorem machine_bookkeeping (inp : CaseInput) (e : Env) (b : nat) (J : Inst) :
  wf_input inp -> legal_run (init inp) e -> nth_error (insts e) b = Some J ->
  (forall m, m < num_mas e ->
     ((qnth m (mach_idle J) = 1%Q /\ nth m (mask_ma_procing_batch J) false = false) \/
      (qnth m (mach_idle J) = 0%Q /\ nth m (mask_ma_procing_batch J) false = true /\
       nth m (mach_job J) 0 < num_jobs e /\
       nth (nth m (mach_job J) 0) (mask_job_procing_batch J) false = true)) /\
     (exact_times inp ->
      (qnth m (mach_idle J) = 1%Q -> (qnth m (mach_avail J) <= time J)%Q) /\
      (qnth m (mach_idle J) = 0%Q -> (time J < qnth m (mach_avail J))%Q))) /\
  (forall j, j < num_jobs e -> nth j (mask_job_procing_batch J) false = true ->
     exists m, m < num_mas e /\ qnth m (mach_idle J) = 0%Q /\ nth m (mach_job J) 0 = j).
Proof.
  intros Hwf Hrun HJ.
  assert (Hr : legal_reachable inp e)
    by (apply (legal_run_reachable inp (init inp) e); [apply lr_init|exact Hrun]).
  destruct (legal_reachable_Inv inp e Hwf Hr) as [(Dj & Dm & Dn) HI]. specialize (HI b J HJ).
  rewrite Dj, Dm. split.
  - intros m Hm.
    destruct (iv_mach HI Hm) as [(H1 & H2 & H3)|(H1 & H2 & H3 & H4 & H5 & _)].
    + split; [left; split; assumption|].
      intros _. split; [intros _; exact H3|]. intros H0. rewrite H0 in H1. discriminate.
    + split; [right; repeat split; assumption|].
      intros _. split; [|intros _; exact H3]. intros H0. rewrite H0 in H1. discriminate.
  - intros j Hj Hp. apply (iv_procing HI Hj Hp).
Qed.

(** X13: in every state of a run of legal decisions the pointer of a job
    lies between its first operation and one past its last; the job is in
    [mask_job_finish_batch] exactly when the pointer is past its last
    operation; and the status feature of an operation of the job is 1
    before the pointer and 0 from the pointer on. *)
Theorem job_pointers (inp : CaseInput) (e : Env) (b : nat) (J : Inst) (j : nat) :
  wf_input inp -> legal_run (init inp) e -> nth_error (insts e) b = Some J ->
  j < num_jobs e ->
  bias_of J j <= step_of J j <= bias_of J j + nums_of J j /\
  (nth j (mask_job_finish_batch J) false = true <->
   step_of J j = nth j (end_ope_biases_batch J) 0 + 1) /\
  (forall o, in_job J j o ->
     (o < step_of J j -> qnth o (feat_ope_status J) = 1%Q) /\
     (step_of J j <= o -> qnth o (feat_ope_status J) = 0%Q)).
Proof.
  intros Hwf Hrun HJ Hj.
  assert (Hr : legal_reachable inp e)
    by (apply (legal_run_reachable inp (init inp) e); [apply lr_init|exact Hrun]).
  destruct (legal_reachable_Inv inp e Hwf Hr) as [(Dj & Dm & Dn) HI]. specialize (HI b J HJ).
  rewrite Dj in Hj. split; [|split].
  - apply (iv_step HI Hj).
  - rewrite (end_index _ _ _ J HI j Hj). apply (iv_finish HI Hj).
  - intros o Hin. apply (iv_status HI Hj Hin).
Qed.

(* ------------------------------------------------------------------ *)
(** ** The utilization feature *)

Lemma util_range eps u t :
  (0 < eps)%Q -> (0 <= u)%Q -> (0 <= t)%Q ->
  (0 <= qminb u t / (t + eps))%Q /\ (qminb u t / (t + eps) < 1)%Q.
Proof.
  intros He Hu Ht.
  assert (Hx : (0 <= qminb u t)%Q /\ (qminb u t <= t)%Q).
  { unfold qminb. destruct (Qle_bool u t) eqn:E.
    - apply Qle_bool_iff in E. split; lra.
    - split; lra. }
  destruct Hx as [Hx1 Hx2]. split.
  - apply Qle_shift_div_l; lra.
  - apply Qlt_shift_div_r; lra.
Qed.

Lemma utilization_range eps busy t m :
  (0 < eps)%Q -> (forall k, (0 <= qnth k busy)%Q) -> (0 <= t)%Q ->
  (0 <= qnth m (utilization eps busy t))%Q /\ (qnth m (utilization eps busy t) < 1)%Q.
Proof.
  intros He Hb Ht. unfold utilization, qnth.
  destruct (Nat.lt_ge_cases m (length busy)) as [Hm|Hm].
  - rewrite (nth_indep _ 0%Q ((fun u => (qminb u t / (t + eps))%Q) 0%Q))
      by (rewrite length_map; exact Hm).
    rewrite (map_nth (fun u => (qminb u t / (t + eps))%Q)).
    apply util_range; auto. apply (Hb m).
  - rewrite nth_overflow by (rewrite length_map; exact Hm). split; lra.
Qed.

Lemma legal_run_util inp e b J :
  wf_input inp -> legal_reachable inp e -> nth_error (insts e) b = Some J -> util_ok J.
Proof.
  intros Hwf Hr HJ. revert e Hr b J HJ.
  apply (legal_reachable_slots inp util_ok Hwf).
  - intros b J HJ. destruct (@init_slot inp b J HJ) as (ld & _ & ->).
    unfold util_ok, init_inst; cbn [mach_util feat_ma_util].
    assert (G : forall k m, qnth m (tab k (fun _ => 0%Q)) = 0%Q).
    { intros k m. destruct (Nat.lt_ge_cases m k).
      - now rewrite qnth_tab.
      - apply qnth_default. now rewrite length_tab. }
    split; intros m; rewrite G; [lra|split; lra].
  - intros J [[ope ma] job] HI HL [H1 H2].
    pose proof (la_proc_pos _ _ _ J HI ope ma job HL) as Hp.
    assert (Hb : forall k, (0 <= qnth k (new_busy (para_num_mas inp) ope ma J))%Q).
    { intros k. unfold new_busy, qnth. rewrite nth_upd.
      destruct ((ma =? k) && (ma <? length (mach_util J))).
      - pose proof (H1 ma). unfold qnth in *. lra.
      - apply (H1 k). }
    unfold util_ok, step_inst, step_active; cbn [mach_util feat_ma_util fst]. split; [exact Hb|].
    intros m. apply utilization_range; auto; [reflexivity|apply (iv_time HI)].
  - intros J HI [H1 H2]. unfold util_ok, step_inst, step_idle; cbn [mach_util feat_ma_util fst].
    split; assumption.
  - intros g J HI Hg [H1 H2].
    pose proof (iv_time (Inv_next_time _ _ _ J HI g Hg)) as Ht.
    unfold util_ok, next_time_inst; cbn [mach_util feat_ma_util]. split; [exact H1|].
    intros m. apply utilization_range; auto. reflexivity.
Qed.

(** X14: in every state of a run of legal decisions the busy time of
    every machine is not negative and its utilization feature lies
    between 0 and 1. *)
Theorem utilization_in_unit_interval (inp : CaseInput) (e : Env) (b : nat) (J : Inst)
    (m : nat) :
  wf_input inp -> legal_run (init inp) e -> nth_error (insts e) b = Some J ->
  (0 <= qnth m (mach_util J))%Q /\
  (0 <= qnth m (feat_ma_util J))%Q /\ (qnth m (feat_ma_util J) <= 1)%Q.
Proof.
  intros Hwf Hrun HJ.
  assert (Hr : legal_reachable inp e)
    by (apply (legal_run_reachable inp (init inp) e); [apply lr_init|exact Hrun]).
  destruct (legal_run_util inp e b J Hwf Hr HJ) as [H1 H2].
  destruct (H2 m) as [H3 H4].
  split; [apply H1|]. split; [exact H3|]. apply Qlt_le_weak. exact H4.
Qed.

(* ------------------------------------------------------------------ *)
(** ** The features that count *)

Lemma qnth_map_nat (f : nat -> Q) l o :
  o < length l -> qnth o (map f l) = f (nth o l 0).
Proof.
  intros Ho. unfold qnth.
  rewrite (nth_indep _ 0%Q (f 0)) by (rewrite length_map; exact Ho).
  apply (map_nth f).
Qed.

Lemma qnth_dec_range l s e o :
  o < length l ->
  qnth o (dec_range l s e) = if (s <=? o) && (o <=? e) then (qnth o l - 1)%Q else qnth o l.
Proof.
  intros Ho. unfold dec_range, qnth.
  rewrite (nth_zipw _ _ _ 0%Q 0%Q 0) by (rewrite ?length_seq; exact Ho).
  now rewrite seq_nth by exact Ho.
Qed.

Lemma qnat_pred k : 0 < k -> (qnat k - 1 == qnat (k - 1))%Q.
Proof.
  intros Hk. unfold qnat. replace (Z.of_nat (k - 1)) with (Z.of_nat k + -1)%Z by lia.
  rewrite inject_Z_plus. reflexivity.
Qed.

Lemma legal_run_unsched inp e b J :
  wf_input inp -> legal_reachable inp e -> nth_error (insts e) b = Some J ->
  unsched_ok (para_num_jobs inp) J.
Proof.
  intros Hwf Hr HJ. revert e Hr b J HJ.
  apply (legal_reachable_slots inp (unsched_ok (para_num_jobs inp)) Hwf).
  - intros b J HJ j o Hj Hin.
    pose proof (proj2 (legal_reachable_Inv inp (init inp) Hwf (lr_init inp)) b J HJ) as HI.
    destruct (@init_slot inp b J HJ) as (ld & _ & E).
    assert (E3 : feat_ope_unsched J =
                 map (fun i => qnat (nth i (nums_ope_batch J) 0)) (opes_appertain_batch J))
      by (rewrite E; reflexivity).
    assert (Es : step_of J j = bias_of J j) by (rewrite E; reflexivity).
    destruct (in_job_bound _ _ _ J HI j o Hj Hin) as [_ Hon].
    rewrite E3, qnth_map_nat by (rewrite (sh_appertain (iv_shape HI)); exact Hon).
    rewrite (iv_appertain HI Hj Hin), Es. unfold nums_of.
    replace (bias_of J j + nth j (nums_ope_batch J) 0 - bias_of J j)
      with (nth j (nums_ope_batch J) 0) by lia.
    reflexivity.
  - intros J [[ope ma] job] HI HL IH j o Hj Hin.
    pose proof (Inv_step_active _ _ _ J HI ope ma job HL) as HI1.
    assert (Hin0 : in_job J j o) by exact Hin.
    destruct (in_job_bound _ _ _ J HI j o Hj Hin0) as [_ Hon].
    change (@Some Action (ope, ma, job)) with (@Some (nat * nat * nat) (ope, ma, job)).
    rewrite (step1_of _ _ _ J HI ope ma job HL j Hj).
    change (bias_of (fst (step_inst (det_num_opes inp) (para_num_mas inp)
                                    (Some (ope, ma, job)) J)) j) with (bias_of J j).
    change (nums_of (fst (step_inst (det_num_opes inp) (para_num_mas inp)
                                    (Some (ope, ma, job)) J)) j) with (nums_of J j).
    change (feat_ope_unsched (fst (step_inst (det_num_opes inp) (para_num_mas inp)
                                             (Some (ope, ma, job)) J)))
      with (dec_range (feat_ope_unsched J) (nth job (num_ope_biases_batch J) 0)
                      (nth job (end_ope_biases_batch J) 0)).
    rewrite qnth_dec_range by (rewrite (sh_f3 (iv_shape HI)); exact Hon).
    pose proof (la_in_job _ _ _ J HI ope ma job HL) as Hino.
    pose proof HL as (Hjob & _ & Hope & _).
    pose proof (end_index _ _ _ J HI job Hjob) as Hend.
    fold (bias_of J job).
    specialize (IH j o Hj Hin0).
    destruct (Nat.eqb_spec job j) as [->|Hne].
    + assert (Hr : (bias_of J j <=? o) && (o <=? nth j (end_ope_biases_batch J) 0) = true).
      { destruct Hin0. apply andb_true_intro. split; [apply Nat.leb_le|apply Nat.leb_le]; lia. }
      rewrite Hr, IH. destruct Hino as [_ Hlt]. subst ope.
      rewrite qnat_pred by lia.
      replace (bias_of J j + nums_of J j - step_of J j - 1)
        with (bias_of J j + nums_of J j - S (step_of J j)) by lia.
      reflexivity.
    + assert (Hr : (bias_of J job <=? o) && (o <=? nth job (end_ope_biases_batch J) 0) = false).
      { destruct ((bias_of J job <=? o) && (o <=? nth job (end_ope_biases_batch J) 0)) eqn:Er;
          [|reflexivity].
        exfalso. apply Hne. apply andb_prop in Er. destruct Er as [E1 E2].
        apply Nat.leb_le in E1, E2.
        apply (in_job_unique _ _ _ J HI job j o Hjob Hj); [unfold in_job; lia|exact Hin0]. }
      rewrite Hr. exact IH.
  - intros J HI IH. exact IH.
  - intros g J HI Hg IH. exact IH.
Qed.

(** X15: in every state of a run of legal decisions row 3 of
    [feat_opes_batch] holds, for every operation of a job, the number of
    operations of the job that are not scheduled yet: the number of
    operations of the job minus those before its pointer. *)
Theorem unscheduled_count_feature (inp : CaseInput) (e : Env) (b : nat) (J : Inst)
    (j o : nat) :
  wf_input inp -> legal_run (init inp) e -> nth_error (insts e) b = Some J ->
  j < num_jobs e -> in_job J j o ->
  (qnth o (feat_ope_unsched J) == qnat (nums_of J j - (step_of J j - bias_of J j)))%Q /\
  (0 <= qnth o (feat_ope_unsched J))%Q /\
  step_of J j - bias_of J j <= nums_of J j.
Proof.
  intros Hwf Hrun HJ Hj Hin.
  assert (Hr : legal_reachable inp e)
    by (apply (legal_run_reachable inp (init inp) e); [apply lr_init|exact Hrun]).
  destruct (legal_reachable_Inv inp e Hwf Hr) as [(Dj & Dm & Dn) HI]. specialize (HI b J HJ).
  rewrite Dj in Hj.
  pose proof (legal_run_unsched inp e b J Hwf Hr HJ j o Hj Hin) as Hu.
  pose proof (iv_step HI Hj) as Hs.
  replace (nums_of J j - (step_of J j - bias_of J j))
    with (bias_of J j + nums_of J j - step_of J j) by lia.
  split; [exact Hu|]. split; [|lia].
  rewrite Hu. apply qnat_nonneg.
Qed.

Lemma reachable_mas_mirrors inp e b J :
  det_num_jobs inp = para_num_jobs inp -> det_num_mas inp = para_num_mas inp ->
  reachable inp e -> nth_error (insts e) b = Some J -> mas_mirrors J.
Proof.
  intros Hj Hm Hr HJ. revert e Hr b J HJ.
  apply reachable_slots; [exact Hj|exact Hm| | |].
  - intros b J HJ. destruct (init_slot _ _ HJ) as (ld & _ & ->).
    unfold mas_mirrors, init_inst; cbn [feat_ma_nopes feat_ma_avail mach_avail ope_ma_adj_batch].
    rewrite length_tab, Hm. split; reflexivity.
  - intros oa J (H1 & H2) _. destruct oa as [[[ope ma] job]|].
    + unfold mas_mirrors, step_inst, step_active;
        cbn [feat_ma_nopes feat_ma_avail mach_avail ope_ma_adj_batch fst].
      rewrite length_count_opes, H2. split; reflexivity.
    + unfold mas_mirrors, step_inst, step_idle;
        cbn [feat_ma_nopes feat_ma_avail mach_avail ope_ma_adj_batch fst].
      split; assumption.
  - intros g f J (H1 & H2).
    unfold mas_mirrors, next_time_inst;
      cbn [feat_ma_nopes feat_ma_avail mach_avail ope_ma_adj_batch].
    split; assumption.
Qed.

(** X16: in every state that calls of [step], [next_time] and [reset] can
    produce, whatever the decisions, row 0 of [feat_mas_batch] counts, for
    every machine, the nonzero entries of its column of the current
    [ope_ma_adj_batch], and row 1 is the available time of
    [machines_batch]. *)
Theorem machine_features_mirror (inp : CaseInput) (e : Env) (b : nat) (J : Inst) :
  wf_shape inp -> reachable inp e -> nth_error (insts e) b = Some J ->
  feat_ma_nopes J = count_opes (ope_ma_adj_batch J) (num_mas e) /\
  feat_ma_avail J = mach_avail J /\
  forall m, m < num_mas e ->
    qnth m (feat_ma_nopes J) =
    qnat (count_nz (map (fun row => nth m row 0%Z) (ope_ma_adj_batch J))).
Proof.
  intros Hwf Hr HJ. pose proof Hwf as (Dj & Dm & _).
  destruct (reachable_mas_mirrors inp e b J Dj Dm Hr HJ) as [H1 H2].
  pose proof (@reachable_shape inp e b J Hwf Hr HJ) as Hsh.
  pose proof (@reachable_stable inp e Hr) as (_ & _ & Hnm & _).
  rewrite (sh_m0 Hsh) in H1. rewrite Hnm.
  split; [exact H1|]. split; [exact H2|].
  intros m Hm. rewrite H1. unfold count_opes. now rewrite qnth_tab.
Qed.

(* ------------------------------------------------------------------ *)
(** ** Whole processing times give whole times *)

Lemma is_whole_eq p q : (p == q)%Q -> is_whole q -> is_whole p.
Proof. intros E (z & Hz & Hq). exists z. split; [exact Hz|]. now rewrite E. Qed.

Lemma is_whole_zero : is_whole 0%Q.
Proof. exists 0%Z. split; [lia|reflexivity]. Qed.

Lemma is_whole_plus p q : is_whole p -> is_whole q -> is_whole (p + q)%Q.
Proof.
  intros (a & Ha & Hp) (b & Hb & Hq). exists (a + b)%Z. split; [lia|].
  rewrite inject_Z_plus, Hp, Hq. reflexivity.
Qed.

Lemma is_whole_masked p z : is_whole p -> z = 0%Z \/ z = 1%Z -> is_whole (p * inject_Z z)%Q.
Proof.
  intros Hp [->| ->].
  - apply (is_whole_eq _ 0%Q); [|apply is_whole_zero]. change (inject_Z 0) with 0%Q. ring.
  - apply (is_whole_eq _ p); [|exact Hp]. change (inject_Z 1) with 1%Q. ring.
Qed.

Lemma whole_is_whole q : whole q = true -> is_whole q.
Proof.
  unfold whole. intros H. apply andb_true_iff in H. destruct H as [Hd Hn].
  apply Pos.eqb_eq in Hd. apply Z.leb_le in Hn.
  exists (Qnum q). split; [exact Hn|].
  unfold Qeq, inject_Z. cbn [Qnum Qden]. rewrite Hd. reflexivity.
Qed.

Lemma whole_entries P o m :
  forallb (forallb whole) P = true -> is_whole (qnth2 o m P).
Proof.
  intros H. unfold qnth2.
  destruct (Nat.lt_ge_cases o (length P)) as [Ho|Ho].
  - destruct (Nat.lt_ge_cases m (length (nth o P []))) as [Hm|Hm].
    + apply whole_is_whole.
      rewrite forallb_forall in H. specialize (H (nth o P []) (nth_In _ _ Ho)).
      rewrite forallb_forall in H. apply H. now apply nth_In.
    + rewrite nth_overflow by exact Hm. apply is_whole_zero.
  - rewrite (nth_overflow P) by exact Ho. destruct m; apply is_whole_zero.
Qed.

Lemma whole_bounded c q b :
  is_whole q -> (q <= b)%Q -> (b < inject_Z c)%Q -> whole_below c q.
Proof.
  intros (z & Hz & Hq) H1 H2. exists z. split; [|exact Hq].
  split; [exact Hz|]. rewrite Zlt_Qlt. rewrite <- Hq. lra.
Qed.

(** Sums of rows. *)
Lemma qsum_le_pointwise : forall r r' : list Q,
  length r' = length r -> (forall m, (qnth m r' <= qnth m r)%Q) ->
  (qsum r' <= qsum r)%Q.
Proof.
  induction r as [|x r IH]; intros [|y r'] Hlen H;
    [apply Qle_refl|discriminate Hlen|discriminate Hlen|].
  cbn [qsum fold_right]. pose proof (H 0) as H0. unfold qnth in H0. cbn [nth] in H0.
  assert (G : (qsum r' <= qsum r)%Q).
  { apply IH; [now inversion Hlen|]. intros m. apply (H (S m)). }
  unfold qsum in G. lra.
Qed.

Lemma qsum_ge_entry (r : list Q) m :
  (forall k, (0 <= qnth k r)%Q) -> (qnth m r <= qsum r)%Q.
Proof.
  intros Hp.
  assert (Hall : forall y, In y r -> (0 <= y)%Q).
  { intros y Hy. destruct (In_nth r y 0%Q Hy) as (k & _ & <-). apply (Hp k). }
  destruct (Nat.lt_ge_cases m (length r)) as [Hm|Hm].
  - apply qsum_ge_term; [exact Hall|]. now apply nth_In_q.
  - rewrite qnth_default by exact Hm. now apply qsum_nonneg.
Qed.

Lemma qsum_snoc l x : (qsum (l ++ [x]) == qsum l + x)%Q.
Proof.
  induction l as [|y l IH]; cbn [app qsum fold_right].
  - ring.
  - unfold qsum in IH. rewrite IH. ring.
Qed.

Lemma qsum_tab_le n f g :
  (forall i, i < n -> (f i <= g i)%Q) -> (qsum (tab n f) <= qsum (tab n g))%Q.
Proof.
  induction n as [|n IH]; intros H.
  - apply Qle_refl.
  - rewrite !tab_succ, !qsum_snoc.
    pose proof (IH (fun i Hi => H i (Nat.lt_lt_succ_r _ _ Hi))).
    pose proof (H n (Nat.lt_succ_diag_r n)). lra.
Qed.

Lemma qsum_tab_without n f k : k < n ->
  (qsum (tab n (fun i => if i =? k then 0%Q else f i)) == qsum (tab n f) - f k)%Q.
Proof.
  induction n as [|n IH]; intros Hk; [lia|].
  rewrite !tab_succ, !qsum_snoc.
  destruct (Nat.eq_dec k n) as [->|Hne].
  - rewrite Nat.eqb_refl.
    assert (E : (qsum (tab n (fun i => if i =? n then 0%Q else f i)) == qsum (tab n f))%Q).
    { apply Qle_antisym; apply qsum_tab_le; intros i Hi;
        (replace (i =? n) with false by (symmetry; apply Nat.eqb_neq; lia)); apply Qle_refl. }
    rewrite E. ring.
  - replace (n =? k) with false by (symmetry; apply Nat.eqb_neq; lia).
    rewrite IH by lia. ring.
Qed.

Lemma tab_nth_map (A B : Type) (g : A -> B) (d : A) : forall l : list A,
  tab (length l) (fun o => g (nth o l d)) = map g l.
Proof.
  intros l. unfold tab. induction l as [|a l IH]; [reflexivity|].
  cbn [length seq map nth]. f_equal.
  rewrite <- seq_shift, map_map. exact IH.
Qed.

Lemma pending_total_nonneg nj nm n J : Inv nj nm n J -> (0 <= pending_total J)%Q.
Proof.
  intros HI. unfold pending_total. apply qsum_tab_nonneg. intros o _.
  destruct (Qeq_bool _ 1); [apply Qle_refl|].
  apply qsum_nonneg. intros y Hy.
  destruct (In_nth _ y 0%Q Hy) as (k & _ & <-). apply (iv_proc HI o k).
Qed.

(** Scheduling or masking can only take durations out of the total. *)
Lemma pending_total_le nj nm n J J' :
  Inv nj nm n J -> shape nj nm n J' ->
  (forall o m, (qnth2 o m (proc_times_batch J') <= qnth2 o m (proc_times_batch J))%Q) ->
  (forall o, qnth o (feat_ope_status J') = 1%Q \/
             qnth o (feat_ope_status J') = qnth o (feat_ope_status J)) ->
  (pending_total J' <= pending_total J)%Q.
Proof.
  intros HI Hsh' Hle Hst. unfold pending_total.
  rewrite (sh_proc Hsh'), (sh_proc (iv_shape HI)).
  apply qsum_tab_le. intros o Ho.
  assert (Hrow : (qsum (nth o (proc_times_batch J') []) <=
                  qsum (nth o (proc_times_batch J) []))%Q).
  { apply qsum_le_pointwise.
    - now rewrite (sh_proc_row Hsh' Ho), (sh_proc_row (iv_shape HI) Ho).
    - intros m. apply (Hle o m). }
  assert (Hpos : (0 <= qsum (nth o (proc_times_batch J) []))%Q).
  { apply qsum_nonneg. intros y Hy.
    destruct (In_nth _ y 0%Q Hy) as (k & _ & <-). apply (iv_proc HI o k). }
  destruct (Hst o) as [E|E]; rewrite E.
  - change (Qeq_bool 1 1) with true. cbv iota.
    destruct (Qeq_bool _ 1); [apply Qle_refl|exact Hpos].
  - destruct (Qeq_bool _ 1); [apply Qle_refl|exact Hrow].
Qed.

(** The total after a legal decision: the row of the operation leaves it. *)
Lemma pending_total_step nj nm n J ope ma job :
  Inv nj nm n J -> legal nj nm J (ope, ma, job) ->
  (pending_total (fst (step_inst n nm (Some (ope, ma, job)) J)) + sel_proc_time nm ope ma J
   <= pending_total J)%Q.
Proof.
  intros HI HL.
  pose proof (Inv_step_active nj nm n J HI ope ma job HL) as HI1.
  pose proof (la_ope_lt nj nm n J HI ope ma job HL) as Hope.
  pose proof (la_ma nj nm J ope ma job HL) as Hma.
  pose proof (la_in_job nj nm n J HI ope ma job HL) as Hin.
  pose proof (la_job nj nm J ope ma job HL) as Hjob.
  pose proof (la_ope nj nm J ope ma job HL) as Hstep.
  set (J1 := fst (step_inst n nm (Some (ope, ma, job)) J)) in *.
  set (f := fun o => if Qeq_bool (qnth o (feat_ope_status J)) 1 then 0%Q
                     else qsum (nth o (proc_times_batch J) [])).
  assert (Hrow : forall o, (0 <= qsum (nth o (proc_times_batch J) []))%Q).
  { intros o. apply qsum_nonneg. intros y Hy.
    destruct (In_nth _ y 0%Q Hy) as (k & _ & <-). apply (iv_proc HI o k). }
  assert (H1 : (pending_total J1 <= qsum (tab n (fun o => if o =? ope then 0%Q else f o)))%Q).
  { unfold pending_total. rewrite (sh_proc (iv_shape HI1)).
    apply qsum_tab_le. intros o Ho. unfold J1 at 1.
    rewrite (status1 nj nm n J HI ope ma job HL o), (Nat.eqb_sym ope o).
    destruct (o =? ope) eqn:E.
    - change (Qeq_bool 1 1) with true. apply Qle_refl.
    - unfold f. destruct (Qeq_bool _ 1); [apply Qle_refl|].
      apply qsum_le_pointwise.
      + now rewrite (sh_proc_row (iv_shape HI1) Ho), (sh_proc_row (iv_shape HI) Ho).
      + intros m. change (qnth2 o m (proc_times_batch J1) <= qnth2 o m (proc_times_batch J))%Q.
        unfold J1. rewrite (proc1 nj nm n J HI ope ma job o m).
        pose proof (iv_proc HI o m).
        destruct (adj1_binary nj nm n J HI ope ma job HL o m) as [->| ->].
        * change (inject_Z 0) with 0%Q. lra.
        * change (inject_Z 1) with 1%Q. lra. }
  rewrite (qsum_tab_without n f ope Hope) in H1.
  assert (H2 : (sel_proc_time nm ope ma J <= f ope)%Q).
  { unfold f.
    destruct (iv_status HI Hjob Hin) as [_ H0]. rewrite H0 by lia.
    change (Qeq_bool 0 1) with false. cbv iota.
    rewrite (sel_proc_time_eq (iv_shape HI) Hope Hma).
    apply (qsum_ge_entry (nth ope (proc_times_batch J) []) ma).
    intros k. apply (iv_proc HI ope k). }
  unfold pending_total at 2. rewrite (sh_proc (iv_shape HI)). fold f. lra.
Qed.

Lemma init_exact nj nm pm n ld :
  exact_load ld = true -> times_exact (init_inst nj nm pm n ld).
Proof.
  intros H. unfold exact_load in H. apply andb_true_iff in H. destruct H as [Hw Hb].
  assert (G : forall k m, qnth m (tab k (fun _ => 0%Q)) = 0%Q).
  { intros k m. destruct (Nat.lt_ge_cases m k).
    - now rewrite qnth_tab.
    - apply qnth_default. now rewrite length_tab. }
  unfold times_exact, init_inst;
    cbn [proc_times_batch time mach_avail feat_ope_status feat_ope_start].
  split; [intros o m; now apply whole_entries|].
  split; [apply is_whole_zero|].
  split; [intros m; rewrite G; apply is_whole_zero|].
  split; [intros o Ho; rewrite G in Ho; discriminate Ho|].
  exists 0%Q. split; [apply Qle_refl|]. split; [intros m; rewrite G; apply Qle_refl|].
  unfold pending_total; cbn [proc_times_batch feat_ope_status].
  assert (E : tab (length (ld_proc_time ld))
                  (fun o => if Qeq_bool (qnth o (tab n (fun _ => 0%Q))) 1 then 0%Q
                            else qsum (nth o (ld_proc_time ld) [])) =
              map qsum (ld_proc_time ld)).
  { rewrite <- (tab_nth_map _ _ qsum [] (ld_proc_time ld)).
    apply (@map_ext nat Q). intros o. now rewrite G. }
  rewrite E. apply negb_true_iff in Hb.
  destruct (Qlt_le_dec (qsum (map qsum (ld_proc_time ld))) (inject_Z 16777216)) as [Hlt|Hge].
  - lra.
  - apply Qle_bool_iff in Hge. congruence.
Qed.

(** In a run of legal decisions on exactly added processing times every
    slot keeps whole times below 2^24. *)
Lemma legal_run_exact inp e b J :
  wf_input inp -> exact_times inp -> legal_reachable inp e ->
  nth_error (insts e) b = Some J -> times_exact J.
Proof.
  intros Hwf Hex Hr HJ. revert e Hr b J HJ.
  apply (legal_reachable_slots inp times_exact Hwf).
  - intros b J HJ. destruct (@init_slot inp b J HJ) as (ld & Hld & ->).
    apply init_exact. unfold exact_times in Hex. rewrite forallb_forall in Hex.
    apply Hex. eapply nth_error_In; eauto.
  - intros J [[ope ma] job] HI HL (T1 & T2 & T3 & T4 & c & C1 & C2 & C3).
    pose proof (Inv_step_active _ _ _ J HI ope ma job HL) as HI1.
    pose proof (la_ope_lt _ _ _ J HI ope ma job HL) as Hope.
    pose proof (la_ma _ _ J ope ma job HL) as Hma.
    pose proof (la_proc_pos _ _ _ J HI ope ma job HL) as Hpos.
    assert (Hp : is_whole (sel_proc_time (para_num_mas inp) ope ma J)).
    { apply (is_whole_eq _ _ (sel_proc_time_eq (iv_shape HI) Hope Hma)). apply T1. }
    change (@Some Action (ope, ma, job)) with (@Some (nat * nat * nat) (ope, ma, job)).
    split; [|split; [|split; [|split]]].
    + intros o m. apply (is_whole_eq _ _ (proc1 _ _ _ J HI ope ma job o m)).
      apply is_whole_masked; [apply T1|apply (adj1_binary _ _ _ J HI ope ma job HL)].
    + rewrite step_inst_time. exact T2.
    + intros m. rewrite (avail1 _ _ _ J HI ope ma job HL m).
      destruct (ma =? m); [now apply is_whole_plus|apply T3].
    + intros o Ho. rewrite (status1 _ _ _ J HI ope ma job HL o) in Ho.
      destruct (ope =? o) eqn:E.
      * apply Nat.eqb_eq in E. subst o.
        apply (is_whole_eq _ _ (start1_ope _ _ _ J HI ope ma job HL)). exact T2.
      * assert (Hs : qnth o (sched_status J) = 1%Q) by (now rewrite (iv_sched_status HI)).
        destruct (status_one_below_pointer _ _ _ J HI o Hs) as (j & Hj & Hin & Hlt).
        apply (is_whole_eq _ _ (start1_scheduled _ _ _ J HI ope ma job HL j o Hj Hin Hlt)).
        now apply T4.
    + exists (c + sel_proc_time (para_num_mas inp) ope ma J)%Q.
      rewrite step_inst_time. split; [lra|]. split.
      * intros m. rewrite (avail1 _ _ _ J HI ope ma job HL m).
        destruct (ma =? m); [lra|]. specialize (C2 m). lra.
      * pose proof (pending_total_step _ _ _ J ope ma job HI HL). lra.
  - intros J HI (T1 & T2 & T3 & T4 & c & C1 & C2 & C3).
    pose proof (Inv_step_idle _ _ _ J HI) as HI1.
    assert (Hproc : forall o m,
              (qnth2 o m (proc_times_batch (fst (step_inst (det_num_opes inp)
                                                   (para_num_mas inp) None J)))
               == qnth2 o m (proc_times_batch J) *
                  inject_Z (znth2 o m (ope_ma_adj_batch J)))%Q).
    { intros o m. unfold_step; proj. apply (masked_entry _ _ _ J o m (iv_shape HI)). }
    split; [|split; [|split; [|split]]].
    + intros o m. apply (is_whole_eq _ _ (Hproc o m)). apply is_whole_masked; [apply T1|apply (iv_adj HI)].
    + exact T2.
    + exact T3.
    + exact T4.
    + exists c. split; [exact C1|]. split; [exact C2|].
      assert (Hle : (pending_total (fst (step_inst (det_num_opes inp) (para_num_mas inp) None J))
                     <= pending_total J)%Q).
      { apply (pending_total_le _ _ _ J _ HI (iv_shape HI1)).
        - intros o m. rewrite Hproc. pose proof (iv_proc HI o m).
          destruct (iv_adj HI o m) as [->| ->].
          + change (inject_Z 0) with 0%Q. lra.
          + change (inject_Z 1) with 1%Q. lra.
        - intros o. right. reflexivity. }
      lra.
  - intros g J HI Hg (T1 & T2 & T3 & T4 & c & C1 & C2 & C3).
    assert (Ht1 : is_whole (nt_time g (if_no_eligible_inst J) J)).
    { unfold nt_time. destruct (need_trans (if_no_eligible_inst J) J) eqn:E; [|exact T2].
      destruct (nt_c_props _ _ _ J HI g Hg E) as (_ & _ & _ & m & _ & _ & <-). apply T3. }
    assert (Ht2 : (nt_time g (if_no_eligible_inst J) J <= c)%Q).
    { unfold nt_time. destruct (need_trans (if_no_eligible_inst J) J) eqn:E; [|exact C1].
      destruct (nt_c_props _ _ _ J HI g Hg E) as (_ & _ & _ & m & _ & _ & <-). apply C2. }
    split; [exact T1|]. split; [exact Ht1|]. split; [exact T3|]. split; [exact T4|].
    exists c. split; [exact Ht2|]. split; [exact C2|exact C3].
Qed.

(** X17: when the processing times of a well-formed batch are whole
    numbers with a total below 2^24 per instance, then in every state of a
    run of legal decisions the clock, the available time of every machine
    and, for every operation with status 1, its start, its end and its
    processing time on its machine are whole numbers below 2^24: values
    that float32 holds, and adds, without rounding. *)
Theorem exact_times_stay_whole (inp : CaseInput) (e : Env) (b : nat) (J : Inst) :
  wf_input inp -> exact_times inp -> legal_run (init inp) e ->
  nth_error (insts e) b = Some J ->
  whole_below 16777216 (time J) /\
  (forall m, whole_below 16777216 (qnth m (mach_avail J))) /\
  (forall o, qnth o (sched_status J) = 1%Q ->
     whole_below 16777216 (qnth o (sched_start J)) /\
     whole_below 16777216 (qnth o (sched_end J)) /\
     whole_below 16777216 (qnth2 o (nth o (sched_ma J) 0) (proc_times_batch J))).
Proof.
  intros Hwf Hex Hrun HJ.
  assert (Hr : legal_reachable inp e)
    by (apply (legal_run_reachable inp (init inp) e); [apply lr_init|exact Hrun]).
  destruct (legal_reachable_Inv inp e Hwf Hr) as [_ HI]. specialize (HI b J HJ).
  destruct (legal_run_exact inp e b J Hwf Hex Hr HJ) as (T1 & T2 & T3 & T4 & c & C1 & C2 & C3).
  pose proof (pending_total_nonneg _ _ _ J HI) as Hpend.
  assert (Hc : (c < inject_Z 16777216)%Q) by lra.
  split; [apply (whole_bounded _ _ c T2 C1 Hc)|].
  split; [intros m; apply (whole_bounded _ _ c (T3 m) (C2 m) Hc)|].
  intros o Ho.
  destruct (status_one_below_pointer _ _ _ J HI o Ho) as (j & Hj & Hin & Hlt).
  destruct (in_job_bound _ _ _ J HI j o Hj Hin) as [_ Hn].
  destruct (iv_dur HI Hj Hin Hlt) as (_ & _ & Hd & Hp).
  pose proof (iv_avail HI Hj Hin Hlt) as Ha. unfold end_of in Ha.
  pose proof (iv_start HI o) as Hs.
  pose proof (C2 (nth o (sched_ma J) 0)) as Hm.
  rewrite (iv_sched_status HI) in Ho.
  rewrite (sched_end_is_end _ _ _ J HI o Hn), (iv_sched_start HI). unfold end_of.
  assert (W : is_whole (qnth o (feat_ope_proc J))) by (apply (is_whole_eq _ _ Hd); apply T1).
  split; [apply (whole_bounded _ _ c (T4 o Ho)); [lra|exact Hc]|].
  split; [apply (whole_bounded _ _ c (is_whole_plus _ _ (T4 o Ho) W)); [lra|exact Hc]|].
  apply (whole_bounded _ _ c (T1 _ _)); [lra|exact Hc].
Qed.
(* ------------------------------------------------------------------ *)
(** ** The properties on the two-operation instance *)

Lemma pair_step1 :
  step 1 (init pair_input) pair_first =
  Ok (pair_env1, step_rewards 1 (init pair_input) pair_first,
      step_dones 1 (init pair_input) pair_first).
Proof. vm_compute; reflexivity. Qed.

Lemma pair_step2 :
  step 1 pair_env1 pair_second =
  Ok (pair_env2, step_rewards 1 pair_env1 pair_second, step_dones 1 pair_env1 pair_second).
Proof. vm_compute; reflexivity. Qed.

Lemma pair_legal1 : legal_acts (init pair_input) pair_first.
Proof. apply legal_acts_b_sound. vm_compute; reflexivity. Qed.

Lemma pair_legal2 : legal_acts pair_env1 pair_second.
Proof. apply legal_acts_b_sound. vm_compute; reflexivity. Qed.

Lemma pair_run1 : legal_run (init pair_input) pair_env1.
Proof.
  exact (@run_step (init pair_input) (init pair_input) 1 pair_first pair_env1
           (step_rewards 1 (init pair_input) pair_first)
           (step_dones 1 (init pair_input) pair_first)
           (@run_here (init pair_input)) pair_legal1 pair_step1).
Qed.

Lemma pair_run2 : legal_run (init pair_input) pair_env2.
Proof.
  exact (@run_step (init pair_input) pair_env1 1 pair_second pair_env2
           (step_rewards 1 pair_env1 pair_second) (step_dones 1 pair_env1 pair_second)
           pair_run1 pair_legal2 pair_step2).
Qed.

Lemma pair_reach1 : reachable pair_input pair_env1.
Proof. apply legal_run_is_reachable. exact pair_run1. Qed.

Lemma pair_slot1 : nth_error (insts pair_env1) 0 = Some (slot pair_env1 0).
Proof. vm_compute; reflexivity. Qed.

Lemma pair_slot2 : nth_error (insts pair_env2) 0 = Some (slot pair_env2 0).
Proof. vm_compute; reflexivity. Qed.

(** The loop of [schedule] with the two recorded rounds asks for decisions
    in the constructed environment and after the first round only. *)
Lemma pair_policy_runs i e :
  policy_run (replay pair_rounds) 1 (init pair_input) i e ->
  (i = 0 /\ e = init pair_input) \/ (i = 1 /\ e = pair_env1).
Proof.
  induction 1 as [|i e e' rw dn Hrun IH Hs Hnd]; [now left|].
  destruct IH as [[-> ->]|[-> ->]].
  - right. split; [reflexivity|].
    change (replay pair_rounds 0 (state (init pair_input))) with pair_first in Hs.
    rewrite pair_step1 in Hs. injection Hs as E1 E2 E3. symmetry. exact E1.
  - exfalso.
    change (replay pair_rounds 1 (state pair_env1)) with pair_second in Hs.
    rewrite pair_step2 in Hs. injection Hs as E1 E2 E3. subst dn.
    vm_compute in Hnd. discriminate.
Qed.

Lemma pair_policy_legal i e :
  policy_run (replay pair_rounds) 1 (init pair_input) i e ->
  legal_acts e (replay pair_rounds i (state e)).
Proof.
  intros H. destruct (pair_policy_runs i e H) as [[-> ->]|[-> ->]].
  - exact pair_legal1.
  - exact pair_legal2.
Qed.

(** X1 on operation 1 after the first round. *)
Lemma get_idx_locates_at_pair :
  1 < nums_opes (slot pair_env1 0) /\
  exists j k, get_idx pair_env1 1 0 = IdxOk j k /\ j < num_jobs pair_env1 /\
              nth 1 (opes_appertain_batch (slot pair_env1 0)) 0 = j /\
              nth j (num_ope_biases_batch (slot pair_env1 0)) 0 + k = 1 /\
              k < nth j (nums_ope_batch (slot pair_env1 0)) 0.
Proof.
  assert (H1 : 1 < nums_opes (slot pair_env1 0)) by (vm_compute; lia).
  split; [exact H1|].
  exact (proj1 (get_idx_locates pair_input pair_env1 0 (slot pair_env1 0) 1
                  pair_input_wf pair_reach1 pair_slot1 H1)).
Defined.

(** X2 after the first round. *)
Lemma schedule_mirrors_features_at_pair :
  sched_status (slot pair_env1 0) = feat_ope_status (slot pair_env1 0) /\
  sched_start (slot pair_env1 0) = feat_ope_start (slot pair_env1 0) /\
  sched_end (slot pair_env1 0) =
  zipw Qplus (feat_ope_start (slot pair_env1 0)) (feat_ope_proc (slot pair_env1 0)).
Proof.
  exact (schedule_mirrors_features pair_input pair_env1 0 (slot pair_env1 0)
           eq_refl eq_refl pair_reach1 pair_slot1).
Defined.

(** X3 for operation 0 of job 0 after the first round. *)
Lemma job_completion_feature_at_pair :
  (0 < num_jobs pair_env1 /\ in_job (slot pair_env1 0) 0 0) /\
  qnth 0 (feat_ope_end (slot pair_env1 0)) =
  end_of (slot pair_env1 0) (nth 0 (end_ope_biases_batch (slot pair_env1 0)) 0).
Proof.
  assert (H1 : 0 < num_jobs pair_env1) by (vm_compute; lia).
  assert (H2 : in_job (slot pair_env1 0) 0 0) by (vm_compute; lia).
  split; [split; assumption|].
  exact (proj1 (job_completion_feature pair_input pair_env1 0 (slot pair_env1 0) 0 0
                  pair_input_wf pair_reach1 pair_slot1 H1 H2)).
Defined.

(** X4 for the first round. *)
Lemma step_state_is_snapshot_at_pair :
  state pair_env1 = mkEnvState (batch_idxes pair_env1) (map snap_of (insts pair_env1)).
Proof.
  exact (proj1 (step_state_is_snapshot pair_input 1 (init pair_input) pair_env1 pair_first
                  (step_rewards 1 (init pair_input) pair_first)
                  (step_dones 1 (init pair_input) pair_first)
                  (@reach_init pair_input) pair_step1)).
Defined.

(** X5 after the first round. *)
Lemma no_eligible_flag_meaning_at_pair :
  (0 <= if_no_eligible_inst (slot pair_env1 0))%Q /\
  ((0 < if_no_eligible_inst (slot pair_env1 0))%Q <->
   exists a, legal (num_jobs pair_env1) (num_mas pair_env1) (slot pair_env1 0) a).
Proof.
  exact (proj2 (no_eligible_flag_meaning pair_input pair_env1 0 (slot pair_env1 0)
                  pair_input_wf pair_run1 pair_slot1)).
Defined.

(** X6 for the first round: the slot is not done and has a decision. *)
Lemma step_leaves_a_decision_at_pair :
  done_batch (slot pair_env1 0) = false /\
  exists a, legal (num_jobs pair_env1) (num_mas pair_env1) (slot pair_env1 0) a.
Proof.
  assert (H1 : done_batch (slot pair_env1 0) = false) by (vm_compute; reflexivity).
  split; [exact H1|].
  exact (step_leaves_a_decision pair_input 1 (init pair_input) pair_env1 pair_first
           (step_rewards 1 (init pair_input) pair_first)
           (step_dones 1 (init pair_input) pair_first) 0 (slot pair_env1 0)
           pair_input_wf (@run_here (init pair_input)) pair_legal1 pair_step1 pair_slot1 H1).
Defined.

(** X7 for the second round: no slot is active after it. *)
Lemma active_slots_are_open_at_pair :
  batch_idxes pair_env2 = open_slots pair_env2 /\
  st_batch_idxes (state pair_env2) = batch_idxes pair_env2.
Proof.
  pose proof (active_slots_are_open pair_input 1 pair_env1 pair_env2 pair_second
                (step_rewards 1 pair_env1 pair_second) (step_dones 1 pair_env1 pair_second)
                pair_input_wf pair_run1 pair_legal2 pair_step2) as (H1 & H2 & _).
  split; assumption.
Defined.

(** X8 after the two rounds. *)
Lemma makespan_is_latest_end_at_pair :
  (done_batch (slot pair_env2 0) = true /\ 0 < nums_opes (slot pair_env2 0)) /\
  exists o, o < nums_opes (slot pair_env2 0) /\
            qnth o (sched_status (slot pair_env2 0)) = 1%Q /\
            qnth o (sched_end (slot pair_env2 0)) = makespan_batch (slot pair_env2 0).
Proof.
  assert (H1 : done_batch (slot pair_env2 0) = true) by (vm_compute; reflexivity).
  assert (H2 : 0 < nums_opes (slot pair_env2 0)) by (vm_compute; lia).
  split; [split; assumption|].
  exact (proj2 (makespan_is_latest_end pair_input pair_env2 0 (slot pair_env2 0)
                  pair_input_wf pair_run2 pair_slot2) H1 H2).
Defined.

(** X9 after the first round: the verdict is [False]. *)
Lemma validate_gantt_rejects_unfinished_at_pair :
  done_batch (slot pair_env1 0) = false /\
  flag_unscheduled (slot pair_env1 0) = 1 /\ fst (validate_gantt pair_env1) = false.
Proof.
  assert (H1 : done_batch (slot pair_env1 0) = false) by (vm_compute; reflexivity).
  split; [exact H1|].
  exact (validate_gantt_rejects_unfinished pair_input pair_env1 0 (slot pair_env1 0)
           pair_input_wf pair_run1 pair_slot1 H1).
Defined.

(** X10 with the two recorded rounds as the policy. *)
Lemma schedule_completes_at_pair :
  (forallb exact_load (loads pair_input) = true /\
   para_num_mas pair_input <= 1 /\ Nat.max 1 (max_opes (init pair_input)) <= 2) /\
  exists e',
    schedule_loop (replay pair_rounds) 1 2 0 (init pair_input) =
      Ok (e', Nat.max 1 (max_opes (init pair_input))) /\
    legal_run (init pair_input) e' /\
    (forall b J, nth_error (insts e') b = Some J -> done_batch J = true) /\
    schedule (replay pair_rounds) 1 2 (init pair_input) =
      Ok (true, map (@makespan_batch) (insts e')).
Proof.
  assert (H1 : para_num_mas pair_input <= 1) by (vm_compute; lia).
  assert (H2 : Nat.max 1 (max_opes (init pair_input)) <= 2) by (vm_compute; lia).
  assert (H0 : forallb exact_load (loads pair_input) = true) by (vm_compute; reflexivity).
  split; [repeat split; assumption|].
  exact (schedule_completes pair_input (replay pair_rounds) 1 2
           pair_input_wf H0 H1 H2 pair_policy_legal).
Defined.

(** X11 after the two rounds. *)
Lemma partial_schedule_feasible_at_pair :
  (qnth 0 (sched_status (slot pair_env2 0)) = 1%Q /\
   qnth (0 + 1) (sched_status (slot pair_env2 0)) = 1%Q /\
   nth 0 (opes_appertain_batch (slot pair_env2 0)) 0 =
   nth (0 + 1) (opes_appertain_batch (slot pair_env2 0)) 0) /\
  (qnth 0 (sched_end (slot pair_env2 0)) <= qnth (0 + 1)%nat (sched_start (slot pair_env2 0)))%Q.
Proof.
  assert (H1 : qnth 0 (sched_status (slot pair_env2 0)) = 1%Q) by (vm_compute; reflexivity).
  assert (H2 : qnth (0 + 1) (sched_status (slot pair_env2 0)) = 1%Q)
    by (vm_compute; reflexivity).
  assert (H3 : nth 0 (opes_appertain_batch (slot pair_env2 0)) 0 =
               nth (0 + 1) (opes_appertain_batch (slot pair_env2 0)) 0)
    by (vm_compute; reflexivity).
  split; [repeat split; assumption|].
  exact (proj1 (proj2 (partial_schedule_feasible pair_input pair_env2 0 (slot pair_env2 0)
                         pair_input_wf pair_run2 pair_slot2)) 0 H1 H2 H3).
Defined.

(** X12 after the first round, for machine 0. *)
Lemma machine_bookkeeping_at_pair :
  0 < num_mas pair_env1 /\
  ((qnth 0 (mach_idle (slot pair_env1 0)) = 1%Q /\
    nth 0 (mask_ma_procing_batch (slot pair_env1 0)) false = false) \/
   (qnth 0 (mach_idle (slot pair_env1 0)) = 0%Q /\
    nth 0 (mask_ma_procing_batch (slot pair_env1 0)) false = true /\
    nth 0 (mach_job (slot pair_env1 0)) 0 < num_jobs pair_env1 /\
    nth (nth 0 (mach_job (slot pair_env1 0)) 0) (mask_job_procing_batch (slot pair_env1 0))
        false = true)).
Proof.
  assert (H1 : 0 < num_mas pair_env1) by (vm_compute; lia).
  split; [exact H1|].
  exact (proj1 (proj1 (machine_bookkeeping pair_input pair_env1 0 (slot pair_env1 0)
                         pair_input_wf pair_run1 pair_slot1) 0 H1)).
Defined.

(** X13 after the first round, for job 0. *)
Lemma job_pointers_at_pair :
  0 < num_jobs pair_env1 /\
  bias_of (slot pair_env1 0) 0 <= step_of (slot pair_env1 0) 0 <=
  bias_of (slot pair_env1 0) 0 + nums_of (slot pair_env1 0) 0.
Proof.
  assert (H1 : 0 < num_jobs pair_env1) by (vm_compute; lia).
  split; [exact H1|].
  exact (proj1 (job_pointers pair_input pair_env1 0 (slot pair_env1 0) 0
                  pair_input_wf pair_run1 pair_slot1 H1)).
Defined.

(** X14 after the first round, for machine 0. *)
Lemma utilization_in_unit_interval_at_pair :
  (0 <= qnth 0 (mach_util (slot pair_env1 0)))%Q /\
  (0 <= qnth 0 (feat_ma_util (slot pair_env1 0)))%Q /\
  (qnth 0 (feat_ma_util (slot pair_env1 0)) <= 1)%Q.
Proof.
  exact (utilization_in_unit_interval pair_input pair_env1 0 (slot pair_env1 0) 0
           pair_input_wf pair_run1 pair_slot1).
Defined.

(** X15 after the first round, for operation 1 of job 0. *)
Lemma unscheduled_count_feature_at_pair :
  (0 < num_jobs pair_env1 /\ in_job (slot pair_env1 0) 0 1) /\
  (qnth 1 (feat_ope_unsched (slot pair_env1 0)) ==
   qnat (nums_of (slot pair_env1 0) 0 -
         (step_of (slot pair_env1 0) 0 - bias_of (slot pair_env1 0) 0)))%Q.
Proof.
  assert (H1 : 0 < num_jobs pair_env1) by (vm_compute; lia).
  assert (H2 : in_job (slot pair_env1 0) 0 1) by (vm_compute; lia).
  split; [split; assumption|].
  exact (proj1 (unscheduled_count_feature pair_input pair_env1 0 (slot pair_env1 0) 0 1
                  pair_input_wf pair_run1 pair_slot1 H1 H2)).
Defined.

(** X16 after the first round. *)
Lemma machine_features_mirror_at_pair :
  feat_ma_nopes (slot pair_env1 0) =
  count_opes (ope_ma_adj_batch (slot pair_env1 0)) (num_mas pair_env1) /\
  feat_ma_avail (slot pair_env1 0) = mach_avail (slot pair_env1 0).
Proof.
  pose proof (machine_features_mirror pair_input pair_env1 0 (slot pair_env1 0)
                (wf_input_shape pair_input pair_input_wf) pair_reach1 pair_slot1)
    as (H1 & H2 & _).
  split; assumption.
Defined.

(** X17 after the two rounds. *)
Lemma exact_times_stay_whole_at_pair :
  forallb exact_load (loads pair_input) = true /\
  whole_below 16777216 (time (slot pair_env2 0)) /\
  (forall m, whole_below 16777216 (qnth m (mach_avail (slot pair_env2 0)))) /\
  (forall o, qnth o (sched_status (slot pair_env2 0)) = 1%Q ->
     whole_below 16777216 (qnth o (sched_start (slot pair_env2 0))) /\
     whole_below 16777216 (qnth o (sched_end (slot pair_env2 0))) /\
     whole_below 16777216 (qnth2 o (nth o (sched_ma (slot pair_env2 0)) 0)
                                 (proc_times_batch (slot pair_env2 0)))).
Proof.
  assert (H0 : forallb exact_load (loads pair_input) = true) by (vm_compute; reflexivity).
  split; [exact H0|].
  exact (exact_times_stay_whole pair_input pair_env2 0 (slot pair_env2 0)
           pair_input_wf H0 pair_run2 pair_slot2).
Defined.
